(** * Portals of the BSP compiler (qbsp/portals.cc): a shallow embedding

    The first part of the file is the embedding: the functions of
    [portals.cc], in the order of the source, each followed by the
    vocabulary in which its properties are stated, and at the end the
    rational winding and box libraries on which the examples run.  The
    second part holds the proofs, function by function.

    Conventions of the embedding.
    - [vec_t] (a C++ [double]) in a vector, a plane or a box is a rational
      number: every finite double is one.  The dot product compared by
      [FindPortalSide] and its running best, a [float], are values of
      [fpval], which has the infinities and the NaN; the narrowing
      [bestdot = dot] is written out as [float_of_double].
    - A two-element C array [a[2]] is a pair, indexed by a [bool]
      ([false] is index 0, [true] is index 1), so that [!j] is [negb j].
    - [FError], [Error] and a failed [Q_assert] abort the compile: they are
      the [FError] constructor of [result].
    - A pointer to an object that the pass does not mutate is the object
      itself, identified by its [node_id] (nodes) or [bp_id] (build
      portals); the fields that a pass mutates live in an explicit state.
      A node is a leaf ([is_leaf], no children) or an internal node with
      its two children.
    - What lives in other files of the compiler (the winding library, the
      boxes, the dot product of two vectors, the per-game content policy,
      the options) is a parameter.
    - The two tasks of a [tbb::task_group] are run one after the other,
      front child first. *)

From stdpp Require Import base option list gmap.
From Stdlib Require Import ZArith QArith Qround Qabs Qpower String Lia Lqa.
From Stdlib Require Floats.SpecFloat.

Local Open Scope Z_scope.

(** ** Results of fallible code *)

Inductive result (A : Type) : Type :=
| Ok (a : A)
| FError (msg : string).
Arguments Ok {A} a.
Arguments FError {A} msg.

#[global] Instance result_ret : MRet result := fun A a => Ok a.

#[global] Instance result_bind : MBind result := fun A B k r =>
  match r with
  | Ok a => k a
  | FError msg => FError msg
  end.

(** ** Two-element arrays *)

Definition idx {A : Type} (a : A * A) (j : bool) : A :=
  if j then snd a else fst a.

Definition upd {A : Type} (a : A * A) (j : bool) (x : A) : A * A :=
  if j then (fst a, x) else (x, snd a).

(** ** Vectors, planes, contents *)

Record qvec3d : Type := mk_qvec3d { vx : Q; vy : Q; vz : Q }.

Record qplane3d : Type := mk_qplane3d { normal : qvec3d; dist : Q }.

Definition winding_t : Type := list qvec3d.

Record contentflags_t : Type := mk_contentflags {
  native : Z;
  illusionary_visblocker : bool
}.

Inductive planeside_t : Type := SIDE_FRONT | SIDE_BACK.

(** The per-target-format policy object [qbsp_options.target_game]:
    the record of its virtual methods used by [portals.cc]. *)
Record gamedef_t : Type := mk_gamedef {
  cluster_contents : contentflags_t -> contentflags_t -> contentflags_t;
  contents_are_any_solid : contentflags_t -> bool;
  contents_are_empty : contentflags_t -> bool;
  create_solid_contents : contentflags_t;
  portal_visible_contents : contentflags_t -> contentflags_t -> contentflags_t;
  portal_generates_face : contentflags_t -> contentflags_t -> planeside_t -> bool
}.

(** ** Brushes and nodes *)

Record side_t : Type := mk_side {
  planenum : Z;
  bevel : bool;
  positive_normal : qvec3d  (* [side.get_positive_plane().get_normal()] *)
}.

Record bspbrush_t : Type := mk_bspbrush {
  mapbrush : nat;            (* index of [brush->mapbrush] in the map file *)
  brush_contents : contentflags_t;
  sides : list side_t;
  func_areaportal : option nat (* [brush->mapbrush->func_areaportal] *)
}.

(** What is read of an ancestor when walking up the [parent] pointers. *)
Record ancestor_t : Type := mk_ancestor {
  anc_id : nat;
  anc_plane : qplane3d;
  anc_children : nat * nat
}.

Record node_data : Type := mk_node_data {
  node_id : nat;
  contents : contentflags_t;
  node_planenum : Z;
  node_plane : qplane3d;
  detail_separator : bool;
  parent : list ancestor_t; (* [node->parent], its parent, ...: empty at the root *)
  original_brushes : list bspbrush_t
}.

Inductive node_t : Type :=
| Leaf (d : node_data)
| Interior (d : node_data) (front back : node_t).

Definition data (n : node_t) : node_data :=
  match n with Leaf d => d | Interior d _ _ => d end.

Definition is_leaf (n : node_t) : bool :=
  match n with Leaf _ => true | Interior _ _ _ => false end.

(** [node->children[k]] *)
Definition child (n : node_t) (k : bool) : option node_t :=
  match n with
  | Leaf _ => None
  | Interior _ front back => Some (if k then back else front)
  end.

(** Equality of a node pointer with the address of a node. *)
Definition points_to (a : option node_t) (n : node_t) : bool :=
  match a with
  | Some m => Nat.eqb (node_id (data m)) (node_id (data n))
  | None => false
  end.

(** ** Portals *)

(** A [side_t *] kept by a portal: the side together with the brush that
    owns it. *)
Record side_ptr : Type := mk_side_ptr { sp_brush : bspbrush_t; sp_side : side_t }.

Record portal_t : Type := mk_portal {
  portal_plane : qplane3d;
  onnode : option node_t;
  nodes : node_t * node_t;
  winding : winding_t;
  sidefound : bool;
  portal_sides : option side_ptr * option side_ptr
}.

(** ** Number formats *)

Definition Qgtb (a b : Q) : bool := negb (Qle_bool a b).

(** A value of a floating-point type that need not be finite: the result
    of a dot product (a [double]) and the running best of [FindPortalSide]
    (a [float]).  The sign of a zero is not kept: the code only compares
    these values and converts a [double] to a [float]. *)
Inductive fpval : Type :=
| Finite (q : Q)
| Infinity (negative : bool)
| NaN.

(** [a > b]: false when one of the two is a NaN. *)
Definition fp_gt (a b : fpval) : bool :=
  match a, b with
  | Finite x, Finite y => Qgtb x y
  | Finite _, Infinity negative => negative
  | Infinity negative, Finite _ => negb negative
  | Infinity na, Infinity nb => negb na && nb
  | _, _ => false
  end.

Definition fp_opp (x : fpval) : fpval :=
  match x with
  | Finite q => Finite (- q)
  | Infinity negative => Infinity (negb negative)
  | NaN => NaN
  end.

(** The integer [e] with [2 ^ e <= a < 2 ^ (e + 1)], for [0 < a]. *)
Definition floor_log2 (a : Q) : Z :=
  let e0 := Z.log2 (Qnum a) - Z.log2 (Zpos (Qden a)) in
  if Qle_bool (2 ^ e0) a then e0 else e0 - 1.

(** The nearest integer, the even one of the two when they are equally
    near. *)
Definition round_nearest_even (s : Q) : Z :=
  let f := Qfloor s in
  match (s - inject_Z f ?= 1 # 2)%Q with
  | Lt => f
  | Gt => f + 1
  | Eq => if Z.even f then f else f + 1
  end.

(** The exponent of the [float]s around [a], for [0 < a]: the exponent of
    [a], and -126 below [2 ^ -126]. *)
Definition float_exponent (a : Q) : Z := Z.max (floor_log2 a) (-126).

(** The number with a significand of 24 bits nearest to [a], for [0 < a]:
    a multiple of [2 ^ (e - 23)], where [e] is the exponent above (below
    [2 ^ -126] the floats are the multiples of [2 ^ -149]). *)
Definition nearest_float (a : Q) : Q :=
  let e := float_exponent a in
  (inject_Z (round_nearest_even (a * 2 ^ (23 - e))) * 2 ^ (e - 23))%Q.

(** The [float] nearest to [a], for [0 < a]; from [2 ^ 128] on it is the
    infinity. *)
Definition round_float (a : Q) : fpval :=
  let y := nearest_float a in
  if Qle_bool (2 ^ 128) y then Infinity false else Finite (Qred y).

(** The conversion of a [double] to a [float]: to the nearest [float],
    ties to the even significand. *)
Definition float_of_double (x : fpval) : fpval :=
  match x with
  | Finite q =>
    match (q ?= 0)%Q with
    | Eq => Finite 0
    | Gt => round_float q
    | Lt => fp_opp (round_float (- q))
    end
  | _ => x
  end.

(** ** FindPortalSide *)

Record fps_state : Type := mk_fps {
  bestside : option side_ptr * option side_ptr;
  exactside : option side_ptr * option side_ptr;
  bestdot : fpval
}.

Definition set_if (c : bool) (a : option side_ptr * option side_ptr) (k : bool)
    (x : side_ptr) : option side_ptr * option side_ptr :=
  if c then upd a k (Some x) else a.

(** [if (!exactside[k]) exactside[k] = &side;] under the guard [c] *)
Definition set_if_unset (c : bool) (a : option side_ptr * option side_ptr)
    (k : bool) (x : side_ptr) : option side_ptr * option side_ptr :=
  if c then match idx a k with None => upd a k (Some x) | Some _ => a end else a.

Definition plane_matches (onnode_planenum : Z) (side : side_t) : bool :=
  Z.land (planenum side) (Z.lnot 1) =? onnode_planenum.

Definition faces_away (j : bool) (side : side_t) : bool :=
  Z.land (planenum side) 1 =? Z.b2z (negb j).

Section FindPortalSide.
Variable game : gamedef_t.
(** [qv::dot] ([common/qvec.hh]) on two vectors of doubles; its result is
    a [double]. *)
Variable qv_dot : qvec3d -> qvec3d -> fpval.

(** The loop [for (auto &side : brush->sides)] of one brush of node [j]. *)
Fixpoint scan_sides (onnode_planenum : Z) (p1 : qvec3d) (j : bool)
    (brush : bspbrush_t) (generate_outside_face generate_inside_face : bool)
    (ss : list side_t) (st : fps_state) : result fps_state :=
  match ss with
  | [] => Ok st
  | side :: rest =>
    if bevel side then
      scan_sides onnode_planenum p1 j brush generate_outside_face
        generate_inside_face rest st
    else if plane_matches onnode_planenum side then
      if faces_away j side then
        let here := mk_side_ptr brush side in
        let ex := set_if_unset generate_outside_face (exactside st) (negb j) here in
        let ex := set_if_unset generate_inside_face ex j here in
        Ok (mk_fps (bestside st) ex (bestdot st))
      else FError "Q_assert: (side.planenum & 1) == !j"
    else
      let dot := qv_dot p1 (positive_normal side) in
      if fp_gt dot (bestdot st) then
        let here := mk_side_ptr brush side in
        let bs := set_if generate_outside_face (bestside st) (negb j) here in
        let bs := set_if generate_inside_face bs j here in
        scan_sides onnode_planenum p1 j brush generate_outside_face
          generate_inside_face rest
          (mk_fps bs (exactside st) (float_of_double dot))
      else
        scan_sides onnode_planenum p1 j brush generate_outside_face
          generate_inside_face rest st
  end.

(** The loop over the brushes of node [j]; [bs] is already in iteration
    order (the reverse of [n->original_brushes]). *)
Fixpoint scan_brushes (viscontents : contentflags_t) (onnode_planenum : Z)
    (p1 : qvec3d) (j : bool) (bs : list bspbrush_t) (st : fps_state)
    : result fps_state :=
  match bs with
  | [] => Ok st
  | brush :: rest =>
    let generate_outside_face :=
      portal_generates_face game viscontents (brush_contents brush) SIDE_FRONT in
    let generate_inside_face :=
      portal_generates_face game viscontents (brush_contents brush) SIDE_BACK in
    if negb (generate_outside_face || generate_inside_face) then
      scan_brushes viscontents onnode_planenum p1 j rest st
    else
      st' ← scan_sides onnode_planenum p1 j brush generate_outside_face
               generate_inside_face (sides brush) st;
      scan_brushes viscontents onnode_planenum p1 j rest st'
  end.

Definition scan_node (viscontents : contentflags_t) (onnode_planenum : Z)
    (p1 : qvec3d) (p : portal_t) (j : bool) (st : fps_state) : result fps_state :=
  scan_brushes viscontents onnode_planenum p1 j
    (rev (original_brushes (data (idx (nodes p) j)))) st.

(** "take exact sides over best sides" *)
Definition prefer_exact (st : fps_state) (i : bool) : option side_ptr :=
  match idx (exactside st) i with
  | Some s => Some s
  | None => idx (bestside st) i
  end.

(** [FindPortalSide] returns the portal it leaves behind and the warnings
    it printed. *)
Definition FindPortalSide (p : portal_t) : result (portal_t * list string) :=
  let viscontents :=
    portal_visible_contents game (contents (data (fst (nodes p))))
      (contents (data (snd (nodes p)))) in
  if contents_are_empty game viscontents then Ok (p, [])
  else
    match onnode p with
    | None => FError "null onnode"
    | Some on =>
      let p1 := normal (node_plane (data on)) in
      let st0 := mk_fps (None, None) (None, None) (Finite 0) in
      st1 ← scan_node viscontents (node_planenum (data on)) p1 p false st0;
      st2 ← scan_node viscontents (node_planenum (data on)) p1 p true st1;
      let best := (prefer_exact st2 false, prefer_exact st2 true) in
      let warn :=
        match best with
        | (None, None) => ["WARNING: side not found for portal"%string]
        | _ => []
        end in
      Ok (mk_portal (portal_plane p) (onnode p) (nodes p) (winding p) true best,
          warn)
    end.

End FindPortalSide.

(** ** Vocabulary of the face-resolver claims *)

Definition or_else {A : Type} (a b : option A) : option A :=
  match a with Some _ => a | None => b end.

Section FindPortalSideSpec.
Variable game : gamedef_t.

Definition viscontents_of (p : portal_t) : contentflags_t :=
  portal_visible_contents game (contents (data (fst (nodes p))))
    (contents (data (snd (nodes p)))).

Definition generate_outside (vis : contentflags_t) (b : bspbrush_t) : bool :=
  portal_generates_face game vis (brush_contents b) SIDE_FRONT.

Definition generate_inside (vis : contentflags_t) (b : bspbrush_t) : bool :=
  portal_generates_face game vis (brush_contents b) SIDE_BACK.

(** The content policy admits the brush for some face. *)
Definition admitted (vis : contentflags_t) (b : bspbrush_t) : bool :=
  generate_outside vis b || generate_inside vis b.

(** A brush of node [j] offers a face for portal side [i]: its inside face
    when [i = j], its outside face when [i = !j]. *)
Definition generates_on (vis : contentflags_t) (b : bspbrush_t) (j i : bool) : bool :=
  if Bool.eqb j i then generate_inside vis b else generate_outside vis b.

(** The side of a brush that lies on the portal's plane, if any: the first
    non-bevel side of the plane family of [onnode]. *)
Definition first_exact_side (pn : Z) (b : bspbrush_t) : option side_t :=
  List.find (fun s => negb (bevel s) && plane_matches pn s) (sides b).

(** The exactly matching face a brush of node [j] offers to portal side [i]. *)
Definition exact_candidate (vis : contentflags_t) (pn : Z) (j i : bool)
    (b : bspbrush_t) : option side_ptr :=
  if generates_on vis b j i
  then option_map (mk_side_ptr b) (first_exact_side pn b)
  else None.

(** No brush of the portal trips the orientation assertion. *)
Definition well_oriented (vis : contentflags_t) (pn : Z) (p : portal_t) : Prop :=
  forall (j : bool) (b : bspbrush_t) (s : side_t),
    In b (original_brushes (data (idx (nodes p) j))) ->
    admitted vis b = true ->
    first_exact_side pn b = Some s ->
    faces_away j s = true.

(** The exact faces offered to side [i], in the order the code meets them. *)
Definition exact_candidates (vis : contentflags_t) (pn : Z) (p : portal_t)
    (i : bool) : list side_ptr :=
  omap (exact_candidate vis pn false i)
    (rev (original_brushes (data (fst (nodes p))))) ++
  omap (exact_candidate vis pn true i)
    (rev (original_brushes (data (snd (nodes p))))).

End FindPortalSideSpec.

(** The reading of the exact-match rule with one order over all the brushes
    of the map: whenever a brush offers side [i] an exactly matching face
    and no brush declared after it does, that face is the one chosen. *)
Definition exact_latest_declared_wins : Prop :=
  forall (game : gamedef_t) (qv_dot : qvec3d -> qvec3d -> fpval) (p : portal_t)
         (on : node_t) (i : bool) (c : side_ptr) (p' : portal_t) (w : list string),
    let vis := viscontents_of game p in
    let pn := node_planenum (data on) in
    contents_are_empty game vis = false ->
    onnode p = Some on ->
    well_oriented game vis pn p ->
    FindPortalSide game qv_dot p = Ok (p', w) ->
    (exists j, In (sp_brush c) (original_brushes (data (idx (nodes p) j))) /\
               exact_candidate game vis pn j i (sp_brush c) = Some c) ->
    (forall j' b' c', In b' (original_brushes (data (idx (nodes p) j'))) ->
                      exact_candidate game vis pn j' i b' = Some c' ->
                      (mapbrush b' <= mapbrush (sp_brush c))%nat) ->
    idx (portal_sides p') i = Some c.

(** *** A two-leaf liquid portal *)

Definition CONTENTS_WATER : Z := 32.

(** A policy in the style of the Quake II one: a face is generated where
    the brush shares contents with the portal; liquids also get their
    inside face. *)
Definition liquid_game : gamedef_t := {|
  cluster_contents a b := mk_contentflags (Z.lor (native a) (native b)) false;
  contents_are_any_solid c := negb (Z.land (native c) 1 =? 0);
  contents_are_empty c := native c =? 0;
  create_solid_contents := mk_contentflags 1 false;
  portal_visible_contents a b := mk_contentflags (Z.lor (native a) (native b)) false;
  portal_generates_face vis bc side :=
    negb (Z.land (native vis) (native bc) =? 0) &&
    match side with
    | SIDE_FRONT => true
    | SIDE_BACK => negb (Z.land (native bc) CONTENTS_WATER =? 0)
    end
|}.

(** The dot product of the examples.  The body of [qv::dot] is outside
    [portals.cc]; here it is the sum of the three products, every
    multiplication and addition rounded to [double] as the standard
    library's [SpecFloat] specifies binary64.  A double is a multiple of a
    power of two, and the components of the examples' vectors are
    doubles. *)
Definition double_of_Q (q : Q) : SpecFloat.spec_float :=
  let r := Qred q in
  let k := Z.log2 (Zpos (Qden r)) in
  if Zpos (Qden r) =? 2 ^ k then
    match Qnum r with
    | Z0 => SpecFloat.S754_zero false
    | Zpos m => SpecFloat.S754_finite false m (- k)
    | Zneg m => SpecFloat.S754_finite true m (- k)
    end
  else SpecFloat.S754_nan.

(** The value of a number of the format of [SpecFloat]. *)
Definition spec_value (x : SpecFloat.spec_float) : fpval :=
  match x with
  | SpecFloat.S754_zero _ => Finite 0
  | SpecFloat.S754_infinity s => Infinity s
  | SpecFloat.S754_nan => NaN
  | SpecFloat.S754_finite s m e =>
    Finite (Qred ((if s then -1 else 1) * inject_Z (Zpos m) * 2 ^ e))
  end.

Definition double_dot (a b : qvec3d) : fpval :=
  let mul x y := SpecFloat.SFmul 53 1024 (double_of_Q x) (double_of_Q y) in
  let add := SpecFloat.SFadd 53 1024 in
  spec_value (add (add (mul (vx a) (vx b)) (mul (vy a) (vy b))) (mul (vz a) (vz b))).

Definition axis_x : qvec3d := mk_qvec3d 1 0 0.
Definition axis_y : qvec3d := mk_qvec3d 0 1 0.

Definition water : contentflags_t := mk_contentflags CONTENTS_WATER false.

(** Two water brushes with a face on plane 4: [W1] is declared first and
    faces the back of the plane, [W2] is declared second and faces the
    front. *)
Definition W1_face : side_t := mk_side 5 false axis_x.
Definition W2_face : side_t := mk_side 4 false axis_x.
Definition W1 : bspbrush_t := mk_bspbrush 0 water [W1_face] None.
Definition W2 : bspbrush_t := mk_bspbrush 1 water [W2_face] None.

(** A leaf holding the given brushes, and the portal between two leaves cut
    by the node of plane 4 (normal along x). *)
Definition leaf_of (id : nat) (c : contentflags_t) (bs : list bspbrush_t) : node_t :=
  Leaf (mk_node_data id c 0 (mk_qplane3d axis_x 0) false
          [mk_ancestor 0 (mk_qplane3d axis_x 0) (1%nat, 2%nat)] bs).

Definition portal_between (front back : node_t) : portal_t :=
  mk_portal (mk_qplane3d axis_x 0)
    (Some (Interior (mk_node_data 0 (mk_contentflags 0 false) 4
                       (mk_qplane3d axis_x 0) false [] []) front back))
    (front, back) [] false (None, None).

Definition liquid_portal : portal_t :=
  portal_between (leaf_of 1 water [W1]) (leaf_of 2 water [W2]).
(** *** The dot-product rule *)

Section DotProductSpec.
Variable game : gamedef_t.
Variable qv_dot : qvec3d -> qvec3d -> fpval.

(** The sides of a brush that are compared by dot product: its non-bevel
    sides up to its first side on the portal's plane, where the scan of
    the brush ends. *)
Fixpoint compared_sides (pn : Z) (ss : list side_t) : list side_t :=
  match ss with
  | [] => []
  | s :: rest =>
    if bevel s then compared_sides pn rest
    else if plane_matches pn s then []
    else s :: compared_sides pn rest
  end.

(** A candidate of the dot-product rule is a compared side [c] with the
    index [j] of the node that holds its brush: a pair [(j, c)]. *)
Definition brush_candidates (pn : Z) (j : bool) (b : bspbrush_t) : list (bool * side_ptr) :=
  List.map (fun s => (j, mk_side_ptr b s)) (compared_sides pn (sides b)).

Definition node_candidates (vis : contentflags_t) (pn : Z) (p : portal_t)
    (j : bool) : list (bool * side_ptr) :=
  List.flat_map (brush_candidates pn j)
    (List.filter (admitted game vis)
       (rev (original_brushes (data (idx (nodes p) j))))).

(** The candidates in scan order: node 0 before node 1, the brushes of a
    node from the latest declared to the first, the sides of a brush in
    their order. *)
Definition scanned (vis : contentflags_t) (pn : Z) (p : portal_t) : list (bool * side_ptr) :=
  node_candidates vis pn p false ++ node_candidates vis pn p true.







(** The sides a portal side [i] can be given by the dot-product rule as it
    is stated: the non-bevel sides of the brushes that generate a face on
    side [i]. *)
Definition brush_dot_candidates (b : bspbrush_t) : list side_ptr :=
  List.map (mk_side_ptr b) (List.filter (fun s => negb (bevel s)) (sides b)).

Definition side_dot_candidates (vis : contentflags_t) (p : portal_t) (i : bool)
    : list side_ptr :=
  List.flat_map brush_dot_candidates
    (List.filter (fun b => generates_on game vis b false i)
       (rev (original_brushes (data (fst (nodes p)))))) ++
  List.flat_map brush_dot_candidates
    (List.filter (fun b => generates_on game vis b true i)
       (rev (original_brushes (data (snd (nodes p)))))).

End DotProductSpec.


(** *** A solid leaf bounded by a skewed box *)

Definition rock : contentflags_t := mk_contentflags 1 false.
Definition air : contentflags_t := mk_contentflags 0 false.




(** *** Two wedges with the same diagonal face *)

(** The double nearest to the square root of one half. *)
Definition sqrt_half : Q := 6369051672525773 # 9007199254740992.

Definition diagonal : qvec3d := mk_qvec3d sqrt_half sqrt_half 0.

Definition wedge (n : nat) : bspbrush_t :=
  mk_bspbrush n rock [mk_side 8 false diagonal] None.

Definition wedge_portal : portal_t :=
  portal_between (leaf_of 1 air []) (leaf_of 2 rock [wedge 0; wedge 1]).

(** *** A liquid brush scanned after a solid one *)

Definition half_x : qvec3d := mk_qvec3d (1 # 2) 0 0.

Definition pool : bspbrush_t :=
  mk_bspbrush 0 water [mk_side 8 false half_x] None.

Definition wall : bspbrush_t :=
  mk_bspbrush 1 rock [mk_side 10 false axis_x] None.

(** With [one_face_game] a solid brush has only its outside face and a
    water brush only its inside face. *)
Definition one_face_game : gamedef_t := {|
  cluster_contents a b := mk_contentflags (Z.lor (native a) (native b)) false;
  contents_are_any_solid c := negb (Z.land (native c) 1 =? 0);
  contents_are_empty c := native c =? 0;
  create_solid_contents := mk_contentflags 1 false;
  portal_visible_contents a b := mk_contentflags (Z.lor (native a) (native b)) false;
  portal_generates_face vis bc side :=
    negb (Z.land (native vis) (native bc) =? 0) &&
    match side with
    | SIDE_FRONT => negb (Z.land (native bc) 1 =? 0)
    | SIDE_BACK => negb (Z.land (native bc) CONTENTS_WATER =? 0)
    end
|}.

Definition pool_portal : portal_t :=
  portal_between (leaf_of 1 air [])
    (leaf_of 2 (mk_contentflags 33 false) [pool; wall]).

(** *** Walls on both sides *)

(** A wall of the front leaf: a slanted face, a bevel, a face on the
    portal's plane and a face after it. *)
Definition front_wall : bspbrush_t :=
  mk_bspbrush 0 rock
    [mk_side 12 false half_x; mk_side 14 true axis_x; mk_side 5 false axis_x;
     mk_side 16 false axis_x] None.

(** Two walls of the back leaf with a face of the same normal. *)
Definition early_wall : bspbrush_t :=
  mk_bspbrush 1 rock [mk_side 18 false axis_x] None.

Definition late_wall : bspbrush_t :=
  mk_bspbrush 2 rock [mk_side 10 false axis_x] None.

Definition walls_portal : portal_t :=
  portal_between (leaf_of 1 rock [front_wall]) (leaf_of 2 rock [early_wall; late_wall]).


(** *** The narrowing against the standard library's binary32

    The narrowing of a binary64 number to binary32 as [SpecFloat] rounds
    it, and a few doubles: around the ties, the least floats and the
    greatest one. *)
Definition spec_narrow (x : SpecFloat.spec_float) : SpecFloat.spec_float :=
  match x with
  | SpecFloat.S754_finite s m e =>
    SpecFloat.binary_normalize 24 128 (SpecFloat.cond_Zopp s (Zpos m)) e s
  | _ => x
  end.

Definition narrowing_agrees (x : SpecFloat.spec_float) : bool :=
  match float_of_double (spec_value x), spec_value (spec_narrow x) with
  | Finite a, Finite b => Qeq_bool a b
  | Infinity a, Infinity b => Bool.eqb a b
  | NaN, NaN => true
  | _, _ => false
  end.

Definition sample_doubles : list SpecFloat.spec_float :=
  List.map (fun '(s, m, e) => SpecFloat.S754_finite s m e)
    [(false, 6369051672525773%positive, -53); (false, 5404319552844595%positive, -53);
     (true, 5404319552844595%positive, -53); (false, 4503599627370497%positive, -52);
     (false, 4503599761588224%positive, -52); (false, 4503599895805952%positive, -52);
     (false, 4503600030023680%positive, -52); (false, 16777217%positive, 0);
     (true, 16777219%positive, 0); (false, 1%positive, -150); (false, 3%positive, -151);
     (false, 3%positive, -150); (false, 1%positive, -149); (false, 5%positive, -151);
     (false, 16777215%positive, -150); (false, 16777215%positive, -151);
     (true, 8388609%positive, -173); (false, 8388607%positive, -173);
     (false, 9007199254740991%positive, -200); (false, 9007199254740991%positive, -179);
     (false, 9007199254740991%positive, -178); (false, 9007199254740991%positive, 74);
     (false, 9007199254740991%positive, 75); (false, 33554429%positive, 103);
     (false, 33554430%positive, 103); (false, 33554431%positive, 103);
     (false, 1%positive, -1074); (false, 1%positive, 1023)] ++
  [SpecFloat.S754_zero false; SpecFloat.S754_infinity true; SpecFloat.S754_nan].

(** ** Build portals *)

(** The winding library ([qbsp/winding.hh]) and [WindingIsTiny], whose
    bodies are outside [portals.cc]. *)
Record winding_lib : Type := mk_winding_lib {
  BaseWindingForPlane : qplane3d -> winding_t;
  clip_front : winding_t -> qplane3d -> Q -> bool -> option winding_t;
  clip_back : winding_t -> qplane3d -> Q -> bool -> option winding_t;
  clip : winding_t -> qplane3d -> Q -> bool -> option winding_t * option winding_t;
  WindingIsTiny : winding_t -> Q -> bool
}.

(** The default of the [size] argument of [WindingIsTiny]. *)
Definition tiny_size : Q := 2 # 10.

Definition BASE_WINDING_EPSILON : Q := 1 # 1000.
Definition SPLIT_WINDING_EPSILON : Q := 1 # 1000.

Record buildportal_t : Type := mk_buildportal {
  bp_id : nat;                 (* the address of the object *)
  bp_plane : qplane3d;
  bp_onnode : option node_t;
  bp_nodes : option node_t * option node_t;
  bp_winding : winding_t
}.

Definition set_nodes (p : buildportal_t) (front back : option node_t) : buildportal_t :=
  mk_buildportal (bp_id p) (bp_plane p) (bp_onnode p) (front, back) (bp_winding p).

Definition set_winding (p : buildportal_t) (w : winding_t) : buildportal_t :=
  mk_buildportal (bp_id p) (bp_plane p) (bp_onnode p) (bp_nodes p) w.

Record portalstats_t : Type := mk_portalstats { c_tinyportals : nat }.

Definition count_tiny (stats : portalstats_t) : portalstats_t :=
  mk_portalstats (S (c_tinyportals stats)).

Definition side_index (s : planeside_t) : bool :=
  match s with SIDE_FRONT => false | SIDE_BACK => true end.

Definition negate_plane (pl : qplane3d) : qplane3d :=
  mk_qplane3d (mk_qvec3d (- vx (normal pl)) (- vy (normal pl)) (- vz (normal pl)))
    (- dist pl).

Inductive portaltype_t : Type := TREE | VIS.

Section BuildPortals.
Variable W : winding_lib.

(** [if (w && WindingIsTiny( *w )) { w = {}; stats.c_tinyportals++; }] *)
Definition drop_tiny (w : option winding_t) (stats : portalstats_t)
    : option winding_t * portalstats_t :=
  match w with
  | Some x =>
    if WindingIsTiny W x tiny_size then (None, count_tiny stats) else (w, stats)
  | None => (w, stats)
  end.

(** *** BaseWindingForNode *)

Fixpoint clip_by_parents (id : nat) (np : list ancestor_t) (w : option winding_t)
    : option winding_t :=
  match np, w with
  | a :: up, Some x =>
    clip_by_parents (anc_id a) up
      (if Nat.eqb (fst (anc_children a)) id
       then clip_front W x (anc_plane a) BASE_WINDING_EPSILON false
       else clip_back W x (anc_plane a) BASE_WINDING_EPSILON false)
  | _, _ => w
  end.

Definition BaseWindingForNode (node : node_t) : option winding_t :=
  clip_by_parents (node_id (data node)) (parent (data node))
    (Some (BaseWindingForPlane W (node_plane (data node)))).

(** *** MakeNodePortal *)

Fixpoint clip_by_portals (node : node_t) (ps : list buildportal_t)
    (w : option winding_t) : result (option winding_t) :=
  match ps with
  | [] => Ok w
  | p :: rest =>
    match w with
    | None => Ok None
    | Some x =>
      plane ←
        (if points_to (fst (bp_nodes p)) node then Ok (bp_plane p)
         else if points_to (snd (bp_nodes p)) node then Ok (negate_plane (bp_plane p))
         else FError "CutNodePortals_r: mislinked portal");
      clip_by_portals node rest (clip_front W x plane (1 # 10) false)
    end
  end.

(** The new portal is allocated at address [fresh]. *)
Definition MakeNodePortal (node : node_t) (boundary_portals : list buildportal_t)
    (stats : portalstats_t) (fresh : nat)
    : result (option buildportal_t * portalstats_t * nat) :=
  w ← clip_by_portals node boundary_portals (BaseWindingForNode node);
  match w with
  | None => Ok (None, stats, fresh)
  | Some x =>
    if WindingIsTiny W x tiny_size then Ok (None, count_tiny stats, fresh)
    else
      Ok (Some (mk_buildportal fresh (node_plane (data node)) (Some node)
                  (child node false, child node true) x),
          stats, S fresh)
  end.

(** *** SplitNodePortals *)

Definition which_side (p : buildportal_t) (node : node_t) : result planeside_t :=
  if points_to (fst (bp_nodes p)) node then Ok SIDE_FRONT
  else if points_to (snd (bp_nodes p)) node then Ok SIDE_BACK
  else FError "CutNodePortals_r: mislinked portal".

(** [if (side == SIDE_FRONT) p->set_nodes(c, other_node);
     else p->set_nodes(other_node, c);] *)
Definition relink (p : buildportal_t) (side : planeside_t) (c other_node : option node_t)
    : buildportal_t :=
  match side with
  | SIDE_FRONT => set_nodes p c other_node
  | SIDE_BACK => set_nodes p other_node c
  end.

(** The body of the loop over [boundary_portals]: what is pushed to
    [result.front] and to [result.back] for the portal [p]. *)
Definition split_portal (node : node_t) (p : buildportal_t)
    (stats : portalstats_t) (fresh : nat)
    : result (option buildportal_t * option buildportal_t * portalstats_t * nat) :=
  let plane := node_plane (data node) in
  let f := child node false in
  let b := child node true in
  side ← which_side p node;
  let other_node := idx (bp_nodes p) (negb (side_index side)) in
  let p := set_nodes p None None in
  let '(frontwinding, backwinding) :=
    clip W (bp_winding p) plane SPLIT_WINDING_EPSILON true in
  let '(frontwinding, stats) := drop_tiny frontwinding stats in
  let '(backwinding, stats) := drop_tiny backwinding stats in
  match frontwinding, backwinding with
  | None, None => Ok (None, None, stats, fresh)
  | None, Some _ => Ok (None, Some (relink p side b other_node), stats, fresh)
  | Some _, None => Ok (Some (relink p side f other_node), None, stats, fresh)
  | Some fw, Some bw =>
    let new_portal :=
      mk_buildportal fresh (bp_plane p) (bp_onnode p) (bp_nodes p) bw in
    let p := set_winding p fw in
    Ok (Some (relink p side f other_node),
        Some (relink new_portal side b other_node), stats, S fresh)
  end.

(** The result lists are built by [push_back] in iteration order. *)
Fixpoint SplitNodePortals (node : node_t) (boundary_portals : list buildportal_t)
    (stats : portalstats_t) (fresh : nat)
    : result (list buildportal_t * list buildportal_t * portalstats_t * nat) :=
  match boundary_portals with
  | [] => Ok ([], [], stats, fresh)
  | p :: rest =>
    '(to_front, to_back, stats, fresh) ← split_portal node p stats fresh;
    '(front, back, stats, fresh) ← SplitNodePortals node rest stats fresh;
    Ok (option_list to_front ++ front, option_list to_back ++ back, stats, fresh)
  end.

(** *** ClipNodePortalsToTree_r and MakeTreePortals_r *)

Definition stops_at (type : portaltype_t) (node : node_t) : bool :=
  is_leaf node ||
  match type with VIS => detail_separator (data node) | TREE => false end.

Fixpoint ClipNodePortalsToTree_r (node : node_t) (type : portaltype_t)
    (portals : list buildportal_t) (stats : portalstats_t) (fresh : nat)
    : result (list buildportal_t * portalstats_t * nat) :=
  match portals with
  | [] => Ok (portals, stats, fresh)
  | _ :: _ =>
    if stops_at type node then Ok (portals, stats, fresh)
    else
      match node with
      | Leaf _ => Ok (portals, stats, fresh)
      | Interior _ front back =>
        '(split_front, split_back, stats, fresh) ←
          SplitNodePortals node portals stats fresh;
        '(front_fragments, stats, fresh) ←
          ClipNodePortalsToTree_r front type split_front stats fresh;
        '(back_fragments, stats, fresh) ←
          ClipNodePortalsToTree_r back type split_back stats fresh;
        Ok (front_fragments ++ back_fragments, stats, fresh)
      end
  end.

(** [clock.increase()] only drives the progress display and is left out. *)
Fixpoint MakeTreePortals_r (node : node_t) (type : portaltype_t)
    (boundary_portals : list buildportal_t) (stats : portalstats_t) (fresh : nat)
    : result (list buildportal_t * portalstats_t * nat) :=
  if stops_at type node then Ok (boundary_portals, stats, fresh)
  else
    match node with
    | Leaf _ => Ok (boundary_portals, stats, fresh)
    | Interior _ front back =>
      '(nodeportal, stats, fresh) ←
        MakeNodePortal node boundary_portals stats fresh;
      '(split_front, split_back, stats, fresh) ←
        SplitNodePortals node boundary_portals stats fresh;
      '(result_portals_front, stats, fresh) ←
        MakeTreePortals_r front type split_front stats fresh;
      '(result_portals_back, stats, fresh) ←
        MakeTreePortals_r back type split_back stats fresh;
      '(result_portals_onnode, stats, fresh) ←
        match nodeportal with
        | Some np =>
          '(half_clipped, stats, fresh) ←
            ClipNodePortalsToTree_r front type [np] stats fresh;
          ClipNodePortalsToTree_r back type half_clipped stats fresh
        | None => Ok ([], stats, fresh)
        end;
      Ok (result_portals_front ++ result_portals_back ++ result_portals_onnode,
          stats, fresh)
    end.

End BuildPortals.

(** ** Boxes and the tree *)

Record aabb3d : Type := mk_aabb3d { mins : qvec3d; maxs : qvec3d }.

(** The operations of [aabb3d] ([common/aabb.hh]) used by [portals.cc]. *)
Record aabb_lib : Type := mk_aabb_lib {
  aabb_default : aabb3d;                         (* [aabb3d{}] *)
  aabb_make : qvec3d -> qvec3d -> aabb3d;         (* [{mins, maxs}] *)
  aabb_expand : aabb3d -> qvec3d -> aabb3d;       (* [bounds += point] *)
  aabb_union : aabb3d -> aabb3d -> aabb3d;        (* [a + b] *)
  aabb_grow : aabb3d -> Q -> aabb3d               (* [bounds.grow(size)] *)
}.

(** [v[i]] and [v[i] = x] for [i] in 0..2 *)
Definition vec_at (v : qvec3d) (i : nat) : Q :=
  match i with O => vx v | S O => vy v | _ => vz v end.

Definition vec_set (v : qvec3d) (i : nat) (x : Q) : qvec3d :=
  match i with
  | O => mk_qvec3d x (vy v) (vz v)
  | S O => mk_qvec3d (vx v) x (vz v)
  | _ => mk_qvec3d (vx v) (vy v) x
  end.

(** [bounds[j]] *)
Definition corner (b : aabb3d) (j : bool) : qvec3d :=
  if j then maxs b else mins b.

(** The tree owns the final portals; [node_portals] holds, for each node
    address, the chain [node->portals], [p->next[s]], ... as the list of
    the portals it links, and [node_bounds] holds [node->bounds]. *)
Record tree_t : Type := mk_tree {
  headnode : node_t;
  outside_node : node_t;
  tree_bounds : aabb3d;
  tree_portals : list portal_t;
  node_portals : gmap nat (list portal_t);
  node_bounds : gmap nat aabb3d
}.

Definition chain (t : tree_t) (n : node_t) : list portal_t :=
  default [] (node_portals t !! node_id (data n)).

(** ** Portal_EntityFlood *)

Definition Portal_EntityFlood (game : gamedef_t) (p : portal_t) (s : bool)
    : result bool :=
  if negb (is_leaf (fst (nodes p))) || negb (is_leaf (snd (nodes p))) then
    FError "Portal_EntityFlood: not a leaf"
  else if contents_are_any_solid game (contents (data (fst (nodes p)))) ||
          contents_are_any_solid game (contents (data (snd (nodes p)))) then
    Ok false
  else Ok true.

(** ** MakeHeadnodePortals *)

Section HeadnodePortals.
Variable game : gamedef_t.
Variable W : winding_lib.
Variable A : aabb_lib.
(** [SIDESPACE], [qbsp_options.epsilon.value()] and
    [qbsp_plane_t::set_plane], which gives the plane stored and whether the
    argument was flipped. *)
Variable SIDESPACE : Q.
Variable epsilon : Q.
Variable set_plane : qplane3d -> bool -> qplane3d * bool.

Definition zero_plane : qplane3d := mk_qplane3d (mk_qvec3d 0 0 0) 0.

(** The plane [bplanes[j * 3 + i]] of the box. *)
Definition box_plane (bounds : aabb3d) (i : nat) (j : bool) : qplane3d :=
  if j then
    mk_qplane3d (vec_set (normal zero_plane) i (-1)) (- vec_at (corner bounds j) i)
  else
    mk_qplane3d (vec_set (normal zero_plane) i 1) (vec_at (corner bounds j) i).

(** Marking the outside node: a leaf of solid contents without portals. *)
Definition mark_outside (tree : tree_t) : tree_t :=
  let d := data (outside_node tree) in
  let outside :=
    Leaf (mk_node_data (node_id d) (create_solid_contents game) (node_planenum d)
            (node_plane d) (detail_separator d) (parent d) (original_brushes d)) in
  mk_tree (headnode tree) outside (tree_bounds tree) (tree_portals tree)
    (<[node_id d := []]> (node_portals tree)) (node_bounds tree).

(** The portal [portals[n]] for [n = j * 3 + i]; it is the
    [(2 * i + j)]-th object allocated. *)
Definition box_portal (tree : tree_t) (bounds : aabb3d) (fresh : nat) (n : nat)
    : buildportal_t :=
  let i := (n mod 3)%nat in
  let j := Nat.leb 3 n in
  let pl := box_plane bounds i j in
  let '(plane, side) := set_plane pl true in
  let p :=
    mk_buildportal (fresh + 2 * i + (if j then 1 else 0))%nat plane None (None, None)
      (BaseWindingForPlane W pl) in
  if side then set_nodes p (Some (outside_node tree)) (Some (headnode tree))
  else set_nodes p (Some (headnode tree)) (Some (outside_node tree)).

(** The inner loop: clip [w], the winding of portal [i], by the planes
    [pls] (each with its index [j]), skipping [j == i]. *)
Fixpoint clip_by_planes (i : nat) (pls : list (nat * qplane3d)) (w : winding_t)
    : result winding_t :=
  match pls with
  | [] => Ok w
  | (j, pl) :: rest =>
    if Nat.eqb j i then clip_by_planes i rest w
    else
      match clip_front W w pl epsilon true with
      | Some w2 => clip_by_planes i rest w2
      | None => FError "portal winding clipped away"
      end
  end.

(** The outer loop over the portals [ps] (each with its index [i]). *)
Fixpoint clip_box_portals (bplanes : list (nat * qplane3d))
    (ps : list (nat * buildportal_t)) : result (list buildportal_t) :=
  match ps with
  | [] => Ok []
  | (i, p) :: rest =>
    w ← clip_by_planes i bplanes (bp_winding p);
    rest' ← clip_box_portals bplanes rest;
    Ok (set_winding p w :: rest')
  end.

Definition box_indices : list nat := seq 0 6.

(** [MakeHeadnodePortals] returns the tree, whose outside node it has
    marked, and the list of the six portals, or the fatal error. *)
Definition MakeHeadnodePortals (tree : tree_t) (fresh : nat)
    : tree_t * result (list buildportal_t * nat) :=
  let bounds := aabb_grow A (tree_bounds tree) SIDESPACE in
  let tree := mark_outside tree in
  let bplanes :=
    List.map (fun n => (n, box_plane bounds (n mod 3)%nat (Nat.leb 3 n))) box_indices in
  let portals :=
    List.map (fun n => (n, box_portal tree bounds fresh n)) box_indices in
  (tree, ps ← clip_box_portals bplanes portals; Ok (ps, (fresh + 6)%nat)).

End HeadnodePortals.

(** ** Vocabulary of the portal-builder claims *)

Section SplitSpec.
Variable W : winding_lib.

(** The two fragments of a portal's winding cut by the split plane of [node]. *)
Definition fragments (node : node_t) (p : buildportal_t)
    : option winding_t * option winding_t :=
  clip W (bp_winding p) (node_plane (data node)) SPLIT_WINDING_EPSILON true.

(** A fragment that exists and is below the tiny threshold. *)
Definition is_tiny (w : option winding_t) : bool :=
  match w with Some x => WindingIsTiny W x tiny_size | None => false end.

(** A fragment that exists and is not tiny. *)
Definition kept (w : option winding_t) : bool :=
  match w with Some x => negb (WindingIsTiny W x tiny_size) | None => false end.

Definition tiny_fragments (node : node_t) (p : buildportal_t) : nat :=
  (Nat.b2n (is_tiny (fst (fragments node p))) +
   Nat.b2n (is_tiny (snd (fragments node p))))%nat.

(** The portal bounds [node]. *)
Definition linked (node : node_t) (p : buildportal_t) : bool :=
  points_to (fst (bp_nodes p)) node || points_to (snd (bp_nodes p)) node.

(** The two nodes of [p] with [node] replaced by its child [c]. *)
Definition relinked (node : node_t) (p : buildportal_t) (c : option node_t)
    : option node_t * option node_t :=
  if points_to (fst (bp_nodes p)) node then (c, snd (bp_nodes p))
  else (fst (bp_nodes p), c).

(** The portal [p] moved to the child on side [k] of [node], at address
    [id] and with winding [w]. *)
Definition moved (node : node_t) (p : buildportal_t) (k : bool) (id : nat)
    (w : winding_t) : buildportal_t :=
  mk_buildportal id (bp_plane p) (bp_onnode p) (relinked node p (child node k)) w.

(** What one portal contributes to the two lists. *)
Definition front_piece (node : node_t) (p : buildportal_t) : option buildportal_t :=
  let '(fw, bw) := fragments node p in
  match fw with
  | Some x =>
    if WindingIsTiny W x tiny_size then None
    else Some (moved node p false (bp_id p) (if kept bw then x else bp_winding p))
  | None => None
  end.

Definition back_piece (node : node_t) (p : buildportal_t) (fresh : nat)
    : option buildportal_t :=
  let '(fw, bw) := fragments node p in
  match bw with
  | Some x =>
    if WindingIsTiny W x tiny_size then None
    else Some (if kept fw then moved node p true fresh x
               else moved node p true (bp_id p) (bp_winding p))
  | None => None
  end.

Definition no_tiny_winding (ps : list buildportal_t) : Prop :=
  forall p, In p ps -> WindingIsTiny W (bp_winding p) tiny_size = false.

End SplitSpec.

(** The portal [p] links [n] to [X]: the side that [SplitNodePortals]
    replaces points to [n], the other side points to [X]. *)
Definition bridges (n X : node_t) (p : buildportal_t) : bool :=
  (points_to (fst (bp_nodes p)) n && points_to (snd (bp_nodes p)) X) ||
  (negb (points_to (fst (bp_nodes p)) n) && points_to (snd (bp_nodes p)) n &&
   points_to (fst (bp_nodes p)) X).


(** ** MakePortalsFromBuildportals *)

(** [tree->create_portal()] followed by [AddPortalToNodes]: the new portal
    is put at the head of the chains of both nodes.  Its nodes are null
    when it is created, so "portal already included" is never raised. *)
Definition add_buildportal (tree : tree_t) (bp : buildportal_t) : result tree_t :=
  match bp_nodes bp with
  | (Some front, Some back) =>
    let p := mk_portal (bp_plane bp) (bp_onnode bp) (front, back) (bp_winding bp)
               false (None, None) in
    let np1 := <[node_id (data front) := p :: chain tree front]> (node_portals tree) in
    let np2 :=
      <[node_id (data back) := p :: default [] (np1 !! node_id (data back))]> np1 in
    Ok (mk_tree (headnode tree) (outside_node tree) (tree_bounds tree)
          (tree_portals tree ++ [p]) np2 (node_bounds tree))
  | _ => FError "null node"
  end.

Fixpoint MakePortalsFromBuildportals (tree : tree_t)
    (buildportals : list buildportal_t) : result tree_t :=
  match buildportals with
  | [] => Ok tree
  | bp :: rest =>
    tree ← add_buildportal tree bp;
    MakePortalsFromBuildportals tree rest
  end.

(** Modelled from the spec: [FreeTreePortals] is defined outside
    [portals.cc]; before portalization is redone the old portals are
    discarded. *)
Definition FreeTreePortals (tree : tree_t) : tree_t :=
  mk_tree (headnode tree) (outside_node tree) (tree_bounds tree) [] ∅
    (node_bounds tree).

(** ** CalcNodeBounds and CalcTreeBounds_r *)

Section Bounds.
Variable A : aabb_lib.
(** [qbsp_options.worldextent.value()] *)
Variable worldextent : Q.

Definition bounds_at (t : tree_t) (id : nat) : aabb3d :=
  default (aabb_default A) (node_bounds t !! id).

Definition set_bounds (t : tree_t) (id : nat) (b : aabb3d) : tree_t :=
  mk_tree (headnode t) (outside_node t) (tree_bounds t) (tree_portals t)
    (node_portals t) (<[id := b]> (node_bounds t)).

(** All the points of all the windings of the portals of a node. *)
Definition chain_points (t : tree_t) (node : node_t) : list qvec3d :=
  List.concat (List.map winding (chain t node)).

Definition CalcNodeBounds (t : tree_t) (node : node_t) : tree_t :=
  set_bounds t (node_id (data node))
    (fold_left (aabb_expand A) (chain_points t node) (aabb_default A)).

Definition kind_of (node : node_t) : string :=
  if is_leaf node then "leaf" else "node".

Definition without_volume (b : aabb3d) : bool :=
  Qle_bool (vx (maxs b)) (vx (mins b)).

Definition beyond_extent (b : aabb3d) : bool :=
  existsb (fun v => Qgtb (Qabs v) worldextent)
    [vx (mins b); vy (mins b); vz (mins b)].

(** The two checks that close [CalcTreeBounds_r]. *)
Definition check_bounds (node : node_t) (st : tree_t * list string)
    : result (tree_t * list string) :=
  let '(t, log) := st in
  let id := node_id (data node) in
  '(t, log) ←
    (if without_volume (bounds_at t id) then
       let log := log ++ [("WARNING: " ++ kind_of node ++ " without a volume")%string] in
       match parent (data node) with
       | [] => FError "null parent"
       | up :: _ =>
         let corner := mins (bounds_at t (anc_id up)) in
         Ok (set_bounds t id (aabb_make A corner corner), log)
       end
     else Ok (t, log));
  if beyond_extent (bounds_at t id) then
    Ok (t, log ++ [("WARNING: " ++ kind_of node ++ " with unbounded volume")%string])
  else Ok (t, log).

Fixpoint CalcTreeBounds_r (node : node_t) (st : tree_t * list string)
    : result (tree_t * list string) :=
  match node with
  | Leaf _ => check_bounds node (CalcNodeBounds (fst st) node, snd st)
  | Interior _ front back =>
    st ← CalcTreeBounds_r front st;
    '(t, log) ← CalcTreeBounds_r back st;
    check_bounds node
      (set_bounds t (node_id (data node))
         (aabb_union A (bounds_at t (node_id (data front)))
            (bounds_at t (node_id (data back)))),
       log)
  end.

End Bounds.

(** ** MakeTreePortals *)

Section MakeTreePortals.
Variable game : gamedef_t.
Variable W : winding_lib.
Variable A : aabb_lib.
Variable SIDESPACE : Q.
Variable epsilon : Q.
Variable worldextent : Q.
Variable set_plane : qplane3d -> bool -> qplane3d * bool.

(** The run gives the tree, the statistics and the warnings printed. *)
Definition MakeTreePortals (tree : tree_t) (fresh : nat)
    : result (tree_t * portalstats_t * list string) :=
  let tree := FreeTreePortals tree in
  let stats := mk_portalstats 0 in
  let '(tree, headnodeportals) :=
    MakeHeadnodePortals game W A SIDESPACE epsilon set_plane tree fresh in
  '(headnodeportals, fresh) ← headnodeportals;
  '(buildportals, stats, fresh) ←
    MakeTreePortals_r W (headnode tree) TREE headnodeportals stats fresh;
  tree ← MakePortalsFromBuildportals tree buildportals;
  '(tree, log) ← CalcTreeBounds_r A worldextent (headnode tree) (tree, []);
  Ok (tree, stats, log).

End MakeTreePortals.

(** ** Flood areas *)

Record mapentity_t : Type := mk_mapentity {
  portalareas : nat * nat;
  areaportalnum : nat
}.

(** What the flood prints. *)
Inductive flood_warning : Type :=
| areaportal_without_entity (node : nat)
    (* "areaportal contents in node, but no entity found" *)
| touches_more_than_two_areas (entity : nat)
    (* "areaportal entity {} touches > 2 areas" *).

(** The state of the flood: the global [map] ([map.c_areas] and
    [map.entities], an entity pointer being its index), [node->area] for
    each node address, and the warnings printed. *)
Record flood_state : Type := mk_flood_state {
  c_areas : nat;
  entities : list mapentity_t;
  node_area : gmap nat nat;
  flood_log : list flood_warning
}.

Definition area_of (st : flood_state) (n : node_t) : nat :=
  default 0%nat (node_area st !! node_id (data n)).

Definition set_area (st : flood_state) (n : node_t) : flood_state :=
  mk_flood_state (c_areas st) (entities st)
    (<[node_id (data n) := c_areas st]> (node_area st)) (flood_log st).

Definition warn (st : flood_state) (w : flood_warning) : flood_state :=
  mk_flood_state (c_areas st) (entities st) (node_area st) (flood_log st ++ [w]).

Definition set_portalareas (st : flood_state) (e : nat) (pa : nat * nat)
    : flood_state :=
  mk_flood_state (c_areas st)
    (alter (fun ent => mk_mapentity pa (areaportalnum ent)) e (entities st))
    (node_area st) (flood_log st).

Fixpoint ApplyArea_r (node : node_t) (st : flood_state) : flood_state :=
  let st := set_area st node in
  match node with
  | Leaf _ => st
  | Interior _ front back => ApplyArea_r back (ApplyArea_r front st)
  end.

Fixpoint AreanodeEntityForLeaf (node : node_t) : option nat :=
  match node with
  | Interior _ front back =>
    match AreanodeEntityForLeaf front with
    | Some e => Some e
    | None => AreanodeEntityForLeaf back
    end
  | Leaf d =>
    match List.find (fun b => bool_decide (is_Some (func_areaportal b)))
            (original_brushes d) with
    | Some b => func_areaportal b
    | None => None
    end
  end.

Section FloodAreas.
Variable game : gamedef_t.
(** The contents bit of area portals. *)
Variable Q2_CONTENTS_AREAPORTAL : Z.
(** The chains of the tree that is flooded. *)
Variable tree : tree_t.

Fixpoint ClusterContents (node : node_t) : contentflags_t :=
  match node with
  | Leaf d => contents d
  | Interior _ front back =>
    cluster_contents game (ClusterContents front) (ClusterContents back)
  end.

Definition is_areaportal (node : node_t) : bool :=
  negb (Z.land (native (ClusterContents node)) Q2_CONTENTS_AREAPORTAL =? 0).

(** The branch of [FloodAreas_r] taken on an area-portal cluster. *)
Definition touch_areaportal (node : node_t) (st : flood_state) : result flood_state :=
  match AreanodeEntityForLeaf node with
  | None => Ok (warn st (areaportal_without_entity (node_id (data node))))
  | Some e =>
    match entities st !! e with
    | None => FError "dangling entity"
    | Some entity =>
      let pa := portalareas entity in
      if Nat.eqb (fst pa) (c_areas st) || Nat.eqb (snd pa) (c_areas st) then Ok st
      else if negb (Nat.eqb (snd pa) 0) then
        Ok (warn st (touches_more_than_two_areas e))
      else if negb (Nat.eqb (fst pa) 0) then
        Ok (set_portalareas st e (fst pa, c_areas st))
      else Ok (set_portalareas st e (c_areas st, snd pa))
    end
  end.

(** The loop of [FloodAreas_r] over the portals of [node]; [flood] is the
    recursive call. *)
Fixpoint flood_portals (flood : node_t -> flood_state -> option (result flood_state))
    (node : node_t) (ps : list portal_t) (st : flood_state)
    : option (result flood_state) :=
  match ps with
  | [] => Some (Ok st)
  | p :: rest =>
    let s := points_to (Some (snd (nodes p))) node in
    match Portal_EntityFlood game p s with
    | FError msg => Some (FError msg)
    | Ok false => flood_portals flood node rest st
    | Ok true =>
      match flood (idx (nodes p) (negb s)) st with
      | Some (Ok st) => flood_portals flood node rest st
      | other => other
      end
    end
  end.

(** [FloodAreas_r] with a bound on the depth of the recursion: [None] when
    the bound is reached. *)
Fixpoint FloodAreas_r (fuel : nat) (node : node_t) (st : flood_state)
    : option (result flood_state) :=
  match fuel with
  | O => None
  | S fuel =>
    if (is_leaf node || detail_separator (data node)) && is_areaportal node then
      Some (touch_areaportal node st)
    else if negb (Nat.eqb (area_of st node) 0) then Some (Ok st)
    else
      let st := set_area st node in
      let st := if is_leaf node then st else ApplyArea_r node st in
      flood_portals (FloodAreas_r fuel) node (chain tree node) st
  end.

(** [FindAreas] over the clusters given by [FindOccupiedClusters]. *)
Fixpoint FindAreas (fuel : nat) (leafs : list node_t) (st : flood_state)
    : option (result flood_state) :=
  match leafs with
  | [] => Some (Ok st)
  | leaf :: rest =>
    if negb (Nat.eqb (area_of st leaf) 0) then FindAreas fuel rest st
    else if is_areaportal leaf then FindAreas fuel rest st
    else
      let st := mk_flood_state (S (c_areas st)) (entities st) (node_area st)
                  (flood_log st) in
      match FloodAreas_r fuel leaf st with
      | Some (Ok st) => FindAreas fuel rest st
      | other => other
      end
  end.

End FloodAreas.

(** ** Vocabulary of the headnode claims *)

(** The winding [w] of box portal [i] clipped by the box planes other than
    its own; [None] when it is clipped away. *)
Definition clipped_by_others (W : winding_lib) (epsilon : Q)
    (bplanes : list (nat * qplane3d)) (i : nat) (w : winding_t) : option winding_t :=
  fold_left (fun acc jp => acc ≫= fun x => clip_front W x (snd jp) epsilon true)
    (List.filter (fun jp => negb (Nat.eqb (fst jp) i)) bplanes) (Some w).

(** The six planes of the box, each with its index. *)
Definition box_planes (bounds : aabb3d) : list (nat * qplane3d) :=
  List.map (fun n => (n, box_plane bounds (n mod 3)%nat (Nat.leb 3 n))) box_indices.

(** ** Vocabulary of the tiny-winding claim *)

Section TinySpec.
Variable W : winding_lib.

(** The windings that one call tests against the tiny threshold:
    [MakeNodePortal] tests the winding of the node clipped by the boundary
    portals, [SplitNodePortals] the two fragments of every portal. *)
Definition node_tested (node : node_t) (ps : list buildportal_t)
    : list (option winding_t) :=
  match clip_by_portals W node ps (BaseWindingForNode W node) with
  | Ok w => [w]
  | FError _ => []
  end.

Definition split_tested (node : node_t) (ps : list buildportal_t)
    : list (option winding_t) :=
  List.flat_map (fun p => [fst (fragments W node p); snd (fragments W node p)]) ps.

(** How many of the windings are below the tiny threshold. *)
Definition tiny_count (ws : list (option winding_t)) : nat :=
  List.length (List.filter (is_tiny W) ws).

(** The windings tested in a run of [ClipNodePortalsToTree_r], call by
    call.  The lists between the calls are those of the run itself, which
    is followed from a count of 0. *)
Fixpoint clip_tested (node : node_t) (type : portaltype_t)
    (portals : list buildportal_t) (fresh : nat)
    : result (list (option winding_t)) :=
  match portals with
  | [] => Ok []
  | _ :: _ =>
    if stops_at type node then Ok []
    else
      match node with
      | Leaf _ => Ok []
      | Interior _ front back =>
        '(split_front, split_back, _, fresh) ←
          SplitNodePortals W node portals (mk_portalstats 0) fresh;
        in_front ← clip_tested front type split_front fresh;
        '(_, _, fresh) ←
          ClipNodePortalsToTree_r W front type split_front (mk_portalstats 0) fresh;
        in_back ← clip_tested back type split_back fresh;
        Ok (split_tested node portals ++ in_front ++ in_back)
      end
  end.

(** The windings tested in a run of [MakeTreePortals_r]. *)
Fixpoint tree_tested (node : node_t) (type : portaltype_t)
    (boundary_portals : list buildportal_t) (fresh : nat)
    : result (list (option winding_t)) :=
  if stops_at type node then Ok []
  else
    match node with
    | Leaf _ => Ok []
    | Interior _ front back =>
      '(nodeportal, _, fresh) ←
        MakeNodePortal W node boundary_portals (mk_portalstats 0) fresh;
      '(split_front, split_back, _, fresh) ←
        SplitNodePortals W node boundary_portals (mk_portalstats 0) fresh;
      in_front ← tree_tested front type split_front fresh;
      '(_, _, fresh) ←
        MakeTreePortals_r W front type split_front (mk_portalstats 0) fresh;
      in_back ← tree_tested back type split_back fresh;
      '(_, _, fresh) ←
        MakeTreePortals_r W back type split_back (mk_portalstats 0) fresh;
      on_node ←
        match nodeportal with
        | Some np =>
          under_front ← clip_tested front type [np] fresh;
          '(half_clipped, _, fresh) ←
            ClipNodePortalsToTree_r W front type [np] (mk_portalstats 0) fresh;
          under_back ← clip_tested back type half_clipped fresh;
          Ok (under_front ++ under_back)
        | None => Ok []
        end;
      Ok (node_tested node boundary_portals ++ split_tested node boundary_portals ++
          in_front ++ in_back ++ on_node)
    end.

End TinySpec.

(** The windings tested in a run of [MakeTreePortals]. *)
Definition MakeTreePortals_tested (game : gamedef_t) (W : winding_lib) (A : aabb_lib)
    (SIDESPACE epsilon : Q) (set_plane : qplane3d -> bool -> qplane3d * bool)
    (tree : tree_t) (fresh : nat) : result (list (option winding_t)) :=
  let '(tree, headnodeportals) :=
    MakeHeadnodePortals game W A SIDESPACE epsilon set_plane (FreeTreePortals tree)
      fresh in
  '(headnodeportals, fresh) ← headnodeportals;
  tree_tested W (headnode tree) TREE headnodeportals fresh.

(** ** Vocabulary of the bounds claims *)

(** The nodes of a subtree, and their addresses. *)
Fixpoint subnodes (n : node_t) : list node_t :=
  match n with
  | Leaf _ => [n]
  | Interior _ front back => n :: subnodes front ++ subnodes back
  end.

Definition subtree_ids (n : node_t) : list nat :=
  List.map (fun m => node_id (data m)) (subnodes n).

(** The addresses whose bounds the pass over a subtree reads or writes:
    its nodes and their parents. *)
Definition parent_ids (n : node_t) : list nat :=
  List.flat_map (fun m => List.map anc_id (firstn 1 (parent (data m)))) (subnodes n).

Definition footprint (n : node_t) : list nat := subtree_ids n ++ parent_ids n.

(** The box of a leaf before the closing checks. *)
Definition leaf_box (A : aabb_lib) (t : tree_t) (n : node_t) : aabb3d :=
  fold_left (aabb_expand A) (chain_points t n) (aabb_default A).

(** The state of [CalcTreeBounds_r] on [node] before its closing checks:
    the children are done and [node->bounds] is assigned. *)
Definition before_checks (A : aabb_lib) (worldextent : Q) (node : node_t)
    (st : tree_t * list string) : result (tree_t * list string) :=
  match node with
  | Leaf _ => Ok (CalcNodeBounds A (fst st) node, snd st)
  | Interior _ front back =>
    st ← CalcTreeBounds_r A worldextent front st;
    '(t, log) ← CalcTreeBounds_r A worldextent back st;
    Ok (set_bounds t (node_id (data node))
          (aabb_union A (bounds_at A t (node_id (data front)))
             (bounds_at A t (node_id (data back)))),
        log)
  end.

Definition volume_warning (node : node_t) : string :=
  ("WARNING: " ++ kind_of node ++ " without a volume")%string.

Definition extent_warning (node : node_t) : string :=
  ("WARNING: " ++ kind_of node ++ " with unbounded volume")%string.

(** The reading of the bounds-degradation rule for bounds beyond the world
    extent: such a leaf is given the box collapsed on its parent's mins
    corner. *)
Definition beyond_extent_degrades : Prop :=
  forall (A : aabb_lib) (worldextent : Q) (d : node_data) (up : ancestor_t)
         (rest : list ancestor_t) (t t' : tree_t) (log log' : list string),
    parent d = up :: rest ->
    beyond_extent worldextent (leaf_box A t (Leaf d)) = true ->
    CalcTreeBounds_r A worldextent (Leaf d) (t, log) = Ok (t', log') ->
    bounds_at A t' (node_id d) =
      aabb_make A (mins (bounds_at A t (anc_id up))) (mins (bounds_at A t (anc_id up))).

Section BoundsAgreement.
Variable A : aabb_lib.

(** Two trees with the same portals and the same bounds on the addresses
    in [S]; two runs that both abort, or both return trees that agree. *)
Definition agree (S : nat -> Prop) (t1 t2 : tree_t) : Prop :=
  node_portals t1 = node_portals t2 /\
  forall id, S id -> bounds_at A t1 id = bounds_at A t2 id.

Definition same_outcome (S : nat -> Prop)
    (r1 r2 : result (tree_t * list string)) : Prop :=
  match r1, r2 with
  | Ok st1, Ok st2 => agree S (fst st1) (fst st2)
  | FError _, FError _ => True
  | _, _ => False
  end.

End BoundsAgreement.

(** ** Vocabulary of the area-flood claims *)

(** An area-portal cluster: where [FloodAreas_r] stops and records. *)
Definition areaportal_cluster (game : gamedef_t) (Q2_CONTENTS_AREAPORTAL : Z)
    (node : node_t) : bool :=
  (is_leaf node || detail_separator (data node)) &&
  is_areaportal game Q2_CONTENTS_AREAPORTAL node.

(** The record of an entity only grows: a recorded id is never replaced,
    and a full record never changes. *)
Definition record_kept (pa pa' : nat * nat) : Prop :=
  (fst pa <> 0%nat -> fst pa' = fst pa) /\ (snd pa <> 0%nat -> pa' = pa).

Definition records_kept (ents ents' : list mapentity_t) : Prop :=
  List.length ents' = List.length ents /\
  forall e ent, ents !! e = Some ent ->
    exists ent', ents' !! e = Some ent' /\
                 areaportalnum ent' = areaportalnum ent /\
                 record_kept (portalareas ent) (portalareas ent').

(** The ids recorded are filled from slot 0 and are distinct. *)
Definition record_ordered (pa : nat * nat) : Prop :=
  snd pa <> 0%nat -> fst pa <> 0%nat /\ fst pa <> snd pa.

(** What a pass of the flood keeps: the current area, the records of the
    entities, and their order. *)
Definition flood_keeps (st st' : flood_state) : Prop :=
  c_areas st' = c_areas st /\
  records_kept (entities st) (entities st') /\
  (Forall (fun ent => record_ordered (portalareas ent)) (entities st) ->
   Forall (fun ent => record_ordered (portalareas ent)) (entities st')).

Definition is_warning_for (e : nat) (w : flood_warning) : bool :=
  match w with
  | touches_more_than_two_areas e' => Nat.eqb e e'
  | areaportal_without_entity _ => false
  end.

Definition warnings_for (e : nat) (log : list flood_warning) : nat :=
  List.length (List.filter (is_warning_for e) log).

(** The reading of the third-touch rule as stated: in a flood that finds
    three areas, an entity is warned about at most once. *)
Definition one_warning_for_third_area : Prop :=
  forall (game : gamedef_t) (Q2_CONTENTS_AREAPORTAL : Z) (tree : tree_t)
         (fuel : nat) (leafs : list node_t) (ents : list mapentity_t)
         (st' : flood_state) (e : nat),
    FindAreas game Q2_CONTENTS_AREAPORTAL tree fuel leafs
      (mk_flood_state 0 ents ∅ []) = Some (Ok st') ->
    c_areas st' = 3%nat ->
    (warnings_for e (flood_log st') <= 1)%nat.

(** The nodes a flood can reach have their addresses in [U]. *)
Definition flood_closed (tree : tree_t) (U : list nat) : Prop :=
  forall n p, In p (chain tree n) ->
    In (node_id (data (fst (nodes p)))) U /\ In (node_id (data (snd (nodes p)))) U.

(** The addresses of [U] that carry no area yet. *)
Definition unstamped (U : list nat) (st : flood_state) : nat :=
  List.length
    (List.filter (fun id => Nat.eqb (default 0%nat (node_area st !! id)) 0) U).

(** The current area stays, and while it is not 0 a stamped node stays
    stamped. *)
Definition stamps_kept (st st' : flood_state) : Prop :=
  c_areas st' = c_areas st /\
  (c_areas st <> 0%nat ->
   forall id, default 0%nat (node_area st !! id) <> 0%nat ->
              default 0%nat (node_area st' !! id) <> 0%nat).

(** ** Portal_VisFlood *)

Section VisFlood.
Variable game : gamedef_t.
(** [target_game->portal_can_see_through] and the options
    [qbsp_options.transwater] and [qbsp_options.transsky]. *)
Variable portal_can_see_through :
  contentflags_t -> contentflags_t -> bool -> bool -> bool.
Variable transwater : bool.
Variable transsky : bool.

Definition Portal_VisFlood (p : portal_t) : bool :=
  match onnode p with
  | None => false (* to global outsideleaf *)
  | Some _ =>
    let contents0 := ClusterContents game (fst (nodes p)) in
    let contents1 := ClusterContents game (snd (nodes p)) in
    if illusionary_visblocker contents0 || illusionary_visblocker contents1
    then false
    else portal_can_see_through contents0 contents1 transwater transsky
  end.

End VisFlood.

(** ** SetAreaPortalAreas_r and FloodAreas *)

(** What [SetAreaPortalAreas_r] prints. *)
Inductive areaportal_warning : Type :=
| areaportal_missing (node : nat)
    (* "areaportal missing for node" *)
| touches_one_area (entity : nat) (node : nat)
    (* "areaportal entity {} with targetname {} doesn't touch two areas" *).

(** [node->area = a] *)
Definition set_area_to (st : flood_state) (n : node_t) (a : nat) : flood_state :=
  mk_flood_state (c_areas st) (entities st)
    (<[node_id (data n) := a]> (node_area st)) (flood_log st).

Section SetAreaPortalAreas.
Variable Q2_CONTENTS_AREAPORTAL : Z.

Fixpoint SetAreaPortalAreas_r (node : node_t)
    (st : flood_state * list areaportal_warning)
    : result (flood_state * list areaportal_warning) :=
  match node with
  | Interior _ front back =>
    st ← SetAreaPortalAreas_r front st;
    SetAreaPortalAreas_r back st
  | Leaf d =>
    if negb (native (contents d) =? Q2_CONTENTS_AREAPORTAL) then Ok st
    else if negb (Nat.eqb (area_of (fst st) node) 0) then Ok st
    else
      match AreanodeEntityForLeaf node with
      | None => Ok (fst st, snd st ++ [areaportal_missing (node_id d)])
      | Some e =>
        match entities (fst st) !! e with
        | None => FError "dangling entity"
        | Some entity =>
          let st1 := set_area_to (fst st) node (fst (portalareas entity)) in
          if Nat.eqb (snd (portalareas entity)) 0
          then Ok (st1, snd st ++ [touches_one_area e (node_id d)])
          else Ok (st1, snd st)
        end
      end
  end.

End SetAreaPortalAreas.

Section FloodAreasPass.
Variable game : gamedef_t.
Variable Q2_CONTENTS_AREAPORTAL : Z.
Variable tree : tree_t.

(** [FloodAreas]: [leafs] is what [FindOccupiedClusters] gives for the
    headnode. *)
Definition FloodAreas (fuel : nat) (leafs : list node_t) (headnode : node_t)
    (st : flood_state) : option (result (flood_state * list areaportal_warning)) :=
  match FindAreas game Q2_CONTENTS_AREAPORTAL tree fuel leafs st with
  | Some (Ok st) => Some (SetAreaPortalAreas_r Q2_CONTENTS_AREAPORTAL headnode (st, []))
  | Some (FError msg) => Some (FError msg)
  | None => None
  end.

End FloodAreasPass.

(** ** EmitAreaPortals *)

Record dareaportal_t : Type := mk_dareaportal { portalnum : nat; otherarea : nat }.

Record darea_t : Type := mk_darea { numareaportals : nat; firstareaportal : nat }.

(** The two lumps of [map.bsp] that [EmitAreaPortals] writes. *)
Record bsp_t : Type := mk_bsp {
  dareaportals : list dareaportal_t;
  dareas : list darea_t
}.

(** [map.bsp.dareaportals[j] == dp] *)
Definition dareaportal_eqb (a b : dareaportal_t) : bool :=
  Nat.eqb (portalnum a) (portalnum b) && Nat.eqb (otherarea a) (otherarea b).

(** The [dp] that the loop builds for the entity [e] and the area [i]. *)
Definition areaportal_of (e : mapentity_t) (i : nat) : dareaportal_t :=
  if Nat.eqb (fst (portalareas e)) i then
    mk_dareaportal (areaportalnum e) (snd (portalareas e))
  else if Nat.eqb (snd (portalareas e)) i then
    mk_dareaportal (areaportalnum e) (fst (portalareas e))
  else mk_dareaportal 0 0.

(** The body of the loop over the entities: [dp] is pushed unless the
    search from index 0 finds it. *)
Definition emit_entity (i : nat) (dps : list dareaportal_t) (e : mapentity_t)
    : list dareaportal_t :=
  if Nat.eqb (areaportalnum e) 0 then dps
  else
    let dp := areaportal_of e i in
    match List.find (dareaportal_eqb dp) dps with
    | Some _ => dps
    | None => dps ++ [dp]
    end.

(** The body of the loop over the areas. *)
Definition emit_area (ents : list mapentity_t) (bsp : bsp_t) (i : nat) : bsp_t :=
  let first := List.length (dareaportals bsp) in
  let dps := fold_left (emit_entity i) ents (dareaportals bsp) in
  mk_bsp dps (dareas bsp ++ [mk_darea (List.length dps - first) first]).

Definition EmitAreaPortals (c_areas : nat) (ents : list mapentity_t) (bsp : bsp_t)
    : bsp_t :=
  let bsp := mk_bsp (dareaportals bsp ++ [mk_dareaportal 0 0])
               (dareas bsp ++ [mk_darea 0 0]) in
  fold_left (emit_area ents) (seq 1 c_areas) bsp.

(** ** MarkVisibleSides *)

(** The state of the pass: the portals of the tree, by their index in
    [tree->portals] ([sidefound] and [sides] are written), the faces of
    the map whose [visible] flag is set, by their address, and the
    warnings printed. *)
Record vis_state : Type := mk_vis_state {
  vs_portals : list portal_t;
  vs_visible : gset nat;
  vs_log : list string
}.

Section MarkVisibleSides.
Variable game : gamedef_t.
Variable qv_dot : qvec3d -> qvec3d -> fpval.
(** [side.source]: the face of the map from which a brush side was made. *)
Variable source : side_ptr -> option nat.
(** The chain [node->portals], [p->next[!s]], ... of a leaf, as the
    indices of its portals. *)
Variable portals_of : node_t -> list nat.

(** [if (p->sides[i] && p->sides[i]->source)
       p->sides[i]->source->visible = true;] *)
Definition mark_side (visible : gset nat) (c : option side_ptr) : gset nat :=
  match c with
  | Some s =>
    match source s with
    | Some f => {[ f ]} ∪ visible
    | None => visible
    end
  | None => visible
  end.

(** The body of the loop over the portals of a leaf. *)
Definition visit_portal (st : vis_state) (k : nat) : result vis_state :=
  match vs_portals st !! k with
  | None => FError "dangling portal"
  | Some p =>
    match onnode p with
    | None => Ok st (* edge of world *)
    | Some _ =>
      '(p, w) ← (if sidefound p then Ok (p, []) else FindPortalSide game qv_dot p);
      Ok (mk_vis_state (<[k := p]> (vs_portals st))
            (mark_side (mark_side (vs_visible st) (fst (portal_sides p)))
               (snd (portal_sides p)))
            (vs_log st ++ w))
    end
  end.

Fixpoint visit_portals (ks : list nat) (st : vis_state) : result vis_state :=
  match ks with
  | [] => Ok st
  | k :: rest =>
    st ← visit_portal st k;
    visit_portals rest st
  end.

Fixpoint MarkVisibleSides_r (node : node_t) (st : vis_state) : result vis_state :=
  match node with
  | Interior _ front back =>
    st ← MarkVisibleSides_r front st;
    MarkVisibleSides_r back st
  | Leaf d =>
    (* empty leafs are never boundary leafs *)
    if contents_are_empty game (contents d) then Ok st
    else visit_portals (portals_of node) st
  end.

(** The faces of the sides of the brushes. *)
Definition brush_faces (brushes : list bspbrush_t) : list nat :=
  omap source
    (List.flat_map (fun b => List.map (mk_side_ptr b) (sides b)) brushes).

Definition MarkVisibleSides (tree : tree_t) (brushes : list bspbrush_t)
    (st : vis_state) : result vis_state :=
  MarkVisibleSides_r (headnode tree)
    (mk_vis_state (vs_portals st)
       (vs_visible st ∖ list_to_set (brush_faces brushes)) (vs_log st)).

End MarkVisibleSides.

(** ** Vocabulary of the further properties *)

(** A side that the scan of [FindPortalSide] can give to portal side [i]:
    a non-bevel side of a brush of one of the two nodes, for which the
    policy generates the face that looks towards [i]. *)
Definition offered (game : gamedef_t) (vis : contentflags_t) (p : portal_t)
    (i : bool) (c : side_ptr) : Prop :=
  bevel (sp_side c) = false /\
  In (sp_side c) (sides (sp_brush c)) /\
  exists j : bool,
    In (sp_brush c) (original_brushes (data (idx (nodes p) j))) /\
    generates_on game vis (sp_brush c) j i = true.

(** Every side held by the scan state is offered to the portal side that
    holds it. *)
Definition holds_offered (game : gamedef_t) (vis : contentflags_t) (p : portal_t)
    (st : fps_state) : Prop :=
  forall i c,
    idx (bestside st) i = Some c \/ idx (exactside st) i = Some c ->
    offered game vis p i c.

(** The nodes of a subtree at which the descent of the portal builder
    stops: its leaves and, for vis portals, its detail clusters. *)
Fixpoint frontier (type : portaltype_t) (n : node_t) : list node_t :=
  match n with
  | Leaf _ => [n]
  | Interior _ front back =>
    if stops_at type n then [n] else frontier type front ++ frontier type back
  end.

(** The build portal [p] has the node [n] on its side [k] and the node [y]
    on the other side. *)
Definition sided (k : bool) (n y : node_t) (p : buildportal_t) : Prop :=
  idx (bp_nodes p) k = Some n /\ idx (bp_nodes p) (negb k) = Some y.

(** A portal made for a split node of the tree under [root]: it lies on the
    plane of that node and separates a frontier node of its front child
    (side 0) from a frontier node of its back child (side 1). *)
Definition separates (type : portaltype_t) (root : node_t) (plane : qplane3d)
    (on : option node_t) (ns : option node_t * option node_t) : Prop :=
  exists d front back m1 m2,
    In (Interior d front back) (subnodes root) /\
    In m1 (frontier type front) /\ In m2 (frontier type back) /\
    ns = (Some m1, Some m2) /\
    on = Some (Interior d front back) /\
    plane = node_plane d.

(** A piece of a portal of the box around the world: it has no node of its
    own and joins a frontier node of the tree to the outside node [X]. *)
Definition borders (type : portaltype_t) (root X : node_t)
    (on : option node_t) (ns : option node_t * option node_t) : Prop :=
  on = None /\
  exists m, In m (frontier type root) /\
            (ns = (Some m, Some X) \/ ns = (Some X, Some m)).

(** The final portal made from a build portal with nodes [front], [back]. *)
Definition to_portal (bp : buildportal_t) (front back : node_t) : portal_t :=
  mk_portal (bp_plane bp) (bp_onnode bp) (front, back) (bp_winding bp) false
    (None, None).

(** The portal has the node of address [id] on a side. *)
Definition touches (id : nat) (p : portal_t) : bool :=
  Nat.eqb (node_id (data (fst (nodes p)))) id ||
  Nat.eqb (node_id (data (snd (nodes p)))) id.

Section FloodSpec.
Variable game : gamedef_t.
Variable Q2_CONTENTS_AREAPORTAL : Z.
Variable tree : tree_t.

(** The node on the other side of a portal [p] of the chain of [n]:
    [p->nodes[!s]] for [s = (p->nodes[1] == n)]. *)
Definition across (n : node_t) (p : portal_t) : node_t :=
  idx (nodes p) (negb (points_to (Some (snd (nodes p))) n)).

(** The entity flood crosses the portal. *)
Definition floods (p : portal_t) : bool :=
  match Portal_EntityFlood game p false with
  | Ok true => true
  | _ => false
  end.

(** What a flood from [st] to [st'] does to the areas of the nodes: the
    current area stays; a stamped node keeps its area; a node stamped by
    the flood carries the current area, and every portal of its chain that
    the flood crosses leads to an area-portal cluster or to a stamped node;
    the nodes of [P] keep their area. *)
Definition flooded (P : node_t -> Prop) (st st' : flood_state) : Prop :=
  c_areas st' = c_areas st /\
  (forall x, area_of st x <> 0%nat -> area_of st' x = area_of st x) /\
  (forall x, area_of st x = 0%nat -> area_of st' x <> 0%nat ->
             area_of st' x = c_areas st) /\
  (forall x p, area_of st x = 0%nat -> area_of st' x <> 0%nat ->
     In p (chain tree x) -> floods p = true ->
     areaportal_cluster game Q2_CONTENTS_AREAPORTAL (across x p) = true \/
     area_of st' (across x p) <> 0%nat) /\
  (forall x, P x -> area_of st' x = area_of st x).

(** The nodes [U] with the chains of the tree form a graph: an address
    names one node, every portal of a chain leads to a node of [U], is in
    the chain of that node as well, and leads back from there. *)
Definition portal_graph (U : list node_t) : Prop :=
  (forall a b, In a U -> In b U ->
               node_id (data a) = node_id (data b) -> a = b) /\
  (forall n p, In n U -> In p (chain tree n) ->
     In (across n p) U /\
     In p (chain tree (across n p)) /\
     node_id (data (across (across n p) p)) = node_id (data n)).



(** The areas are consistent with the portals: no area is beyond the
    current one, area-portal clusters carry no area, and a portal that the
    flood crosses never joins two different areas. *)
Definition areas_closed (U : list node_t) (st : flood_state) : Prop :=
  (forall x, (area_of st x <= c_areas st)%nat) /\
  (forall x, In x U ->
     areaportal_cluster game Q2_CONTENTS_AREAPORTAL x = true ->
     area_of st x = 0%nat) /\
  (forall x p, In x U -> area_of st x <> 0%nat ->
     In p (chain tree x) -> floods p = true ->
     areaportal_cluster game Q2_CONTENTS_AREAPORTAL (across x p) = true \/
     area_of st (across x p) = area_of st x).

End FloodSpec.

(** The entries of the area-portal lump in the range of an area. *)
Definition area_range (dps : list dareaportal_t) (area : darea_t)
    : list dareaportal_t :=
  take (numareaportals area) (drop (firstareaportal area) dps).

(** The entries of the lump before the range of an area. *)
Definition before_range (dps : list dareaportal_t) (area : darea_t)
    : list dareaportal_t :=
  take (firstareaportal area) dps.

(** The entry that some area-portal entity of [ents] gives for area [i]. *)
Definition entry_for (ents : list mapentity_t) (i : nat) (dp : dareaportal_t)
    : Prop :=
  exists e, In e ents /\ areaportalnum e <> 0%nat /\ dp = areaportal_of e i.

(** What holds of the two lumps after the areas 1 .. [c]. *)
Definition emitted (ents : list mapentity_t) (c : nat) (r : bsp_t) : Prop :=
  List.length (dareas r) = S c /\
  List.length (dareaportals r) = S (list_sum (List.map numareaportals (dareas r))) /\
  dareaportals r !! 0%nat = Some (mk_dareaportal 0 0) /\
  dareas r !! 0%nat = Some (mk_darea 0 0) /\
  NoDup (dareaportals r) /\
  (forall (i : nat) area, dareas r !! i = Some area -> i <> 0%nat ->
     firstareaportal area =
       S (list_sum (List.map numareaportals (take i (dareas r)))) /\
     (firstareaportal area + numareaportals area <= List.length (dareaportals r))%nat /\
     forall dp, In dp (area_range (dareaportals r) area) <->
                ~ In dp (before_range (dareaportals r) area) /\ entry_for ents i dp) /\
  (forall dp, In dp (dareaportals r) ->
     dp = mk_dareaportal 0 0 \/
     exists i, (1 <= i <= c)%nat /\ entry_for ents i dp) /\
  (forall i dp, (1 <= i <= c)%nat -> entry_for ents i dp -> In dp (dareaportals r)).

Section MarkVisibleSidesSpec.
Variable game : gamedef_t.
Variable qv_dot : qvec3d -> qvec3d -> fpval.
Variable source : side_ptr -> option nat.
Variable portals_of : node_t -> list nat.

(** The portal [p] after a visit of [MarkVisibleSides_r]: a portal at the
    edge of the world or already resolved is as it was, another one is
    what [FindPortalSide] leaves. *)
Definition resolved (p p' : portal_t) : Prop :=
  match onnode p with
  | None => p' = p
  | Some _ =>
    if sidefound p then p' = p
    else exists w, FindPortalSide game qv_dot p = Ok (p', w)
  end.

(** The indices of the portals that the pass over a subtree visits: the
    chains of its leaves that are not empty. *)
Fixpoint visited (node : node_t) : list nat :=
  match node with
  | Interior _ front back => visited front ++ visited back
  | Leaf d => if contents_are_empty game (contents d) then [] else portals_of node
  end.

(** The face [f] is the source of a side held by a portal that has a node. *)
Definition shows (p : portal_t) (f : nat) : Prop :=
  onnode p <> None /\
  exists i c, idx (portal_sides p) i = Some c /\ source c = Some f.

(** The state [st] after the visits of the portals [ks] from [st0]. *)
Definition marked (ks : list nat) (st0 st : vis_state) : Prop :=
  List.length (vs_portals st) = List.length (vs_portals st0) /\
  (forall k p, vs_portals st0 !! k = Some p ->
     exists p', vs_portals st !! k = Some p' /\
                (In k ks -> resolved p p') /\ (~ In k ks -> p' = p)) /\
  (forall f, f ∈ vs_visible st <->
     f ∈ vs_visible st0 \/
     exists k p', In k ks /\ vs_portals st !! k = Some p' /\ shows p' f).

End MarkVisibleSidesSpec.

(** The areas recorded for the entities are areas that exist. *)
Definition records_bounded (c : nat) (ents : list mapentity_t) : Prop :=
  Forall (fun e => (fst (portalareas e) <= c)%nat /\ (snd (portalareas e) <= c)%nat)
    ents.

(** A pass of the flood keeps the current area and the bound on the
    records. *)
Definition bounded_kept (st st' : flood_state) : Prop :=
  c_areas st' = c_areas st /\
  (records_bounded (c_areas st) (entities st) ->
   records_bounded (c_areas st) (entities st')).

(** ** A winding library and a box library over the rationals

    The examples run the embedding on these. *)

Definition vec_add (a b : qvec3d) : qvec3d :=
  mk_qvec3d (vx a + vx b) (vy a + vy b) (vz a + vz b).

Definition vec_sub (a b : qvec3d) : qvec3d :=
  mk_qvec3d (vx a - vx b) (vy a - vy b) (vz a - vz b).

Definition vec_scale (k : Q) (a : qvec3d) : qvec3d :=
  mk_qvec3d (k * vx a) (k * vy a) (k * vz a).

Definition vec_dot (a b : qvec3d) : Q :=
  (vx a * vx b + vy a * vy b + vz a * vz b)%Q.

Definition vec_red (a : qvec3d) : qvec3d :=
  mk_qvec3d (Qred (vx a)) (Qred (vy a)) (Qred (vz a)).

Definition plane_distance (pl : qplane3d) (pt : qvec3d) : Q :=
  (vec_dot (normal pl) pt - dist pl)%Q.

Inductive point_side : Type := pt_front | pt_back | pt_on.

Definition point_side_of (epsilon : Q) (pl : qplane3d) (pt : qvec3d) : point_side :=
  let d := plane_distance pl pt in
  if Qgtb d epsilon then pt_front
  else if Qgtb (- epsilon) d then pt_back
  else pt_on.

Definition is_front (s : point_side) : bool :=
  match s with pt_front => true | _ => false end.
Definition is_back (s : point_side) : bool :=
  match s with pt_back => true | _ => false end.

(** The point where the edge from [p1] to [p2] crosses the plane. *)
Definition crossing_point (pl : qplane3d) (p1 p2 : qvec3d) : qvec3d :=
  let d1 := plane_distance pl p1 in
  let d2 := plane_distance pl p2 in
  vec_red (vec_add p1 (vec_scale (d1 / (d1 - d2)) (vec_sub p2 p1))).

(** One turn around the polygon: each point goes to its side (to both when
    on the plane), each crossing edge adds its crossing point to both. *)
Fixpoint clip_edges (epsilon : Q) (pl : qplane3d) (first : qvec3d) (w : winding_t)
    : winding_t * winding_t :=
  match w with
  | [] => ([], [])
  | p1 :: rest =>
    let p2 := hd first rest in
    let s1 := point_side_of epsilon pl p1 in
    let s2 := point_side_of epsilon pl p2 in
    let '(f, b) := clip_edges epsilon pl first rest in
    let mid :=
      if (is_front s1 && is_back s2) || (is_back s1 && is_front s2)
      then [crossing_point pl p1 p2] else [] in
    match s1 with
    | pt_on => (p1 :: f, p1 :: b)
    | pt_front => (p1 :: mid ++ f, mid ++ b)
    | pt_back => (mid ++ f, p1 :: mid ++ b)
    end
  end.

Definition rational_clip (w : winding_t) (pl : qplane3d) (epsilon : Q)
    (keep_on : bool) : option winding_t * option winding_t :=
  let some_front := existsb (fun pt => is_front (point_side_of epsilon pl pt)) w in
  let some_back := existsb (fun pt => is_back (point_side_of epsilon pl pt)) w in
  if negb some_front && negb some_back then
    if keep_on then (Some w, None) else (None, None)
  else if negb some_front then (None, Some w)
  else if negb some_back then (Some w, None)
  else
    let '(f, b) := clip_edges epsilon pl (hd (mk_qvec3d 0 0 0) w) w in
    (Some f, Some b).

Definition edge_is_long (size : Q) (p1 p2 : qvec3d) : bool :=
  let d := vec_sub p2 p1 in
  Qgtb (vec_dot d d) (size * size).

Fixpoint long_edges (size : Q) (first : qvec3d) (w : winding_t) : nat :=
  match w with
  | [] => O
  | p1 :: rest =>
    ((if edge_is_long size p1 (hd first rest) then 1 else 0) +
     long_edges size first rest)%nat
  end.

(** A winding is tiny when fewer than three of its edges are longer than
    [size]. *)
Definition rational_tiny (w : winding_t) (size : Q) : bool :=
  Nat.ltb (long_edges size (hd (mk_qvec3d 0 0 0) w) w) 3.

(** The base winding of a plane across an axis: a square of half-side
    [2^20] around the foot of the origin. *)
Definition axial_base_winding (pl : qplane3d) : winding_t :=
  let n := normal pl in
  let org := vec_scale (dist pl) n in
  let big := 1048576%Q in
  let '(u, v) :=
    if negb (Qeq_bool (vx n) 0) then (mk_qvec3d 0 big 0, mk_qvec3d 0 0 big)
    else if negb (Qeq_bool (vy n) 0) then (mk_qvec3d 0 0 big, mk_qvec3d big 0 0)
    else (mk_qvec3d big 0 0, mk_qvec3d 0 big 0) in
  List.map vec_red
    [vec_sub (vec_sub org u) v; vec_sub (vec_add org u) v;
     vec_add (vec_add org u) v; vec_add (vec_sub org u) v].

Definition rational_windings : winding_lib := {|
  BaseWindingForPlane := axial_base_winding;
  clip_front w pl epsilon keep_on := fst (rational_clip w pl epsilon keep_on);
  clip_back w pl epsilon keep_on := snd (rational_clip w pl epsilon keep_on);
  clip := rational_clip;
  WindingIsTiny := rational_tiny
|}.

Definition qmin (a b : Q) : Q := if Qle_bool a b then a else b.
Definition qmax (a b : Q) : Q := if Qle_bool a b then b else a.

Definition Qmin3 (a b : qvec3d) : qvec3d :=
  mk_qvec3d (qmin (vx a) (vx b)) (qmin (vy a) (vy b)) (qmin (vz a) (vz b)).
Definition Qmax3 (a b : qvec3d) : qvec3d :=
  mk_qvec3d (qmax (vx a) (vx b)) (qmax (vy a) (vy b)) (qmax (vz a) (vz b)).

Definition far_away : Q := 1000000000000.

Definition rational_boxes : aabb_lib := {|
  aabb_default :=
    mk_aabb3d (mk_qvec3d far_away far_away far_away)
      (mk_qvec3d (- far_away) (- far_away) (- far_away));
  aabb_make lo hi := mk_aabb3d lo hi;
  aabb_expand b pt := mk_aabb3d (Qmin3 (mins b) pt) (Qmax3 (maxs b) pt);
  aabb_union a b := mk_aabb3d (Qmin3 (mins a) (mins b)) (Qmax3 (maxs a) (maxs b));
  aabb_grow b size :=
    mk_aabb3d (vec_sub (mins b) (mk_qvec3d size size size))
      (vec_add (maxs b) (mk_qvec3d size size size))
|}.

(** A plane is stored with a normal along the positive axis. *)
Definition positive_plane (pl : qplane3d) (flip : bool) : qplane3d * bool :=
  if flip && Qgtb 0 (vx (normal pl) + vy (normal pl) + vz (normal pl))
  then (negate_plane pl, true) else (pl, false).

(** *** A room cut in two *)

Definition cut_plane : qplane3d := mk_qplane3d axis_x (1757 # 20).

Definition room_front : node_t :=
  Leaf (mk_node_data 1 air 0 zero_plane false [mk_ancestor 0 cut_plane (1%nat, 2%nat)] []).
Definition room_back : node_t :=
  Leaf (mk_node_data 2 air 0 zero_plane false [mk_ancestor 0 cut_plane (1%nat, 2%nat)] []).
Definition room_head : node_t :=
  Interior (mk_node_data 0 air 4 cut_plane false [] []) room_front room_back.

Definition room_tree : tree_t :=
  mk_tree room_head (Leaf (mk_node_data 99 air 0 zero_plane false [] []))
    (mk_aabb3d (mk_qvec3d (-64) (-64) (-64)) (mk_qvec3d 64 64 64)) [] ∅ ∅.

Definition room_run : result (tree_t * portalstats_t * list string) :=
  MakeTreePortals liquid_game rational_windings rational_boxes 24 (1 # 10000) 65536
    positive_plane room_tree 0.

(** The six box portals of the room, and the tree the run leaves. *)
Definition room_box_portals : list buildportal_t :=
  match snd (MakeHeadnodePortals liquid_game rational_windings rational_boxes 24
               (1 # 10000) positive_plane room_tree 0) with
  | Ok (ps, _) => ps
  | FError _ => []
  end.

Definition room_final : tree_t :=
  match room_run with
  | Ok (t, _, _) => t
  | FError _ => room_tree
  end.

(** *** A tree whose bounds are inside out *)

(** No point lies inside the grown box, so the first box winding is clipped
    away by the opposite plane. *)
Definition inside_out_tree : tree_t :=
  mk_tree room_head (Leaf (mk_node_data 99 air 0 zero_plane false [] []))
    (mk_aabb3d (mk_qvec3d 64 64 64) (mk_qvec3d (-64) (-64) (-64))) [] ∅ ∅.

(** *** A leaf far outside the world *)

Definition far_leaf : node_t :=
  Leaf (mk_node_data 7 air 0 zero_plane false [mk_ancestor 0 cut_plane (7%nat, 8%nat)] []).

Definition far_portal : portal_t :=
  mk_portal zero_plane None (far_leaf, leaf_of 8 air [])
    [mk_qvec3d (-100000) 0 0; mk_qvec3d (-99000) 10 0; mk_qvec3d (-99000) 0 10]
    false (None, None).

Definition far_tree : tree_t :=
  mk_tree far_leaf far_leaf
    (mk_aabb3d (mk_qvec3d (-64) (-64) (-64)) (mk_qvec3d 64 64 64))
    [far_portal] {[ 7%nat := [far_portal] ]} ∅.

(** *** Three halls around one door *)

Definition Q2_AREAPORTAL : Z := 32768.

Definition hall (id : nat) : node_t := leaf_of id air [].

Definition door : node_t :=
  leaf_of 15 (mk_contentflags Q2_AREAPORTAL false)
    [mk_bspbrush 0 (mk_contentflags Q2_AREAPORTAL false) [] (Some 0%nat)].

Definition portal_of (a b : node_t) : portal_t :=
  mk_portal zero_plane None (a, b) [] false (None, None).

(** Hall 3 is made of two leaves, each with a portal to the door. *)
Definition halls_tree : tree_t :=
  mk_tree door door
    (mk_aabb3d (mk_qvec3d (-64) (-64) (-64)) (mk_qvec3d 64 64 64)) []
    {[ 11%nat := [portal_of (hall 11) door];
       12%nat := [portal_of (hall 12) door];
       13%nat := [portal_of (hall 13) door; portal_of (hall 13) (hall 14)];
       14%nat := [portal_of (hall 13) (hall 14); portal_of (hall 14) door];
       15%nat := [portal_of (hall 11) door; portal_of (hall 12) door;
                  portal_of (hall 13) door; portal_of (hall 14) door] ]}
    ∅.

Definition halls_flood : option (result flood_state) :=
  FindAreas liquid_game Q2_AREAPORTAL halls_tree 10
    [hall 11; hall 12; hall 13; hall 14; door]
    (mk_flood_state 0 [mk_mapentity (0%nat, 0%nat) 1] ∅ []).

(** *** Further examples *)

(** The nodes of the three halls and their door. *)
Definition halls : list node_t := [hall 11; hall 12; hall 13; hall 14; door].

(** The state in which the halls are flooded. *)
Definition halls_start : flood_state :=
  mk_flood_state 0 [mk_mapentity (0%nat, 0%nat) 1] ∅ [].

(** The whole area pass over the halls; the tree walked by
    [SetAreaPortalAreas_r] is the door leaf. *)
Definition halls_areas : option (result (flood_state * list areaportal_warning)) :=
  FloodAreas liquid_game Q2_AREAPORTAL halls_tree 10 halls door halls_start.

(** Two area-portal entities between three areas, and an entity that is
    no area portal. *)
Definition three_areas : list mapentity_t :=
  [mk_mapentity (1%nat, 2%nat) 1; mk_mapentity (2%nat, 3%nat) 2;
   mk_mapentity (0%nat, 0%nat) 0].

(** The liquid portal as the one portal of a tree of two water leaves;
    the face of a side is the brush of the map it comes from. *)
Definition face_of (c : side_ptr) : option nat := Some (mapbrush (sp_brush c)).

Definition pond_tree : tree_t :=
  mk_tree
    (Interior (mk_node_data 0 (mk_contentflags 0 false) 4 (mk_qplane3d axis_x 0)
                 false [] [])
       (leaf_of 1 water [W1]) (leaf_of 2 water [W2]))
    (leaf_of 99 air [])
    (mk_aabb3d (mk_qvec3d (-64) (-64) (-64)) (mk_qvec3d 64 64 64))
    [liquid_portal] ∅ ∅.

Definition pond_chain (n : node_t) : list nat := [0%nat].

Definition pond_marked : result vis_state :=
  MarkVisibleSides liquid_game double_dot face_of pond_chain pond_tree [W1; W2]
    (mk_vis_state [liquid_portal] {[ 7%nat ]} []).

(** A hall beside a detail cluster: the one portal of the hall leads to a
    node that is no leaf. *)
Definition cluster : node_t :=
  Interior (mk_node_data 20 air 6 (mk_qplane3d axis_y 0) true [] [])
    (hall 21) (hall 22).

Definition cluster_tree : tree_t :=
  mk_tree door door
    (mk_aabb3d (mk_qvec3d (-64) (-64) (-64)) (mk_qvec3d 64 64 64)) []
    {[ 11%nat := [portal_of (hall 11) cluster] ]} ∅.


(** * Proofs *)

(** ** Two-element arrays and results *)

Lemma idx_upd_same {A : Type} (a : A * A) (k : bool) (x : A) :
  idx (upd a k x) k = x.
Proof. destruct a, k; reflexivity. Qed.

Lemma idx_upd_other {A : Type} (a : A * A) (k i : bool) (x : A) :
  i <> k -> idx (upd a k x) i = idx a i.
Proof. destruct a, k, i; simpl; congruence. Qed.

Lemma bind_Ok {A B : Type} (r : result A) (k : A -> result B) (b : B) :
  r ≫= k = Ok b -> exists a, r = Ok a /\ k a = Ok b.
Proof. destruct r as [a|m]; simpl; [eauto | discriminate]. Qed.

Lemma bind_Ok_l {A B : Type} (a : A) (k : A -> result B) : Ok a ≫= k = k a.
Proof. reflexivity. Qed.

Lemma or_else_assoc {A : Type} (a b c : option A) :
  or_else (or_else a b) c = or_else a (or_else b c).
Proof. destruct a; reflexivity. Qed.

Lemma head_app_or_else {A : Type} (l1 l2 : list A) :
  head (l1 ++ l2) = or_else (head l1) (head l2).
Proof. destruct l1; reflexivity. Qed.

(** ** FindPortalSide: the exact-match scan *)

Section FindPortalSideExact.
Variable game : gamedef_t.
Variable qv_dot : qvec3d -> qvec3d -> fpval.

Lemma exactside_after_match (go gi : bool)
    (ex : option side_ptr * option side_ptr) (j i : bool) (x : side_ptr) :
  idx (set_if_unset gi (set_if_unset go ex (negb j) x) j x) i =
  or_else (idx ex i)
    (if (if Bool.eqb j i then gi else go) then Some x else None).
Proof.
  destruct ex as [[e0|] [e1|]], go, gi, j, i; reflexivity.
Qed.

(** One brush: the exact sides recorded after its side loop. *)
Lemma scan_sides_exactside (pn : Z) (p1 : qvec3d) (j : bool) (b : bspbrush_t)
    (go gi : bool) (i : bool) (ss : list side_t) :
  forall st : fps_state,
    (forall s, List.find (fun s => negb (bevel s) && plane_matches pn s) ss = Some s ->
               faces_away j s = true) ->
    exists st',
      scan_sides qv_dot pn p1 j b go gi ss st = Ok st' /\
      idx (exactside st') i =
      or_else (idx (exactside st) i)
        (if (if Bool.eqb j i then gi else go)
         then option_map (mk_side_ptr b)
                (List.find (fun s => negb (bevel s) && plane_matches pn s) ss)
         else None).
Proof.
  induction ss as [|side rest IH]; intros st Hor; simpl.
  - exists st. split; [reflexivity|].
    destruct (idx (exactside st) i), (if Bool.eqb j i then gi else go); reflexivity.
  - simpl in Hor. destruct (bevel side) eqn:Hb; simpl in *.
    + apply IH, Hor.
    + destruct (plane_matches pn side) eqn:Hm; simpl in *.
      * rewrite (Hor side eq_refl). eexists; split; [reflexivity|].
        simpl. apply exactside_after_match.
      * destruct (fp_gt _ _); destruct (IH (mk_fps
            (set_if gi (set_if go (bestside st) (negb j) (mk_side_ptr b side)) j
               (mk_side_ptr b side)) (exactside st)
            (float_of_double (qv_dot p1 (positive_normal side)))) Hor)
          as (st1 & H1 & H2);
        destruct (IH st Hor) as (st2 & H3 & H4); eauto.
Qed.

Lemma exact_candidate_not_admitted (vis : contentflags_t) (pn : Z) (j i : bool)
    (b : bspbrush_t) :
  admitted game vis b = false -> exact_candidate game vis pn j i b = None.
Proof.
  unfold admitted, exact_candidate, generates_on. intros H.
  apply orb_false_iff in H as [-> ->]. destruct (Bool.eqb j i); reflexivity.
Qed.

(** One node: the first brush in iteration order that offers an exact face
    for side [i] is the one recorded, unless one was recorded before. *)
Lemma scan_brushes_exactside (vis : contentflags_t) (pn : Z) (p1 : qvec3d)
    (j i : bool) (bs : list bspbrush_t) :
  forall st : fps_state,
    (forall b s, In b bs -> admitted game vis b = true ->
                 first_exact_side pn b = Some s -> faces_away j s = true) ->
    exists st',
      scan_brushes game qv_dot vis pn p1 j bs st = Ok st' /\
      idx (exactside st') i =
      or_else (idx (exactside st) i)
        (head (omap (exact_candidate game vis pn j i) bs)).
Proof.
  induction bs as [|b rest IH]; intros st Hor.
  - exists st. split; [reflexivity|]. simpl. destruct (idx (exactside st) i); reflexivity.
  - simpl scan_brushes.
    assert (Hrest : forall b' s, In b' rest -> admitted game vis b' = true ->
              first_exact_side pn b' = Some s -> faces_away j s = true)
      by (intros; eapply Hor; eauto; right; assumption).
    destruct (portal_generates_face game vis (brush_contents b) SIDE_FRONT
              || portal_generates_face game vis (brush_contents b) SIDE_BACK) eqn:Hadm;
      simpl negb; cbv iota.
    + destruct (scan_sides_exactside pn p1 j b
                  (portal_generates_face game vis (brush_contents b) SIDE_FRONT)
                  (portal_generates_face game vis (brush_contents b) SIDE_BACK)
                  i (sides b) st) as (st1 & Hs1 & He1).
      { intros s Hs. eapply (Hor b s); [left; reflexivity | exact Hadm | exact Hs]. }
      rewrite Hs1, bind_Ok_l.
      destruct (IH st1 Hrest) as (st2 & Hs2 & He2).
      exists st2. split; [exact Hs2|].
      rewrite He2, He1, or_else_assoc. f_equal.
      simpl omap. unfold exact_candidate at 2, generates_on, generate_inside,
        generate_outside, first_exact_side.
      destruct (if Bool.eqb j i then _ else _); [|reflexivity].
      destruct (List.find _ (sides b)); reflexivity.
    + destruct (IH st Hrest) as (st2 & Hs2 & He2).
      exists st2. split; [exact Hs2|].
      rewrite He2. simpl omap.
      rewrite (exact_candidate_not_admitted vis pn j i b Hadm). reflexivity.
Qed.

Lemma FindPortalSide_exact (p : portal_t) (on : node_t) (i : bool) :
  contents_are_empty game (viscontents_of game p) = false ->
  onnode p = Some on ->
  well_oriented game (viscontents_of game p) (node_planenum (data on)) p ->
  exists st,
    scan_node game qv_dot (viscontents_of game p) (node_planenum (data on))
        (normal (node_plane (data on))) p false
        (mk_fps (None, None) (None, None) (Finite 0)) ≫=
      scan_node game qv_dot (viscontents_of game p) (node_planenum (data on))
        (normal (node_plane (data on))) p true = Ok st /\
    FindPortalSide game qv_dot p =
      Ok (mk_portal (portal_plane p) (onnode p) (nodes p) (winding p) true
            (prefer_exact st false, prefer_exact st true),
          match (prefer_exact st false, prefer_exact st true) with
          | (None, None) => ["WARNING: side not found for portal"%string]
          | _ => []
          end) /\
    idx (exactside st) i =
      head (exact_candidates game (viscontents_of game p) (node_planenum (data on)) p i).
Proof.
  intros Hvis Hon Hor.
  unfold scan_node.
  destruct (scan_brushes_exactside (viscontents_of game p) (node_planenum (data on))
              (normal (node_plane (data on))) false i
              (rev (original_brushes (data (idx (nodes p) false))))
              (mk_fps (None, None) (None, None) (Finite 0))) as (st1 & Hs1 & He1).
  { intros b s Hin. apply (Hor false b s). apply in_rev. exact Hin. }
  destruct (scan_brushes_exactside (viscontents_of game p) (node_planenum (data on))
              (normal (node_plane (data on))) true i
              (rev (original_brushes (data (idx (nodes p) true))))
              st1) as (st2 & Hs2 & He2).
  { intros b s Hin. apply (Hor true b s). apply in_rev. exact Hin. }
  exists st2. split; [|split].
  - rewrite Hs1, bind_Ok_l. exact Hs2.
  - unfold FindPortalSide. fold (viscontents_of game p). rewrite Hvis, Hon.
    unfold scan_node. rewrite Hs1, bind_Ok_l, Hs2, bind_Ok_l. reflexivity.
  - rewrite He2, He1. unfold exact_candidates. rewrite head_app_or_else.
    destruct i; reflexivity.
Qed.


Lemma omap_all_None {A B : Type} (f : A -> option B) (l : list A) :
  (forall a, In a l -> f a = None) -> omap f l = [].
Proof.
  induction l as [|a l IH]; intros H; [reflexivity|].
  simpl. rewrite (H a (or_introl eq_refl)). apply IH. intros; apply H; right; assumption.
Qed.

(** C1, as far as the code goes.  On each portal side the exactly matching
    face of the latest-declared brush of a node wins over the earlier
    brushes of that node; for a brush of node 1 this holds when node 0,
    which is scanned first, offers no exactly matching face for that
    side. *)
Theorem find_portal_side_exact_latest (p : portal_t) (on : node_t) (i j : bool)
    (pre post : list bspbrush_t) (B : bspbrush_t) (c : side_ptr) :
  let vis := viscontents_of game p in
  let pn := node_planenum (data on) in
  contents_are_empty game vis = false ->
  onnode p = Some on ->
  well_oriented game vis pn p ->
  original_brushes (data (idx (nodes p) j)) = pre ++ B :: post ->
  exact_candidate game vis pn j i B = Some c ->
  (forall B', In B' post -> exact_candidate game vis pn j i B' = None) ->
  (j = true ->
   forall B', In B' (original_brushes (data (fst (nodes p)))) ->
              exact_candidate game vis pn false i B' = None) ->
  exists p' w, FindPortalSide game qv_dot p = Ok (p', w) /\
               idx (portal_sides p') i = Some c.
Proof.
  intros vis pn Hvis Hon Hor Hsplit HB Hpost Hnode0.
  destruct (FindPortalSide_exact p on i Hvis Hon Hor) as (st & _ & Hfps & Hex).
  eexists _, _. split; [exact Hfps|].
  assert (Hsel : idx (exactside st) i = Some c).
  { rewrite Hex. unfold exact_candidates. fold vis pn.
    destruct j; simpl idx in Hsplit.
    - rewrite (omap_all_None (exact_candidate game vis pn false i)
                 (rev (original_brushes (data (fst (nodes p)))))).
      + rewrite Hsplit, rev_app_distr. simpl rev. rewrite <- !app_assoc.
        rewrite omap_app, (omap_all_None _ (rev post)).
        * simpl. rewrite HB. reflexivity.
        * intros a Ha. apply Hpost, in_rev, Ha.
      + intros a Ha. apply (Hnode0 eq_refl), in_rev, Ha.
    - rewrite Hsplit, rev_app_distr. simpl rev. rewrite <- !app_assoc.
      rewrite omap_app, (omap_all_None _ (rev post)).
      + simpl. rewrite HB. reflexivity.
      + intros a Ha. apply Hpost, in_rev, Ha. }
  simpl portal_sides. unfold prefer_exact.
  destruct i; simpl idx in *; rewrite Hsel; reflexivity.
Qed.

End FindPortalSideExact.

(** C1: a witness of the theorem, two brushes of one leaf. *)
Lemma find_portal_side_exact_latest_witness :
  exists p' w,
    FindPortalSide liquid_game double_dot
      (portal_between
         (leaf_of 1 water [W1; mk_bspbrush 1 water [W1_face] None])
         (leaf_of 2 air [])) = Ok (p', w) /\
    idx (portal_sides p') false =
      Some (mk_side_ptr (mk_bspbrush 1 water [W1_face] None) W1_face).
Proof.
  apply (find_portal_side_exact_latest liquid_game double_dot
           (portal_between
              (leaf_of 1 water [W1; mk_bspbrush 1 water [W1_face] None])
              (leaf_of 2 air []))
           (Interior (mk_node_data 0 (mk_contentflags 0 false) 4
                        (mk_qplane3d axis_x 0) false [] [])
              (leaf_of 1 water [W1; mk_bspbrush 1 water [W1_face] None])
              (leaf_of 2 air []))
           false false [W1] [] (mk_bspbrush 1 water [W1_face] None)).
  - reflexivity.
  - reflexivity.
  - intros j b s Hin _ Hs. destruct j; simpl in Hin.
    + destruct Hin.
    + destruct Hin as [<-|[<-|[]]]; vm_compute in Hs; injection Hs as <-; reflexivity.
  - reflexivity.
  - reflexivity.
  - intros B' [].
  - discriminate.
Defined.

(** C1 (as stated) fails: [W1] in the front leaf and [W2] in the back leaf
    both offer side 0 a face on the portal's plane; [W2] is declared later,
    and the face of [W1] is chosen.  The comments of [FindPortalSide] give
    the later brush of the map file the priority: the reverse iteration
    orders the brushes of one node only. *)
Lemma exact_latest_declared_wins_counterexample : ~ exact_latest_declared_wins.
Proof.
  intros H.
  specialize (H liquid_game double_dot liquid_portal
                (Interior (mk_node_data 0 (mk_contentflags 0 false) 4
                             (mk_qplane3d axis_x 0) false [] [])
                   (leaf_of 1 water [W1]) (leaf_of 2 water [W2]))
                false (mk_side_ptr W2 W2_face)
                (mk_portal (portal_plane liquid_portal) (onnode liquid_portal)
                   (nodes liquid_portal) [] true
                   (Some (mk_side_ptr W1 W1_face), Some (mk_side_ptr W1 W1_face)))
                []).
  simpl in H.
  assert (Hsel : Some (mk_side_ptr W1 W1_face) = Some (mk_side_ptr W2 W2_face)).
  { apply H.
    - reflexivity.
    - reflexivity.
    - intros j b s Hin _ Hs.
      destruct j; simpl in Hin; destruct Hin as [<-|[]];
        vm_compute in Hs; injection Hs as <-; reflexivity.
    - reflexivity.
    - exists true. split; [left; reflexivity | reflexivity].
    - intros j' b' c' Hin _.
      destruct j'; simpl in Hin; destruct Hin as [<-|[]]; simpl; lia. }
  discriminate Hsel.
Qed.


(** ** FindPortalSide: the dot-product scan *)

(** *** Comparisons *)

Lemma Qgtb_true (a b : Q) : Qgtb a b = true <-> (b < a)%Q.
Proof.
  unfold Qgtb. rewrite negb_true_iff, <- not_true_iff_false, Qle_bool_iff.
  split; [apply Qnot_le_lt | apply Qlt_not_le].
Qed.


(** *** Powers of two *)

Lemma pow2_pos (e : Z) : (0 < 2 ^ e)%Q.
Proof. apply Qpower_0_lt. reflexivity. Qed.

Lemma pow2_add (a b : Z) : (2 ^ (a + b) == 2 ^ a * 2 ^ b)%Q.
Proof. apply Qpower_plus. discriminate. Qed.



Lemma pow2_lt_inv (a b : Z) : (2 ^ a < 2 ^ b)%Q -> a < b.
Proof. intros H. eapply Qpower_lt_compat_l_inv; [exact H | reflexivity]. Qed.

Lemma pow2_cancel (a : Z) : (2 ^ a * 2 ^ (- a) == 1)%Q.
Proof. rewrite <- pow2_add. replace (a + - a) with 0 by lia. reflexivity. Qed.

Lemma pow2_Z (n : Z) : 0 <= n -> (inject_Z (2 ^ n) == 2 ^ n)%Q.
Proof. intros H. rewrite Zpower_Qpower by exact H. reflexivity. Qed.

(** *** The exponent of a positive number *)

Lemma floor_log2_spec (a : Q) :
  (0 < a)%Q -> (2 ^ floor_log2 a <= a)%Q /\ (a < 2 ^ (floor_log2 a + 1))%Q.
Proof.
  intros Ha. destruct a as [n d]. unfold floor_log2. simpl Qnum. simpl Qden.
  assert (Hn : 0 < n) by (unfold Qlt in Ha; simpl in Ha; lia).
  set (ln := Z.log2 n). set (ld := Z.log2 (Z.pos d)).
  destruct (Z.log2_spec n Hn) as [Hn1 Hn2]. fold ln in Hn1, Hn2.
  destruct (Z.log2_spec (Z.pos d) eq_refl) as [Hd1 Hd2]. fold ld in Hd1, Hd2.
  assert (Hln : 0 <= ln) by apply Z.log2_nonneg.
  assert (Hld : 0 <= ld) by apply Z.log2_nonneg.
  assert (Ea : ((n # d) * inject_Z (Z.pos d) == inject_Z n)%Q).
  { unfold Qeq, Qmult, inject_Z. simpl. lia. }
  assert (Hd1q : (2 ^ ld <= inject_Z (Z.pos d))%Q).
  { rewrite <- pow2_Z by exact Hld. rewrite <- Zle_Qle. exact Hd1. }
  assert (Hd2q : (inject_Z (Z.pos d) < 2 ^ (ld + 1))%Q).
  { rewrite <- pow2_Z by lia. rewrite <- Zlt_Qlt.
    replace (ld + 1) with (Z.succ ld) by lia. exact Hd2. }
  assert (Hn1q : (2 ^ ln <= inject_Z n)%Q).
  { rewrite <- pow2_Z by exact Hln. rewrite <- Zle_Qle. exact Hn1. }
  assert (Hn2q : (inject_Z n < 2 ^ (ln + 1))%Q).
  { rewrite <- pow2_Z by lia. rewrite <- Zlt_Qlt.
    replace (ln + 1) with (Z.succ ln) by lia. exact Hn2. }
  (* a < 2 ^ (ln - ld + 1) and 2 ^ (ln - ld - 1) < a *)
  assert (Hup : ((n # d) < 2 ^ (ln - ld + 1))%Q).
  { apply Qnot_le_lt. intros Hc.
    assert (H1 : (2 ^ (ln - ld + 1) * 2 ^ ld <= (n # d) * inject_Z (Z.pos d))%Q).
    { apply Qle_trans with ((n # d) * 2 ^ ld)%Q.
      - apply Qmult_le_compat_r; [exact Hc | apply Qlt_le_weak, pow2_pos].
      - rewrite !(Qmult_comm (n # d)). apply Qmult_le_compat_r; [exact Hd1q|].
        apply Qlt_le_weak. exact Ha. }
    rewrite <- pow2_add, Ea in H1.
    replace (ln - ld + 1 + ld) with (ln + 1) in H1 by lia.
    apply (Qlt_not_le _ _ Hn2q H1). }
  assert (Hlow : (2 ^ (ln - ld - 1) < (n # d))%Q).
  { apply Qnot_le_lt. intros Hc.
    assert (H1 : ((n # d) * inject_Z (Z.pos d) < 2 ^ (ln - ld - 1) * 2 ^ (ld + 1))%Q).
    { apply Qle_lt_trans with (2 ^ (ln - ld - 1) * inject_Z (Z.pos d))%Q.
      - apply Qmult_le_compat_r; [exact Hc|]. rewrite <- (Zle_Qle 0). lia.
      - rewrite !(Qmult_comm (2 ^ (ln - ld - 1))).
        apply Qmult_lt_compat_r; [apply pow2_pos | exact Hd2q]. }
    rewrite <- pow2_add, Ea in H1.
    replace (ln - ld - 1 + (ld + 1)) with ln in H1 by lia.
    apply (Qlt_not_le _ _ H1 Hn1q). }
  destruct (Qle_bool (2 ^ (ln - ld)) (n # d)) eqn:Hc.
  - apply Qle_bool_iff in Hc. split; [exact Hc | exact Hup].
  - assert (Hc' : ((n # d) < 2 ^ (ln - ld))%Q).
    { apply Qnot_le_lt. intros H. apply Qle_bool_iff in H. congruence. }
    split; [apply Qlt_le_weak; exact Hlow|].
    replace (ln - ld - 1 + 1) with (ln - ld) by lia. exact Hc'.
Qed.

Lemma floor_log2_unique (a : Q) (e : Z) :
  (2 ^ e <= a)%Q -> (a < 2 ^ (e + 1))%Q -> floor_log2 a = e.
Proof.
  intros H1 H2.
  assert (Ha : (0 < a)%Q) by (eapply Qlt_le_trans; [apply (pow2_pos e) | exact H1]).
  destruct (floor_log2_spec a Ha) as [H3 H4].
  assert (e < floor_log2 a + 1)
    by (apply pow2_lt_inv; eapply Qle_lt_trans; [exact H1 | exact H4]).
  assert (floor_log2 a < e + 1)
    by (apply pow2_lt_inv; eapply Qle_lt_trans; [exact H3 | exact H2]).
  lia.
Qed.


(** *** Rounding to the nearest integer *)



Lemma round_nearest_even_comp (s t : Q) :
  (s == t)%Q -> round_nearest_even s = round_nearest_even t.
Proof.
  intros E. unfold round_nearest_even.
  assert (Ef : Qfloor s = Qfloor t) by (apply Qfloor_comp; exact E).
  rewrite Ef.
  assert (Ec : (s - inject_Z (Qfloor t) ?= 1 # 2)%Q = (t - inject_Z (Qfloor t) ?= 1 # 2)%Q).
  { apply Qcompare_comp; [rewrite E; reflexivity | reflexivity]. }
  rewrite Ec. reflexivity.
Qed.


(** *** The nearest float *)

Lemma floor_log2_comp (a b : Q) :
  (0 < a)%Q -> (a == b)%Q -> floor_log2 a = floor_log2 b.
Proof.
  intros Ha E. destruct (floor_log2_spec a Ha) as [H1 H2].
  symmetry. apply floor_log2_unique; rewrite <- E; assumption.
Qed.

Lemma nearest_float_comp (a b : Q) :
  (0 < a)%Q -> (a == b)%Q -> (nearest_float a == nearest_float b)%Q.
Proof.
  intros Ha E. unfold nearest_float, float_exponent.
  rewrite (floor_log2_comp a b Ha E).
  rewrite (round_nearest_even_comp (a * 2 ^ (23 - Z.max (floor_log2 b) (-126)))
             (b * 2 ^ (23 - Z.max (floor_log2 b) (-126)))) by (rewrite E; reflexivity).
  reflexivity.
Qed.










(** *** Comparisons of floating-point values *)


Lemma fp_gt_trans (a b c : fpval) :
  fp_gt a b = true -> fp_gt b c = true -> fp_gt a c = true.
Proof.
  destruct a as [x|[|]|], b as [y|[|]|], c as [z|[|]|]; simpl;
    try discriminate; try reflexivity.
  rewrite !Qgtb_true. intros H1 H2. eapply Qlt_trans; eassumption.
Qed.



(** *** The narrowing to float *)

Lemma Qred_le_l (a b : Q) : (a <= b)%Q -> (Qred a <= b)%Q.
Proof. intros H. rewrite Qred_correct. exact H. Qed.










(** *** The running best *)

Section FindPortalSideDot.
Variable game : gamedef_t.
Variable qv_dot : qvec3d -> qvec3d -> fpval.





(** *** The scan *)





End FindPortalSideDot.


(** What [FindPortalSide] leaves on [walls_portal]: side 0 has the face of
    the later-declared of the two walls with the same dot product, side 1
    the face of [front_wall] on the portal's plane. *)
Example find_portal_side_walls :
  scanned liquid_game (viscontents_of liquid_game walls_portal) 4 walls_portal =
    [(false, mk_side_ptr front_wall (mk_side 12 false half_x));
     (true, mk_side_ptr late_wall (mk_side 10 false axis_x));
     (true, mk_side_ptr early_wall (mk_side 18 false axis_x))] /\
  exists p' w,
    FindPortalSide liquid_game double_dot walls_portal = Ok (p', w) /\
    portal_sides p' =
      (Some (mk_side_ptr late_wall (mk_side 10 false axis_x)),
       Some (mk_side_ptr front_wall (mk_side 5 false axis_x))).
Proof.
  split; [reflexivity|]. eexists _, _. split; [vm_compute; reflexivity | reflexivity].
Qed.


(** The running best is one number for both portal sides: the inside face
    of [pool] is the only candidate of side 1, and side 1 is left without
    a face because the outside face of [wall], scanned before it for side
    0, has the greater dot product. *)
Example find_portal_side_one_bestdot :
  side_dot_candidates one_face_game (viscontents_of one_face_game pool_portal)
    pool_portal true = [mk_side_ptr pool (mk_side 8 false half_x)] /\
  exists p' w,
    FindPortalSide one_face_game double_dot pool_portal = Ok (p', w) /\
    portal_sides p' = (Some (mk_side_ptr wall (mk_side 10 false axis_x)), None).
Proof.
  split; [reflexivity|]. eexists _, _. split; reflexivity.
Qed.

(** The running best is a [float]: two faces with the same dot product,
    which is not a [float], and the one declared first is chosen. *)
Example find_portal_side_narrowed_tie :
  exists p' w,
    FindPortalSide liquid_game double_dot wedge_portal = Ok (p', w) /\
    idx (portal_sides p') false = Some (mk_side_ptr (wedge 0) (mk_side 8 false diagonal)).
Proof.
  eexists _, _. split; [vm_compute; reflexivity | reflexivity].
Qed.

(** *** The narrowing on numbers *)

Example float_of_double_keeps_floats :
  float_of_double (Finite 0) = Finite 0 /\ float_of_double (Finite 1) = Finite 1 /\
  float_of_double (Finite (1 # 2)) = Finite (1 # 2) /\
  float_of_double (Finite (- (3 # 4))) = Finite (- (3 # 4)) /\
  float_of_double (Infinity false) = Infinity false /\ float_of_double NaN = NaN.
Proof. repeat split; vm_compute; reflexivity. Qed.

Example float_of_double_rounds_sqrt_half :
  float_of_double (Finite sqrt_half) = Finite (11863283 # 16777216) /\
  fp_gt (Finite sqrt_half) (float_of_double (Finite sqrt_half)) = true.
Proof. split; vm_compute; reflexivity. Qed.

Example float_of_double_ties_to_even :
  float_of_double (Finite 16777217) = Finite 16777216 /\
  float_of_double (Finite 16777219) = Finite 16777220.
Proof. split; vm_compute; reflexivity. Qed.

(** Below the least float the result is 0, and beyond the greatest one it
    is the infinity. *)
Example float_of_double_range :
  float_of_double (Finite (1 # 2 ^ 150)) = Finite 0 /\
  float_of_double (Finite (3 # 2 ^ 150)) = Finite (1 # 2 ^ 148) /\
  float_of_double (Finite (inject_Z (2 ^ 128 - 2 ^ 103 - 1))) =
    Finite (inject_Z (2 ^ 128 - 2 ^ 104)) /\
  float_of_double (Finite (inject_Z (2 ^ 128 - 2 ^ 103))) = Infinity false /\
  float_of_double (Finite (- inject_Z (2 ^ 128))) = Infinity true.
Proof. repeat split; vm_compute; reflexivity. Qed.

(** On the sample doubles the narrowing is the one of the standard
    library's specification of binary32. *)
Example float_of_double_agrees_with_binary32 :
  forallb narrowing_agrees sample_doubles = true.
Proof. vm_compute. reflexivity. Qed.


(** ** SplitNodePortals *)

Section SplitNodePortalsFacts.
Variable W : winding_lib.

Lemma drop_tiny_spec (w : option winding_t) (stats : portalstats_t) :
  drop_tiny W w stats =
  (if kept W w then w else None,
   mk_portalstats (c_tinyportals stats + Nat.b2n (is_tiny W w))).
Proof.
  destruct stats as [n]. unfold drop_tiny, kept, is_tiny, count_tiny.
  destruct w as [x|]; simpl.
  - destruct (WindingIsTiny W x tiny_size); simpl; f_equal; f_equal; lia.
  - f_equal. f_equal. lia.
Qed.

Lemma split_portal_spec (node : node_t) (p : buildportal_t)
    (stats : portalstats_t) (fresh : nat) :
  linked node p = true ->
  split_portal W node p stats fresh =
  Ok (front_piece W node p, back_piece W node p fresh,
      mk_portalstats (c_tinyportals stats + tiny_fragments W node p),
      if kept W (fst (fragments W node p)) && kept W (snd (fragments W node p))
      then S fresh else fresh).
Proof.
  intros Hl. unfold split_portal, front_piece, back_piece, tiny_fragments, which_side,
    linked, moved, relinked in *.
  fold (fragments W node (set_nodes p None None)).
  replace (fragments W node (set_nodes p None None)) with (fragments W node p)
    by reflexivity.
  destruct (fragments W node p) as [fw bw]. simpl fst. simpl snd.
  destruct (points_to (fst (bp_nodes p)) node) eqn:H0;
    [|destruct (points_to (snd (bp_nodes p)) node) eqn:H1; [|discriminate Hl]];
    rewrite bind_Ok_l, !drop_tiny_spec; simpl c_tinyportals;
    unfold kept, is_tiny;
    destruct fw as [fx|], bw as [bx|]; simpl;
    try destruct (WindingIsTiny W fx tiny_size);
    try destruct (WindingIsTiny W bx tiny_size); simpl;
    rewrite <- ?Nat.add_assoc; reflexivity.
Qed.



Lemma back_piece_id (node : node_t) (p q : buildportal_t) (fresh : nat) :
  back_piece W node p fresh = Some q ->
  kept W (snd (fragments W node p)) = true /\
  (if kept W (fst (fragments W node p)) then bp_id q = fresh else bp_id q = bp_id p).
Proof.
  unfold back_piece, kept. destruct (fragments W node p) as [fw [bx|]]; simpl;
    [|discriminate].
  destruct (WindingIsTiny W bx tiny_size); [discriminate|].
  intros [= <-]. split; [reflexivity|].
  destruct fw as [fx|]; [destruct (WindingIsTiny W fx tiny_size)|]; reflexivity.
Qed.

Lemma back_piece_kept (node : node_t) (p : buildportal_t) (fresh : nat) :
  kept W (snd (fragments W node p)) = true ->
  exists q, back_piece W node p fresh = Some q.
Proof.
  unfold back_piece, kept. destruct (fragments W node p) as [fw [bx|]]; simpl;
    [|discriminate].
  destruct (WindingIsTiny W bx tiny_size); [discriminate|]. eauto.
Qed.

(** The whole loop. *)
Lemma SplitNodePortals_lists (node : node_t) (ps : list buildportal_t) :
  (forall p, In p ps -> linked node p = true) ->
  forall (stats : portalstats_t) (fresh : nat),
    exists back fresh',
      SplitNodePortals W node ps stats fresh =
        Ok (omap (front_piece W node) ps, back,
            mk_portalstats
              (c_tinyportals stats + list_sum (List.map (tiny_fragments W node) ps)),
            fresh') /\
      (fresh <= fresh')%nat /\
      (forall q, In q back ->
         exists p fr, In p ps /\ ((fresh <= fr < fresh')%nat \/ kept W (fst (fragments W node p)) = false) /\
                      back_piece W node p fr = Some q) /\
      (forall p, In p ps -> kept W (snd (fragments W node p)) = true ->
         exists fr q, (fresh <= fr)%nat /\ back_piece W node p fr = Some q /\ In q back) /\
      ((forall p, In p ps -> (bp_id p < fresh)%nat) ->
       NoDup (List.map bp_id ps) -> NoDup (List.map bp_id back)).
Proof.
  induction ps as [|p rest IH]; intros Hl stats fresh.
  - exists [], fresh. simpl. rewrite Nat.add_0_r. destruct stats.
    split; [reflexivity|]. split; [lia|]. split; [intros ? []|].
    split; [intros ? []|]. intros _ _. apply NoDup_nil_2.
  - assert (Hrest : forall p', In p' rest -> linked node p' = true)
      by (intros; apply Hl; right; assumption).
    simpl SplitNodePortals.
    rewrite (split_portal_spec node p stats fresh (Hl p (or_introl eq_refl))), bind_Ok_l.
    set (fresh1 := if kept W (fst (fragments W node p)) && kept W (snd (fragments W node p))
                   then S fresh else fresh).
    assert (Hf1 : (fresh <= fresh1)%nat) by (unfold fresh1; destruct (_ && _); lia).
    assert (Hboth : kept W (fst (fragments W node p)) = true ->
                    kept W (snd (fragments W node p)) = true -> fresh1 = S fresh)
      by (unfold fresh1; intros -> ->; reflexivity).
    clearbody fresh1.
    destruct (IH Hrest (mk_portalstats (c_tinyportals stats + tiny_fragments W node p))
                fresh1) as (back & fresh' & Hrun & Hle & Hback & Hkept & Hnodup).
    exists (option_list (back_piece W node p fresh) ++ back), fresh'.
    rewrite Hrun, bind_Ok_l. simpl c_tinyportals.
    split; [|split; [lia|split; [|split]]].
    + simpl List.map. simpl list_sum. simpl omap.
      rewrite Nat.add_assoc.
      destruct (front_piece W node p); reflexivity.
    + intros q Hq. apply in_app_or in Hq as [Hq|Hq].
      * destruct (back_piece W node p fresh) as [q'|] eqn:Hbp; simpl in Hq;
          [destruct Hq as [<-|[]]|destruct Hq].
        exists p, fresh. split; [left; reflexivity|]. split; [|exact Hbp].
        destruct (back_piece_id node p q' fresh Hbp) as [Hkb _].
        destruct (kept W (fst (fragments W node p))) eqn:Hkf; [left|right; reflexivity].
        specialize (Hboth eq_refl Hkb). lia.
      * destruct (Hback q Hq) as (p' & fr & Hin & Hfr & Hbp).
        exists p', fr. split; [right; exact Hin|]. split; [|exact Hbp].
        destruct Hfr as [Hfr|Hfr]; [left; lia | right; exact Hfr].
    + intros p' [<-|Hin] Hk.
      * destruct (back_piece_kept node p fresh Hk) as [q Hq].
        exists fresh, q. split; [lia|]. split; [exact Hq|].
        apply in_or_app. left. rewrite Hq. left. reflexivity.
      * destruct (Hkept p' Hin Hk) as (fr & q & Hfr & Hq & Hinq).
        exists fr, q. split; [lia|]. split; [exact Hq|].
        apply in_or_app. right. exact Hinq.
    + intros Hlt Hnd. simpl in Hnd. apply NoDup_cons in Hnd as [Hnotin Hnd].
      assert (Hlt1 : forall p', In p' rest -> (bp_id p' < fresh1)%nat)
        by (intros p' Hp'; specialize (Hlt p' (or_intror Hp')); lia).
      specialize (Hnodup Hlt1 Hnd).
      rewrite List.map_app.
      destruct (back_piece W node p fresh) as [q|] eqn:Hbp; [|exact Hnodup].
      simpl. apply NoDup_cons. split; [|exact Hnodup].
      intros Hin. apply list_elem_of_In, in_map_iff in Hin as (q' & Heq & Hq').
      destruct (Hback q' Hq') as (p' & fr & Hp' & Hfr & Hbp').
      destruct (back_piece_id node p q fresh Hbp) as [Hkb Hid].
      destruct (back_piece_id node p' q' fr Hbp') as [Hkb' Hid'].
      assert (Hpid : (bp_id p < fresh)%nat) by (apply Hlt; left; reflexivity).
      assert (Hpid' : (bp_id p' < fresh)%nat) by (apply Hlt; right; exact Hp').
      assert (Hne : bp_id p' <> bp_id p).
      { intros E. apply Hnotin. apply list_elem_of_In, in_map_iff. eauto. }
      destruct (kept W (fst (fragments W node p'))) eqn:Hkf'.
      * destruct Hfr as [Hfr|Hfr]; [|discriminate Hfr].
        destruct (kept W (fst (fragments W node p))) eqn:Hkf.
        -- specialize (Hboth eq_refl Hkb). lia.
        -- lia.
      * destruct (kept W (fst (fragments W node p))) eqn:Hkf; [lia | congruence].
Qed.



Lemma in_front (node : node_t) (ps : list buildportal_t) (q : buildportal_t) :
  In q (omap (front_piece W node) ps) <->
  exists p, In p ps /\ front_piece W node p = Some q.
Proof.
  rewrite <- list_elem_of_In, list_elem_of_omap.
  split; intros (p & Hp & Hq); exists p; split; auto; apply list_elem_of_In; exact Hp.
Qed.



End SplitNodePortalsFacts.


(** ** MakeHeadnodePortals *)

Section HeadnodePortalsFacts.
Variable game : gamedef_t.
Variable W : winding_lib.
Variable A : aabb_lib.
Variable SIDESPACE : Q.
Variable epsilon : Q.
Variable set_plane : qplane3d -> bool -> qplane3d * bool.

Lemma clip_by_planes_spec (i : nat) (pls : list (nat * qplane3d)) :
  forall w : winding_t,
    clip_by_planes W epsilon i pls w =
    match clipped_by_others W epsilon pls i w with
    | Some w' => Ok w'
    | None => FError "portal winding clipped away"
    end.
Proof.
  unfold clipped_by_others.
  induction pls as [|[j pl] rest IH]; intros w; [reflexivity|].
  simpl. destruct (Nat.eqb j i); simpl; [apply IH|].
  destruct (clip_front W w pl epsilon true) as [w2|]; simpl; [apply IH|].
  clear IH. induction (List.filter _ rest) as [|a l IHl]; [reflexivity | exact IHl].
Qed.

Lemma clip_box_portals_spec (pls : list (nat * qplane3d))
    (portal : nat -> buildportal_t) (l : list nat) :
  clip_box_portals W epsilon pls (List.map (fun n => (n, portal n)) l) =
  match mapM (fun n => clipped_by_others W epsilon pls n (bp_winding (portal n))) l with
  | Some ws => Ok (zip_with (fun n w => set_winding (portal n) w) l ws)
  | None => FError "portal winding clipped away"
  end.
Proof.
  induction l as [|n l IH]; [reflexivity|].
  simpl. rewrite clip_by_planes_spec.
  destruct (clipped_by_others W epsilon pls n (bp_winding (portal n))) as [w|];
    simpl; [|reflexivity].
  rewrite IH. destruct (mapM _ l) as [ws|]; reflexivity.
Qed.

Lemma MakeHeadnodePortals_spec (tree : tree_t) (fresh : nat) :
  snd (MakeHeadnodePortals game W A SIDESPACE epsilon set_plane tree fresh) =
  match
    mapM (fun n =>
            clipped_by_others W epsilon
              (box_planes (aabb_grow A (tree_bounds tree) SIDESPACE)) n
              (bp_winding
                 (box_portal W set_plane (mark_outside game tree)
                    (aabb_grow A (tree_bounds tree) SIDESPACE) fresh n)))
      box_indices
  with
  | Some ws =>
    Ok (zip_with
          (fun n w =>
             set_winding
               (box_portal W set_plane (mark_outside game tree)
                  (aabb_grow A (tree_bounds tree) SIDESPACE) fresh n) w)
          box_indices ws,
        (fresh + 6)%nat)
  | None => FError "portal winding clipped away"
  end.
Proof.
  unfold MakeHeadnodePortals, box_planes. cbv zeta. cbn [snd].
  rewrite clip_box_portals_spec.
  destruct (mapM _ box_indices); reflexivity.
Qed.

(** C5.  Each of the six box portals is clipped by the five other box
    planes; when one of the six windings is clipped away the result is the
    fatal error and no portal list, otherwise it is the six clipped
    portals. *)
Theorem headnode_portal_clipped_away_is_fatal (tree : tree_t) (fresh : nat) :
  snd (MakeHeadnodePortals game W A SIDESPACE epsilon set_plane tree fresh) =
  match
    mapM (fun n =>
            clipped_by_others W epsilon
              (box_planes (aabb_grow A (tree_bounds tree) SIDESPACE)) n
              (bp_winding
                 (box_portal W set_plane (mark_outside game tree)
                    (aabb_grow A (tree_bounds tree) SIDESPACE) fresh n)))
      box_indices
  with
  | Some ws =>
    Ok (zip_with
          (fun n w =>
             set_winding
               (box_portal W set_plane (mark_outside game tree)
                  (aabb_grow A (tree_bounds tree) SIDESPACE) fresh n) w)
          box_indices ws,
        (fresh + 6)%nat)
  | None => FError "portal winding clipped away"
  end.
Proof. apply MakeHeadnodePortals_spec. Qed.

Lemma in_zip_with_set_winding (portal : nat -> buildportal_t) (l : list nat) :
  forall (ws : list winding_t) (p : buildportal_t),
    In p (zip_with (fun n w => set_winding (portal n) w) l ws) ->
    exists n w, p = set_winding (portal n) w.
Proof.
  induction l as [|n l IH]; intros [|w ws] p Hin; simpl in Hin; try destruct Hin.
  - subst p. eauto.
  - eapply IH; eassumption.
Qed.

(** Every box portal has the outside node on one side and the headnode on
    the other. *)
Lemma box_portal_nodes (tree : tree_t) (bounds : aabb3d) (fresh n : nat) (w : winding_t) :
  let p := set_winding (box_portal W set_plane tree bounds fresh n) w in
  bp_nodes p = (Some (outside_node tree), Some (headnode tree)) \/
  bp_nodes p = (Some (headnode tree), Some (outside_node tree)).
Proof.
  unfold box_portal. destruct (set_plane _ true) as [pl [|]]; simpl; auto.
Qed.

End HeadnodePortalsFacts.

(** ** Portal_EntityFlood *)

(** C9.  Across a portal between two leaves the flood passes exactly when
    neither leaf is solid. *)
Theorem portal_entity_flood_iff_no_solid (game : gamedef_t) (p : portal_t) (s : bool) :
  is_leaf (fst (nodes p)) = true ->
  is_leaf (snd (nodes p)) = true ->
  Portal_EntityFlood game p s =
    Ok (negb (contents_are_any_solid game (contents (data (fst (nodes p))))) &&
        negb (contents_are_any_solid game (contents (data (snd (nodes p)))))).
Proof.
  intros H0 H1. unfold Portal_EntityFlood. rewrite H0, H1. simpl.
  destruct (contents_are_any_solid game (contents (data (fst (nodes p))))),
           (contents_are_any_solid game (contents (data (snd (nodes p))))); reflexivity.
Qed.

(** C9: a witness, the portal between two water leaves. *)
Lemma portal_entity_flood_iff_no_solid_witness :
  Portal_EntityFlood liquid_game liquid_portal false = Ok true.
Proof.
  exact (portal_entity_flood_iff_no_solid liquid_game liquid_portal false
           eq_refl eq_refl).
Defined.

(** C10.  After [MakeHeadnodePortals] the outside node is a leaf of solid
    contents; with a policy that classifies its own solid contents as
    solid, the flood predicate never holds on a portal that has the outside
    node on a side, and is false when the other side is a leaf; the six
    box portals all have the outside node on a side. *)
Theorem outside_node_blocks_flood (game : gamedef_t) (W : winding_lib) (A : aabb_lib)
    (SIDESPACE epsilon : Q) (set_plane : qplane3d -> bool -> qplane3d * bool)
    (tree : tree_t) (fresh : nat) :
  contents_are_any_solid game (create_solid_contents game) = true ->
  let run := MakeHeadnodePortals game W A SIDESPACE epsilon set_plane tree fresh in
  let outside := outside_node (fst run) in
  is_leaf outside = true /\
  contents (data outside) = create_solid_contents game /\
  (forall (p : portal_t) (s k : bool),
     idx (nodes p) k = outside ->
     Portal_EntityFlood game p s <> Ok true /\
     (is_leaf (idx (nodes p) (negb k)) = true ->
      Portal_EntityFlood game p s = Ok false)) /\
  (forall ps fresh' p,
     snd run = Ok (ps, fresh') -> In p ps ->
     exists k, idx (bp_nodes p) k = Some outside).
Proof.
  intros Hsolid run outside.
  split; [reflexivity|]. split; [reflexivity|]. split.
  - intros p s k Hk.
    assert (Hl : is_leaf (idx (nodes p) k) = true) by (rewrite Hk; reflexivity).
    assert (Hc : contents_are_any_solid game (contents (data (idx (nodes p) k))) = true)
      by (rewrite Hk; exact Hsolid).
    unfold Portal_EntityFlood.
    destruct k; simpl idx in *; rewrite Hl, Hc.
    + destruct (is_leaf (fst (nodes p))); simpl; [|split; [discriminate|discriminate]].
      rewrite orb_true_r. split; [discriminate | reflexivity].
    + simpl. destruct (is_leaf (snd (nodes p))); simpl;
        [split; [discriminate | reflexivity] | split; discriminate].
  - intros ps fresh' p Hrun Hin.
    unfold run in Hrun. rewrite MakeHeadnodePortals_spec in Hrun.
    destruct (mapM _ box_indices) as [ws|]; [|discriminate].
    apply (f_equal (fun r => match r with Ok (l, _) => l | FError _ => [] end))
      in Hrun.
    cbv beta iota in Hrun. rewrite <- Hrun in Hin.
    apply in_zip_with_set_winding in Hin as (n & w & ->).
    destruct (box_portal_nodes W set_plane (mark_outside game tree)
                (aabb_grow A (tree_bounds tree) SIDESPACE) fresh n w) as [E|E];
      rewrite E; [exists false | exists true]; reflexivity.
Qed.


(** ** Tiny windings through the portal builder *)

Section TinyWindings.
Variable W : winding_lib.

Lemma split_portal_Ok_linked (node : node_t) (p : buildportal_t)
    (stats : portalstats_t) (fresh : nat) r :
  split_portal W node p stats fresh = Ok r -> linked node p = true.
Proof.
  unfold split_portal, which_side, linked.
  destruct (points_to (fst (bp_nodes p)) node); [reflexivity|].
  destruct (points_to (snd (bp_nodes p)) node); [reflexivity|discriminate].
Qed.

Lemma SplitNodePortals_Ok_linked (node : node_t) (ps : list buildportal_t) :
  forall (stats : portalstats_t) (fresh : nat) r,
    SplitNodePortals W node ps stats fresh = Ok r ->
    forall p, In p ps -> linked node p = true.
Proof.
  induction ps as [|a l IH]; intros stats fresh r Hrun p Hp; [destruct Hp|].
  simpl in Hrun. apply bind_Ok in Hrun as ([[[pf pb] st1] fr1] & Hone & Hrun).
  apply bind_Ok in Hrun as ([[[fr bk] st2] fr2] & Hrest & _).
  destruct Hp as [<-|Hp].
  - eapply split_portal_Ok_linked, Hone.
  - eapply IH; eassumption.
Qed.

Lemma front_piece_winding (node : node_t) (p q : buildportal_t) :
  front_piece W node p = Some q ->
  WindingIsTiny W (bp_winding p) tiny_size = false ->
  WindingIsTiny W (bp_winding q) tiny_size = false.
Proof.
  unfold front_piece. destruct (fragments W node p) as [[fx|] bw]; [|discriminate].
  destruct (WindingIsTiny W fx tiny_size) eqn:Hf; [discriminate|].
  intros [= <-] Hp. simpl. destruct (kept W bw); assumption.
Qed.

Lemma back_piece_winding (node : node_t) (p q : buildportal_t) (fresh : nat) :
  back_piece W node p fresh = Some q ->
  WindingIsTiny W (bp_winding p) tiny_size = false ->
  WindingIsTiny W (bp_winding q) tiny_size = false.
Proof.
  unfold back_piece. destruct (fragments W node p) as [fw [bx|]]; [|discriminate].
  destruct (WindingIsTiny W bx tiny_size) eqn:Hb; [discriminate|].
  intros [= <-] Hp. destruct (kept W fw); assumption.
Qed.

Lemma SplitNodePortals_no_tiny (node : node_t) (ps : list buildportal_t)
    (stats : portalstats_t) (fresh : nat) front back stats' fresh' :
  SplitNodePortals W node ps stats fresh = Ok (front, back, stats', fresh') ->
  no_tiny_winding W ps ->
  no_tiny_winding W front /\ no_tiny_winding W back.
Proof.
  intros Hrun Hps.
  pose proof (SplitNodePortals_Ok_linked node ps stats fresh _ Hrun) as Hl.
  destruct (SplitNodePortals_lists W node ps Hl stats fresh)
    as (back0 & fresh0 & Hrun0 & _ & Hback & _ & _).
  rewrite Hrun in Hrun0. injection Hrun0 as -> -> _ _.
  split.
  - intros q Hq. apply in_front in Hq as (p & Hp & Hfp).
    eapply front_piece_winding; eauto.
  - intros q Hq. destruct (Hback q Hq) as (p & fr & Hp & _ & Hbp).
    eapply back_piece_winding; eauto.
Qed.

Lemma SplitNodePortals_count (node : node_t) (ps : list buildportal_t)
    (stats : portalstats_t) (fresh : nat) front back stats' fresh' :
  SplitNodePortals W node ps stats fresh = Ok (front, back, stats', fresh') ->
  c_tinyportals stats' =
    (c_tinyportals stats + list_sum (List.map (tiny_fragments W node) ps))%nat.
Proof.
  intros Hrun.
  pose proof (SplitNodePortals_Ok_linked node ps stats fresh _ Hrun) as Hl.
  destruct (SplitNodePortals_lists W node ps Hl stats fresh)
    as (back0 & fresh0 & Hrun0 & _).
  rewrite Hrun in Hrun0. injection Hrun0 as _ _ -> _. reflexivity.
Qed.

Lemma no_tiny_app (l k : list buildportal_t) :
  no_tiny_winding W l -> no_tiny_winding W k -> no_tiny_winding W (l ++ k).
Proof.
  intros Hl Hk p Hp. apply in_app_or in Hp as [Hp|Hp]; auto.
Qed.

Lemma ClipNodePortalsToTree_r_no_tiny (type : portaltype_t) (node : node_t) :
  forall ps stats fresh res stats' fresh',
    ClipNodePortalsToTree_r W node type ps stats fresh = Ok (res, stats', fresh') ->
    no_tiny_winding W ps -> no_tiny_winding W res.
Proof.
  induction node as [d|d front IHf back IHb]; intros ps stats fresh res stats' fresh' Hrun Hps.
  - destruct ps; simpl in Hrun; injection Hrun as <- _ _; exact Hps.
  - destruct ps as [|p0 ps0]; [simpl in Hrun; injection Hrun as <- _ _; exact Hps|].
    remember (p0 :: ps0) as ps eqn:Eps.
    assert (Hunf : ClipNodePortalsToTree_r W (Interior d front back) type ps stats fresh =
              if stops_at type (Interior d front back) then Ok (ps, stats, fresh)
              else
                SplitNodePortals W (Interior d front back) ps stats fresh ≫=
                  (fun '(split_front, split_back, stats, fresh) =>
                     ClipNodePortalsToTree_r W front type split_front stats fresh ≫=
                       (fun '(front_fragments, stats, fresh) =>
                          ClipNodePortalsToTree_r W back type split_back stats fresh ≫=
                            (fun '(back_fragments, stats, fresh) =>
                               Ok (front_fragments ++ back_fragments, stats, fresh)))))
      by (rewrite Eps; reflexivity).
    rewrite Hunf in Hrun. clear Hunf.
    destruct (stops_at type (Interior d front back));
      [injection Hrun as <- _ _; exact Hps|].
    apply bind_Ok in Hrun as ([[[sf sb] st1] fr1] & Hsplit & Hrun).
    apply bind_Ok in Hrun as ([[ff st2] fr2] & Hfront & Hrun).
    apply bind_Ok in Hrun as ([[bf st3] fr3] & Hback & Hrun).
    injection Hrun as <- _ _.
    destruct (SplitNodePortals_no_tiny _ _ _ _ _ _ _ _ Hsplit Hps) as [Hsf Hsb].
    apply no_tiny_app; [eapply IHf | eapply IHb]; eauto.
Qed.

Lemma MakeNodePortal_count (node : node_t) (ps : list buildportal_t)
    (stats : portalstats_t) (fresh : nat) np stats' fresh' :
  MakeNodePortal W node ps stats fresh = Ok (np, stats', fresh') ->
  exists w,
    clip_by_portals W node ps (BaseWindingForNode W node) = Ok w /\
    c_tinyportals stats' = (c_tinyportals stats + Nat.b2n (is_tiny W w))%nat /\
    (is_tiny W w = true -> np = None) /\
    (forall q, np = Some q -> WindingIsTiny W (bp_winding q) tiny_size = false).
Proof.
  unfold MakeNodePortal. intros Hrun.
  apply bind_Ok in Hrun as (w & Hw & Hrun). exists w. split; [exact Hw|].
  destruct w as [x|]; simpl.
  - destruct (WindingIsTiny W x tiny_size) eqn:Ht; injection Hrun as <- <- _; simpl.
    + repeat split; try lia; try discriminate.
    + repeat split; try lia; try discriminate. intros q [= <-]. exact Ht.
  - injection Hrun as <- <- _. repeat split; try lia; discriminate.
Qed.

Lemma MakeTreePortals_r_no_tiny (type : portaltype_t) (node : node_t) :
  forall ps stats fresh res stats' fresh',
    MakeTreePortals_r W node type ps stats fresh = Ok (res, stats', fresh') ->
    no_tiny_winding W ps -> no_tiny_winding W res.
Proof.
  induction node as [d|d front IHf back IHb]; intros ps stats fresh res stats' fresh' Hrun Hps.
  - simpl in Hrun. injection Hrun as <- _ _. exact Hps.
  - simpl in Hrun.
    destruct (stops_at type (Interior d front back));
      [injection Hrun as <- _ _; exact Hps|].
    apply bind_Ok in Hrun as ([[np st0] fr0] & Hnp & Hrun).
    apply bind_Ok in Hrun as ([[[sf sb] st1] fr1] & Hsplit & Hrun).
    apply bind_Ok in Hrun as ([[rf st2] fr2] & Hfront & Hrun).
    apply bind_Ok in Hrun as ([[rb st3] fr3] & Hback & Hrun).
    apply bind_Ok in Hrun as ([[ro st4] fr4] & Honnode & Hrun).
    injection Hrun as <- _ _.
    destruct (SplitNodePortals_no_tiny _ _ _ _ _ _ _ _ Hsplit Hps) as [Hsf Hsb].
    apply no_tiny_app; [eapply IHf; eauto|].
    apply no_tiny_app; [eapply IHb; eauto|].
    destruct np as [q|].
    + apply bind_Ok in Honnode as ([[half st5] fr5] & Hhalf & Honnode).
      destruct (MakeNodePortal_count _ _ _ _ _ _ _ Hnp) as (w & _ & _ & _ & Hq).
      eapply ClipNodePortalsToTree_r_no_tiny; [exact Honnode|].
      eapply ClipNodePortalsToTree_r_no_tiny; [exact Hhalf|].
      intros q' [<-|[]]. apply Hq. reflexivity.
    + injection Honnode as <- _ _. intros q [].
Qed.

(** *** The count of the tiny windings *)

Lemma stats_eta (s : portalstats_t) : mk_portalstats (c_tinyportals s) = s.
Proof. destruct s. reflexivity. Qed.

Lemma tiny_count_app (l k : list (option winding_t)) :
  tiny_count W (l ++ k) = (tiny_count W l + tiny_count W k)%nat.
Proof. unfold tiny_count. rewrite List.filter_app, length_app. reflexivity. Qed.

Lemma tiny_count_split (node : node_t) (ps : list buildportal_t) :
  tiny_count W (split_tested W node ps) =
  list_sum (List.map (tiny_fragments W node) ps).
Proof.
  induction ps as [|p rest IH]; [reflexivity|].
  change (split_tested W node (p :: rest))
    with ([fst (fragments W node p); snd (fragments W node p)] ++
          split_tested W node rest).
  rewrite tiny_count_app, IH.
  simpl List.map. simpl list_sum. f_equal.
  unfold tiny_count, tiny_fragments. simpl List.filter.
  destruct (is_tiny W (fst (fragments W node p))),
           (is_tiny W (snd (fragments W node p))); reflexivity.
Qed.

(** The statistics do not influence what [SplitNodePortals] builds: from
    any count it returns the same lists and adds the same number. *)
Lemma SplitNodePortals_from (node : node_t) (ps : list buildportal_t) :
  forall stats fresh front back stats' fresh',
    SplitNodePortals W node ps stats fresh = Ok (front, back, stats', fresh') ->
    forall s0,
      SplitNodePortals W node ps s0 fresh =
      Ok (front, back,
          mk_portalstats (c_tinyportals s0 + tiny_count W (split_tested W node ps)),
          fresh').
Proof.
  induction ps as [|p rest IH]; intros stats fresh front back stats' fresh' Hrun s0.
  - injection Hrun as <- <- _ <-. simpl. rewrite Nat.add_0_r, stats_eta. reflexivity.
  - pose proof (SplitNodePortals_Ok_linked node (p :: rest) stats fresh _ Hrun p
                  (or_introl eq_refl)) as Hl.
    simpl SplitNodePortals in *.
    rewrite (split_portal_spec W node p stats fresh Hl), bind_Ok_l in Hrun.
    rewrite (split_portal_spec W node p s0 fresh Hl), bind_Ok_l.
    apply bind_Ok in Hrun as ([[[fr bk] st2] fr2] & Hrest & Hrun).
    injection Hrun as <- <- _ <-.
    rewrite (IH _ _ _ _ _ _ Hrest
               (mk_portalstats (c_tinyportals s0 + tiny_fragments W node p))),
      bind_Ok_l.
    simpl c_tinyportals. rewrite !tiny_count_split. simpl List.map. simpl list_sum.
    rewrite Nat.add_assoc. reflexivity.
Qed.

Lemma MakeNodePortal_from (node : node_t) (ps : list buildportal_t)
    (stats : portalstats_t) (fresh : nat) np stats' fresh' :
  MakeNodePortal W node ps stats fresh = Ok (np, stats', fresh') ->
  forall s0,
    MakeNodePortal W node ps s0 fresh =
    Ok (np, mk_portalstats (c_tinyportals s0 + tiny_count W (node_tested W node ps)),
        fresh').
Proof.
  unfold MakeNodePortal, node_tested. intros Hrun s0.
  destruct (clip_by_portals W node ps (BaseWindingForNode W node)) as [w|m];
    [|discriminate Hrun].
  rewrite bind_Ok_l in *. unfold tiny_count. simpl List.filter.
  destruct w as [x|]; simpl is_tiny.
  - destruct (WindingIsTiny W x tiny_size); injection Hrun as <- _ <-; simpl;
      [unfold count_tiny; rewrite Nat.add_1_r | rewrite Nat.add_0_r, stats_eta];
      reflexivity.
  - injection Hrun as <- _ <-. simpl. rewrite Nat.add_0_r, stats_eta. reflexivity.
Qed.

Lemma ClipNodePortalsToTree_r_from (type : portaltype_t) (node : node_t) :
  forall ps stats fresh res stats' fresh',
    ClipNodePortalsToTree_r W node type ps stats fresh = Ok (res, stats', fresh') ->
    exists tested,
      clip_tested W node type ps fresh = Ok tested /\
      forall s0,
        ClipNodePortalsToTree_r W node type ps s0 fresh =
        Ok (res, mk_portalstats (c_tinyportals s0 + tiny_count W tested), fresh').
Proof.
  induction node as [d|d front IHf back IHb];
    intros ps stats fresh res stats' fresh' Hrun.
  - exists []. destruct ps; simpl in *; injection Hrun as <- _ <-;
      (split; [reflexivity|]); intros s0; rewrite Nat.add_0_r, stats_eta;
      reflexivity.
  - destruct ps as [|p0 ps0].
    { exists []. simpl in *. injection Hrun as <- _ <-. split; [reflexivity|].
      intros s0. rewrite Nat.add_0_r, stats_eta. reflexivity. }
    remember (p0 :: ps0) as ps eqn:Eps.
    assert (Hunf : forall s,
              ClipNodePortalsToTree_r W (Interior d front back) type ps s fresh =
              if stops_at type (Interior d front back) then Ok (ps, s, fresh)
              else
                SplitNodePortals W (Interior d front back) ps s fresh ≫=
                  (fun '(split_front, split_back, stats, fresh) =>
                     ClipNodePortalsToTree_r W front type split_front stats fresh ≫=
                       (fun '(front_fragments, stats, fresh) =>
                          ClipNodePortalsToTree_r W back type split_back stats fresh ≫=
                            (fun '(back_fragments, stats, fresh) =>
                               Ok (front_fragments ++ back_fragments, stats, fresh)))))
      by (intros s; rewrite Eps; reflexivity).
    assert (Hunt :
              clip_tested W (Interior d front back) type ps fresh =
              if stops_at type (Interior d front back) then Ok []
              else
                SplitNodePortals W (Interior d front back) ps (mk_portalstats 0) fresh ≫=
                  (fun '(split_front, split_back, _, fresh) =>
                     clip_tested W front type split_front fresh ≫=
                       (fun in_front =>
                          ClipNodePortalsToTree_r W front type split_front
                            (mk_portalstats 0) fresh ≫=
                            (fun '(_, _, fresh) =>
                               clip_tested W back type split_back fresh ≫=
                                 (fun in_back =>
                                    Ok (split_tested W (Interior d front back) ps ++
                                        in_front ++ in_back))))))
      by (rewrite Eps; reflexivity).
    rewrite Hunf in Hrun. rewrite Hunt. clear Hunt.
    destruct (stops_at type (Interior d front back)) eqn:Hstop.
    { injection Hrun as <- _ <-. exists []. split; [reflexivity|].
      intros s0. rewrite Hunf, Nat.add_0_r, stats_eta. reflexivity. }
    apply bind_Ok in Hrun as ([[[sf sb] st1] fr1] & Hsplit & Hrun).
    apply bind_Ok in Hrun as ([[ff st2] fr2] & Hfront & Hrun).
    apply bind_Ok in Hrun as ([[bf st3] fr3] & Hback & Hrun).
    injection Hrun as <- _ <-.
    destruct (IHf _ _ _ _ _ _ Hfront) as (t1 & Ht1 & Hf1).
    destruct (IHb _ _ _ _ _ _ Hback) as (t2 & Ht2 & Hb2).
    exists (split_tested W (Interior d front back) ps ++ t1 ++ t2). split.
    + rewrite (SplitNodePortals_from _ _ _ _ _ _ _ _ Hsplit), bind_Ok_l.
      rewrite Ht1, bind_Ok_l, Hf1, bind_Ok_l, Ht2, bind_Ok_l. reflexivity.
    + intros s0. rewrite Hunf.
      rewrite (SplitNodePortals_from _ _ _ _ _ _ _ _ Hsplit), bind_Ok_l.
      rewrite Hf1, bind_Ok_l, Hb2, bind_Ok_l. simpl c_tinyportals.
      rewrite !tiny_count_app, !Nat.add_assoc. reflexivity.
Qed.

Lemma MakeTreePortals_r_from (type : portaltype_t) (node : node_t) :
  forall ps stats fresh res stats' fresh',
    MakeTreePortals_r W node type ps stats fresh = Ok (res, stats', fresh') ->
    exists tested,
      tree_tested W node type ps fresh = Ok tested /\
      forall s0,
        MakeTreePortals_r W node type ps s0 fresh =
        Ok (res, mk_portalstats (c_tinyportals s0 + tiny_count W tested), fresh').
Proof.
  induction node as [d|d front IHf back IHb];
    intros ps stats fresh res stats' fresh' Hrun.
  - exists []. simpl in *. injection Hrun as <- _ <-. split; [reflexivity|].
    intros s0. rewrite Nat.add_0_r, stats_eta. reflexivity.
  - simpl in Hrun. simpl tree_tested. simpl MakeTreePortals_r.
    destruct (stops_at type (Interior d front back)) eqn:Hstop.
    { injection Hrun as <- _ <-. exists []. split; [reflexivity|].
      intros s0. rewrite Nat.add_0_r, stats_eta. reflexivity. }
    apply bind_Ok in Hrun as ([[np st0] fr0] & Hnp & Hrun).
    apply bind_Ok in Hrun as ([[[sf sb] st1] fr1] & Hsplit & Hrun).
    apply bind_Ok in Hrun as ([[rf st2] fr2] & Hfront & Hrun).
    apply bind_Ok in Hrun as ([[rb st3] fr3] & Hback & Hrun).
    apply bind_Ok in Hrun as ([[ro st4] fr4] & Honnode & Hrun).
    injection Hrun as <- _ <-.
    destruct (IHf _ _ _ _ _ _ Hfront) as (t1 & Ht1 & Hf1).
    destruct (IHb _ _ _ _ _ _ Hback) as (t2 & Ht2 & Hb2).
    destruct np as [q|].
    + apply bind_Ok in Honnode as ([[half st5] fr5] & Hhalf & Honnode).
      destruct (ClipNodePortalsToTree_r_from type front _ _ _ _ _ _ Hhalf)
        as (u1 & Hu1 & Hc1).
      destruct (ClipNodePortalsToTree_r_from type back _ _ _ _ _ _ Honnode)
        as (u2 & Hu2 & Hc2).
      exists (node_tested W (Interior d front back) ps ++
              split_tested W (Interior d front back) ps ++ t1 ++ t2 ++ u1 ++ u2).
      split.
      * rewrite (MakeNodePortal_from _ _ _ _ _ _ _ Hnp), bind_Ok_l.
        rewrite (SplitNodePortals_from _ _ _ _ _ _ _ _ Hsplit), bind_Ok_l.
        rewrite Ht1, bind_Ok_l, Hf1, bind_Ok_l, Ht2, bind_Ok_l, Hb2, bind_Ok_l.
        rewrite Hu1, bind_Ok_l, Hc1, bind_Ok_l, Hu2, !bind_Ok_l. reflexivity.
      * intros s0.
        rewrite (MakeNodePortal_from _ _ _ _ _ _ _ Hnp), bind_Ok_l.
        rewrite (SplitNodePortals_from _ _ _ _ _ _ _ _ Hsplit), bind_Ok_l.
        rewrite Hf1, bind_Ok_l, Hb2, bind_Ok_l.
        rewrite Hc1, bind_Ok_l, Hc2, bind_Ok_l. simpl c_tinyportals.
        rewrite !tiny_count_app, !Nat.add_assoc. reflexivity.
    + injection Honnode as <- _ <-.
      exists (node_tested W (Interior d front back) ps ++
              split_tested W (Interior d front back) ps ++ t1 ++ t2 ++ []).
      split.
      * rewrite (MakeNodePortal_from _ _ _ _ _ _ _ Hnp), bind_Ok_l.
        rewrite (SplitNodePortals_from _ _ _ _ _ _ _ _ Hsplit), bind_Ok_l.
        rewrite Ht1, bind_Ok_l, Hf1, bind_Ok_l, Ht2, bind_Ok_l, Hb2, !bind_Ok_l.
        reflexivity.
      * intros s0.
        rewrite (MakeNodePortal_from _ _ _ _ _ _ _ Hnp), bind_Ok_l.
        rewrite (SplitNodePortals_from _ _ _ _ _ _ _ _ Hsplit), bind_Ok_l.
        rewrite Hf1, bind_Ok_l, Hb2, !bind_Ok_l. simpl c_tinyportals.
        rewrite !tiny_count_app, !Nat.add_assoc, Nat.add_0_r. reflexivity.
Qed.

(** The final portals carry the windings of the build portals. *)
Lemma MakePortalsFromBuildportals_windings (bps : list buildportal_t) :
  forall tree tree',
    MakePortalsFromBuildportals tree bps = Ok tree' ->
    forall p, In p (tree_portals tree') ->
      In p (tree_portals tree) \/
      exists bp, In bp bps /\ winding p = bp_winding bp.
Proof.
  induction bps as [|bp rest IH]; intros tree tree' Hrun p Hp.
  - injection Hrun as <-. left. exact Hp.
  - simpl in Hrun. apply bind_Ok in Hrun as (t1 & Hadd & Hrun).
    destruct (IH t1 tree' Hrun p Hp) as [Hin|(bp' & Hbp' & Hw)].
    + unfold add_buildportal in Hadd.
      destruct (bp_nodes bp) as [[front|] [back|]]; try discriminate.
      injection Hadd as <-. simpl in Hin.
      apply in_app_or in Hin as [Hin|[<-|[]]]; [left; exact Hin|].
      right. exists bp. split; [left; reflexivity | reflexivity].
    + right. exists bp'. split; [right; exact Hbp' | exact Hw].
Qed.

End TinyWindings.

Section BoundsKeepPortals.
Variable A : aabb_lib.
Variable worldextent : Q.

Lemma check_bounds_portals (node : node_t) (st st' : tree_t * list string) :
  check_bounds A worldextent node st = Ok st' ->
  tree_portals (fst st') = tree_portals (fst st) /\
  node_portals (fst st') = node_portals (fst st).
Proof.
  destruct st as [t log]. unfold check_bounds. intros H.
  apply bind_Ok in H as ([t1 log1] & H1 & H2).
  assert (E : tree_portals t1 = tree_portals t /\ node_portals t1 = node_portals t).
  { destruct (without_volume (bounds_at A t (node_id (data node)))).
    - destruct (parent (data node)); [discriminate|]. injection H1 as <- _. split; reflexivity.
    - injection H1 as <- _. split; reflexivity. }
  destruct (beyond_extent worldextent (bounds_at A t1 (node_id (data node))));
    injection H2 as <-; exact E.
Qed.

Lemma CalcTreeBounds_r_leaf (d : node_data) (st : tree_t * list string) :
  CalcTreeBounds_r A worldextent (Leaf d) st =
  check_bounds A worldextent (Leaf d) (CalcNodeBounds A (fst st) (Leaf d), snd st).
Proof. reflexivity. Qed.

Lemma CalcTreeBounds_r_interior (d : node_data) (front back : node_t)
    (st : tree_t * list string) :
  CalcTreeBounds_r A worldextent (Interior d front back) st =
  CalcTreeBounds_r A worldextent front st ≫= fun st1 =>
  CalcTreeBounds_r A worldextent back st1 ≫= fun st2 =>
  check_bounds A worldextent (Interior d front back)
    (set_bounds (fst st2) (node_id d)
       (aabb_union A (bounds_at A (fst st2) (node_id (data front)))
          (bounds_at A (fst st2) (node_id (data back)))),
     snd st2).
Proof.
  simpl. destruct (CalcTreeBounds_r A worldextent front st) as [st1|]; [|reflexivity].
  simpl. destruct (CalcTreeBounds_r A worldextent back st1) as [[t2 log2]|]; reflexivity.
Qed.

Lemma CalcTreeBounds_r_portals (node : node_t) :
  forall st st',
    CalcTreeBounds_r A worldextent node st = Ok st' ->
    tree_portals (fst st') = tree_portals (fst st) /\
    node_portals (fst st') = node_portals (fst st).
Proof.
  induction node as [d|d front IHf back IHb]; intros st st' H.
  - rewrite CalcTreeBounds_r_leaf in H. apply check_bounds_portals in H. exact H.
  - rewrite CalcTreeBounds_r_interior in H.
    apply bind_Ok in H as (st1 & H1 & H).
    apply bind_Ok in H as (st2 & H2 & H).
    apply check_bounds_portals in H. cbn [fst] in H.
    destruct (IHf _ _ H1) as [E1 E1'], (IHb _ _ H2) as [E2 E2'], H as [E3 E3'].
    cbn [set_bounds tree_portals node_portals] in *. split; congruence.
Qed.

End BoundsKeepPortals.

Section PortalizationRun.
Variable game : gamedef_t.
Variable W : winding_lib.
Variable A : aabb_lib.
Variable SIDESPACE : Q.
Variable epsilon : Q.
Variable worldextent : Q.
Variable set_plane : qplane3d -> bool -> qplane3d * bool.

(** C6.  In a portalization run whose six box portals are not tiny, no
    winding below the tiny threshold is among the final portals of the
    tree, and the tiny-portal count that the run returns is the number of
    the windings it tested that are tiny: [MakeNodePortal] adds one to the
    count exactly when it drops its winding for being tiny,
    [SplitNodePortals] adds one for each tiny fragment it drops, and the
    recursion adds up the counts of its calls from whatever count it
    starts with. *)
Theorem tiny_windings_dropped_and_counted (tree : tree_t) (fresh : nat)
    (tree' : tree_t) (stats : portalstats_t) (log : list string) :
  MakeTreePortals game W A SIDESPACE epsilon worldextent set_plane tree fresh =
    Ok (tree', stats, log) ->
  (forall ps fr,
     snd (MakeHeadnodePortals game W A SIDESPACE epsilon set_plane
            (FreeTreePortals tree) fresh) = Ok (ps, fr) ->
     no_tiny_winding W ps) ->
  (forall p, In p (tree_portals tree') ->
             WindingIsTiny W (winding p) tiny_size = false) /\
  (exists tested,
     MakeTreePortals_tested game W A SIDESPACE epsilon set_plane tree fresh =
       Ok tested /\
     c_tinyportals stats = tiny_count W tested) /\
  (forall node type ps st fr res st' fr',
     MakeTreePortals_r W node type ps st fr = Ok (res, st', fr') ->
     exists tested,
       tree_tested W node type ps fr = Ok tested /\
       c_tinyportals st' = (c_tinyportals st + tiny_count W tested)%nat) /\
  (forall node ps st fr np st' fr',
     MakeNodePortal W node ps st fr = Ok (np, st', fr') ->
     exists w,
       clip_by_portals W node ps (BaseWindingForNode W node) = Ok w /\
       c_tinyportals st' = (c_tinyportals st + Nat.b2n (is_tiny W w))%nat /\
       (is_tiny W w = true -> np = None)) /\
  (forall node ps st fr front back st' fr',
     SplitNodePortals W node ps st fr = Ok (front, back, st', fr') ->
     c_tinyportals st' =
       (c_tinyportals st + list_sum (List.map (tiny_fragments W node) ps))%nat).
Proof.
  assert (Hadds : forall node type ps st fr res st' fr',
            MakeTreePortals_r W node type ps st fr = Ok (res, st', fr') ->
            exists tested,
              tree_tested W node type ps fr = Ok tested /\
              c_tinyportals st' = (c_tinyportals st + tiny_count W tested)%nat).
  { intros node type ps st fr res st' fr' H.
    destruct (MakeTreePortals_r_from W type node _ _ _ _ _ _ H) as (ts & Hts & Hfrom).
    exists ts. split; [exact Hts|].
    specialize (Hfrom st). rewrite H in Hfrom. injection Hfrom as ->. reflexivity. }
  intros Hrun Hbox. split; [|split; [|split; [exact Hadds|split]]].
  2:{ unfold MakeTreePortals, MakeTreePortals_tested in *.
      destruct (MakeHeadnodePortals game W A SIDESPACE epsilon set_plane
                  (FreeTreePortals tree) fresh) as [t1 r] eqn:Hhead.
      apply bind_Ok in Hrun as ([hps fr1] & Hr & Hrun).
      apply bind_Ok in Hrun as ([[bps st2] fr2] & Hbuild & Hrun).
      apply bind_Ok in Hrun as (t3 & Hfinal & Hrun).
      apply bind_Ok in Hrun as ([t4 log4] & Hbounds & Hrun).
      injection Hrun as _ <- _.
      destruct (Hadds _ _ _ _ _ _ _ _ Hbuild) as (ts & Hts & Hc).
      exists ts. rewrite Hr, bind_Ok_l. split; [exact Hts | exact Hc]. }
  - unfold MakeTreePortals in Hrun.
    destruct (MakeHeadnodePortals game W A SIDESPACE epsilon set_plane
                (FreeTreePortals tree) fresh) as [t1 r] eqn:Hhead.
    apply bind_Ok in Hrun as ([hps fr1] & Hr & Hrun).
    apply bind_Ok in Hrun as ([[bps st2] fr2] & Hbuild & Hrun).
    apply bind_Ok in Hrun as (t3 & Hfinal & Hrun).
    apply bind_Ok in Hrun as ([t4 log4] & Hbounds & Hrun).
    injection Hrun as <- _ _.
    assert (Hhps : no_tiny_winding W hps) by (apply (Hbox hps fr1); simpl; exact Hr).
    pose proof (MakeTreePortals_r_no_tiny W TREE _ _ _ _ _ _ _ Hbuild Hhps) as Hbps.
    destruct (CalcTreeBounds_r_portals A worldextent _ _ _ Hbounds) as [Eportals _].
    simpl in Eportals. intros p Hp. rewrite Eportals in Hp.
    destruct (MakePortalsFromBuildportals_windings bps t1 t3 Hfinal p Hp)
      as [Hold|(bp & Hbp & ->)].
    + assert (Et1 : tree_portals t1 = []).
      { unfold MakeHeadnodePortals in Hhead. injection Hhead as <- _. reflexivity. }
      rewrite Et1 in Hold. destruct Hold.
    + apply Hbps, Hbp.
  - intros node ps st fr np st' fr' H.
    destruct (MakeNodePortal_count W _ _ _ _ _ _ _ H) as (w & Hw & Hc & Hn & _).
    exists w. auto.
  - intros node ps st fr front back st' fr' H.
    eapply SplitNodePortals_count, H.
Qed.

End PortalizationRun.


(** ** The portal builder returns *)

Section BuilderReturns.
Variable W : winding_lib.

Lemma points_to_self (n : node_t) : points_to (Some n) n = true.
Proof. apply Nat.eqb_refl. Qed.

Lemma points_to_trans (a : option node_t) (n m : node_t) :
  points_to a n = true -> points_to a m = true -> points_to (Some n) m = true.
Proof.
  destruct a as [x|]; simpl; [|discriminate].
  rewrite !Nat.eqb_eq. congruence.
Qed.

Lemma clip_by_portals_returns (node : node_t) (ps : list buildportal_t) :
  (forall p, In p ps -> linked node p = true) ->
  forall w, exists w', clip_by_portals W node ps w = Ok w'.
Proof.
  induction ps as [|p rest IH]; intros Hl w; simpl; [eauto|].
  destruct w as [x|]; [|eauto].
  pose proof (Hl p (or_introl eq_refl)) as Hp. unfold linked in Hp.
  destruct (points_to (fst (bp_nodes p)) node); simpl.
  - apply IH. intros; apply Hl; right; assumption.
  - simpl in Hp. rewrite Hp. simpl. apply IH. intros; apply Hl; right; assumption.
Qed.

Lemma MakeNodePortal_returns (node : node_t) (ps : list buildportal_t)
    (stats : portalstats_t) (fresh : nat) :
  (forall p, In p ps -> linked node p = true) ->
  exists r, MakeNodePortal W node ps stats fresh = Ok r.
Proof.
  intros Hl. unfold MakeNodePortal.
  destruct (clip_by_portals_returns node ps Hl (BaseWindingForNode W node)) as [w ->].
  rewrite bind_Ok_l. destruct w as [x|]; [|eauto].
  destruct (WindingIsTiny W x tiny_size); eauto.
Qed.

Lemma bridges_linked (n X : node_t) (p : buildportal_t) :
  bridges n X p = true -> linked n p = true /\ linked X p = true.
Proof.
  unfold bridges, linked.
  destruct (points_to (fst (bp_nodes p)) n), (points_to (snd (bp_nodes p)) X),
    (points_to (snd (bp_nodes p)) n), (points_to (fst (bp_nodes p)) X);
    simpl; intros H; try discriminate H; split; reflexivity.
Qed.

Lemma relinked_linked (node c : node_t) (p q : buildportal_t) :
  bp_nodes q = relinked node p (Some c) -> linked c q = true.
Proof.
  unfold relinked, linked. intros ->.
  destruct (points_to (fst (bp_nodes p)) node); cbn [fst snd];
    rewrite points_to_self; [reflexivity | apply orb_true_r].
Qed.

Lemma relinked_bridges (node c X : node_t) (p q : buildportal_t) :
  bridges node X p = true ->
  bp_nodes q = relinked node p (Some c) -> bridges c X q = true.
Proof.
  unfold relinked, bridges. intros Hb ->.
  destruct (points_to (fst (bp_nodes p)) node) eqn:H0;
    cbn [fst snd negb andb orb] in *.
  - rewrite points_to_self. cbn [andb]. rewrite orb_false_r in Hb. rewrite Hb.
    reflexivity.
  - rewrite points_to_self.
    apply andb_true_iff in Hb as [_ HX].
    destruct (points_to (fst (bp_nodes p)) c) eqn:Hc; cbn [negb andb orb].
    + rewrite (points_to_trans _ _ _ Hc HX). reflexivity.
    + exact HX.
Qed.

Lemma front_piece_nodes (node : node_t) (p q : buildportal_t) :
  front_piece W node p = Some q -> bp_nodes q = relinked node p (child node false).
Proof.
  unfold front_piece. destruct (fragments W node p) as [[fx|] bw]; [|discriminate].
  destruct (WindingIsTiny W fx tiny_size); [discriminate|]. intros [= <-]. reflexivity.
Qed.

Lemma back_piece_nodes (node : node_t) (p q : buildportal_t) (fresh : nat) :
  back_piece W node p fresh = Some q -> bp_nodes q = relinked node p (child node true).
Proof.
  unfold back_piece. destruct (fragments W node p) as [fw [bx|]]; [|discriminate].
  destruct (WindingIsTiny W bx tiny_size); [discriminate|]. intros [= <-].
  destruct (kept W fw); reflexivity.
Qed.

(** After the split the front list bounds the front child and the back
    list bounds the back child. *)
Lemma SplitNodePortals_children (d : node_data) (front back : node_t)
    (ps : list buildportal_t) (stats : portalstats_t) (fresh : nat) :
  (forall p, In p ps -> linked (Interior d front back) p = true) ->
  exists sf sb stats' fresh',
    SplitNodePortals W (Interior d front back) ps stats fresh =
      Ok (sf, sb, stats', fresh') /\
    (forall q, In q sf -> exists p, In p ps /\
                 bp_nodes q = relinked (Interior d front back) p (Some front)) /\
    (forall q, In q sb -> exists p, In p ps /\
                 bp_nodes q = relinked (Interior d front back) p (Some back)).
Proof.
  intros Hl.
  destruct (SplitNodePortals_lists W _ ps Hl stats fresh)
    as (sb & fresh' & Hrun & _ & Hback & _ & _).
  eexists _, sb, _, fresh'. split; [exact Hrun|]. split.
  - intros q Hq. apply in_front in Hq as (p & Hp & Hfp).
    exists p. split; [exact Hp|]. apply (front_piece_nodes _ _ _ Hfp).
  - intros q Hq. destruct (Hback q Hq) as (p & fr & Hp & _ & Hbp).
    exists p. split; [exact Hp|]. apply (back_piece_nodes _ _ _ _ Hbp).
Qed.

Lemma ClipNodePortalsToTree_r_interior (d : node_data) (front back : node_t)
    (type : portaltype_t) (p0 : buildportal_t) (ps0 : list buildportal_t)
    (stats : portalstats_t) (fresh : nat) :
  ClipNodePortalsToTree_r W (Interior d front back) type (p0 :: ps0) stats fresh =
  if stops_at type (Interior d front back) then Ok (p0 :: ps0, stats, fresh)
  else
    SplitNodePortals W (Interior d front back) (p0 :: ps0) stats fresh ≫=
      (fun '(split_front, split_back, stats, fresh) =>
         ClipNodePortalsToTree_r W front type split_front stats fresh ≫=
           (fun '(front_fragments, stats, fresh) =>
              ClipNodePortalsToTree_r W back type split_back stats fresh ≫=
                (fun '(back_fragments, stats, fresh) =>
                   Ok (front_fragments ++ back_fragments, stats, fresh)))).
Proof. reflexivity. Qed.

(** [ClipNodePortalsToTree_r] returns, and leaves the other side of each
    portal in place. *)
Lemma ClipNodePortalsToTree_r_returns (type : portaltype_t) (node : node_t) :
  forall ps stats fresh,
    (forall p, In p ps -> linked node p = true) ->
    exists res stats' fresh',
      ClipNodePortalsToTree_r W node type ps stats fresh = Ok (res, stats', fresh') /\
      forall X, (forall p, In p ps -> bridges node X p = true) ->
                forall q, In q res -> linked X q = true.
Proof.
  induction node as [d|d front IHf back IHb]; intros ps stats fresh Hl.
  - exists ps, stats, fresh. split; [destruct ps; reflexivity|].
    intros X Hb q Hq. apply (bridges_linked _ _ _ (Hb q Hq)).
  - destruct ps as [|p0 ps0].
    { exists [], stats, fresh. split; [reflexivity|]. intros X _ q []. }
    rewrite ClipNodePortalsToTree_r_interior.
    destruct (stops_at type (Interior d front back)).
    { eexists _, _, _. split; [reflexivity|].
      intros X Hb q Hq. apply (bridges_linked _ _ _ (Hb q Hq)). }
    destruct (SplitNodePortals_children d front back (p0 :: ps0) stats fresh Hl)
      as (sf & sb & st1 & fr1 & -> & Hsf & Hsb).
    rewrite bind_Ok_l.
    destruct (IHf sf st1 fr1) as (rf & st2 & fr2 & -> & Hrf).
    { intros q Hq. destruct (Hsf q Hq) as (p & _ & E). eapply relinked_linked, E. }
    rewrite bind_Ok_l.
    destruct (IHb sb st2 fr2) as (rb & st3 & fr3 & -> & Hrb).
    { intros q Hq. destruct (Hsb q Hq) as (p & _ & E). eapply relinked_linked, E. }
    rewrite bind_Ok_l. eexists _, _, _. split; [reflexivity|].
    intros X Hb q Hq. apply in_app_or in Hq as [Hq|Hq].
    + apply (Hrf X); [|exact Hq]. intros q' Hq'.
      destruct (Hsf q' Hq') as (p & Hp & E). eapply relinked_bridges; eauto.
    + apply (Hrb X); [|exact Hq]. intros q' Hq'.
      destruct (Hsb q' Hq') as (p & Hp & E). eapply relinked_bridges; eauto.
Qed.

(** [MakeTreePortals_r] returns on every list of portals that bound the
    node: no portal is found mis-linked. *)
Lemma MakeTreePortals_r_returns (type : portaltype_t) (node : node_t) :
  forall ps stats fresh,
    (forall p, In p ps -> linked node p = true) ->
    exists r, MakeTreePortals_r W node type ps stats fresh = Ok r.
Proof.
  induction node as [d|d front IHf back IHb]; intros ps stats fresh Hl.
  - simpl. eauto.
  - simpl. destruct (stops_at type (Interior d front back)); [eauto|].
    destruct (MakeNodePortal_returns (Interior d front back) ps stats fresh Hl)
      as [[[np st0] fr0] Hnp].
    rewrite Hnp, bind_Ok_l.
    destruct (SplitNodePortals_children d front back ps st0 fr0 Hl)
      as (sf & sb & st1 & fr1 & -> & Hsf & Hsb).
    rewrite bind_Ok_l.
    destruct (IHf sf st1 fr1) as [[[rf st2] fr2] ->].
    { intros q Hq. destruct (Hsf q Hq) as (p & _ & E). eapply relinked_linked, E. }
    rewrite bind_Ok_l.
    destruct (IHb sb st2 fr2) as [[[rb st3] fr3] ->].
    { intros q Hq. destruct (Hsb q Hq) as (p & _ & E). eapply relinked_linked, E. }
    rewrite bind_Ok_l.
    destruct np as [q|]; [|rewrite bind_Ok_l; eauto].
    assert (Hq : bp_nodes q = (Some front, Some back)).
    { unfold MakeNodePortal in Hnp. apply bind_Ok in Hnp as (w & _ & Hnp).
      destruct w as [x|]; [|discriminate].
      destruct (WindingIsTiny W x tiny_size); [discriminate|].
      injection Hnp as <- _ _. reflexivity. }
    destruct (ClipNodePortalsToTree_r_returns type front [q] st3 fr3)
      as (half & st4 & fr4 & -> & Hhalf).
    { intros q' [<-|[]]. unfold linked. rewrite Hq. simpl. rewrite Nat.eqb_refl. reflexivity. }
    rewrite bind_Ok_l.
    destruct (ClipNodePortalsToTree_r_returns type back half st4 fr4)
      as (ro & st5 & fr5 & -> & _).
    { apply (Hhalf back). intros q' [<-|[]]. unfold bridges. rewrite Hq. simpl.
      rewrite !Nat.eqb_refl. reflexivity. }
    rewrite !bind_Ok_l. eauto.
Qed.

End BuilderReturns.


(** ** CalcNodeBounds and CalcTreeBounds_r *)

Section BoundsFacts.
Variable A : aabb_lib.
Variable worldextent : Q.

Lemma bounds_at_set_same (t : tree_t) (id : nat) (b : aabb3d) :
  bounds_at A (set_bounds t id b) id = b.
Proof. unfold bounds_at, set_bounds. simpl. rewrite lookup_insert_eq. reflexivity. Qed.

Lemma bounds_at_set_other (t : tree_t) (id id' : nat) (b : aabb3d) :
  id' <> id -> bounds_at A (set_bounds t id b) id' = bounds_at A t id'.
Proof.
  intros Hne. unfold bounds_at, set_bounds. simpl.
  rewrite lookup_insert_ne by congruence. reflexivity.
Qed.

(** The closing checks on a node whose box has an extent along x. *)
Lemma check_bounds_keeps (node : node_t) (t : tree_t) (log : list string) :
  without_volume (bounds_at A t (node_id (data node))) = false ->
  check_bounds A worldextent node (t, log) =
    Ok (t, log ++ (if beyond_extent worldextent (bounds_at A t (node_id (data node)))
                   then [extent_warning node] else [])).
Proof.
  intros Hv. unfold check_bounds. rewrite Hv, bind_Ok_l.
  destruct (beyond_extent worldextent _); [reflexivity|].
  rewrite app_nil_r. reflexivity.
Qed.

(** The closing checks on a node with a parent whose box has no extent
    along x. *)
Lemma check_bounds_degrades (node : node_t) (t : tree_t) (log : list string)
    (up : ancestor_t) (rest : list ancestor_t) :
  parent (data node) = up :: rest ->
  without_volume (bounds_at A t (node_id (data node))) = true ->
  let corner := mins (bounds_at A t (anc_id up)) in
  check_bounds A worldextent node (t, log) =
    Ok (set_bounds t (node_id (data node)) (aabb_make A corner corner),
        (log ++ [volume_warning node]) ++
        (if beyond_extent worldextent (aabb_make A corner corner)
         then [extent_warning node] else [])).
Proof.
  intros Hp Hv corner. unfold check_bounds. rewrite Hv, Hp, bind_Ok_l.
  rewrite bounds_at_set_same. fold corner.
  destruct (beyond_extent worldextent _); [reflexivity|].
  rewrite app_nil_r. reflexivity.
Qed.

Lemma check_bounds_frame (node : node_t) (st st' : tree_t * list string) :
  check_bounds A worldextent node st = Ok st' ->
  forall id, id <> node_id (data node) ->
             bounds_at A (fst st') id = bounds_at A (fst st) id.
Proof.
  destruct st as [t log]. intros H id Hne.
  destruct (without_volume (bounds_at A t (node_id (data node)))) eqn:Hv.
  - destruct (parent (data node)) as [|up rest] eqn:Hp.
    + unfold check_bounds in H. rewrite Hv, Hp in H. discriminate.
    + rewrite (check_bounds_degrades node t log up rest Hp Hv) in H.
      injection H as <-. simpl. apply bounds_at_set_other, Hne.
  - rewrite (check_bounds_keeps node t log Hv) in H. injection H as <-. reflexivity.
Qed.

Lemma in_subnodes_self (n : node_t) : In n (subnodes n).
Proof. destruct n; simpl; auto. Qed.

Lemma subtree_ids_interior (d : node_data) (front back : node_t) :
  subtree_ids (Interior d front back) =
  node_id d :: subtree_ids front ++ subtree_ids back.
Proof. unfold subtree_ids. simpl. rewrite List.map_app. reflexivity. Qed.

Lemma in_subtree_ids (n m : node_t) :
  In m (subnodes n) -> In (node_id (data m)) (subtree_ids n).
Proof. intros H. unfold subtree_ids. apply in_map_iff. eauto. Qed.

(** The pass over a subtree writes the bounds of its nodes only. *)
Lemma CalcTreeBounds_r_frame (node : node_t) :
  forall st st',
    CalcTreeBounds_r A worldextent node st = Ok st' ->
    forall id, ~ In id (subtree_ids node) ->
               bounds_at A (fst st') id = bounds_at A (fst st) id.
Proof.
  induction node as [d|d front IHf back IHb]; intros st st' H id Hid.
  - rewrite CalcTreeBounds_r_leaf in H.
    assert (Hne : id <> node_id d) by (intros ->; apply Hid; left; reflexivity).
    rewrite (check_bounds_frame _ _ _ H id Hne). simpl.
    apply bounds_at_set_other, Hne.
  - rewrite CalcTreeBounds_r_interior in H.
    apply bind_Ok in H as (st1 & H1 & H).
    apply bind_Ok in H as (st2 & H2 & H).
    rewrite subtree_ids_interior in Hid.
    assert (Hne : id <> node_id d) by (intros ->; apply Hid; left; reflexivity).
    assert (Hf : ~ In id (subtree_ids front))
      by (intros Hin; apply Hid; right; apply in_or_app; left; exact Hin).
    assert (Hb : ~ In id (subtree_ids back))
      by (intros Hin; apply Hid; right; apply in_or_app; right; exact Hin).
    rewrite (check_bounds_frame _ _ _ H id Hne). cbn [fst].
    rewrite (bounds_at_set_other _ _ _ _ Hne).
    rewrite (IHb _ _ H2 id Hb). apply (IHf _ _ H1 id Hf).
Qed.

(** On a subtree all of whose nodes have a parent the pass returns. *)
Lemma CalcTreeBounds_r_returns (node : node_t) :
  (forall n, In n (subnodes node) -> parent (data n) <> []) ->
  forall st, exists st', CalcTreeBounds_r A worldextent node st = Ok st'.
Proof.
  assert (Hcheck : forall n st, parent (data n) <> [] ->
            exists st', check_bounds A worldextent n st = Ok st').
  { intros n [t log] Hp.
    destruct (without_volume (bounds_at A t (node_id (data n)))) eqn:Hv.
    - destruct (parent (data n)) as [|up rest] eqn:E; [congruence|].
      rewrite (check_bounds_degrades n t log up rest E Hv). eauto.
    - rewrite (check_bounds_keeps n t log Hv). eauto. }
  induction node as [d|d front IHf back IHb]; intros Hall st.
  - rewrite CalcTreeBounds_r_leaf. apply Hcheck, Hall. left. reflexivity.
  - rewrite CalcTreeBounds_r_interior.
    destruct (IHf (fun n Hn => Hall n (or_intror (in_or_app _ _ _ (or_introl Hn)))) st)
      as [st1 ->].
    rewrite bind_Ok_l.
    destruct (IHb (fun n Hn => Hall n (or_intror (in_or_app _ _ _ (or_intror Hn)))) st1)
      as [st2 ->].
    rewrite bind_Ok_l. apply Hcheck, Hall. left. reflexivity.
Qed.

Lemma CalcTreeBounds_r_checks (node : node_t) (st : tree_t * list string) :
  CalcTreeBounds_r A worldextent node st =
  before_checks A worldextent node st ≫= check_bounds A worldextent node.
Proof.
  destruct node as [d|d front back]; [reflexivity|].
  rewrite CalcTreeBounds_r_interior. unfold before_checks.
  destruct (CalcTreeBounds_r A worldextent front st) as [st1|]; [|reflexivity].
  rewrite !bind_Ok_l.
  destruct (CalcTreeBounds_r A worldextent back st1) as [[t2 log2]|]; reflexivity.
Qed.

(** C8 (as amended).  [CalcTreeBounds_r] on a node that has a parent, once
    the bounds of the node are assigned: when the box has no extent along
    x, a warning is printed and the box becomes the one collapsed on the
    mins corner of the parent's box, otherwise the box is kept; when a
    mins coordinate of the resulting box exceeds the world extent in
    absolute value, a warning is printed and the box is kept; the pass
    does not abort, and the pass over a subtree all of whose nodes have a
    parent returns. *)
Theorem bounds_checks_warn_and_continue (node : node_t)
    (st : tree_t * list string) (t : tree_t) (log : list string)
    (up : ancestor_t) (rest : list ancestor_t) :
  parent (data node) = up :: rest ->
  before_checks A worldextent node st = Ok (t, log) ->
  let box := bounds_at A t (node_id (data node)) in
  let corner := mins (bounds_at A t (anc_id up)) in
  let box' := if without_volume box then aabb_make A corner corner else box in
  exists t',
    CalcTreeBounds_r A worldextent node st =
      Ok (t',
          log ++
          (if without_volume box then [volume_warning node] else []) ++
          (if beyond_extent worldextent box' then [extent_warning node] else [])) /\
    bounds_at A t' (node_id (data node)) = box' /\
    (forall id, id <> node_id (data node) -> bounds_at A t' id = bounds_at A t id) /\
    (forall (root : node_t) (st0 : tree_t * list string),
       (forall n, In n (subnodes root) -> parent (data n) <> []) ->
       exists st', CalcTreeBounds_r A worldextent root st0 = Ok st').
Proof.
  intros Hp Hbefore box corner box'. unfold box', box.
  rewrite CalcTreeBounds_r_checks, Hbefore, bind_Ok_l.
  destruct (without_volume (bounds_at A t (node_id (data node)))) eqn:Hv.
  - exists (set_bounds t (node_id (data node)) (aabb_make A corner corner)).
    split; [|split; [|split]].
    + rewrite (check_bounds_degrades node t log up rest Hp Hv).
      fold corner. rewrite <- app_assoc. reflexivity.
    + apply bounds_at_set_same.
    + intros id Hne. apply bounds_at_set_other, Hne.
    + intros root st0 Hall. apply CalcTreeBounds_r_returns, Hall.
  - exists t. split; [|split; [|split]].
    + rewrite (check_bounds_keeps node t log Hv). reflexivity.
    + reflexivity.
    + reflexivity.
    + intros root st0 Hall. apply CalcTreeBounds_r_returns, Hall.
Qed.

(** *** The bounds after the pass *)

Lemma chain_points_bounds (t : tree_t) (id : nat) (b : aabb3d) (n : node_t) :
  chain_points (set_bounds t id b) n = chain_points t n.
Proof. reflexivity. Qed.

Lemma CalcTreeBounds_r_chain_points (node : node_t) (st st' : tree_t * list string)
    (n : node_t) :
  CalcTreeBounds_r A worldextent node st = Ok st' ->
  chain_points (fst st') n = chain_points (fst st) n.
Proof.
  intros H. destruct (CalcTreeBounds_r_portals A worldextent node st st' H) as [_ E].
  unfold chain_points, chain. rewrite E. reflexivity.
Qed.

Lemma subnodes_children (n : node_t) (d : node_data) (front back : node_t) :
  In (Interior d front back) (subnodes n) ->
  In front (subnodes n) /\ In back (subnodes n).
Proof.
  induction n as [d0|d0 f IHf b IHb]; simpl.
  - intros [H|[]]. discriminate H.
  - intros [H|H].
    + injection H as -> -> ->. split; right; apply in_or_app;
        [left|right]; apply in_subnodes_self.
    + apply in_app_or in H as [H|H];
        [destruct (IHf H) | destruct (IHb H)]; split; right; apply in_or_app; auto.
Qed.

(** The bounds a pass leaves on a subtree with distinct addresses. *)
Lemma CalcTreeBounds_r_post (root : node_t) :
  forall t log t' log',
    NoDup (subtree_ids root) ->
    CalcTreeBounds_r A worldextent root (t, log) = Ok (t', log') ->
    (forall d, In (Leaf d) (subnodes root) ->
       without_volume (leaf_box A t (Leaf d)) = false ->
       bounds_at A t' (node_id d) = leaf_box A t (Leaf d)) /\
    (forall d front back, In (Interior d front back) (subnodes root) ->
       without_volume
         (aabb_union A (bounds_at A t' (node_id (data front)))
            (bounds_at A t' (node_id (data back)))) = false ->
       bounds_at A t' (node_id d) =
         aabb_union A (bounds_at A t' (node_id (data front)))
           (bounds_at A t' (node_id (data back)))).
Proof.
  induction root as [d0|d0 f IHf b IHb]; intros t log t' log' Hnd H.
  - rewrite CalcTreeBounds_r_leaf in H. cbn [fst snd] in H. split.
    + intros d [E|[]] Hv. injection E as <-.
      rewrite check_bounds_keeps in H
        by (unfold CalcNodeBounds; rewrite bounds_at_set_same; exact Hv).
      injection H as <- _. unfold CalcNodeBounds. apply bounds_at_set_same.
    + intros d front back [E|[]]. discriminate E.
  - rewrite CalcTreeBounds_r_interior in H.
    apply bind_Ok in H as ([t1 log1] & H1 & H).
    apply bind_Ok in H as ([t2 log2] & H2 & H). cbn [fst snd] in H.
    rewrite subtree_ids_interior in Hnd.
    apply NoDup_cons in Hnd as [Hroot Hnd].
    apply NoDup_app in Hnd as (Hndf & Hdisj & Hndb).
    destruct (IHf _ _ _ _ Hndf H1) as [Hlf Hif].
    destruct (IHb _ _ _ _ Hndb H2) as [Hlb Hib].
    set (u := aabb_union A (bounds_at A t2 (node_id (data f)))
                (bounds_at A t2 (node_id (data b)))) in *.
    assert (Hnotroot : forall n, In n (subnodes f ++ subnodes b) ->
                         node_id (data n) <> node_id d0).
    { intros n Hn E. apply Hroot. rewrite <- E.
      apply list_elem_of_In, in_or_app.
      apply in_app_or in Hn as [Hn|Hn]; [left|right]; apply in_subtree_ids, Hn. }
    assert (Hfinal : forall n, In n (subnodes f ++ subnodes b) ->
              bounds_at A t' (node_id (data n)) = bounds_at A t2 (node_id (data n))).
    { intros n Hn.
      pose proof (check_bounds_frame _ _ _ H _ (Hnotroot n Hn)) as E.
      cbn [fst] in E. rewrite E.
      apply bounds_at_set_other, Hnotroot, Hn. }
    assert (Hfront : forall n, In n (subnodes f) ->
              bounds_at A t2 (node_id (data n)) = bounds_at A t1 (node_id (data n))).
    { intros n Hn.
      apply (CalcTreeBounds_r_frame b _ _ H2 (node_id (data n))).
      intros Hin. apply (Hdisj (node_id (data n)));
        apply list_elem_of_In; [apply in_subtree_ids, Hn | exact Hin]. }
    assert (Hpts : forall n, chain_points t1 n = chain_points t n)
      by (intros n; apply (CalcTreeBounds_r_chain_points f _ _ n H1)).
    split.
    + intros d [E|Hin] Hv; [discriminate E|].
      pose proof (Hfinal (Leaf d) Hin) as Efin. cbn [data] in Efin. rewrite Efin.
      apply in_app_or in Hin as [Hin|Hin].
      * pose proof (Hfront _ Hin) as Efr. cbn [data] in Efr. rewrite Efr.
        apply Hlf; assumption.
      * unfold leaf_box in *. rewrite <- (Hpts (Leaf d)) in *. apply Hlb; assumption.
    + intros d front back [E|Hin] Hv.
      * injection E as <- <- <-.
        assert (Ef : bounds_at A t' (node_id (data f)) = bounds_at A t2 (node_id (data f)))
          by (apply Hfinal, in_or_app; left; apply in_subnodes_self).
        assert (Eb : bounds_at A t' (node_id (data b)) = bounds_at A t2 (node_id (data b)))
          by (apply Hfinal, in_or_app; right; apply in_subnodes_self).
        rewrite Ef, Eb in *. fold u in Hv |- *.
        rewrite check_bounds_keeps in H
          by (cbn [data node_id]; rewrite bounds_at_set_same; exact Hv).
        injection H as <- _. apply bounds_at_set_same.
      * assert (Hch : In front (subnodes f ++ subnodes b) /\
                      In back (subnodes f ++ subnodes b)).
        { apply in_app_or in Hin as [Hin|Hin];
            destruct (subnodes_children _ _ _ _ Hin); split; apply in_or_app; auto. }
        destruct Hch as [Hcf Hcb].
        pose proof (Hfinal _ Hin) as E0. cbn [data] in E0.
        rewrite E0, (Hfinal _ Hcf), (Hfinal _ Hcb) in *.
        apply in_app_or in Hin as [Hin|Hin].
        -- destruct (subnodes_children _ _ _ _ Hin) as [Hf' Hb'].
           pose proof (Hfront _ Hin) as E1. cbn [data] in E1.
           rewrite E1, (Hfront _ Hf'), (Hfront _ Hb') in *.
           apply Hif; assumption.
        -- apply Hib; assumption.
Qed.


(** *** The two children are independent *)

Lemma agree_set_bounds (S : nat -> Prop) (t1 t2 : tree_t) (id : nat) (b : aabb3d) :
  agree A S t1 t2 -> agree A S (set_bounds t1 id b) (set_bounds t2 id b).
Proof.
  intros [Hp Hb]. split; [exact Hp|]. intros id' Hid'.
  destruct (decide (id' = id)) as [->|Hne].
  - rewrite !bounds_at_set_same. reflexivity.
  - rewrite !bounds_at_set_other by exact Hne. apply Hb, Hid'.
Qed.

Lemma check_bounds_agree (S : nat -> Prop) (node : node_t) (t1 t2 : tree_t)
    (l1 l2 : list string) :
  S (node_id (data node)) ->
  (forall up rest, parent (data node) = up :: rest -> S (anc_id up)) ->
  agree A S t1 t2 ->
  same_outcome A S (check_bounds A worldextent node (t1, l1))
    (check_bounds A worldextent node (t2, l2)).
Proof.
  intros Hid Hup Hag. pose proof Hag as [Hp Hb].
  assert (E : bounds_at A t1 (node_id (data node)) = bounds_at A t2 (node_id (data node)))
    by (apply Hb, Hid).
  destruct (without_volume (bounds_at A t2 (node_id (data node)))) eqn:Hv.
  - destruct (parent (data node)) as [|up rest] eqn:Hpar.
    + unfold check_bounds. rewrite E, Hv, Hpar. exact I.
    + rewrite (check_bounds_degrades node t1 l1 up rest Hpar) by (rewrite E; exact Hv).
      rewrite (check_bounds_degrades node t2 l2 up rest Hpar Hv).
      simpl. rewrite (Hb (anc_id up) (Hup up rest eq_refl)).
      apply agree_set_bounds, Hag.
  - rewrite (check_bounds_keeps node t1 l1) by (rewrite E; exact Hv).
    rewrite (check_bounds_keeps node t2 l2 Hv). exact Hag.
Qed.

Lemma in_footprint_parent (root n : node_t) (up : ancestor_t) (rest : list ancestor_t) :
  In n (subnodes root) -> parent (data n) = up :: rest ->
  In (anc_id up) (footprint root).
Proof.
  intros Hn Hp. unfold footprint, parent_ids. apply in_or_app. right.
  apply in_flat_map. exists n. split; [exact Hn|]. rewrite Hp. left. reflexivity.
Qed.

Lemma footprint_front (d : node_data) (front back : node_t) (id : nat) :
  In id (footprint front) -> In id (footprint (Interior d front back)).
Proof.
  unfold footprint, parent_ids. rewrite subtree_ids_interior. simpl subnodes.
  rewrite !in_app_iff, !in_flat_map. intros [H|(n & Hn & H)].
  - left. right. apply in_or_app. left. exact H.
  - right. exists n. split; [right; apply in_or_app; left; exact Hn | exact H].
Qed.

Lemma footprint_back (d : node_data) (front back : node_t) (id : nat) :
  In id (footprint back) -> In id (footprint (Interior d front back)).
Proof.
  unfold footprint, parent_ids. rewrite subtree_ids_interior. simpl subnodes.
  rewrite !in_app_iff, !in_flat_map. intros [H|(n & Hn & H)].
  - left. right. apply in_or_app. right. exact H.
  - right. exists n. split; [right; apply in_or_app; right; exact Hn | exact H].
Qed.

(** Two states with the same portals and the same bounds on the footprint
    of a subtree give the same bounds after the pass over it. *)
Lemma CalcTreeBounds_r_agree (S : nat -> Prop) (node : node_t) :
  (forall id, In id (footprint node) -> S id) ->
  forall t1 l1 t2 l2,
    agree A S t1 t2 ->
    same_outcome A S (CalcTreeBounds_r A worldextent node (t1, l1))
      (CalcTreeBounds_r A worldextent node (t2, l2)).
Proof.
  induction node as [d|d front IHf back IHb]; intros HS t1 l1 t2 l2 Hag.
  - rewrite !CalcTreeBounds_r_leaf. cbn [fst snd].
    apply check_bounds_agree.
    + apply HS. left. reflexivity.
    + intros up rest Hp. apply HS.
      apply (in_footprint_parent (Leaf d) (Leaf d) up rest); [left; reflexivity | exact Hp].
    + unfold CalcNodeBounds, chain_points, chain. destruct Hag as [Hp Hb].
      rewrite Hp. apply agree_set_bounds. split; assumption.
  - rewrite !CalcTreeBounds_r_interior.
    pose proof (IHf (fun id H => HS id (footprint_front d front back id H))
                  t1 l1 t2 l2 Hag) as Hf.
    destruct (CalcTreeBounds_r A worldextent front (t1, l1)) as [[u1 k1]|],
             (CalcTreeBounds_r A worldextent front (t2, l2)) as [[u2 k2]|];
      simpl in Hf; try contradiction; [|exact I].
    rewrite !bind_Ok_l.
    pose proof (IHb (fun id H => HS id (footprint_back d front back id H))
                  u1 k1 u2 k2 Hf) as Hb.
    destruct (CalcTreeBounds_r A worldextent back (u1, k1)) as [[v1 m1]|],
             (CalcTreeBounds_r A worldextent back (u2, k2)) as [[v2 m2]|];
      simpl in Hb; try contradiction; [|exact I].
    rewrite !bind_Ok_l. cbn [fst snd].
    assert (Hroot : S (node_id d)) by (apply HS; left; reflexivity).
    assert (Hfid : S (node_id (data front))).
    { apply HS, footprint_front. apply in_or_app. left.
      apply in_subtree_ids, in_subnodes_self. }
    assert (Hbid : S (node_id (data back))).
    { apply HS, footprint_back. apply in_or_app. left.
      apply in_subtree_ids, in_subnodes_self. }
    apply check_bounds_agree.
    + exact Hroot.
    + intros up rest Hp. apply HS.
      apply (in_footprint_parent (Interior d front back) (Interior d front back) up rest);
        [apply in_subnodes_self | exact Hp].
    + destruct Hb as [Hp Hbb]. rewrite (Hbb _ Hfid), (Hbb _ Hbid).
      apply agree_set_bounds. split; assumption.
Qed.

(** The box [CalcTreeBounds_r] assigns to an internal node, before its
    closing checks, is the union of the boxes its children were left. *)
Lemma before_checks_union (d : node_data) (front back : node_t)
    (st : tree_t * list string) (t : tree_t) (log : list string) :
  NoDup (subtree_ids (Interior d front back)) ->
  before_checks A worldextent (Interior d front back) st = Ok (t, log) ->
  bounds_at A t (node_id d) =
    aabb_union A (bounds_at A t (node_id (data front)))
      (bounds_at A t (node_id (data back))).
Proof.
  intros Hnd H. unfold before_checks in H.
  apply bind_Ok in H as (st1 & _ & H).
  apply bind_Ok in H as ([t2 log2] & _ & H).
  injection H as <- _. cbn [data node_id].
  rewrite subtree_ids_interior in Hnd. apply NoDup_cons in Hnd as [Hroot _].
  assert (Hf : node_id (data front) <> node_id d).
  { intros E. apply Hroot. rewrite <- E. apply list_elem_of_In, in_or_app. left.
    apply in_subtree_ids, in_subnodes_self. }
  assert (Hb : node_id (data back) <> node_id d).
  { intros E. apply Hroot. rewrite <- E. apply list_elem_of_In, in_or_app. right.
    apply in_subtree_ids, in_subnodes_self. }
  rewrite bounds_at_set_same, !bounds_at_set_other by assumption. reflexivity.
Qed.

(** C7.  [CalcNodeBounds] gives a node the box that holds every point of
    every winding of its portals.  [CalcTreeBounds_r] assigns to an
    internal node the union of the boxes of its two children.  After the
    pass over a tree with distinct addresses, every leaf whose box has an
    extent along x has that box, and every internal node has the union of
    the boxes of its two children when that union has an extent along x
    (the other boxes are those of the closing checks).  The pass over the
    back child gives the same bounds whether or not the pass over the
    front child ran before it, when the front child shares no address with
    the back child's footprint. *)
Theorem calc_bounds_union (root : node_t) (t : tree_t) (log : list string)
    (t' : tree_t) (log' : list string) :
  NoDup (subtree_ids root) ->
  CalcTreeBounds_r A worldextent root (t, log) = Ok (t', log') ->
  (forall (t0 : tree_t) (n : node_t),
     bounds_at A (CalcNodeBounds A t0 n) (node_id (data n)) =
       fold_left (aabb_expand A) (List.concat (List.map winding (chain t0 n)))
         (aabb_default A)) /\
  (forall d front back st0 t0 log0,
     NoDup (subtree_ids (Interior d front back)) ->
     before_checks A worldextent (Interior d front back) st0 = Ok (t0, log0) ->
     bounds_at A t0 (node_id d) =
       aabb_union A (bounds_at A t0 (node_id (data front)))
         (bounds_at A t0 (node_id (data back)))) /\
  (forall d, In (Leaf d) (subnodes root) ->
     without_volume (leaf_box A t (Leaf d)) = false ->
     bounds_at A t' (node_id d) = leaf_box A t (Leaf d)) /\
  (forall d front back, In (Interior d front back) (subnodes root) ->
     without_volume
       (aabb_union A (bounds_at A t' (node_id (data front)))
          (bounds_at A t' (node_id (data back)))) = false ->
     bounds_at A t' (node_id d) =
       aabb_union A (bounds_at A t' (node_id (data front)))
         (bounds_at A t' (node_id (data back)))) /\
  (forall d front back st st1,
     In (Interior d front back) (subnodes root) ->
     (forall id, In id (subtree_ids front) -> ~ In id (footprint back)) ->
     CalcTreeBounds_r A worldextent front st = Ok st1 ->
     same_outcome A (fun id => In id (footprint back))
       (CalcTreeBounds_r A worldextent back st1)
       (CalcTreeBounds_r A worldextent back st)).
Proof.
  intros Hnd Hrun.
  destruct (CalcTreeBounds_r_post root t log t' log' Hnd Hrun) as [Hleaf Hint].
  split; [|split; [|split; [|split]]].
  - intros t0 n. unfold CalcNodeBounds. apply bounds_at_set_same.
  - intros d front back st0 t0 log0. apply before_checks_union.
  - exact Hleaf.
  - exact Hint.
  - intros d front back [t0 l0] [t1 l1] _ Hdisj Hfront.
    apply CalcTreeBounds_r_agree; [auto|].
    split.
    + destruct (CalcTreeBounds_r_portals A worldextent front _ _ Hfront) as [_ E].
      exact E.
    + intros id Hid.
      apply (CalcTreeBounds_r_frame front _ _ Hfront id).
      intros Hin. exact (Hdisj id Hin Hid).
Qed.

End BoundsFacts.


(** ** Flood areas *)

Lemma record_kept_refl (pa : nat * nat) : record_kept pa pa.
Proof. split; reflexivity. Qed.

Lemma record_kept_trans (a b c : nat * nat) :
  record_kept a b -> record_kept b c -> record_kept a c.
Proof.
  intros [H1 H2] [H3 H4]. split.
  - intros Ha. rewrite <- (H1 Ha). apply H3. rewrite (H1 Ha). exact Ha.
  - intros Ha. pose proof (H2 Ha) as ->. apply H4, Ha.
Qed.

Lemma records_kept_refl (ents : list mapentity_t) : records_kept ents ents.
Proof.
  split; [reflexivity|]. intros e ent H. exists ent.
  split; [exact H|]. split; [reflexivity | apply record_kept_refl].
Qed.

Lemma records_kept_trans (a b c : list mapentity_t) :
  records_kept a b -> records_kept b c -> records_kept a c.
Proof.
  intros [L1 H1] [L2 H2]. split; [congruence|].
  intros e ent He. destruct (H1 e ent He) as (ent1 & He1 & Hn1 & Hk1).
  destruct (H2 e ent1 He1) as (ent2 & He2 & Hn2 & Hk2).
  exists ent2. split; [exact He2|]. split; [congruence|].
  eapply record_kept_trans; eassumption.
Qed.

Lemma flood_keeps_refl (st : flood_state) : flood_keeps st st.
Proof. split; [reflexivity|]. split; [apply records_kept_refl | auto]. Qed.

Lemma flood_keeps_trans (a b c : flood_state) :
  flood_keeps a b -> flood_keeps b c -> flood_keeps a c.
Proof.
  intros (C1 & R1 & O1) (C2 & R2 & O2). split; [congruence|].
  split; [eapply records_kept_trans; eassumption | auto].
Qed.

Lemma flood_keeps_same (st st' : flood_state) :
  c_areas st' = c_areas st -> entities st' = entities st -> flood_keeps st st'.
Proof.
  intros C E. split; [exact C|]. rewrite E. split; [apply records_kept_refl | auto].
Qed.

Lemma set_area_keeps (st : flood_state) (n : node_t) :
  flood_keeps st (set_area st n).
Proof.
  split; [reflexivity|]. split; [apply records_kept_refl | auto].
Qed.

Lemma ApplyArea_r_keeps (node : node_t) :
  forall st, flood_keeps st (ApplyArea_r node st).
Proof.
  induction node as [d|d front IHf back IHb]; intros st; simpl.
  - apply set_area_keeps.
  - eapply flood_keeps_trans; [|apply IHb].
    eapply flood_keeps_trans; [|apply IHf]. apply set_area_keeps.
Qed.

Lemma set_portalareas_keeps (st : flood_state) (e : nat) (ent : mapentity_t)
    (pa : nat * nat) :
  entities st !! e = Some ent ->
  record_kept (portalareas ent) pa ->
  record_ordered pa ->
  flood_keeps st (set_portalareas st e pa).
Proof.
  intros He Hk Ho. split; [reflexivity|]. split; [split|].
  - simpl. apply length_alter.
  - intros e' ent' He'. simpl.
    destruct (decide (e' = e)) as [->|Hne].
    + rewrite list_lookup_alter_eq, He'. simpl. eexists. split; [reflexivity|].
      split; [reflexivity|]. simpl. congruence.
    + rewrite list_lookup_alter_ne by congruence.
      exists ent'. split; [exact He'|]. split; [reflexivity | apply record_kept_refl].
  - simpl. intros Hall. apply Forall_lookup. intros i x Hx.
    destruct (decide (i = e)) as [->|Hne].
    + rewrite list_lookup_alter_eq, He in Hx. simpl in Hx. injection Hx as <-. exact Ho.
    + rewrite list_lookup_alter_ne in Hx by congruence.
      eapply Forall_lookup in Hall; eauto.
Qed.

Section FloodFacts.
Variable game : gamedef_t.
Variable Q2_CONTENTS_AREAPORTAL : Z.
Variable tree : tree_t.

Lemma touch_areaportal_keeps (node : node_t) (st st' : flood_state) :
  touch_areaportal node st = Ok st' -> flood_keeps st st'.
Proof.
  unfold touch_areaportal.
  destruct (AreanodeEntityForLeaf node) as [e|];
    [|intros [= <-]; apply flood_keeps_same; reflexivity].
  destruct (entities st !! e) as [ent|] eqn:He; [|discriminate].
  destruct (Nat.eqb (fst (portalareas ent)) (c_areas st)) eqn:H0;
    [intros [= <-]; apply flood_keeps_same; reflexivity|].
  destruct (Nat.eqb (snd (portalareas ent)) (c_areas st)) eqn:H1;
    [intros [= <-]; apply flood_keeps_same; reflexivity|].
  simpl. apply Nat.eqb_neq in H0, H1.
  destruct (Nat.eqb (snd (portalareas ent)) 0) eqn:H2; simpl;
    [|intros [= <-]; apply flood_keeps_same; reflexivity].
  apply Nat.eqb_eq in H2.
  destruct (Nat.eqb (fst (portalareas ent)) 0) eqn:H3; simpl; intros [= <-].
  - apply Nat.eqb_eq in H3. eapply set_portalareas_keeps; [exact He| |].
    + split; simpl; intros H; congruence.
    + intros H. simpl in H. congruence.
  - apply Nat.eqb_neq in H3. eapply set_portalareas_keeps; [exact He| |].
    + split; simpl; intros H; congruence.
    + intros _. simpl. split; [exact H3 | exact H0].
Qed.

Lemma FloodAreas_r_step (fuel : nat) (node : node_t) (st : flood_state) :
  FloodAreas_r game Q2_CONTENTS_AREAPORTAL tree (S fuel) node st =
  if (is_leaf node || detail_separator (data node)) &&
     is_areaportal game Q2_CONTENTS_AREAPORTAL node
  then Some (touch_areaportal node st)
  else if negb (Nat.eqb (area_of st node) 0) then Some (Ok st)
  else
    flood_portals game (FloodAreas_r game Q2_CONTENTS_AREAPORTAL tree fuel) node
      (chain tree node)
      (if is_leaf node then set_area st node else ApplyArea_r node (set_area st node)).
Proof. reflexivity. Qed.

(** A property of states that every call of the flood carries over is
    carried over by the loop on the portals. *)
Lemma flood_portals_carries (R : flood_state -> flood_state -> Prop)
    (flood : node_t -> flood_state -> option (result flood_state)) (node : node_t) :
  (forall a b c, R a b -> R b c -> R a c) ->
  (forall n st st', flood n st = Some (Ok st') -> R st st') ->
  forall ps st0 st st',
    R st0 st ->
    flood_portals game flood node ps st = Some (Ok st') -> R st0 st'.
Proof.
  intros Htrans Hflood. induction ps as [|p rest IH]; intros st0 st st' H0 H.
  - injection H as <-. exact H0.
  - simpl in H. destruct (Portal_EntityFlood game p _) as [[|]|]; [| |discriminate].
    + destruct (flood _ st) as [[st1|]|] eqn:Hrec; [|discriminate|discriminate].
      apply (IH st0 st1 st'); [|exact H].
      eapply Htrans; [exact H0 | apply (Hflood _ _ _ Hrec)].
    + apply (IH st0 st st' H0 H).
Qed.

Lemma FloodAreas_r_keeps (fuel : nat) :
  forall node st st',
    FloodAreas_r game Q2_CONTENTS_AREAPORTAL tree fuel node st = Some (Ok st') ->
    flood_keeps st st'.
Proof.
  induction fuel as [|fuel IH]; intros node st st' H; [discriminate|].
  rewrite FloodAreas_r_step in H.
  destruct ((is_leaf node || detail_separator (data node)) &&
            is_areaportal game Q2_CONTENTS_AREAPORTAL node).
  { injection H as H. eapply touch_areaportal_keeps, H. }
  destruct (negb (Nat.eqb (area_of st node) 0)).
  { injection H as <-. apply flood_keeps_refl. }
  eapply (flood_portals_carries flood_keeps); [exact flood_keeps_trans|exact IH| |exact H].
  destruct (is_leaf node); [apply set_area_keeps|].
  eapply flood_keeps_trans; [|apply ApplyArea_r_keeps]. apply set_area_keeps.
Qed.

Lemma FindAreas_keeps (fuel : nat) (leafs : list node_t) :
  forall st st',
    FindAreas game Q2_CONTENTS_AREAPORTAL tree fuel leafs st = Some (Ok st') ->
    records_kept (entities st) (entities st') /\
    (Forall (fun ent => record_ordered (portalareas ent)) (entities st) ->
     Forall (fun ent => record_ordered (portalareas ent)) (entities st')).
Proof.
  induction leafs as [|leaf rest IH]; intros st st' H; simpl in H.
  - injection H as <-. split; [apply records_kept_refl | auto].
  - destruct (negb (Nat.eqb (area_of st leaf) 0)); [apply IH, H|].
    destruct (is_areaportal game Q2_CONTENTS_AREAPORTAL leaf); [apply IH, H|].
    destruct (FloodAreas_r game Q2_CONTENTS_AREAPORTAL tree fuel leaf _)
      as [[st1|]|] eqn:Hflood; [|discriminate|discriminate].
    apply FloodAreas_r_keeps in Hflood as (_ & R1 & O1). simpl in R1, O1.
    destruct (IH st1 st' H) as [R2 O2].
    split; [eapply records_kept_trans; eassumption | auto].
Qed.

(** *** The flood returns *)

Lemma stamps_kept_refl (st : flood_state) : stamps_kept st st.
Proof. split; auto. Qed.

Lemma stamps_kept_trans (a b c : flood_state) :
  stamps_kept a b -> stamps_kept b c -> stamps_kept a c.
Proof.
  intros [C1 H1] [C2 H2]. split; [congruence|].
  intros Hc id Hid. apply H2; [congruence|]. apply H1; assumption.
Qed.

Lemma set_area_stamps (st : flood_state) (n : node_t) :
  stamps_kept st (set_area st n).
Proof.
  split; [reflexivity|]. intros Hc id Hid. simpl.
  destruct (decide (id = node_id (data n))) as [->|Hne].
  - rewrite lookup_insert_eq. exact Hc.
  - rewrite lookup_insert_ne by congruence. exact Hid.
Qed.

Lemma ApplyArea_r_stamps (node : node_t) :
  forall st, stamps_kept st (ApplyArea_r node st).
Proof.
  induction node as [d|d front IHf back IHb]; intros st; simpl.
  - apply set_area_stamps.
  - eapply stamps_kept_trans; [|apply IHb].
    eapply stamps_kept_trans; [|apply IHf]. apply set_area_stamps.
Qed.

Lemma touch_areaportal_stamps (node : node_t) (st st' : flood_state) :
  touch_areaportal node st = Ok st' -> stamps_kept st st'.
Proof.
  unfold touch_areaportal.
  destruct (AreanodeEntityForLeaf node) as [e|]; [|intros [= <-]; split; auto].
  destruct (entities st !! e) as [ent|]; [|discriminate].
  destruct (_ || _); [intros [= <-]; split; auto|].
  destruct (negb _); [intros [= <-]; split; auto|].
  destruct (negb _); intros [= <-]; split; auto.
Qed.

Lemma first_stamp (node : node_t) (st : flood_state) :
  stamps_kept st
    (if is_leaf node then set_area st node else ApplyArea_r node (set_area st node)).
Proof.
  destruct (is_leaf node); [apply set_area_stamps|].
  eapply stamps_kept_trans; [apply set_area_stamps | apply ApplyArea_r_stamps].
Qed.

Lemma FloodAreas_r_stamps (fuel : nat) :
  forall node st st',
    FloodAreas_r game Q2_CONTENTS_AREAPORTAL tree fuel node st = Some (Ok st') ->
    stamps_kept st st'.
Proof.
  induction fuel as [|fuel IH]; intros node st st' H; [discriminate|].
  rewrite FloodAreas_r_step in H.
  destruct ((is_leaf node || detail_separator (data node)) &&
            is_areaportal game Q2_CONTENTS_AREAPORTAL node).
  { injection H as H. eapply touch_areaportal_stamps, H. }
  destruct (negb (Nat.eqb (area_of st node) 0)).
  { injection H as <-. apply stamps_kept_refl. }
  eapply (flood_portals_carries stamps_kept);
    [exact stamps_kept_trans | exact IH | apply first_stamp | exact H].
Qed.

Lemma unstamped_mono (U : list nat) (st st' : flood_state) :
  c_areas st <> 0%nat -> stamps_kept st st' ->
  (unstamped U st' <= unstamped U st)%nat.
Proof.
  intros Hc [_ H]. specialize (H Hc).
  unfold unstamped. induction U as [|id U IH]; simpl; [lia|].
  destruct (Nat.eqb (default 0%nat (node_area st' !! id)) 0) eqn:E';
    destruct (Nat.eqb (default 0%nat (node_area st !! id)) 0) eqn:E; simpl; try lia.
  apply Nat.eqb_eq in E'. apply Nat.eqb_neq in E. destruct (H id E E').
Qed.

Lemma unstamped_less (U : list nat) (st st' : flood_state) (id : nat) :
  c_areas st <> 0%nat -> stamps_kept st st' -> In id U ->
  default 0%nat (node_area st !! id) = 0%nat ->
  default 0%nat (node_area st' !! id) <> 0%nat ->
  (unstamped U st' < unstamped U st)%nat.
Proof.
  intros Hc Hk Hin H0 H1.
  induction U as [|a U IH]; [destruct Hin|].
  pose proof (unstamped_mono U st st' Hc Hk) as Hm.
  unfold unstamped in *. simpl.
  destruct Hin as [->|Hin].
  - apply Nat.eqb_eq in H0. apply Nat.eqb_neq in H1. rewrite H0, H1. simpl. lia.
  - specialize (IH Hin).
    destruct (Nat.eqb (default 0%nat (node_area st' !! a)) 0) eqn:E';
      destruct (Nat.eqb (default 0%nat (node_area st !! a)) 0) eqn:E; simpl; try lia.
    apply Nat.eqb_eq in E'. apply Nat.eqb_neq in E.
    destruct (proj2 Hk Hc a E E').
Qed.

(** The loop on the portals returns when every call of the flood does, on
    the states that keep the stamps of the first. *)
Lemma flood_portals_returns (U : list nat)
    (flood : node_t -> flood_state -> option (result flood_state)) (node : node_t)
    (st0 : flood_state) :
  (forall n st st', flood n st = Some (Ok st') -> stamps_kept st st') ->
  (forall n st, In (node_id (data n)) U -> stamps_kept st0 st ->
                exists r, flood n st = Some r) ->
  forall ps,
    (forall p, In p ps -> In (node_id (data (fst (nodes p)))) U /\
                          In (node_id (data (snd (nodes p)))) U) ->
    forall st, stamps_kept st0 st ->
               exists r, flood_portals game flood node ps st = Some r.
Proof.
  intros Hkeeps Hret.
  induction ps as [|p rest IH]; intros Hin st Hst; cbn [flood_portals]; [eauto|].
  assert (Hrest : forall q, In q rest ->
             In (node_id (data (fst (nodes q)))) U /\
             In (node_id (data (snd (nodes q)))) U)
    by (intros q Hq; apply Hin; right; exact Hq).
  destruct (Portal_EntityFlood game p _) as [[|]|]; [| |eauto].
  - destruct (Hin p (or_introl eq_refl)) as [Hfst Hsnd].
    destruct (Hret (idx (nodes p) (negb (points_to (Some (snd (nodes p))) node))) st)
      as [r Hr]; [destruct (negb _); assumption | exact Hst |].
    rewrite Hr. destruct r as [st1|msg]; [|eauto].
    apply (IH Hrest). eapply stamps_kept_trans; [exact Hst | apply (Hkeeps _ _ _ Hr)].
  - apply (IH Hrest), Hst.
Qed.

(** With more fuel than unstamped nodes the flood returns: each call
    that goes on stamps a node. *)
Lemma FloodAreas_r_returns (U : list nat) (fuel : nat) :
  flood_closed tree U ->
  forall node st,
    c_areas st <> 0%nat ->
    In (node_id (data node)) U ->
    (unstamped U st < fuel)%nat ->
    exists r, FloodAreas_r game Q2_CONTENTS_AREAPORTAL tree fuel node st = Some r.
Proof.
  intros Hclosed. induction fuel as [|fuel IH]; intros node st Hc Hin Hfuel; [lia|].
  rewrite FloodAreas_r_step.
  destruct ((is_leaf node || detail_separator (data node)) &&
            is_areaportal game Q2_CONTENTS_AREAPORTAL node); [eauto|].
  destruct (Nat.eqb (area_of st node) 0) eqn:Harea; simpl negb; cbv iota; [|eauto].
  apply Nat.eqb_eq in Harea.
  pose proof (first_stamp node st) as H0.
  set (st0 := if is_leaf node then set_area st node
              else ApplyArea_r node (set_area st node)) in *.
  assert (Hstamped : default 0%nat (node_area st0 !! node_id (data node)) <> 0%nat).
  { assert (Hs : default 0%nat (node_area (set_area st node) !! node_id (data node)) <> 0%nat)
      by (simpl; rewrite lookup_insert_eq; exact Hc).
    unfold st0. destruct (is_leaf node); [exact Hs|].
    apply (proj2 (ApplyArea_r_stamps node (set_area st node)) Hc), Hs. }
  assert (Hless : (unstamped U st0 < fuel)%nat).
  { pose proof (unstamped_less U st st0 _ Hc H0 Hin Harea Hstamped). lia. }
  assert (Hc0 : c_areas st0 <> 0%nat) by (rewrite (proj1 H0); exact Hc).
  apply (flood_portals_returns U _ node st0).
  - apply FloodAreas_r_stamps.
  - intros n s Hn Hs. apply IH; [rewrite (proj1 Hs); exact Hc0 | exact Hn |].
    pose proof (unstamped_mono U st0 s Hc0 Hs). lia.
  - intros p Hp. apply (Hclosed node p Hp).
  - apply stamps_kept_refl.
Qed.

(** C4 (as amended).  Through the flood the record of an area-portal
    entity only grows: a recorded id is never replaced and a record of two
    ids never changes, the ids are filled from slot 0 and stay distinct.
    A touch by the current area when the record holds two other ids
    changes nothing and prints one warning, at every such touch. *)
Theorem areaportal_records_first_two (fuel : nat) (leafs : list node_t)
    (st st' : flood_state) :
  FindAreas game Q2_CONTENTS_AREAPORTAL tree fuel leafs st = Some (Ok st') ->
  records_kept (entities st) (entities st') /\
  (Forall (fun ent => record_ordered (portalareas ent)) (entities st) ->
   Forall (fun ent => record_ordered (portalareas ent)) (entities st')) /\
  (forall (n : nat) (node : node_t) (st0 : flood_state) (e : nat) (ent : mapentity_t),
     areaportal_cluster game Q2_CONTENTS_AREAPORTAL node = true ->
     AreanodeEntityForLeaf node = Some e ->
     entities st0 !! e = Some ent ->
     snd (portalareas ent) <> 0%nat ->
     fst (portalareas ent) <> c_areas st0 ->
     snd (portalareas ent) <> c_areas st0 ->
     FloodAreas_r game Q2_CONTENTS_AREAPORTAL tree (S n) node st0 =
       Some (Ok (warn st0 (touches_more_than_two_areas e)))) /\
  (forall (n : nat) (node : node_t) (st0 : flood_state) (e : nat) (ent : mapentity_t),
     areaportal_cluster game Q2_CONTENTS_AREAPORTAL node = true ->
     AreanodeEntityForLeaf node = Some e ->
     entities st0 !! e = Some ent ->
     snd (portalareas ent) = 0%nat ->
     fst (portalareas ent) <> c_areas st0 ->
     c_areas st0 <> 0%nat ->
     FloodAreas_r game Q2_CONTENTS_AREAPORTAL tree (S n) node st0 =
       Some (Ok (set_portalareas st0 e
                   (if Nat.eqb (fst (portalareas ent)) 0
                    then (c_areas st0, 0%nat)
                    else (fst (portalareas ent), c_areas st0))))).
Proof.
  intros H. destruct (FindAreas_keeps fuel leafs st st' H) as [R O].
  split; [exact R|]. split; [exact O|]. split.
  - intros n node st0 e ent Hc He Hent H2 H0 H1.
    unfold areaportal_cluster in Hc. simpl. rewrite Hc.
    unfold touch_areaportal. rewrite He, Hent.
    apply Nat.eqb_neq in H0, H1, H2. rewrite H0, H1, H2. reflexivity.
  - intros n node st0 e ent Hc He Hent H2 H0 Hc0.
    unfold areaportal_cluster in Hc. simpl. rewrite Hc.
    unfold touch_areaportal. rewrite He, Hent.
    assert (H1 : Nat.eqb (snd (portalareas ent)) (c_areas st0) = false)
      by (apply Nat.eqb_neq; congruence).
    apply Nat.eqb_neq in H0. rewrite H0, H1, H2. simpl.
    destruct (Nat.eqb (fst (portalareas ent)) 0); simpl; rewrite ?H2; reflexivity.
Qed.

End FloodFacts.


(** ** The examples *)

Lemma forallb_In {X : Type} (f : X -> bool) (l : list X) :
  forallb f l = true -> forall x, In x l -> f x = true.
Proof. intros H x Hx. exact (proj1 (forallb_forall f l) H x Hx). Qed.

Lemma room_run_result :
  MakeTreePortals liquid_game rational_windings rational_boxes 24 (1 # 10000) 65536
    positive_plane room_tree 0 = Ok (room_final, mk_portalstats 4, []).
Proof. vm_compute. reflexivity. Qed.


(** C6: a witness, the portalization of the room.  The cut leaves four
    slivers 0.15 units wide on the box portals: they are the four tiny
    windings among those that the run tests, and the count is 4. *)
Lemma tiny_windings_dropped_and_counted_witness :
  forallb (fun p => negb (WindingIsTiny rational_windings (winding p) tiny_size))
    (tree_portals room_final) = true /\
  exists tested,
    MakeTreePortals_tested liquid_game rational_windings rational_boxes 24
      (1 # 10000) positive_plane room_tree 0 = Ok tested /\
    c_tinyportals (mk_portalstats 4) = tiny_count rational_windings tested.
Proof.
  assert (Hbox : forall ps fr,
            snd (MakeHeadnodePortals liquid_game rational_windings rational_boxes 24
                   (1 # 10000) positive_plane (FreeTreePortals room_tree) 0) =
              Ok (ps, fr) ->
            no_tiny_winding rational_windings ps).
  { intros ps fr H. vm_compute in H. injection H as <- _.
    intros q Hq. apply (forallb_In (fun p => negb (rational_tiny (bp_winding p) tiny_size)))
      in Hq; [apply negb_true_iff in Hq; exact Hq|].
    vm_compute. reflexivity. }
  destruct (tiny_windings_dropped_and_counted liquid_game rational_windings
              rational_boxes 24 (1 # 10000) 65536 positive_plane room_tree 0
              room_final (mk_portalstats 4) [] room_run_result Hbox)
    as (Hfinal & Hcount & _).
  split; [|exact Hcount].
  apply forallb_forall. intros p Hp. apply negb_true_iff. apply Hfinal, Hp.
Defined.

(** C7: a witness, the bounds of the room. *)
Lemma calc_bounds_union_witness :
  match CalcTreeBounds_r rational_boxes 65536 room_head (room_final, []) with
  | Ok (t', _) =>
    bounds_at rational_boxes t' 0 =
      aabb_union rational_boxes (bounds_at rational_boxes t' 1)
        (bounds_at rational_boxes t' 2)
  | FError _ => False
  end.
Proof.
  destruct (CalcTreeBounds_r rational_boxes 65536 room_head (room_final, []))
    as [[t' log']|msg] eqn:Hrun; [|vm_compute in Hrun; discriminate Hrun].
  assert (Hnd : NoDup (subtree_ids room_head)).
  { apply (bool_decide_eq_true_1 (NoDup (subtree_ids room_head))).
    vm_compute. reflexivity. }
  destruct (calc_bounds_union rational_boxes 65536 room_head room_final [] t' log'
              Hnd Hrun) as (_ & _ & _ & Hint & _).
  apply (Hint (mk_node_data 0 air 4 cut_plane false [] []) room_front room_back).
  - left. reflexivity.
  - vm_compute in Hrun. injection Hrun as <- _. vm_compute. reflexivity.
Defined.

(** C8: a witness, the front leaf of the room. *)
Lemma bounds_checks_warn_and_continue_witness :
  exists t',
    CalcTreeBounds_r rational_boxes 65536 room_front (room_final, []) = Ok (t', []) /\
    bounds_at rational_boxes t' 1 =
      mk_aabb3d (mk_qvec3d (1757 # 20) (-88) (-88)) (mk_qvec3d 88 88 88).
Proof.
  assert (Hparent : parent (data room_front) =
                    [mk_ancestor 0 cut_plane (1%nat, 2%nat)]) by reflexivity.
  assert (Hbefore : before_checks rational_boxes 65536 room_front (room_final, []) =
                    Ok (CalcNodeBounds rational_boxes room_final room_front, []))
    by reflexivity.
  destruct (bounds_checks_warn_and_continue rational_boxes 65536 room_front
              (room_final, []) (CalcNodeBounds rational_boxes room_final room_front) []
              (mk_ancestor 0 cut_plane (1%nat, 2%nat)) [] Hparent Hbefore)
    as (t' & Hrun & Hbox & _).
  exists t'. split.
  - rewrite Hrun. vm_compute. reflexivity.
  - change (bounds_at rational_boxes t' 1) with
      (bounds_at rational_boxes t' (node_id (data room_front))).
    rewrite Hbox. vm_compute. reflexivity.
Defined.

(** C8 (as stated) fails: the box of [far_leaf] lies beyond the world
    extent; the warning is printed and the box is kept, not collapsed on
    the parent's corner. *)
Lemma beyond_extent_degrades_counterexample : ~ beyond_extent_degrades.
Proof.
  intros H.
  specialize (H rational_boxes 65536%Q (data far_leaf)
                (mk_ancestor 0 cut_plane (7%nat, 8%nat)) [] far_tree
                (set_bounds far_tree 7
                   (mk_aabb3d (mk_qvec3d (-100000) 0 0) (mk_qvec3d (-99000) 10 10)))
                [] ["WARNING: leaf with unbounded volume"%string]
                eq_refl eq_refl).
  assert (Hrun : CalcTreeBounds_r rational_boxes 65536 (Leaf (data far_leaf))
                   (far_tree, []) =
                 Ok (set_bounds far_tree 7
                       (mk_aabb3d (mk_qvec3d (-100000) 0 0) (mk_qvec3d (-99000) 10 10)),
                     ["WARNING: leaf with unbounded volume"%string]))
    by (vm_compute; reflexivity).
  specialize (H Hrun). vm_compute in H. discriminate H.
Qed.

(** C10: a witness, the outside node of the room. *)
Lemma outside_node_blocks_flood_witness :
  is_leaf
    (outside_node
       (fst (MakeHeadnodePortals liquid_game rational_windings rational_boxes 24
               (1 # 10000) positive_plane room_tree 0))) = true /\
  Portal_EntityFlood liquid_game
    (portal_of (hall 11)
       (outside_node
          (fst (MakeHeadnodePortals liquid_game rational_windings rational_boxes 24
                  (1 # 10000) positive_plane room_tree 0)))) false = Ok false.
Proof.
  destruct (outside_node_blocks_flood liquid_game rational_windings rational_boxes 24
              (1 # 10000) positive_plane room_tree 0 eq_refl)
    as (Hleaf & _ & Hflood & _).
  split; [exact Hleaf|].
  apply (Hflood _ false true); reflexivity.
Defined.

(** C4: a witness, the three halls around one door. *)
Lemma areaportal_records_first_two_witness :
  match halls_flood with
  | Some (Ok st') => records_kept [mk_mapentity (0%nat, 0%nat) 1] (entities st')
  | _ => False
  end.
Proof.
  destruct halls_flood as [[st'|msg]|] eqn:H;
    [|vm_compute in H; discriminate H|vm_compute in H; discriminate H].
  exact (proj1 (areaportal_records_first_two liquid_game Q2_AREAPORTAL halls_tree 10
                  [hall 11; hall 12; hall 13; hall 14; door]
                  (mk_flood_state 0 [mk_mapentity (0%nat, 0%nat) 1] ∅ []) st' H)).
Defined.

(** C4 (as stated) fails: the third hall reaches the door through two
    portals, and the entity of the door is warned about twice. *)
Lemma one_warning_for_third_area_counterexample : ~ one_warning_for_third_area.
Proof.
  intros H.
  assert (E : exists st', halls_flood = Some (Ok st') /\ c_areas st' = 3%nat /\
                          warnings_for 0 (flood_log st') = 2%nat).
  { eexists. split; [vm_compute; reflexivity|]. split; reflexivity. }
  destruct E as (st' & Hrun & Hc & Hw).
  specialize (H liquid_game Q2_AREAPORTAL halls_tree 10%nat
                [hall 11; hall 12; hall 13; hall 14; door]
                [mk_mapentity (0%nat, 0%nat) 1] st' 0%nat Hrun Hc).
  rewrite Hw in H. lia.
Qed.

(** The box portals of a tree whose bounds are inside out: the run stops
    with the fatal error. *)
Example MakeHeadnodePortals_inside_out :
  snd (MakeHeadnodePortals liquid_game rational_windings rational_boxes 24
         (1 # 10000) positive_plane inside_out_tree 0)
  = FError "portal winding clipped away".
Proof. vm_compute. reflexivity. Qed.


(** * Further properties *)

(** ** FindPortalSide: what can be selected, and when it aborts *)

Section FindPortalSideScan.
Variable game : gamedef_t.
Variable qv_dot : qvec3d -> qvec3d -> fpval.

Lemma offered_here (vis : contentflags_t) (p : portal_t) (j i : bool)
    (b : bspbrush_t) (s : side_t) :
  In b (original_brushes (data (idx (nodes p) j))) ->
  In s (sides b) -> bevel s = false ->
  (if Bool.eqb j i then generate_inside game vis b else generate_outside game vis b)
    = true ->
  offered game vis p i (mk_side_ptr b s).
Proof.
  intros Hb Hs Hbev Hgen. split; [exact Hbev|]. split; [exact Hs|].
  exists j. split; [exact Hb|]. exact Hgen.
Qed.

Lemma set_if_cases (c : bool) (a : option side_ptr * option side_ptr)
    (k i : bool) (x y : side_ptr) :
  idx (set_if c a k x) i = Some y ->
  (c = true /\ i = k /\ y = x) \/ idx a i = Some y.
Proof.
  unfold set_if. destruct c; [|auto].
  destruct a as [a0 a1], k, i; simpl; intros H; auto;
    injection H as <-; left; auto.
Qed.

Lemma set_if_unset_cases (c : bool) (a : option side_ptr * option side_ptr)
    (k i : bool) (x y : side_ptr) :
  idx (set_if_unset c a k x) i = Some y ->
  (c = true /\ i = k /\ y = x) \/ idx a i = Some y.
Proof.
  unfold set_if_unset. destruct c; [|auto].
  destruct a as [[a0|] [a1|]], k, i; simpl; intros H; auto;
    injection H as <-; left; auto.
Qed.

Lemma scan_sides_offered (vis : contentflags_t) (p : portal_t) (pn : Z)
    (p1 : qvec3d) (j : bool) (b : bspbrush_t) (ss : list side_t) :
  In b (original_brushes (data (idx (nodes p) j))) ->
  (forall s, In s ss -> In s (sides b)) ->
  forall st st',
    scan_sides qv_dot pn p1 j b (generate_outside game vis b) (generate_inside game vis b)
      ss st = Ok st' ->
    holds_offered game vis p st -> holds_offered game vis p st'.
Proof.
  intros Hb. induction ss as [|s rest IH]; intros Hss st st' Hrun Hst.
  - injection Hrun as <-. exact Hst.
  - assert (Hrest : forall s, In s rest -> In s (sides b))
      by (intros; apply Hss; right; assumption).
    simpl in Hrun. destruct (bevel s) eqn:Hbev; [eapply IH; eauto|].
    destruct (plane_matches pn s).
    + destruct (faces_away j s); [|discriminate Hrun].
      injection Hrun as <-. intros i c [Hc|Hc]; simpl in Hc.
      * apply Hst. left. exact Hc.
      * apply set_if_unset_cases in Hc as [(Hg & -> & ->)|Hc].
        { apply (offered_here vis p j j b s Hb); auto.
          - apply Hss. left. reflexivity.
          - rewrite eqb_reflx. exact Hg. }
        apply set_if_unset_cases in Hc as [(Hg & -> & ->)|Hc].
        { apply (offered_here vis p j (negb j) b s Hb); auto.
          - apply Hss. left. reflexivity.
          - destruct j; exact Hg. }
        apply Hst. right. exact Hc.
    + destruct (fp_gt _ _); [|eapply IH; eauto].
      eapply IH; [exact Hrest | exact Hrun|].
      intros i c [Hc|Hc]; simpl in Hc.
      * apply set_if_cases in Hc as [(Hg & -> & ->)|Hc].
        { apply (offered_here vis p j j b s Hb); auto.
          - apply Hss. left. reflexivity.
          - rewrite eqb_reflx. exact Hg. }
        apply set_if_cases in Hc as [(Hg & -> & ->)|Hc].
        { apply (offered_here vis p j (negb j) b s Hb); auto.
          - apply Hss. left. reflexivity.
          - destruct j; exact Hg. }
        apply Hst. left. exact Hc.
      * apply Hst. right. exact Hc.
Qed.

Lemma scan_brushes_offered (vis : contentflags_t) (p : portal_t) (pn : Z)
    (p1 : qvec3d) (j : bool) (bs : list bspbrush_t) :
  (forall b, In b bs -> In b (original_brushes (data (idx (nodes p) j)))) ->
  forall st st',
    scan_brushes game qv_dot vis pn p1 j bs st = Ok st' ->
    holds_offered game vis p st -> holds_offered game vis p st'.
Proof.
  induction bs as [|b rest IH]; intros Hbs st st' Hrun Hst.
  - injection Hrun as <-. exact Hst.
  - assert (Hrest : forall b, In b rest ->
              In b (original_brushes (data (idx (nodes p) j))))
      by (intros; apply Hbs; right; assumption).
    simpl in Hrun. destruct (negb _).
    + eapply IH; eauto.
    + apply bind_Ok in Hrun as (st1 & Hs & Hrun).
      eapply IH; [exact Hrest | exact Hrun|].
      eapply (scan_sides_offered vis p pn p1 j b (sides b));
        [apply Hbs; left; reflexivity | auto | exact Hs | exact Hst].
Qed.

(** The assertion of a brush is checked on its first side on the plane. *)
Lemma scan_sides_asserted (pn : Z) (p1 : qvec3d) (j : bool) (b : bspbrush_t)
    (go gi : bool) (ss : list side_t) :
  forall st st',
    scan_sides qv_dot pn p1 j b go gi ss st = Ok st' ->
    forall s, List.find (fun s => negb (bevel s) && plane_matches pn s) ss = Some s ->
              faces_away j s = true.
Proof.
  induction ss as [|side rest IH]; intros st st' Hrun s Hs; [discriminate Hs|].
  simpl in Hrun, Hs. destruct (bevel side); simpl in Hs; [eapply IH; eauto|].
  destruct (plane_matches pn side).
  - injection Hs as <-. destruct (faces_away j side); [reflexivity|discriminate Hrun].
  - destruct (fp_gt _ _); eapply IH; eauto.
Qed.

Lemma scan_brushes_asserted (vis : contentflags_t) (pn : Z) (p1 : qvec3d)
    (j : bool) (bs : list bspbrush_t) :
  forall st st',
    scan_brushes game qv_dot vis pn p1 j bs st = Ok st' ->
    forall b s, In b bs -> admitted game vis b = true ->
                first_exact_side pn b = Some s -> faces_away j s = true.
Proof.
  induction bs as [|b0 rest IH]; intros st st' Hrun b s Hin Hadm Hs; [destruct Hin|].
  simpl in Hrun.
  destruct (negb _) eqn:Hneg.
  - destruct Hin as [<-|Hin]; [|eapply IH; eauto].
    unfold admitted, generate_outside, generate_inside in Hadm.
    rewrite Hadm in Hneg. discriminate Hneg.
  - apply bind_Ok in Hrun as (st1 & Hs1 & Hrun).
    destruct Hin as [<-|Hin]; [|eapply IH; eauto].
    eapply scan_sides_asserted; [exact Hs1 | exact Hs].
Qed.

(** The only message of the scan is the one of the assertion. *)
Lemma scan_sides_message (pn : Z) (p1 : qvec3d) (j : bool) (b : bspbrush_t)
    (go gi : bool) (ss : list side_t) :
  forall st msg,
    scan_sides qv_dot pn p1 j b go gi ss st = FError msg ->
    msg = "Q_assert: (side.planenum & 1) == !j"%string.
Proof.
  induction ss as [|side rest IH]; intros st msg Hrun; [discriminate Hrun|].
  simpl in Hrun. destruct (bevel side); [eapply IH; eauto|].
  destruct (plane_matches pn side).
  - destruct (faces_away j side); [discriminate Hrun|]. injection Hrun as <-. reflexivity.
  - destruct (fp_gt _ _); eapply IH; eauto.
Qed.

Lemma scan_brushes_message (vis : contentflags_t) (pn : Z) (p1 : qvec3d)
    (j : bool) (bs : list bspbrush_t) :
  forall st msg,
    scan_brushes game qv_dot vis pn p1 j bs st = FError msg ->
    msg = "Q_assert: (side.planenum & 1) == !j"%string.
Proof.
  induction bs as [|b rest IH]; intros st msg Hrun; [discriminate Hrun|].
  simpl in Hrun. destruct (negb _); [eapply IH; eauto|].
  destruct (scan_sides _ _ _ _ _ _ _ _) as [st1|m] eqn:Hs.
  - rewrite bind_Ok_l in Hrun. eapply IH; eauto.
  - simpl in Hrun. injection Hrun as <-. eapply scan_sides_message; eauto.
Qed.

Lemma FindPortalSide_offered (p p' : portal_t) (w : list string) :
  contents_are_empty game (viscontents_of game p) = false ->
  FindPortalSide game qv_dot p = Ok (p', w) ->
  sidefound p' = true /\
  nodes p' = nodes p /\ onnode p' = onnode p /\ winding p' = winding p /\
  (forall i c, idx (portal_sides p') i = Some c ->
               offered game (viscontents_of game p) p i c) /\
  (w = ["WARNING: side not found for portal"%string] /\
   portal_sides p' = (None, None) \/
   w = [] /\ portal_sides p' <> (None, None)).
Proof.
  intros Hvis Hrun. unfold FindPortalSide in Hrun.
  fold (viscontents_of game p) in Hrun. rewrite Hvis in Hrun.
  destruct (onnode p) as [on|] eqn:Hon; [|discriminate Hrun].
  apply bind_Ok in Hrun as (st1 & Hs1 & Hrun).
  apply bind_Ok in Hrun as (st2 & Hs2 & Hrun).
  assert (H2 : holds_offered game (viscontents_of game p) p st2).
  { unfold scan_node in Hs1, Hs2.
    eapply scan_brushes_offered; [|exact Hs2|].
    { intros b Hb. apply in_rev. exact Hb. }
    eapply scan_brushes_offered; [|exact Hs1|].
    { intros b Hb. apply in_rev. exact Hb. }
    intros i c [Hc|Hc]; destruct i; discriminate Hc. }
  assert (Hsel : forall i c, prefer_exact st2 i = Some c ->
                             offered game (viscontents_of game p) p i c).
  { intros i c Hc. unfold prefer_exact in Hc. apply H2.
    destruct (idx (exactside st2) i); [right|left]; exact Hc. }
  destruct (prefer_exact st2 false) as [c0|] eqn:H0;
    destruct (prefer_exact st2 true) as [c1|] eqn:H1;
    injection Hrun as <- <-; simpl;
    (split; [reflexivity|]); (split; [reflexivity|]);
    (split; [reflexivity|]); (split; [reflexivity|]);
    (split; [intros [] c Hc; simpl in Hc; first [discriminate Hc | apply Hsel; congruence]|]);
    first [left; split; reflexivity | right; split; [reflexivity|discriminate]].
Qed.

(** The sides selected for a portal with visible contents are sides the
    scan was offered: never a bevel, never a side of a brush for which the
    policy generates no face towards that portal side, never a side of a
    brush of another node.  The portal is marked as resolved and keeps its
    nodes; the warning is printed exactly when no side was selected. *)
Theorem find_portal_side_selects_offered (p p' : portal_t) (w : list string) :
  contents_are_empty game (viscontents_of game p) = false ->
  FindPortalSide game qv_dot p = Ok (p', w) ->
  sidefound p' = true /\
  nodes p' = nodes p /\ onnode p' = onnode p /\ winding p' = winding p /\
  (forall i c, idx (portal_sides p') i = Some c ->
               offered game (viscontents_of game p) p i c) /\
  (w = ["WARNING: side not found for portal"%string] /\
   portal_sides p' = (None, None) \/
   w = [] /\ portal_sides p' <> (None, None)).
Proof. intros Hvis Hrun. exact (FindPortalSide_offered p p' w Hvis Hrun). Qed.

(** On a portal with visible contents and a node, [FindPortalSide] returns
    exactly when no brush that the policy admits has, as its first side on
    the portal's plane, a side that faces its own node; otherwise it stops
    on the assertion, and on nothing else. *)
Theorem find_portal_side_returns_iff_oriented (p : portal_t) (on : node_t) :
  contents_are_empty game (viscontents_of game p) = false ->
  onnode p = Some on ->
  ((exists r, FindPortalSide game qv_dot p = Ok r) <->
   well_oriented game (viscontents_of game p) (node_planenum (data on)) p) /\
  (forall msg, FindPortalSide game qv_dot p = FError msg ->
               msg = "Q_assert: (side.planenum & 1) == !j"%string).
Proof.
  intros Hvis Hon. split; [split|].
  - intros [r Hrun]. unfold FindPortalSide in Hrun.
    fold (viscontents_of game p) in Hrun. rewrite Hvis, Hon in Hrun.
    apply bind_Ok in Hrun as (st1 & Hs1 & Hrun).
    apply bind_Ok in Hrun as (st2 & Hs2 & _).
    intros j b s Hin Hadm Hs. unfold scan_node in Hs1, Hs2.
    destruct j.
    + eapply scan_brushes_asserted; [exact Hs2| |exact Hadm|exact Hs].
      apply in_rev in Hin. exact Hin.
    + eapply scan_brushes_asserted; [exact Hs1| |exact Hadm|exact Hs].
      apply in_rev in Hin. exact Hin.
  - intros Hor.
    destruct (FindPortalSide_exact game qv_dot p on false Hvis Hon Hor) as (st & _ & Hfps & _).
    eexists. exact Hfps.
  - intros msg Hrun. unfold FindPortalSide in Hrun.
    fold (viscontents_of game p) in Hrun. rewrite Hvis, Hon in Hrun.
    unfold scan_node in Hrun.
    destruct (scan_brushes _ _ _ _ _ false _ _) as [st1|m1] eqn:Hs1.
    + rewrite bind_Ok_l in Hrun.
      destruct (scan_brushes _ _ _ _ _ true _ _) as [st2|m2] eqn:Hs2.
      * rewrite bind_Ok_l in Hrun. discriminate Hrun.
      * simpl in Hrun. injection Hrun as <-. eapply scan_brushes_message; eauto.
    + simpl in Hrun. injection Hrun as <-. eapply scan_brushes_message; eauto.
Qed.

End FindPortalSideScan.


(** ** The portal builder: what the portals link *)

Section BuilderShape.
Variable W : winding_lib.

Lemma frontier_subnodes (type : portaltype_t) (n m : node_t) :
  In m (frontier type n) -> In m (subnodes n).
Proof.
  induction n as [d|d front IHf back IHb]; simpl.
  - auto.
  - destruct (stops_at type (Interior d front back)).
    + intros [<-|[]]. left. reflexivity.
    + intros H. right. apply in_or_app.
      apply in_app_or in H as [H|H]; auto.
Qed.

Lemma frontier_TREE_leaf (n m : node_t) :
  In m (frontier TREE n) -> is_leaf m = true.
Proof.
  induction n as [d|d front IHf back IHb]; simpl.
  - intros [<-|[]]. reflexivity.
  - intros H. apply in_app_or in H as [H|H]; auto.
Qed.

Lemma sided_linked (k : bool) (n y : node_t) (p : buildportal_t) :
  sided k n y p -> linked n p = true.
Proof.
  unfold sided, linked. destruct (bp_nodes p) as [a b], k; simpl; intros [-> ->].
  - rewrite (points_to_self n). apply orb_true_r.
  - rewrite (points_to_self n). reflexivity.
Qed.

(** Moving a portal that has [n] on side [k] to a child puts the child on
    side [k] and keeps the other side. *)
Lemma moved_sided (k : bool) (n y c : node_t) (p : buildportal_t) (side : bool)
    (id : nat) (w : winding_t) :
  sided k n y p ->
  node_id (data y) <> node_id (data n) ->
  child n side = Some c ->
  sided k c y (moved n p side id w).
Proof.
  unfold sided, moved, relinked. intros [Hk Ho] Hne ->.
  destruct (bp_nodes p) as [a b]; destruct k; simpl in *; subst;
    unfold points_to.
  - apply Nat.eqb_neq in Hne. rewrite Hne. simpl. auto.
  - rewrite Nat.eqb_refl. simpl. auto.
Qed.

Lemma front_piece_moved (node : node_t) (p q : buildportal_t) :
  front_piece W node p = Some q ->
  exists w, q = moved node p false (bp_id p) w.
Proof.
  unfold front_piece. destruct (fragments W node p) as [[fx|] bw]; [|discriminate].
  destruct (WindingIsTiny W fx tiny_size); [discriminate|]. intros [= <-]. eauto.
Qed.

Lemma back_piece_moved (node : node_t) (p q : buildportal_t) (fresh : nat) :
  back_piece W node p fresh = Some q ->
  exists id w, q = moved node p true id w.
Proof.
  unfold back_piece. destruct (fragments W node p) as [fw [bx|]]; [|discriminate].
  destruct (WindingIsTiny W bx tiny_size); [discriminate|]. intros [= <-].
  destruct (kept W fw); eauto.
Qed.

(** The pieces that a split sends to a child are the portals of the list
    moved to that child. *)
Lemma SplitNodePortals_moved (node : node_t) (ps : list buildportal_t)
    (stats : portalstats_t) (fresh : nat) :
  (forall p, In p ps -> linked node p = true) ->
  exists sf sb stats' fresh',
    SplitNodePortals W node ps stats fresh = Ok (sf, sb, stats', fresh') /\
    (forall q, In q sf -> exists p id w, In p ps /\ q = moved node p false id w) /\
    (forall q, In q sb -> exists p id w, In p ps /\ q = moved node p true id w).
Proof.
  intros Hl.
  destruct (SplitNodePortals_lists W node ps Hl stats fresh)
    as (sb & fresh' & Hrun & _ & Hback & _ & _).
  eexists _, sb, _, fresh'. split; [exact Hrun|]. split.
  - intros q Hq. apply in_front in Hq as (p & Hp & Hfp).
    destruct (front_piece_moved _ _ _ Hfp) as [w ->]. eauto.
  - intros q Hq. destruct (Hback q Hq) as (p & fr & Hp & _ & Hbp).
    destruct (back_piece_moved _ _ _ _ Hbp) as (id & w & ->). eauto.
Qed.

Lemma not_in_subtree_front (d : node_data) (front back : node_t) (id : nat) :
  ~ In id (subtree_ids (Interior d front back)) ->
  id <> node_id d /\ ~ In id (subtree_ids front) /\ ~ In id (subtree_ids back).
Proof.
  rewrite subtree_ids_interior. intros H. split; [|split].
  - intros ->. apply H. left. reflexivity.
  - intros Hf. apply H. right. apply in_or_app. auto.
  - intros Hb. apply H. right. apply in_or_app. auto.
Qed.

(** [ClipNodePortalsToTree_r] brings the side of each portal that is on
    [node] down to a frontier node under [node]; the other side, the node
    and the plane of the portal stay.  [F] is any property of the side
    index, the other node, the node and the plane of a portal. *)
Lemma ClipNodePortalsToTree_r_shape (type : portaltype_t)
    (F : bool -> node_t -> option node_t -> qplane3d -> Prop) (node : node_t) :
  forall ps stats fresh,
    (forall p, In p ps -> exists k y,
       sided k node y p /\ ~ In (node_id (data y)) (subtree_ids node) /\
       F k y (bp_onnode p) (bp_plane p)) ->
    exists res stats' fresh',
      ClipNodePortalsToTree_r W node type ps stats fresh = Ok (res, stats', fresh') /\
      forall q, In q res -> exists k y m,
        In m (frontier type node) /\ sided k m y q /\
        F k y (bp_onnode q) (bp_plane q).
Proof.
  induction node as [d|d front IHf back IHb]; intros ps stats fresh Hps.
  - exists ps, stats, fresh. split; [destruct ps; reflexivity|].
    intros q Hq. destruct (Hps q Hq) as (k & y & Hs & _ & HF).
    exists k, y, (Leaf d). split; [left; reflexivity|]. auto.
  - destruct ps as [|p0 ps0].
    { exists [], stats, fresh. split; [reflexivity|]. intros q []. }
    rewrite ClipNodePortalsToTree_r_interior. simpl frontier.
    destruct (stops_at type (Interior d front back)).
    { eexists _, _, _. split; [reflexivity|].
      intros q Hq. destruct (Hps q Hq) as (k & y & Hs & _ & HF).
      exists k, y, (Interior d front back). split; [left; reflexivity|]. auto. }
    destruct (SplitNodePortals_moved (Interior d front back) (p0 :: ps0) stats fresh)
      as (sf & sb & st1 & fr1 & -> & Hsf & Hsb).
    { intros p Hp. destruct (Hps p Hp) as (k & y & Hs & _). eapply sided_linked, Hs. }
    rewrite bind_Ok_l.
    destruct (IHf sf st1 fr1) as (rf & st2 & fr2 & -> & Hrf).
    { intros q Hq. destruct (Hsf q Hq) as (p & id & w & Hp & ->).
      destruct (Hps p Hp) as (k & y & Hs & Hy & HF).
      apply not_in_subtree_front in Hy as (Hd & Hyf & _).
      exists k, y. split; [|split; [exact Hyf | exact HF]].
      apply moved_sided; [exact Hs | exact Hd | reflexivity]. }
    rewrite bind_Ok_l.
    destruct (IHb sb st2 fr2) as (rb & st3 & fr3 & -> & Hrb).
    { intros q Hq. destruct (Hsb q Hq) as (p & id & w & Hp & ->).
      destruct (Hps p Hp) as (k & y & Hs & Hy & HF).
      apply not_in_subtree_front in Hy as (Hd & _ & Hyb).
      exists k, y. split; [|split; [exact Hyb | exact HF]].
      apply moved_sided; [exact Hs | exact Hd | reflexivity]. }
    rewrite bind_Ok_l. eexists _, _, _. split; [reflexivity|].
    intros q Hq. apply in_app_or in Hq as [Hq|Hq].
    + destruct (Hrf q Hq) as (k & y & m & Hm & Hs & HF).
      exists k, y, m. split; [apply in_or_app; auto | auto].
    + destruct (Hrb q Hq) as (k & y & m & Hm & Hs & HF).
      exists k, y, m. split; [apply in_or_app; auto | auto].
Qed.

Lemma MakeNodePortal_shape (d : node_data) (front back : node_t)
    (ps : list buildportal_t) (stats : portalstats_t) (fresh : nat)
    (q : buildportal_t) (stats' : portalstats_t) (fresh' : nat) :
  MakeNodePortal W (Interior d front back) ps stats fresh = Ok (Some q, stats', fresh') ->
  bp_nodes q = (Some front, Some back) /\
  bp_onnode q = Some (Interior d front back) /\
  bp_plane q = node_plane d.
Proof.
  unfold MakeNodePortal. intros H. apply bind_Ok in H as (w & _ & H).
  destruct w as [x|]; [|discriminate].
  destruct (WindingIsTiny W x tiny_size); [discriminate|].
  injection H as <- _ _. auto.
Qed.

Lemma NoDup_subtree_ids (d : node_data) (front back : node_t) :
  NoDup (subtree_ids (Interior d front back)) ->
  NoDup (subtree_ids front) /\ NoDup (subtree_ids back) /\
  ~ In (node_id d) (subtree_ids front) /\ ~ In (node_id d) (subtree_ids back) /\
  (forall id, In id (subtree_ids front) -> ~ In id (subtree_ids back)).
Proof.
  rewrite subtree_ids_interior. intros H.
  apply NoDup_cons in H as [Hd H].
  apply NoDup_app in H as (Hf & Hfb & Hb).
  split; [exact Hf|]. split; [exact Hb|].
  split; [intros Hin; apply Hd; apply list_elem_of_In, in_or_app;
          left; exact Hin|].
  split; [intros Hin; apply Hd; apply list_elem_of_In, in_or_app;
          right; exact Hin|].
  intros id Hi Hi'. apply (Hfb id); apply list_elem_of_In; assumption.
Qed.

Lemma separates_front (type : portaltype_t) (d : node_data) (front back : node_t)
    (pl : qplane3d) (on : option node_t) (ns : option node_t * option node_t) :
  separates type front pl on ns ->
  separates type (Interior d front back) pl on ns.
Proof.
  intros (d' & f & b & m1 & m2 & Hin & H).
  exists d', f, b, m1, m2. split; [|exact H].
  right. apply in_or_app. auto.
Qed.

Lemma separates_back (type : portaltype_t) (d : node_data) (front back : node_t)
    (pl : qplane3d) (on : option node_t) (ns : option node_t * option node_t) :
  separates type back pl on ns ->
  separates type (Interior d front back) pl on ns.
Proof.
  intros (d' & f & b & m1 & m2 & Hin & H).
  exists d', f, b, m1, m2. split; [|exact H].
  right. apply in_or_app. auto.
Qed.

(** [MakeTreePortals_r] on a tree of distinct nodes: each portal returned
    is a piece of a boundary portal, brought down to a frontier node, or a
    portal made for a split node, which separates a frontier node in front
    of it from a frontier node behind it. *)
Lemma MakeTreePortals_r_shape (type : portaltype_t)
    (F : bool -> node_t -> option node_t -> qplane3d -> Prop) (node : node_t) :
  NoDup (subtree_ids node) ->
  forall ps stats fresh,
    (forall p, In p ps -> exists k y,
       sided k node y p /\ ~ In (node_id (data y)) (subtree_ids node) /\
       F k y (bp_onnode p) (bp_plane p)) ->
    exists res stats' fresh',
      MakeTreePortals_r W node type ps stats fresh = Ok (res, stats', fresh') /\
      forall q, In q res ->
        (exists k y m, In m (frontier type node) /\ sided k m y q /\
                       F k y (bp_onnode q) (bp_plane q)) \/
        separates type node (bp_plane q) (bp_onnode q) (bp_nodes q).
Proof.
  induction node as [d|d front IHf back IHb]; intros Hnd ps stats fresh Hps.
  - exists ps, stats, fresh. split; [reflexivity|].
    intros q Hq. left. destruct (Hps q Hq) as (k & y & Hs & _ & HF).
    exists k, y, (Leaf d). split; [left; reflexivity|]. auto.
  - simpl MakeTreePortals_r. simpl frontier.
    destruct (stops_at type (Interior d front back)) eqn:Hstop.
    { eexists _, _, _. split; [reflexivity|].
      intros q Hq. left. destruct (Hps q Hq) as (k & y & Hs & _ & HF).
      exists k, y, (Interior d front back). split; [left; reflexivity|]. auto. }
    destruct (NoDup_subtree_ids d front back Hnd) as (Hndf & Hndb & Hdf & Hdb & Hfb).
    assert (Hl : forall p, In p ps -> linked (Interior d front back) p = true).
    { intros p Hp. destruct (Hps p Hp) as (k & y & Hs & _). eapply sided_linked, Hs. }
    destruct (MakeNodePortal_returns W (Interior d front back) ps stats fresh Hl)
      as [[[np st0] fr0] Hnp].
    rewrite Hnp, bind_Ok_l.
    destruct (SplitNodePortals_moved (Interior d front back) ps st0 fr0 Hl)
      as (sf & sb & st1 & fr1 & -> & Hsf & Hsb).
    rewrite bind_Ok_l.
    destruct (IHf Hndf sf st1 fr1) as (rf & st2 & fr2 & -> & Hrf).
    { intros q Hq. destruct (Hsf q Hq) as (p & id & w & Hp & ->).
      destruct (Hps p Hp) as (k & y & Hs & Hy & HF).
      apply not_in_subtree_front in Hy as (Hd & Hyf & _).
      exists k, y. split; [|split; [exact Hyf | exact HF]].
      apply moved_sided; [exact Hs | exact Hd | reflexivity]. }
    rewrite bind_Ok_l.
    destruct (IHb Hndb sb st2 fr2) as (rb & st3 & fr3 & -> & Hrb).
    { intros q Hq. destruct (Hsb q Hq) as (p & id & w & Hp & ->).
      destruct (Hps p Hp) as (k & y & Hs & Hy & HF).
      apply not_in_subtree_front in Hy as (Hd & _ & Hyb).
      exists k, y. split; [|split; [exact Hyb | exact HF]].
      apply moved_sided; [exact Hs | exact Hd | reflexivity]. }
    rewrite bind_Ok_l.
    assert (Hsides : forall q, In q (rf ++ rb) ->
      (exists k y m, In m (frontier type front ++ frontier type back) /\
                     sided k m y q /\ F k y (bp_onnode q) (bp_plane q)) \/
      separates type (Interior d front back) (bp_plane q) (bp_onnode q) (bp_nodes q)).
    { intros q Hq. apply in_app_or in Hq as [Hq|Hq].
      - destruct (Hrf q Hq) as [(k & y & m & Hm & H)|H].
        + left. exists k, y, m. split; [apply in_or_app; auto | exact H].
        + right. apply separates_front, H.
      - destruct (Hrb q Hq) as [(k & y & m & Hm & H)|H].
        + left. exists k, y, m. split; [apply in_or_app; auto | exact H].
        + right. apply separates_back, H. }
    destruct np as [q0|].
    2:{ rewrite bind_Ok_l. eexists _, _, _. split; [reflexivity|].
        intros q Hq. rewrite app_nil_r in Hq. apply Hsides, Hq. }
    destruct (MakeNodePortal_shape _ _ _ _ _ _ _ _ _ Hnp) as (Hq0 & Hon0 & Hpl0).
    destruct (ClipNodePortalsToTree_r_shape type
                (fun k y on pl => k = false /\ y = back /\
                                  on = Some (Interior d front back) /\
                                  pl = node_plane d)
                front [q0] st3 fr3) as (half & st4 & fr4 & -> & Hhalf).
    { intros p [<-|[]]. exists false, back. split; [|split].
      - unfold sided. rewrite Hq0. auto.
      - intros Hin. apply (Hfb _ Hin). unfold subtree_ids. apply in_map_iff.
        exists back. split; [reflexivity | apply in_subnodes_self].
      - auto. }
    rewrite bind_Ok_l.
    destruct (ClipNodePortalsToTree_r_shape type
                (fun k y on pl => k = true /\ In y (frontier type front) /\
                                  on = Some (Interior d front back) /\
                                  pl = node_plane d)
                back half st4 fr4) as (ro & st5 & fr5 & -> & Hro).
    { intros p Hp. destruct (Hhalf p Hp) as (k & y & m & Hm & Hs & -> & -> & Hon & Hpl).
      exists true, m. split; [|split].
      - destruct Hs as [H1 H2]. split; assumption.
      - intros Hin. apply (Hfb (node_id (data m))); [|exact Hin].
        apply in_subtree_ids, (frontier_subnodes type), Hm.
      - auto. }
    rewrite !bind_Ok_l. eexists _, _, _. split; [reflexivity|].
    intros q Hq. rewrite app_assoc in Hq. apply in_app_or in Hq as [Hq|Hq].
    { apply Hsides, Hq. }
    right. destruct (Hro q Hq) as (k & y & m & Hm & Hs & -> & Hy & Hon & Hpl).
    exists d, front, back, y, m.
    split; [left; reflexivity|]. split; [exact Hy|]. split; [exact Hm|].
    split; [|split; assumption].
    destruct Hs as [H1 H2]. simpl in H1, H2.
    destruct (bp_nodes q) as [a b]. simpl in *. subst. reflexivity.
Qed.

End BuilderShape.


(** ** MakePortalsFromBuildportals: the chains *)

Lemma chain_insert_same (t : tree_t) (np : gmap nat (list portal_t)) (n : node_t)
    (l : list portal_t) :
  default [] (<[node_id (data n) := l]> np !! node_id (data n)) = l.
Proof. rewrite lookup_insert_eq. reflexivity. Qed.

Lemma add_buildportal_spec (tree : tree_t) (bp : buildportal_t) (f b : node_t) :
  bp_nodes bp = (Some f, Some b) ->
  node_id (data f) <> node_id (data b) ->
  exists tree',
    add_buildportal tree bp = Ok tree' /\
    tree_portals tree' = tree_portals tree ++ [to_portal bp f b] /\
    headnode tree' = headnode tree /\ outside_node tree' = outside_node tree /\
    node_bounds tree' = node_bounds tree /\
    forall n, chain tree' n =
              (if touches (node_id (data n)) (to_portal bp f b)
               then [to_portal bp f b] else []) ++ chain tree n.
Proof.
  intros Hn Hne. unfold add_buildportal. rewrite Hn.
  eexists. split; [reflexivity|]. cbn [tree_portals headnode outside_node node_bounds].
  split; [reflexivity|]. split; [reflexivity|]. split; [reflexivity|]. split; [reflexivity|].
  intros n. unfold chain, touches, to_portal.
  cbn [node_portals nodes fst snd].
  destruct (Nat.eqb_spec (node_id (data b)) (node_id (data n))) as [Eb|Nb].
  - rewrite orb_true_r. rewrite <- Eb. rewrite lookup_insert_eq.
    rewrite lookup_insert_ne by exact Hne. reflexivity.
  - rewrite orb_false_r. rewrite lookup_insert_ne by exact Nb.
    destruct (Nat.eqb_spec (node_id (data f)) (node_id (data n))) as [Ef|Nf].
    + rewrite <- Ef. rewrite lookup_insert_eq. reflexivity.
    + rewrite lookup_insert_ne by exact Nf. reflexivity.
Qed.

(** [MakePortalsFromBuildportals] makes one portal per build portal, in
    order, and puts each at the head of the chains of its two nodes: the
    chain of a node is then the new portals that touch it, last made
    first, followed by its old chain. *)
Lemma portals_from_buildportals_spec (bps : list buildportal_t) :
  forall tree : tree_t,
    (forall bp, In bp bps -> exists f b,
       bp_nodes bp = (Some f, Some b) /\ node_id (data f) <> node_id (data b)) ->
    exists tree' new,
      MakePortalsFromBuildportals tree bps = Ok tree' /\
      Forall2 (fun bp p => exists f b, bp_nodes bp = (Some f, Some b) /\
                                       p = to_portal bp f b) bps new /\
      tree_portals tree' = tree_portals tree ++ new /\
      headnode tree' = headnode tree /\ outside_node tree' = outside_node tree /\
      node_bounds tree' = node_bounds tree /\
      forall n, chain tree' n =
                rev (List.filter (touches (node_id (data n))) new) ++ chain tree n.
Proof.
  induction bps as [|bp rest IH]; intros tree Hbps.
  - exists tree, []. split; [reflexivity|]. split; [constructor|].
    rewrite app_nil_r. auto.
  - destruct (Hbps bp (or_introl eq_refl)) as (f & b & Hn & Hne).
    destruct (add_buildportal_spec tree bp f b Hn Hne)
      as (t1 & Hadd & Hp1 & Hh1 & Ho1 & Hb1 & Hc1).
    destruct (IH t1) as (t2 & new & Hrun & Hall & Hp2 & Hh2 & Ho2 & Hb2 & Hc2).
    { intros bp' Hin. apply Hbps. right. exact Hin. }
    exists t2, (to_portal bp f b :: new).
    split; [simpl; rewrite Hadd; exact Hrun|].
    split; [constructor; [eauto | exact Hall]|].
    split; [rewrite Hp2, Hp1, <- app_assoc; reflexivity|].
    split; [congruence|]. split; [congruence|]. split; [congruence|].
    intros n. rewrite Hc2, Hc1. simpl List.filter.
    destruct (touches (node_id (data n)) (to_portal bp f b)).
    + simpl rev. rewrite <- app_assoc. reflexivity.
    + reflexivity.
Qed.

(** ** MakeHeadnodePortals: the six portals *)

Section HeadnodePortalsShape.
Variable game : gamedef_t.
Variable W : winding_lib.
Variable A : aabb_lib.
Variable SIDESPACE : Q.
Variable epsilon : Q.
Variable set_plane : qplane3d -> bool -> qplane3d * bool.

Lemma box_portal_fields (tree : tree_t) (bounds : aabb3d) (fresh n : nat) (w : winding_t) :
  let p := set_winding (box_portal W set_plane tree bounds fresh n) w in
  bp_id p = (fresh + 2 * (n mod 3) + (if Nat.leb 3 n then 1 else 0))%nat /\
  bp_onnode p = None /\ bp_winding p = w /\
  bp_plane p = fst (set_plane (box_plane bounds (n mod 3) (Nat.leb 3 n)) true) /\
  sided (snd (set_plane (box_plane bounds (n mod 3) (Nat.leb 3 n)) true))
    (headnode tree) (outside_node tree) p.
Proof.
  unfold box_portal, sided. destruct (set_plane _ true) as [pl [|]]; simpl; auto 10.
Qed.

(** When [MakeHeadnodePortals] returns, it returns six portals at six new
    addresses; none has a node of its own, each has the headnode on one
    side and the outside node on the other (the headnode on side 0 unless
    [set_plane] flipped the plane), and its winding is the base winding of
    its box plane clipped by the five other box planes.  The outside node
    is left without portals. *)
Theorem headnode_portals_around_the_world (tree : tree_t) (fresh : nat)
    (ps : list buildportal_t) (fresh' : nat) :
  snd (MakeHeadnodePortals game W A SIDESPACE epsilon set_plane tree fresh) =
    Ok (ps, fresh') ->
  let tree' := fst (MakeHeadnodePortals game W A SIDESPACE epsilon set_plane tree fresh) in
  let bounds := aabb_grow A (tree_bounds tree) SIDESPACE in
  fresh' = (fresh + 6)%nat /\
  List.map bp_id ps =
    [fresh; fresh + 2; fresh + 4; fresh + 1; fresh + 3; fresh + 5]%nat /\
  headnode tree' = headnode tree /\
  chain tree' (outside_node tree') = [] /\
  forall n p, ps !! n = Some p ->
    bp_onnode p = None /\
    sided (snd (set_plane (box_plane bounds (n mod 3) (Nat.leb 3 n)) true))
      (headnode tree) (outside_node tree') p /\
    clipped_by_others W epsilon (box_planes bounds) n
      (BaseWindingForPlane W (box_plane bounds (n mod 3) (Nat.leb 3 n))) =
      Some (bp_winding p).
Proof.
  intros Hrun tree' bounds.
  rewrite MakeHeadnodePortals_spec in Hrun. fold bounds in Hrun.
  destruct (mapM _ box_indices) as [ws|] eqn:Hws; [|discriminate Hrun].
  injection Hrun as <- <-.
  pose proof (length_mapM _ _ _ Hws) as Hlen.
  apply mapM_Some_1 in Hws.
  destruct ws as [|w0 [|w1 [|w2 [|w3 [|w4 [|w5 [|w6 ws]]]]]]]; try discriminate Hlen.
  clear Hlen.
  split; [reflexivity|]. split.
  { assert (Hid : forall n,
              bp_id (box_portal W set_plane (mark_outside game tree) bounds fresh n) =
              (fresh + 2 * (n mod 3) + (if Nat.leb 3 n then 1 else 0))%nat).
    { intros n. unfold box_portal. destruct (set_plane _ true) as [pl [|]]; reflexivity. }
    simpl. rewrite !Hid. simpl.
    repeat (apply (f_equal2 cons); [lia|]). reflexivity. }
  split; [reflexivity|]. split.
  { unfold tree', MakeHeadnodePortals, chain, mark_outside. cbn.
    rewrite lookup_insert_eq. reflexivity. }
  intros n p Hn.
  assert (Hw : exists w, p = set_winding (box_portal W set_plane (mark_outside game tree)
                                            bounds fresh n) w /\
                         clipped_by_others W epsilon (box_planes bounds) n
                           (bp_winding (box_portal W set_plane (mark_outside game tree)
                                          bounds fresh n)) = Some w).
  { repeat (apply Forall2_cons_1 in Hws as [?H Hws]).
    destruct n as [|[|[|[|[|[|n]]]]]]; simpl in Hn; try discriminate Hn;
      injection Hn as <-; eauto. }
  destruct Hw as (w & -> & Hclip).
  destruct (box_portal_fields (mark_outside game tree) bounds fresh n w)
    as (_ & Hon & Hwd & _ & Hs).
  split; [exact Hon|]. split; [exact Hs|].
  rewrite Hwd. rewrite <- Hclip. f_equal.
  unfold box_portal. destruct (set_plane _ true) as [pl [|]]; reflexivity.
Qed.

End HeadnodePortalsShape.


(** ** MakeTreePortals: the portals of the tree *)

Lemma subnodes_NoDup (root n : node_t) :
  In n (subnodes root) -> NoDup (subtree_ids root) -> NoDup (subtree_ids n).
Proof.
  induction root as [d|d front IHf back IHb]; simpl; intros Hin Hnd.
  - destruct Hin as [<-|[]]. exact Hnd.
  - destruct Hin as [<-|Hin]; [exact Hnd|].
    destruct (NoDup_subtree_ids d front back Hnd) as (Hf & Hb & _).
    apply in_app_or in Hin as [Hin|Hin]; auto.
Qed.

Section BoundsMessages.
Variable A : aabb_lib.
Variable worldextent : Q.

Lemma check_bounds_message (node : node_t) (st : tree_t * list string) (msg : string) :
  check_bounds A worldextent node st = FError msg -> msg = "null parent"%string.
Proof.
  destruct st as [t log]. unfold check_bounds.
  destruct (without_volume _).
  - destruct (parent (data node)) as [|up rest].
    + simpl. intros [= <-]. reflexivity.
    + rewrite bind_Ok_l. destruct (beyond_extent _ _); discriminate.
  - rewrite bind_Ok_l. destruct (beyond_extent _ _); discriminate.
Qed.

Lemma CalcTreeBounds_r_message (node : node_t) :
  forall st msg,
    CalcTreeBounds_r A worldextent node st = FError msg -> msg = "null parent"%string.
Proof.
  induction node as [d|d front IHf back IHb]; intros st msg H.
  - rewrite CalcTreeBounds_r_leaf in H. eapply check_bounds_message, H.
  - rewrite CalcTreeBounds_r_interior in H.
    destruct (CalcTreeBounds_r A worldextent front st) as [st1|m1] eqn:H1.
    2:{ simpl in H. injection H as <-. eapply IHf, H1. }
    rewrite bind_Ok_l in H.
    destruct (CalcTreeBounds_r A worldextent back st1) as [st2|m2] eqn:H2.
    2:{ simpl in H. injection H as <-. eapply IHb, H2. }
    rewrite bind_Ok_l in H. eapply check_bounds_message, H.
Qed.

Lemma check_bounds_nodes (node : node_t) (st st' : tree_t * list string) :
  check_bounds A worldextent node st = Ok st' ->
  headnode (fst st') = headnode (fst st) /\
  outside_node (fst st') = outside_node (fst st).
Proof.
  destruct st as [t log]. unfold check_bounds.
  destruct (without_volume _).
  - destruct (parent (data node)) as [|up rest]; [discriminate|].
    rewrite bind_Ok_l. destruct (beyond_extent _ _); intros [= <-]; auto.
  - rewrite bind_Ok_l. destruct (beyond_extent _ _); intros [= <-]; auto.
Qed.

Lemma CalcTreeBounds_r_nodes (node : node_t) :
  forall st st',
    CalcTreeBounds_r A worldextent node st = Ok st' ->
    headnode (fst st') = headnode (fst st) /\
    outside_node (fst st') = outside_node (fst st).
Proof.
  induction node as [d|d front IHf back IHb]; intros st st' H.
  - rewrite CalcTreeBounds_r_leaf in H. apply check_bounds_nodes in H. exact H.
  - rewrite CalcTreeBounds_r_interior in H.
    apply bind_Ok in H as (st1 & H1 & H).
    apply bind_Ok in H as (st2 & H2 & H).
    apply check_bounds_nodes in H. cbn [fst] in H.
    destruct (IHf _ _ H1) as [E1 E1'], (IHb _ _ H2) as [E2 E2'], H as [E3 E3'].
    cbn [set_bounds headnode outside_node] in *. split; congruence.
Qed.

End BoundsMessages.

Lemma Forall2_In_r {X Y : Type} (P : X -> Y -> Prop) (l : list X) (k : list Y) (y : Y) :
  Forall2 P l k -> In y k -> exists x, In x l /\ P x y.
Proof.
  induction 1 as [|x y' l k H _ IH]; intros Hin; [destruct Hin|].
  destruct Hin as [<-|Hin].
  - exists x. split; [left; reflexivity | exact H].
  - destruct (IH Hin) as (x' & Hx & HP). exists x'. split; [right; exact Hx | exact HP].
Qed.

Section PortalizationShape.
Variable game : gamedef_t.
Variable W : winding_lib.
Variable A : aabb_lib.
Variable SIDESPACE : Q.
Variable epsilon : Q.
Variable worldextent : Q.
Variable set_plane : qplane3d -> bool -> qplane3d * bool.

Lemma MakeHeadnodePortals_sided (tree : tree_t) (fresh : nat)
    (ps : list buildportal_t) (fresh' : nat) :
  snd (MakeHeadnodePortals game W A SIDESPACE epsilon set_plane tree fresh) =
    Ok (ps, fresh') ->
  forall p, In p ps ->
    bp_onnode p = None /\
    exists k, sided k (headnode tree) (outside_node (mark_outside game tree)) p.
Proof.
  intros Hrun p Hin. rewrite MakeHeadnodePortals_spec in Hrun.
  destruct (mapM _ box_indices) as [ws|]; [|discriminate].
  apply (f_equal (fun r => match r with Ok (l, _) => l | FError _ => [] end))
    in Hrun.
  cbv beta iota in Hrun. rewrite <- Hrun in Hin.
  apply in_zip_with_set_winding in Hin as (n & w & ->).
  destruct (box_portal_fields W set_plane (mark_outside game tree)
              (aabb_grow A (tree_bounds tree) SIDESPACE) fresh n w)
    as (_ & Hon & _ & _ & Hs).
  split; [exact Hon|]. eexists. exact Hs.
Qed.

Lemma sided_nodes (k : bool) (n y : node_t) (p : buildportal_t) :
  sided k n y p ->
  bp_nodes p = (if k then (Some y, Some n) else (Some n, Some y)).
Proof.
  unfold sided. destruct (bp_nodes p) as [a b], k; simpl; intros [-> ->]; reflexivity.
Qed.

(** The run of [MakeTreePortals] up to the bounds pass. *)
Lemma MakeTreePortals_built (tree : tree_t) (fresh : nat)
    (hps : list buildportal_t) (fr1 : nat) :
  NoDup (subtree_ids (headnode tree)) ->
  ~ In (node_id (data (outside_node tree))) (subtree_ids (headnode tree)) ->
  snd (MakeHeadnodePortals game W A SIDESPACE epsilon set_plane
         (FreeTreePortals tree) fresh) = Ok (hps, fr1) ->
  let X := outside_node (mark_outside game (FreeTreePortals tree)) in
  exists st2 t3,
    MakeTreePortals game W A SIDESPACE epsilon worldextent set_plane tree fresh =
      CalcTreeBounds_r A worldextent (headnode tree) (t3, []) ≫=
        (fun '(t, log) => Ok (t, st2, log)) /\
    headnode t3 = headnode tree /\ outside_node t3 = X /\
    (forall p, In p (tree_portals t3) ->
       sidefound p = false /\
       (borders TREE (headnode tree) X (onnode p)
          (Some (fst (nodes p)), Some (snd (nodes p))) \/
        separates TREE (headnode tree) (portal_plane p) (onnode p)
          (Some (fst (nodes p)), Some (snd (nodes p))))) /\
    (forall n, chain t3 n =
               rev (List.filter (touches (node_id (data n))) (tree_portals t3))).
Proof.
  intros Hnd HX Hhead X.
  pose proof (MakeHeadnodePortals_sided _ _ _ _ Hhead) as Hsided.
  destruct (MakeTreePortals_r_shape W TREE
              (fun k y on pl => y = X /\ on = None)
              (headnode tree) Hnd hps (mk_portalstats 0) fr1)
    as (bps & st2 & fr2 & Hbuild & Hshape).
  { intros p Hp. destruct (Hsided p Hp) as (Hon & k & Hs).
    exists k, X. split; [exact Hs|]. split; [exact HX|]. auto. }
  assert (Hjoin : forall q, In q bps ->
            borders TREE (headnode tree) X (bp_onnode q) (bp_nodes q) \/
            separates TREE (headnode tree) (bp_plane q) (bp_onnode q) (bp_nodes q)).
  { intros q Hq. destruct (Hshape q Hq) as [(k & y & m & Hm & Hs & -> & Hon)|H];
      [left|right; exact H].
    split; [exact Hon|]. exists m. split; [exact Hm|].
    rewrite (sided_nodes _ _ _ _ Hs). destruct k; auto. }
  destruct (portals_from_buildportals_spec bps (mark_outside game (FreeTreePortals tree)))
    as (t3 & new & Hfinal & Hall & Hports & Hh3 & Ho3 & _ & Hchain).
  { intros q Hq. destruct (Hjoin q Hq) as [(_ & m & Hm & Hn)|H].
    - assert (Hne : node_id (data m) <> node_id (data X)).
      { intros E. apply HX. change (node_id (data (outside_node tree)))
          with (node_id (data X)). rewrite <- E.
        apply in_subtree_ids, (frontier_subnodes TREE), Hm. }
      destruct Hn as [Hn|Hn]; rewrite Hn; eauto.
    - destruct H as (d & f & b & m1 & m2 & Hin & H1 & H2 & Hn & _).
      exists m1, m2. split; [exact Hn|].
      pose proof (subnodes_NoDup _ _ Hin Hnd) as Hnd'.
      destruct (NoDup_subtree_ids d f b Hnd') as (_ & _ & _ & _ & Hfb).
      intros E. apply (Hfb (node_id (data m1))).
      + apply in_subtree_ids, (frontier_subnodes TREE), H1.
      + rewrite E. apply in_subtree_ids, (frontier_subnodes TREE), H2. }
  exists st2, t3.
  split; [|split; [exact Hh3|split; [exact Ho3|split]]].
  - unfold MakeTreePortals.
    destruct (MakeHeadnodePortals game W A SIDESPACE epsilon set_plane
                (FreeTreePortals tree) fresh) as [t1 r] eqn:Hrun.
    simpl in Hhead. subst r.
    assert (Et1 : t1 = mark_outside game (FreeTreePortals tree)).
    { unfold MakeHeadnodePortals in Hrun. injection Hrun as <- _. reflexivity. }
    subst t1. rewrite bind_Ok_l.
    change (headnode (mark_outside game (FreeTreePortals tree))) with (headnode tree).
    rewrite Hbuild, bind_Ok_l. rewrite Hfinal, bind_Ok_l.
    rewrite Hh3. reflexivity.
  - simpl in Hports. rewrite Hports. intros p Hp.
    destruct (Forall2_In_r _ _ _ _ Hall Hp) as (q & Hq & f & b & Hn & ->).
    split; [reflexivity|]. simpl. rewrite <- Hn. apply Hjoin, Hq.
  - intros n. rewrite Hchain. simpl in Hports. rewrite Hports.
    unfold chain, mark_outside. cbn [node_portals FreeTreePortals outside_node data node_id].
    destruct (decide (node_id (data (outside_node tree)) = node_id (data n))) as [E|E].
    + rewrite E, lookup_insert_eq. apply app_nil_r.
    + rewrite lookup_insert_ne by exact E. rewrite lookup_empty. apply app_nil_r.
Qed.

(** In a tree of distinct nodes, every portal that [MakeTreePortals] leaves
    is either a piece of the box around the world, which has no node of
    its own and joins a leaf to the outside node, or a portal made for a
    split node, which lies on the plane of that node and has a leaf of its
    front child on side 0 and a leaf of its back child on side 1.  Both
    sides of every portal are leaves, so that the entity flood never stops
    on "not a leaf"; and the chain of a node holds exactly the portals that
    touch it, last made first. *)
Theorem make_tree_portals_link_leaves (tree : tree_t) (fresh : nat)
    (tree' : tree_t) (stats : portalstats_t) (log : list string) :
  NoDup (subtree_ids (headnode tree)) ->
  ~ In (node_id (data (outside_node tree))) (subtree_ids (headnode tree)) ->
  MakeTreePortals game W A SIDESPACE epsilon worldextent set_plane tree fresh =
    Ok (tree', stats, log) ->
  headnode tree' = headnode tree /\
  is_leaf (outside_node tree') = true /\
  (forall p, In p (tree_portals tree') ->
     (borders TREE (headnode tree) (outside_node tree') (onnode p)
        (Some (fst (nodes p)), Some (snd (nodes p))) \/
      separates TREE (headnode tree) (portal_plane p) (onnode p)
        (Some (fst (nodes p)), Some (snd (nodes p)))) /\
     is_leaf (fst (nodes p)) = true /\ is_leaf (snd (nodes p)) = true /\
     sidefound p = false /\
     forall s, exists b, Portal_EntityFlood game p s = Ok b) /\
  (forall n, chain tree' n =
             rev (List.filter (touches (node_id (data n))) (tree_portals tree'))).
Proof.
  intros Hnd HX Hrun.
  destruct (snd (MakeHeadnodePortals game W A SIDESPACE epsilon set_plane
                   (FreeTreePortals tree) fresh)) as [[hps fr1]|msg] eqn:Hhead.
  2:{ unfold MakeTreePortals in Hrun.
      destruct (MakeHeadnodePortals game W A SIDESPACE epsilon set_plane
                  (FreeTreePortals tree) fresh) as [t1 r].
      simpl in Hhead. subst r. discriminate Hrun. }
  destruct (MakeTreePortals_built tree fresh hps fr1 Hnd HX Hhead)
    as (st2 & t3 & Heq & Hh3 & Ho3 & Hshape & Hchain).
  rewrite Heq in Hrun. apply bind_Ok in Hrun as ([t4 log4] & Hbounds & Hrun).
  injection Hrun as <- _ _.
  destruct (CalcTreeBounds_r_portals A worldextent _ _ _ Hbounds) as [Ep Enp].
  destruct (CalcTreeBounds_r_nodes A worldextent _ _ _ Hbounds) as [Eh Eo].
  simpl in Ep, Enp, Eh, Eo.
  assert (HXleaf : is_leaf (outside_node t4) = true).
  { rewrite Eo, Ho3. reflexivity. }
  split; [congruence|]. split; [exact HXleaf|]. split.
  - intros p Hp. rewrite Ep in Hp. destruct (Hshape p Hp) as [Hsf Hsh].
    rewrite Eo, Ho3.
    assert (Hleaves : is_leaf (fst (nodes p)) = true /\ is_leaf (snd (nodes p)) = true).
    { destruct Hsh as [(_ & m & Hm & Hn)|(d & f & b & m1 & m2 & _ & H1 & H2 & Hn & _)].
      - pose proof (frontier_TREE_leaf _ _ Hm) as Hl.
        destruct Hn as [Hn|Hn]; injection Hn as -> ->; auto.
      - injection Hn as -> ->.
        split; eapply frontier_TREE_leaf; eassumption. }
    split; [exact Hsh|]. destruct Hleaves as [L0 L1].
    split; [exact L0|]. split; [exact L1|]. split; [exact Hsf|].
    intros s. unfold Portal_EntityFlood. rewrite L0, L1. simpl.
    destruct (_ || _); eauto.
  - intros n. unfold chain. rewrite Enp, Ep. apply Hchain.
Qed.

(** On a tree of distinct nodes [MakeTreePortals] stops only when a box
    winding is clipped away or when a node without a parent is left
    without volume; no portal is found mis-linked or already included. *)
Theorem make_tree_portals_aborts_only_for (tree : tree_t) (fresh : nat) (msg : string) :
  NoDup (subtree_ids (headnode tree)) ->
  ~ In (node_id (data (outside_node tree))) (subtree_ids (headnode tree)) ->
  MakeTreePortals game W A SIDESPACE epsilon worldextent set_plane tree fresh =
    FError msg ->
  msg = "portal winding clipped away"%string \/ msg = "null parent"%string.
Proof.
  intros Hnd HX Hrun.
  destruct (snd (MakeHeadnodePortals game W A SIDESPACE epsilon set_plane
                   (FreeTreePortals tree) fresh)) as [[hps fr1]|m] eqn:Hhead.
  - destruct (MakeTreePortals_built tree fresh hps fr1 Hnd HX Hhead)
      as (st2 & t3 & Heq & _).
    rewrite Heq in Hrun.
    destruct (CalcTreeBounds_r A worldextent (headnode tree) (t3, []))
      as [[t4 log4]|m] eqn:Hbounds; [discriminate Hrun|].
    simpl in Hrun. injection Hrun as <-. right.
    eapply CalcTreeBounds_r_message, Hbounds.
  - left. pose proof Hhead as Hm. rewrite MakeHeadnodePortals_spec in Hm.
    destruct (mapM _ box_indices); [discriminate Hm|]. injection Hm as Hm.
    unfold MakeTreePortals in Hrun.
    destruct (MakeHeadnodePortals game W A SIDESPACE epsilon set_plane
                (FreeTreePortals tree) fresh) as [t1 r].
    simpl in Hhead. subst r. simpl in Hrun. congruence.
Qed.

End PortalizationShape.


(** ** FloodAreas_r and FindAreas: the areas *)

Section FloodFill.
Variable game : gamedef_t.
Variable Q2_CONTENTS_AREAPORTAL : Z.
Variable tree : tree_t.

Lemma flooded_refl (P : node_t -> Prop) (st : flood_state) :
  flooded game Q2_CONTENTS_AREAPORTAL tree P st st.
Proof.
  split; [reflexivity|]. split; [auto|]. split; [intros x H H'; contradiction|].
  split; [intros x p H H'; contradiction | auto].
Qed.

Lemma flooded_trans (P : node_t -> Prop) (a b c : flood_state) :
  flooded game Q2_CONTENTS_AREAPORTAL tree P a b ->
  flooded game Q2_CONTENTS_AREAPORTAL tree P b c ->
  flooded game Q2_CONTENTS_AREAPORTAL tree P a c.
Proof.
  intros (Hc1 & Hk1 & Hn1 & Hcl1 & Hp1) (Hc2 & Hk2 & Hn2 & Hcl2 & Hp2).
  split; [congruence|]. split; [|split; [|split]].
  - intros x Hx. rewrite Hk2; [apply Hk1, Hx|]. rewrite Hk1; assumption.
  - intros x H0 Hx.
    destruct (Nat.eq_dec (area_of b x) 0) as [E|E].
    + rewrite (Hn2 x E Hx). exact Hc1.
    + rewrite (Hk2 x E). apply (Hn1 x H0 E).
  - intros x p H0 Hx Hp Hf.
    destruct (Nat.eq_dec (area_of b x) 0) as [E|E].
    + apply (Hcl2 x p E Hx Hp Hf).
    + destruct (Hcl1 x p H0 E Hp Hf) as [H|H]; [left; exact H|].
      right. rewrite (Hk2 _ H). exact H.
  - intros x Hx. rewrite (Hp2 x Hx). apply Hp1, Hx.
Qed.

Lemma flooded_same_areas (P : node_t -> Prop) (st st' : flood_state) :
  c_areas st' = c_areas st -> node_area st' = node_area st ->
  flooded game Q2_CONTENTS_AREAPORTAL tree P st st'.
Proof.
  intros Hc Ha.
  assert (E : forall x, area_of st' x = area_of st x)
    by (intros x; unfold area_of; rewrite Ha; reflexivity).
  split; [exact Hc|]. split; [auto|].
  split; [intros x H H'; rewrite E in H'; contradiction|].
  split; [intros x p H H'; rewrite E in H'; contradiction | auto].
Qed.

Lemma touch_areaportal_areas (node : node_t) (st st' : flood_state) :
  touch_areaportal node st = Ok st' ->
  c_areas st' = c_areas st /\ node_area st' = node_area st.
Proof.
  unfold touch_areaportal.
  destruct (AreanodeEntityForLeaf node) as [e|]; [|intros [= <-]; auto].
  destruct (entities st !! e) as [entity|]; [|discriminate].
  destruct (_ || _); [intros [= <-]; auto|].
  destruct (negb (Nat.eqb (snd (portalareas entity)) 0)); [intros [= <-]; auto|].
  destruct (negb (Nat.eqb (fst (portalareas entity)) 0)); intros [= <-]; auto.
Qed.

Lemma area_of_set_area (st : flood_state) (n x : node_t) :
  area_of (set_area st n) x =
  if Nat.eqb (node_id (data x)) (node_id (data n)) then c_areas st else area_of st x.
Proof.
  unfold area_of, set_area. cbn [node_area].
  destruct (Nat.eqb_spec (node_id (data x)) (node_id (data n))) as [E|E].
  - rewrite E, lookup_insert_eq. reflexivity.
  - rewrite lookup_insert_ne by congruence. reflexivity.
Qed.

Lemma area_of_same_id (st : flood_state) (x n : node_t) :
  node_id (data x) = node_id (data n) -> area_of st x = area_of st n.
Proof. unfold area_of. intros ->. reflexivity. Qed.

Lemma chain_same_id (x n : node_t) :
  node_id (data x) = node_id (data n) -> chain tree x = chain tree n.
Proof. unfold chain. intros ->. reflexivity. Qed.

Lemma across_same_id (x n : node_t) (p : portal_t) :
  node_id (data x) = node_id (data n) -> across x p = across n p.
Proof. unfold across, points_to. intros ->. reflexivity. Qed.

Lemma floods_leaves (p : portal_t) :
  floods game p = true ->
  is_leaf (fst (nodes p)) = true /\ is_leaf (snd (nodes p)) = true.
Proof.
  unfold floods, Portal_EntityFlood.
  destruct (is_leaf (fst (nodes p))), (is_leaf (snd (nodes p)));
    simpl; try discriminate; auto.
Qed.

Lemma across_leaf (n : node_t) (p : portal_t) :
  floods game p = true -> is_leaf (across n p) = true.
Proof.
  intros H. apply floods_leaves in H as [H0 H1].
  unfold across. destruct (negb _); assumption.
Qed.


Lemma flood_portals_cons
    (flood : node_t -> flood_state -> option (result flood_state)) (node : node_t)
    (p : portal_t) (rest : list portal_t) (st : flood_state) :
  flood_portals game flood node (p :: rest) st =
  match Portal_EntityFlood game p false with
  | FError msg => Some (FError msg)
  | Ok false => flood_portals game flood node rest st
  | Ok true =>
    match flood (across node p) st with
    | Some (Ok st) => flood_portals game flood node rest st
    | other => other
    end
  end.
Proof. reflexivity. Qed.

Section Visited.
(** [V] holds of the nodes that the flood can meet; no node of [P] shares
    its address with a node that the flood can stamp. *)
Variable V : node_t -> Prop.
Variable P : node_t -> Prop.
Hypothesis V_across : forall n p, V n -> In p (chain tree n) -> V (across n p).
Hypothesis P_apart : forall x n, P x -> V n ->
  node_id (data x) = node_id (data n) ->
  areaportal_cluster game Q2_CONTENTS_AREAPORTAL n = true.

(** The loop over the portals of [node], given what a call of the flood
    does. *)
Lemma flood_portals_flooded
    (flood : node_t -> flood_state -> option (result flood_state)) (node : node_t) :
  (forall n st st', V n -> is_leaf n = true -> c_areas st <> 0%nat ->
     flood n st = Some (Ok st') ->
     flooded game Q2_CONTENTS_AREAPORTAL tree P st st' /\
     (areaportal_cluster game Q2_CONTENTS_AREAPORTAL n = true \/
      area_of st' n <> 0%nat)) ->
  forall ps st st',
    (forall p, In p ps -> V (across node p)) ->
    c_areas st <> 0%nat ->
    flood_portals game flood node ps st = Some (Ok st') ->
    flooded game Q2_CONTENTS_AREAPORTAL tree P st st' /\
    forall p, In p ps -> floods game p = true ->
      areaportal_cluster game Q2_CONTENTS_AREAPORTAL (across node p) = true \/
      area_of st' (across node p) <> 0%nat.
Proof.
  intros Hflood. induction ps as [|p rest IH]; intros st st' HV Hc Hrun.
  - injection Hrun as <-. split; [apply flooded_refl | intros p []].
  - assert (HVrest : forall q, In q rest -> V (across node q))
      by (intros; apply HV; right; assumption).
    rewrite flood_portals_cons in Hrun.
    destruct (Portal_EntityFlood game p false) as [[|]|m] eqn:Hp;
      [| |discriminate Hrun].
    + destruct (flood (across node p) st) as [[st1|m]|] eqn:Hcall;
        [|discriminate Hrun|discriminate Hrun].
      assert (Hfl : floods game p = true) by (unfold floods; rewrite Hp; reflexivity).
      destruct (Hflood _ _ _ (HV p (or_introl eq_refl)) (across_leaf node p Hfl)
                  Hc Hcall) as [H1 Hd].
      assert (Hc1 : c_areas st1 <> 0%nat) by (destruct H1 as [-> _]; exact Hc).
      destruct (IH st1 st' HVrest Hc1 Hrun) as [H2 Hrest].
      split; [eapply flooded_trans; eassumption|].
      intros q [<-|Hq] Hq'; [|apply Hrest; assumption].
      destruct Hd as [Hd|Hd]; [left; exact Hd|]. right.
      destruct H2 as (_ & Hk & _). rewrite (Hk _ Hd). exact Hd.
    + destruct (IH st st' HVrest Hc Hrun) as [H2 Hrest].
      split; [exact H2|].
      intros q [<-|Hq] Hq'; [|apply Hrest; assumption].
      unfold floods in Hq'. rewrite Hp in Hq'. discriminate Hq'.
Qed.

Lemma FloodAreas_r_flooded (fuel : nat) :
  forall n st st',
    V n -> is_leaf n = true -> c_areas st <> 0%nat ->
    FloodAreas_r game Q2_CONTENTS_AREAPORTAL tree fuel n st = Some (Ok st') ->
    flooded game Q2_CONTENTS_AREAPORTAL tree P st st' /\
    (areaportal_cluster game Q2_CONTENTS_AREAPORTAL n = true \/
     area_of st' n <> 0%nat).
Proof.
  induction fuel as [|fuel IH]; intros n st st' Hn Hleaf Hc Hrun; [discriminate Hrun|].
  rewrite FloodAreas_r_step in Hrun.
  change ((is_leaf n || detail_separator (data n)) &&
          is_areaportal game Q2_CONTENTS_AREAPORTAL n)
    with (areaportal_cluster game Q2_CONTENTS_AREAPORTAL n) in Hrun.
  rewrite Hleaf in Hrun.
  destruct (areaportal_cluster game Q2_CONTENTS_AREAPORTAL n) eqn:Hap.
  { injection Hrun as Hrun. apply touch_areaportal_areas in Hrun as [E1 E2].
    split; [apply flooded_same_areas; assumption | left; reflexivity]. }
  destruct (Nat.eqb_spec (area_of st n) 0) as [E0|E0]; simpl negb in Hrun; cbv iota in Hrun.
  2:{ injection Hrun as <-. split; [apply flooded_refl | right; exact E0]. }
  destruct (flood_portals_flooded (FloodAreas_r game Q2_CONTENTS_AREAPORTAL tree fuel)
              n IH (chain tree n) (set_area st n) st') as [H1 Hn'].
  { intros p Hp. apply V_across; assumption. }
  { exact Hc. }
  { exact Hrun. }
  destruct H1 as (Hc1 & Hk1 & Hn1 & Hcl1 & Hp1).
  assert (Hst : area_of st' n <> 0%nat).
  { rewrite Hk1; rewrite area_of_set_area, Nat.eqb_refl; exact Hc. }
  split; [|right; exact Hst].
  split; [exact Hc1|]. split; [|split; [|split]].
  - intros x Hx. rewrite Hk1; rewrite area_of_set_area;
      destruct (Nat.eqb_spec (node_id (data x)) (node_id (data n))) as [E|E];
      try reflexivity; try exact Hx.
    + rewrite (area_of_same_id st x n E) in Hx. contradiction.
    + rewrite (area_of_same_id st x n E) in Hx. contradiction.
  - intros x Hx0 Hx.
    destruct (Nat.eqb_spec (node_id (data x)) (node_id (data n))) as [E|E].
    + rewrite (area_of_same_id st' x n E). rewrite Hk1;
        rewrite area_of_set_area, Nat.eqb_refl; [reflexivity | exact Hc].
    + apply Hn1; [|exact Hx]. rewrite area_of_set_area.
      apply Nat.eqb_neq in E. rewrite E. exact Hx0.
  - intros x p Hx0 Hx Hp Hf.
    destruct (Nat.eqb_spec (node_id (data x)) (node_id (data n))) as [E|E].
    + rewrite (across_same_id x n p E). apply Hn'; [|exact Hf].
      rewrite <- (chain_same_id x n E). exact Hp.
    + apply Hcl1; try assumption. rewrite area_of_set_area.
      apply Nat.eqb_neq in E. rewrite E. exact Hx0.
  - intros x Hx. rewrite (Hp1 x Hx). rewrite area_of_set_area.
    destruct (Nat.eqb_spec (node_id (data x)) (node_id (data n))) as [E|E];
      [|reflexivity].
    rewrite (P_apart x n Hx Hn E) in Hap. discriminate Hap.
Qed.

End Visited.

Lemma FindAreas_cons (fuel : nat) (leaf : node_t) (rest : list node_t)
    (st : flood_state) :
  FindAreas game Q2_CONTENTS_AREAPORTAL tree fuel (leaf :: rest) st =
  if negb (Nat.eqb (area_of st leaf) 0) then
    FindAreas game Q2_CONTENTS_AREAPORTAL tree fuel rest st
  else if is_areaportal game Q2_CONTENTS_AREAPORTAL leaf then
    FindAreas game Q2_CONTENTS_AREAPORTAL tree fuel rest st
  else
    match FloodAreas_r game Q2_CONTENTS_AREAPORTAL tree fuel leaf
            (mk_flood_state (S (c_areas st)) (entities st) (node_area st)
               (flood_log st)) with
    | Some (Ok st) => FindAreas game Q2_CONTENTS_AREAPORTAL tree fuel rest st
    | other => other
    end.
Proof. reflexivity. Qed.


(** One flood of [FindAreas] keeps the areas consistent with the portals. *)
Lemma flood_step_closed (U : list node_t) (fuel : nat) (leaf : node_t)
    (st st1 : flood_state) :
  portal_graph tree U ->
  In leaf U -> is_leaf leaf = true ->
  areas_closed game Q2_CONTENTS_AREAPORTAL tree U st ->
  FloodAreas_r game Q2_CONTENTS_AREAPORTAL tree fuel leaf
    (mk_flood_state (S (c_areas st)) (entities st) (node_area st) (flood_log st)) =
    Some (Ok st1) ->
  areas_closed game Q2_CONTENTS_AREAPORTAL tree U st1.
Proof.
  intros [Hid Hgraph] HU Hleaf (G1 & G3 & G2) Hflood.
  set (sta := mk_flood_state (S (c_areas st)) (entities st) (node_area st)
                (flood_log st)) in Hflood.
  destruct (FloodAreas_r_flooded (fun n => In n U)
              (fun x => In x U /\
                        areaportal_cluster game Q2_CONTENTS_AREAPORTAL x = true))
    with (fuel := fuel) (n := leaf) (st := sta) (st' := st1)
    as ((Hc1 & Hk1 & Hn1 & Hcl1 & Hp1) & _); try assumption.
  { intros n p Hn Hp. apply (Hgraph n p Hn Hp). }
  { intros x n [Hx Hap] Hn E. rewrite <- (Hid x n Hx Hn E). exact Hap. }
  { discriminate. }
  assert (Esta : forall x, area_of sta x = area_of st x) by reflexivity.
  change (c_areas sta) with (S (c_areas st)) in *.
  split; [|split].
  - intros x. destruct (Nat.eq_dec (area_of sta x) 0) as [E|E].
    + destruct (Nat.eq_dec (area_of st1 x) 0) as [E1|E1]; [lia|].
      rewrite (Hn1 x E E1). lia.
    + rewrite (Hk1 x E), Esta. specialize (G1 x). lia.
  - intros x Hx Hap. rewrite (Hp1 x (conj Hx Hap)), Esta. apply G3; assumption.
  - intros x p Hx Hst Hp Hf.
    destruct (Hgraph x p Hx Hp) as (Hm & Hback & Hret).
    destruct (Nat.eq_dec (area_of sta x) 0) as [E|E].
    + destruct (Hcl1 x p E Hst Hp Hf) as [H|H]; [left; exact H|].
      destruct (Nat.eq_dec (area_of sta (across x p)) 0) as [Em|Em].
      * right. rewrite (Hn1 _ Em H), (Hn1 _ E Hst). reflexivity.
      * rewrite Esta in Em.
        destruct (G2 (across x p) p Hm Em Hback Hf) as [Hap|Hsame].
        -- destruct (Hgraph _ p Hm Hback) as (Hxx & _).
           rewrite (Hid _ x Hxx Hx Hret) in Hap.
           rewrite (Hp1 x (conj Hx Hap)) in Hst. contradiction.
        -- rewrite (area_of_same_id st _ x Hret) in Hsame.
           rewrite Esta in E. rewrite E in Hsame. symmetry in Hsame. contradiction.
    + rewrite (Hk1 x E). rewrite Esta in E.
      destruct (G2 x p Hx E Hp Hf) as [H|H]; [left; exact H|].
      right. rewrite Hk1; rewrite Esta; [exact H | rewrite H; exact E].
Qed.

Lemma FindAreas_closed (U : list node_t) (fuel : nat) (leafs : list node_t) :
  portal_graph tree U ->
  (forall l, In l leafs -> In l U /\ is_leaf l = true) ->
  forall st st',
    areas_closed game Q2_CONTENTS_AREAPORTAL tree U st ->
    FindAreas game Q2_CONTENTS_AREAPORTAL tree fuel leafs st = Some (Ok st') ->
    areas_closed game Q2_CONTENTS_AREAPORTAL tree U st'.
Proof.
  intros Hgraph. induction leafs as [|leaf rest IH]; intros Hleafs st st' HG Hrun.
  - injection Hrun as <-. exact HG.
  - assert (Hrest : forall l, In l rest -> In l U /\ is_leaf l = true)
      by (intros; apply Hleafs; right; assumption).
    rewrite FindAreas_cons in Hrun.
    destruct (negb _); [eapply IH; eassumption|].
    destruct (is_areaportal _ _ _); [eapply IH; eassumption|].
    destruct (FloodAreas_r _ _ _ _ _ _) as [[st1|m]|] eqn:Hflood;
      [|discriminate Hrun|discriminate Hrun].
    destruct (Hleafs leaf (or_introl eq_refl)) as [HU Hleaf].
    eapply IH; [exact Hrest | | exact Hrun].
    eapply flood_step_closed; eassumption.
Qed.

(** *** The flood stamps what it reaches *)






End FloodFill.


(** ** EmitAreaPortals *)

Lemma dareaportal_eqb_eq (a b : dareaportal_t) :
  dareaportal_eqb a b = true <-> a = b.
Proof.
  unfold dareaportal_eqb. destruct a as [pa oa], b as [pb ob]. simpl.
  rewrite andb_true_iff, !Nat.eqb_eq. split.
  - intros [-> ->]. reflexivity.
  - intros [= -> ->]. auto.
Qed.

Lemma find_dareaportal_None (dp : dareaportal_t) (dps : list dareaportal_t) :
  List.find (dareaportal_eqb dp) dps = None <-> ~ In dp dps.
Proof.
  induction dps as [|x dps IH]; simpl; [tauto|].
  destruct (dareaportal_eqb dp x) eqn:E.
  - apply dareaportal_eqb_eq in E. subst x. split; [discriminate | intros H; exfalso; auto].
  - rewrite IH. split.
    + intros H [->|Hin]; [|auto].
      rewrite (proj2 (dareaportal_eqb_eq dp dp) eq_refl) in E. discriminate E.
    + intros H Hin. apply H. right. exact Hin.
Qed.

Section EmitAreaPortalsFacts.
Variable ents : list mapentity_t.

Lemma emit_entity_spec (i : nat) (dps : list dareaportal_t) (e : mapentity_t) :
  exists added,
    emit_entity i dps e = dps ++ added /\
    (added = [] \/
     added = [areaportal_of e i] /\ areaportalnum e <> 0%nat /\
     ~ In (areaportal_of e i) dps) /\
    (areaportalnum e <> 0%nat -> In (areaportal_of e i) (dps ++ added)).
Proof.
  unfold emit_entity. destruct (Nat.eqb_spec (areaportalnum e) 0) as [E|E].
  - exists []. rewrite app_nil_r. split; [reflexivity|]. split; [auto|]. contradiction.
  - destruct (List.find _ dps) as [x|] eqn:F.
    + exists []. rewrite app_nil_r. split; [reflexivity|]. split; [auto|]. intros _.
      apply find_some in F as [Hx Heq]. apply dareaportal_eqb_eq in Heq.
      rewrite Heq. exact Hx.
    + exists [areaportal_of e i]. split; [reflexivity|]. split.
      * right. split; [reflexivity|]. split; [exact E|].
        apply find_dareaportal_None, F.
      * intros _. apply in_or_app. right. left. reflexivity.
Qed.

Lemma emit_entities_spec (i : nat) (es : list mapentity_t) :
  forall dps, exists added,
    fold_left (emit_entity i) es dps = dps ++ added /\
    NoDup added /\
    (forall dp, In dp added -> ~ In dp dps /\ entry_for es i dp) /\
    (forall e, In e es -> areaportalnum e <> 0%nat ->
               In (areaportal_of e i) (dps ++ added)).
Proof.
  induction es as [|e rest IH]; intros dps.
  - exists []. rewrite app_nil_r. split; [reflexivity|]. split; [constructor|].
    split; [intros dp []|intros e []].
  - destruct (emit_entity_spec i dps e) as (a1 & E1 & Ha1 & Hin1).
    destruct (IH (dps ++ a1)) as (a2 & E2 & Hnd2 & Hnew2 & Hall2).
    exists (a1 ++ a2). simpl fold_left. rewrite E1, E2, <- app_assoc.
    split; [reflexivity|]. split; [|split].
    + apply NoDup_app. split; [|split; [|exact Hnd2]].
      * destruct Ha1 as [->|(-> & _)]; [constructor|].
        apply NoDup_cons. split; [intros H; inversion H | constructor].
      * intros dp H1 H2. apply list_elem_of_In in H1, H2.
        destruct (Hnew2 dp H2) as [Hn _]. apply Hn, in_or_app. right. exact H1.
    + intros dp Hdp. apply in_app_or in Hdp as [Hdp|Hdp].
      * destruct Ha1 as [->|(-> & Hne & Hnot)]; [destruct Hdp|].
        destruct Hdp as [<-|[]]. split; [exact Hnot|].
        exists e. split; [left; reflexivity | auto].
      * destruct (Hnew2 dp Hdp) as [Hn (e' & He' & Hne' & ->)]. split.
        -- intros H. apply Hn, in_or_app. left. exact H.
        -- exists e'. split; [right; exact He' | auto].
    + intros e' [<-|He'] Hne.
      * rewrite app_assoc. apply in_or_app. left. apply Hin1, Hne.
      * rewrite app_assoc. apply Hall2; assumption.
Qed.

Lemma EmitAreaPortals_S (c : nat) (bsp : bsp_t) :
  EmitAreaPortals (S c) ents bsp = emit_area ents (EmitAreaPortals c ents bsp) (S c).
Proof.
  unfold EmitAreaPortals. rewrite seq_S, fold_left_app. reflexivity.
Qed.

Lemma EmitAreaPortals_emitted (c : nat) :
  emitted ents c (EmitAreaPortals c ents (mk_bsp [] [])).
Proof.
  induction c as [|c IH].
  - unfold EmitAreaPortals. simpl.
    split; [reflexivity|]. split; [reflexivity|]. split; [reflexivity|].
    split; [reflexivity|].
    split; [apply NoDup_cons; split; [intros H; inversion H | constructor]|].
    split; [|split].
    + intros [|i] area H Hi; [contradiction | discriminate H].
    + intros dp [<-|[]]. left. reflexivity.
    + intros i dp Hi. lia.
  - rewrite EmitAreaPortals_S.
    set (r := EmitAreaPortals c ents (mk_bsp [] [])) in *.
    destruct IH as (Hlen & Hsum & Hdp0 & Ha0 & Hnd & Hareas & Hsound & Hcomplete).
    unfold emit_area.
    destruct (emit_entities_spec (S c) ents (dareaportals r))
      as (added & -> & Hnda & Hnew & Hall).
    unfold emitted. cbn [dareas dareaportals].
    assert (Enum : (List.length (dareaportals r ++ added) -
                    List.length (dareaportals r))%nat = List.length added)
      by (rewrite length_app; lia).
    rewrite Enum.
    assert (Hpos : (0 < List.length (dareaportals r))%nat) by (rewrite Hsum; lia).
    split; [|split; [|split; [|split; [|split; [|split; [|split]]]]]].
    + rewrite length_app, Hlen. simpl. lia.
    + rewrite length_app, List.map_app, list_sum_app, Hsum. simpl. lia.
    + rewrite lookup_app_l by exact Hpos. exact Hdp0.
    + rewrite lookup_app_l by (rewrite Hlen; lia). exact Ha0.
    + apply NoDup_app. split; [exact Hnd|]. split; [|exact Hnda].
      intros dp H1 H2. apply list_elem_of_In in H1, H2.
      destruct (Hnew dp H2) as [Hn _]. contradiction.
    + intros i area Hi Hne.
      apply lookup_app_Some in Hi as [Hi|[Hge Hi]].
      * destruct (Hareas i area Hi Hne) as (Hfirst & Hle & Hrange).
        pose proof (lookup_lt_Some _ _ _ Hi) as Hlt.
        split; [|split].
        -- rewrite take_app_le by lia. exact Hfirst.
        -- rewrite length_app. lia.
        -- intros dp. unfold area_range, before_range in *.
           rewrite drop_app_le by lia.
           rewrite take_app_le by (rewrite length_drop; lia).
           rewrite take_app_le by lia. apply Hrange.
      * apply list_lookup_singleton_Some in Hi as [Hi <-].
        assert (Ei : i = S c) by lia. subst i.
        cbn [firstareaportal numareaportals].
        split; [|split].
        -- rewrite take_app_length' by lia. exact Hsum.
        -- rewrite length_app. lia.
        -- intros dp. unfold area_range, before_range.
           cbn [firstareaportal numareaportals].
           rewrite drop_app_length, take_app_length, firstn_all. split.
           ++ intros Hin. apply Hnew, Hin.
           ++ intros [Hnot (e & He & Hnum & ->)].
              specialize (Hall e He Hnum). apply in_app_or in Hall as [H|H];
                [contradiction | exact H].
    + intros dp Hin. apply in_app_or in Hin as [Hin|Hin].
      * destruct (Hsound dp Hin) as [H|(i & Hi & H)]; [left; exact H|].
        right. exists i. split; [lia | exact H].
      * right. exists (S c). split; [lia|]. apply Hnew, Hin.
    + intros i dp Hi Hentry.
      destruct (Nat.eq_dec i (S c)) as [->|Hne].
      * destruct Hentry as (e & He & Hnum & ->). apply Hall; assumption.
      * apply in_or_app. left. apply (Hcomplete i); [lia | exact Hentry].
Qed.

End EmitAreaPortalsFacts.


(** ** SetAreaPortalAreas_r and FloodAreas *)

Section SetAreaPortalAreasFacts.
Variable Q2_CONTENTS_AREAPORTAL : Z.

Lemma area_of_set_area_to (st : flood_state) (n x : node_t) (a : nat) :
  area_of (set_area_to st n a) x =
  if Nat.eqb (node_id (data x)) (node_id (data n)) then a else area_of st x.
Proof.
  unfold area_of, set_area_to. cbn [node_area].
  destruct (Nat.eqb_spec (node_id (data x)) (node_id (data n))) as [E|E].
  - rewrite E, lookup_insert_eq. reflexivity.
  - rewrite lookup_insert_ne by congruence. reflexivity.
Qed.

Lemma SetAreaPortalAreas_r_leaf (d : node_data)
    (st : flood_state * list areaportal_warning) :
  SetAreaPortalAreas_r Q2_CONTENTS_AREAPORTAL (Leaf d) st =
  if negb (native (contents d) =? Q2_CONTENTS_AREAPORTAL) then Ok st
  else if negb (Nat.eqb (area_of (fst st) (Leaf d)) 0) then Ok st
  else
    match AreanodeEntityForLeaf (Leaf d) with
    | None => Ok (fst st, snd st ++ [areaportal_missing (node_id d)])
    | Some e =>
      match entities (fst st) !! e with
      | None => FError "dangling entity"
      | Some entity =>
        if Nat.eqb (snd (portalareas entity)) 0
        then Ok (set_area_to (fst st) (Leaf d) (fst (portalareas entity)),
                 snd st ++ [touches_one_area e (node_id d)])
        else Ok (set_area_to (fst st) (Leaf d) (fst (portalareas entity)), snd st)
      end
    end.
Proof. reflexivity. Qed.

(** What the pass over a subtree of distinct nodes does: it changes
    nothing but the areas of the leaves of the subtree that carry no area
    and whose contents are exactly the area-portal contents; such a leaf
    gets the first area recorded for its entity, with a warning when the
    entity has no second area, or a warning when it has no entity. *)
Lemma SetAreaPortalAreas_r_spec (node : node_t) :
  NoDup (subtree_ids node) ->
  forall st log st' log',
    SetAreaPortalAreas_r Q2_CONTENTS_AREAPORTAL node (st, log) = Ok (st', log') ->
    c_areas st' = c_areas st /\ entities st' = entities st /\
    flood_log st' = flood_log st /\
    (exists more, log' = log ++ more) /\
    (forall x, area_of st' x <> area_of st x ->
       exists d, In (Leaf d) (subnodes node) /\ node_id d = node_id (data x) /\
                 native (contents d) = Q2_CONTENTS_AREAPORTAL /\
                 area_of st x = 0%nat) /\
    (forall d, In (Leaf d) (subnodes node) ->
       native (contents d) = Q2_CONTENTS_AREAPORTAL ->
       area_of st (Leaf d) = 0%nat ->
       match AreanodeEntityForLeaf (Leaf d) with
       | None =>
         area_of st' (Leaf d) = 0%nat /\ In (areaportal_missing (node_id d)) log'
       | Some e =>
         exists ent, entities st !! e = Some ent /\
                     area_of st' (Leaf d) = fst (portalareas ent) /\
                     (snd (portalareas ent) = 0%nat ->
                      In (touches_one_area e (node_id d)) log')
       end).
Proof.
  induction node as [d|d front IHf back IHb]; intros Hnd st log st' log' Hrun.
  - rewrite SetAreaPortalAreas_r_leaf in Hrun. cbn [fst snd] in Hrun.
    assert (Hsame : (st', log') = (st, log) ->
      c_areas st' = c_areas st /\ entities st' = entities st /\
      flood_log st' = flood_log st /\ (exists more, log' = log ++ more) /\
      (forall x, area_of st' x <> area_of st x ->
         exists d0, In (Leaf d0) (subnodes (Leaf d)) /\ node_id d0 = node_id (data x) /\
                    native (contents d0) = Q2_CONTENTS_AREAPORTAL /\
                    area_of st x = 0%nat)).
    { intros [= -> ->]. split; [reflexivity|]. split; [reflexivity|].
      split; [reflexivity|]. split; [exists []; rewrite app_nil_r; reflexivity|].
      intros x Hx. exfalso. apply Hx. reflexivity. }
    destruct (Z.eqb_spec (native (contents d)) Q2_CONTENTS_AREAPORTAL) as [Ec|Ec];
      simpl negb in Hrun; cbv iota in Hrun.
    2:{ injection Hrun as <- <-.
        destruct (Hsame eq_refl) as (H1 & H2 & H3 & H4 & H5).
        repeat (split; [assumption|]).
        intros d0 [[= <-]|[]] Hc. contradiction. }
    destruct (Nat.eqb_spec (area_of st (Leaf d)) 0) as [Ea|Ea];
      simpl negb in Hrun; cbv iota in Hrun.
    2:{ injection Hrun as <- <-.
        destruct (Hsame eq_refl) as (H1 & H2 & H3 & H4 & H5).
        repeat (split; [assumption|]).
        intros d0 [[= <-]|[]] _ Hz. contradiction. }
    destruct (AreanodeEntityForLeaf (Leaf d)) as [e|] eqn:He.
    + destruct (entities st !! e) as [ent|] eqn:Hent; [|discriminate Hrun].
      assert (Est : st' = set_area_to st (Leaf d) (fst (portalareas ent)) /\
                    exists more, log' = log ++ more /\
                      (snd (portalareas ent) = 0%nat ->
                       In (touches_one_area e (node_id d)) log')).
      { destruct (Nat.eqb_spec (snd (portalareas ent)) 0) as [E2|E2];
          injection Hrun as <- <-; split; try reflexivity.
        - eexists. split; [reflexivity|]. intros _. apply in_or_app. right. left.
          reflexivity.
        - exists []. rewrite app_nil_r. split; [reflexivity|].
          intros Hz. destruct (E2 Hz). }
      destruct Est as (-> & more & -> & Hwarn).
      split; [reflexivity|]. split; [reflexivity|]. split; [reflexivity|].
      split; [eauto|]. split.
      * intros x Hx. rewrite area_of_set_area_to in Hx. cbn [data] in Hx.
        destruct (Nat.eqb_spec (node_id (data x)) (node_id d)) as [E|E];
          [|exfalso; apply Hx; reflexivity].
        exists d. split; [left; reflexivity|]. split; [auto|]. split; [exact Ec|].
        rewrite <- Ea. apply area_of_same_id. exact E.
      * intros d0 [[= <-]|[]] _ _. rewrite He. exists ent.
        split; [exact Hent|]. split; [|exact Hwarn].
        rewrite area_of_set_area_to. simpl. rewrite Nat.eqb_refl. reflexivity.
    + injection Hrun as <- <-.
      split; [reflexivity|]. split; [reflexivity|]. split; [reflexivity|].
      split; [eauto|]. split; [intros x Hx; exfalso; apply Hx; reflexivity|].
      intros d0 [[= <-]|[]] _ _. rewrite He. split; [exact Ea|].
      apply in_or_app. right. left. reflexivity.
  - simpl in Hrun. apply bind_Ok in Hrun as ([st1 log1] & H1 & H2).
    destruct (NoDup_subtree_ids d front back Hnd) as (Hndf & Hndb & _ & _ & Hfb).
    destruct (IHf Hndf _ _ _ _ H1) as (Hc1 & He1 & Hl1 & (m1 & ->) & Hch1 & Hset1).
    destruct (IHb Hndb _ _ _ _ H2) as (Hc2 & He2 & Hl2 & (m2 & ->) & Hch2 & Hset2).
    split; [congruence|]. split; [congruence|]. split; [congruence|].
    split; [exists (m1 ++ m2); rewrite app_assoc; reflexivity|]. split.
    + intros x Hx.
      destruct (Nat.eq_dec (area_of st1 x) (area_of st x)) as [E|E].
      * rewrite <- E in Hx. destruct (Hch2 x Hx) as (d0 & Hin & Hid & Hc & Ha).
        exists d0. split; [right; apply in_or_app; right; exact Hin|].
        split; [exact Hid|]. split; [exact Hc|]. rewrite <- E. exact Ha.
      * destruct (Hch1 x E) as (d0 & Hin & Hid & Hc & Ha).
        exists d0. split; [right; apply in_or_app; left; exact Hin|]. auto.
    + intros d0 [E|Hin] Hc Ha; [discriminate E|].
      apply in_app_or in Hin as [Hin|Hin].
      * specialize (Hset1 d0 Hin Hc Ha).
        assert (Hkeep : area_of st' (Leaf d0) = area_of st1 (Leaf d0)).
        { destruct (Nat.eq_dec (area_of st' (Leaf d0)) (area_of st1 (Leaf d0)))
            as [E|E]; [exact E|].
          destruct (Hch2 _ E) as (d1 & Hin1 & Hid & _).
          exfalso. apply (Hfb (node_id d0)).
          - apply (in_subtree_ids front (Leaf d0)), Hin.
          - simpl in Hid. rewrite <- Hid.
            apply (in_subtree_ids back (Leaf d1)), Hin1. }
        rewrite Hkeep.
        destruct (AreanodeEntityForLeaf (Leaf d0)) as [e|].
        -- destruct Hset1 as (ent & Hent & Harea & Hw). exists ent.
           split; [exact Hent|]. split; [exact Harea|].
           intros Hz. apply in_or_app. left. apply Hw, Hz.
        -- destruct Hset1 as [Hz Hw]. split; [exact Hz|].
           apply in_or_app. left. exact Hw.
      * assert (Ha1 : area_of st1 (Leaf d0) = 0%nat).
        { destruct (Nat.eq_dec (area_of st1 (Leaf d0)) (area_of st (Leaf d0)))
            as [E|E]; [rewrite E; exact Ha|].
          destruct (Hch1 _ E) as (d1 & Hin1 & Hid & _).
          exfalso. apply (Hfb (node_id d1)).
          - apply (in_subtree_ids front (Leaf d1)), Hin1.
          - simpl in Hid. rewrite Hid.
            apply (in_subtree_ids back (Leaf d0)), Hin. }
        specialize (Hset2 d0 Hin Hc Ha1). rewrite He1 in Hset2. exact Hset2.
Qed.

End SetAreaPortalAreasFacts.


(** ** The portal builder never finds a portal mis-linked *)

(** [ClipNodePortalsToTree_r] and [MakeTreePortals_r] return on every list
    of portals that have the node on a side: below such a list
    "CutNodePortals_r: mislinked portal" is not raised, whatever the tree
    and the kind of portals. *)
Theorem portal_builder_never_mislinked (W : winding_lib) (type : portaltype_t)
    (node : node_t) (ps : list buildportal_t) (stats : portalstats_t) (fresh : nat) :
  (forall p, In p ps -> linked node p = true) ->
  (exists r, ClipNodePortalsToTree_r W node type ps stats fresh = Ok r) /\
  (exists r, MakeTreePortals_r W node type ps stats fresh = Ok r).
Proof.
  intros Hl. split.
  - destruct (ClipNodePortalsToTree_r_returns W type node ps stats fresh Hl)
      as (res & st & fr & H & _). eauto.
  - apply MakeTreePortals_r_returns, Hl.
Qed.

(** ** MakePortalsFromBuildportals *)

(** [MakePortalsFromBuildportals] makes one portal per build portal, in
    order, with its plane, node, nodes and winding, not yet resolved, and
    puts each at the head of the chains of its two nodes: the chain of a
    node is then the new portals that touch it, last made first, followed
    by its old chain. *)
Theorem portals_from_buildportals_chains (bps : list buildportal_t) (tree : tree_t) :
  (forall bp, In bp bps -> exists f b,
     bp_nodes bp = (Some f, Some b) /\ node_id (data f) <> node_id (data b)) ->
  exists tree' new,
    MakePortalsFromBuildportals tree bps = Ok tree' /\
    Forall2 (fun bp p => exists f b, bp_nodes bp = (Some f, Some b) /\
                                     p = to_portal bp f b) bps new /\
    tree_portals tree' = tree_portals tree ++ new /\
    headnode tree' = headnode tree /\ outside_node tree' = outside_node tree /\
    node_bounds tree' = node_bounds tree /\
    forall n, chain tree' n =
              rev (List.filter (touches (node_id (data n))) new) ++ chain tree n.
Proof. apply portals_from_buildportals_spec. Qed.

(** ** CalcTreeBounds_r: what it leaves alone *)

Lemma check_bounds_log (A : aabb_lib) (worldextent : Q) (node : node_t)
    (st st' : tree_t * list string) :
  check_bounds A worldextent node st = Ok st' -> exists more, snd st' = snd st ++ more.
Proof.
  destruct st as [t log]. unfold check_bounds.
  destruct (without_volume _).
  - destruct (parent (data node)) as [|up rest]; [discriminate|].
    rewrite bind_Ok_l. destruct (beyond_extent _ _); intros [= <-]; simpl.
    + rewrite <- app_assoc. eauto.
    + eauto.
  - rewrite bind_Ok_l. destruct (beyond_extent _ _); intros [= <-]; simpl.
    + eauto.
    + exists []. rewrite app_nil_r. reflexivity.
Qed.

Lemma CalcTreeBounds_r_log (A : aabb_lib) (worldextent : Q) (node : node_t) :
  forall st st',
    CalcTreeBounds_r A worldextent node st = Ok st' ->
    exists more, snd st' = snd st ++ more.
Proof.
  induction node as [d|d front IHf back IHb]; intros st st' H.
  - rewrite CalcTreeBounds_r_leaf in H. apply check_bounds_log in H. exact H.
  - rewrite CalcTreeBounds_r_interior in H.
    apply bind_Ok in H as (st1 & H1 & H).
    apply bind_Ok in H as (st2 & H2 & H).
    apply check_bounds_log in H. cbn [snd] in H.
    destruct (IHf _ _ H1) as [m1 E1], (IHb _ _ H2) as [m2 E2], H as [m3 E3].
    exists (m1 ++ m2 ++ m3). rewrite E3, E2, E1, <- !app_assoc. reflexivity.
Qed.

(** The bounds pass over a subtree writes the bounds of the nodes of the
    subtree and nothing else: the bounds of every other node, the portals
    and the chains are as before. *)
Theorem calc_tree_bounds_writes_its_subtree (A : aabb_lib) (worldextent : Q)
    (node : node_t) (st st' : tree_t * list string) :
  CalcTreeBounds_r A worldextent node st = Ok st' ->
  (forall id, ~ In id (subtree_ids node) ->
              bounds_at A (fst st') id = bounds_at A (fst st) id) /\
  tree_portals (fst st') = tree_portals (fst st) /\
  node_portals (fst st') = node_portals (fst st) /\
  headnode (fst st') = headnode (fst st) /\
  outside_node (fst st') = outside_node (fst st) /\
  exists more, snd st' = snd st ++ more.
Proof.
  intros H. split; [exact (CalcTreeBounds_r_frame A worldextent node st st' H)|].
  destruct (CalcTreeBounds_r_portals A worldextent node st st' H) as [E1 E2].
  destruct (CalcTreeBounds_r_nodes A worldextent node st st' H) as [E3 E4].
  split; [exact E1|]. split; [exact E2|]. split; [exact E3|]. split; [exact E4|].
  eapply CalcTreeBounds_r_log, H.
Qed.

(** ** ApplyArea_r and AreanodeEntityForLeaf *)

Lemma ApplyArea_r_fields (node : node_t) :
  forall st,
    c_areas (ApplyArea_r node st) = c_areas st /\
    entities (ApplyArea_r node st) = entities st /\
    flood_log (ApplyArea_r node st) = flood_log st.
Proof.
  induction node as [d|d front IHf back IHb]; intros st; simpl; [auto|].
  destruct (IHb (ApplyArea_r front (set_area st (Interior d front back))))
    as (E1 & E2 & E3).
  destruct (IHf (set_area st (Interior d front back))) as (F1 & F2 & F3).
  rewrite E1, E2, E3, F1, F2, F3. auto.
Qed.

(** [ApplyArea_r] gives the current area to every node of the subtree,
    whatever area it carried, and changes nothing else. *)
Theorem apply_area_stamps_the_subtree (node : node_t) (st : flood_state) :
  c_areas (ApplyArea_r node st) = c_areas st /\
  entities (ApplyArea_r node st) = entities st /\
  flood_log (ApplyArea_r node st) = flood_log st /\
  forall x,
    (In (node_id (data x)) (subtree_ids node) ->
     area_of (ApplyArea_r node st) x = c_areas st) /\
    (~ In (node_id (data x)) (subtree_ids node) ->
     area_of (ApplyArea_r node st) x = area_of st x).
Proof.
  destruct (ApplyArea_r_fields node st) as (E1 & E2 & E3).
  split; [exact E1|]. split; [exact E2|]. split; [exact E3|].
  clear E1 E2 E3. revert st.
  induction node as [d|d front IHf back IHb]; intros st x.
  - simpl ApplyArea_r. rewrite area_of_set_area. unfold subtree_ids. simpl.
    destruct (Nat.eqb_spec (node_id (data x)) (node_id d)) as [E|E]; split; auto.
    + intros H. exfalso. apply H. left. auto.
    + intros [H|[]]. exfalso. auto.
  - simpl ApplyArea_r. rewrite subtree_ids_interior.
    set (st0 := set_area st (Interior d front back)).
    destruct (ApplyArea_r_fields front st0) as (F1 & _).
    destruct (IHb (ApplyArea_r front st0) x) as [Hb1 Hb2].
    destruct (IHf st0 x) as [Hf1 Hf2].
    assert (Hdec : forall l, In (node_id (data x)) l \/ ~ In (node_id (data x)) l).
    { intros l. destruct (in_dec Nat.eq_dec (node_id (data x)) l); auto. }
    destruct (Hdec (subtree_ids back)) as [Hb|Hb].
    { split; [intros _; rewrite (Hb1 Hb), F1; reflexivity|].
      intros H. exfalso. apply H. right. apply in_or_app. auto. }
    rewrite (Hb2 Hb).
    destruct (Hdec (subtree_ids front)) as [Hf|Hf].
    { split; [intros _; rewrite (Hf1 Hf); reflexivity|].
      intros H. exfalso. apply H. right. apply in_or_app. auto. }
    rewrite (Hf2 Hf). unfold st0. rewrite area_of_set_area. simpl data.
    destruct (Nat.eqb_spec (node_id (data x)) (node_id d)) as [E|E]; split; auto.
    + intros H. exfalso. apply H. left. auto.
    + intros [H|H]; [exfalso; auto|]. apply in_app_or in H as [H|H]; contradiction.
Qed.

(** The brushes of the leaves of a cluster, front leaves first. *)
Lemma AreanodeEntityForLeaf_leaf (d : node_data) :
  AreanodeEntityForLeaf (Leaf d) = head (omap func_areaportal (original_brushes d)).
Proof.
  simpl. induction (original_brushes d) as [|b bs IH]; [reflexivity|].
  simpl. destruct (func_areaportal b) as [e|] eqn:E.
  - rewrite bool_decide_eq_true_2 by eauto. simpl. exact E.
  - rewrite bool_decide_eq_false_2 by (intros [? ?]; discriminate).
    simpl. exact IH.
Qed.

(** [AreanodeEntityForLeaf] gives the entity of the first area-portal brush
    of the cluster, taking the leaves front to back and the brushes of a
    leaf in order; it gives none exactly when no brush of the cluster
    belongs to an area-portal entity. *)
Theorem areanode_entity_is_the_first (node : node_t) :
  AreanodeEntityForLeaf node =
    head (omap func_areaportal (List.flat_map original_brushes
                                  (List.map data (frontier TREE node)))) /\
  (AreanodeEntityForLeaf node = None <->
   forall d b, In (Leaf d) (subnodes node) -> In b (original_brushes d) ->
               func_areaportal b = None).
Proof.
  assert (Hhead : forall n, AreanodeEntityForLeaf n =
            head (omap func_areaportal (List.flat_map original_brushes
                                          (List.map data (frontier TREE n))))).
  { induction n as [d|d front IHf back IHb].
    - rewrite AreanodeEntityForLeaf_leaf. simpl. rewrite app_nil_r. reflexivity.
    - simpl. rewrite IHf, IHb. rewrite List.map_app, flat_map_app, omap_app.
      rewrite head_app_or_else.
      destruct (head _); reflexivity. }
  split; [apply Hhead|].
  induction node as [d|d front IHf back IHb].
  - rewrite AreanodeEntityForLeaf_leaf. split.
    + intros H d0 b [[= <-]|[]] Hb.
      destruct (func_areaportal b) as [e|] eqn:E; [|reflexivity].
      exfalso. induction (original_brushes d) as [|b0 bs IH]; [destruct Hb|].
      simpl in H. destruct Hb as [<-|Hb].
      * rewrite E in H. discriminate H.
      * destruct (func_areaportal b0); [discriminate H | auto].
    + intros H. rewrite (omap_all_None func_areaportal (original_brushes d));
        [reflexivity|].
      intros b Hb. apply (H d b); [left; reflexivity | exact Hb].
  - simpl AreanodeEntityForLeaf. split.
    + intros H d0 b [E|Hin] Hb; [discriminate E|].
      destruct (AreanodeEntityForLeaf front) eqn:Hf; [discriminate H|].
      apply in_app_or in Hin as [Hin|Hin].
      * apply (proj1 IHf eq_refl d0 b Hin Hb).
      * apply (proj1 IHb H d0 b Hin Hb).
    + intros H.
      rewrite (proj2 IHf); [apply (proj2 IHb)|].
      * intros d0 b Hin Hb. apply (H d0 b); [|exact Hb].
        right. apply in_or_app. auto.
      * intros d0 b Hin Hb. apply (H d0 b); [|exact Hb].
        right. apply in_or_app. auto.
Qed.


(** ** Portal_VisFlood on the portals of the tree *)

Lemma subnodes_trans (a b c : node_t) :
  In a (subnodes b) -> In b (subnodes c) -> In a (subnodes c).
Proof.
  intros Ha. induction c as [d|d front IHf back IHb]; simpl.
  - intros [<-|[]]. exact Ha.
  - intros [<-|Hb]; [exact Ha|]. right. apply in_or_app.
    apply in_app_or in Hb as [Hb|Hb]; auto.
Qed.

Section VisFloodFacts.
Variable game : gamedef_t.
Variable W : winding_lib.
Variable A : aabb_lib.
Variable SIDESPACE : Q.
Variable epsilon : Q.
Variable worldextent : Q.
Variable set_plane : qplane3d -> bool -> qplane3d * bool.
Variable portal_can_see_through :
  contentflags_t -> contentflags_t -> bool -> bool -> bool.
Variable transwater : bool.
Variable transsky : bool.

(** Among the portals that [MakeTreePortals] leaves in a tree of distinct
    nodes, those without a node of their own are exactly those with the
    outside node on a side, and the vis flood never passes through them,
    whatever the contents and the content policy. *)
Theorem vis_flood_stops_at_the_outside (tree : tree_t) (fresh : nat)
    (tree' : tree_t) (stats : portalstats_t) (log : list string) (p : portal_t) :
  NoDup (subtree_ids (headnode tree)) ->
  ~ In (node_id (data (outside_node tree))) (subtree_ids (headnode tree)) ->
  MakeTreePortals game W A SIDESPACE epsilon worldextent set_plane tree fresh =
    Ok (tree', stats, log) ->
  In p (tree_portals tree') ->
  (onnode p = None <->
   fst (nodes p) = outside_node tree' \/ snd (nodes p) = outside_node tree') /\
  (fst (nodes p) = outside_node tree' \/ snd (nodes p) = outside_node tree' ->
   Portal_VisFlood game portal_can_see_through transwater transsky p = false).
Proof.
  intros Hnd HX Hrun Hp.
  destruct (snd (MakeHeadnodePortals game W A SIDESPACE epsilon set_plane
                   (FreeTreePortals tree) fresh)) as [[hps fr1]|msg] eqn:Hhead.
  2:{ unfold MakeTreePortals in Hrun.
      destruct (MakeHeadnodePortals game W A SIDESPACE epsilon set_plane
                  (FreeTreePortals tree) fresh) as [t1 r].
      simpl in Hhead. subst r. discriminate Hrun. }
  destruct (MakeTreePortals_built game W A SIDESPACE epsilon worldextent set_plane
              tree fresh hps fr1 Hnd HX Hhead)
    as (st2 & t3 & Heq & Hh3 & Ho3 & Hshape & _).
  rewrite Heq in Hrun. apply bind_Ok in Hrun as ([t4 log4] & Hbounds & Hrun).
  injection Hrun as <- _ _.
  destruct (CalcTreeBounds_r_portals A worldextent _ _ _ Hbounds) as [Ep _].
  destruct (CalcTreeBounds_r_nodes A worldextent _ _ _ Hbounds) as [_ Eo].
  simpl in Ep, Eo. rewrite Ep in Hp. rewrite Eo, Ho3.
  set (X := outside_node (mark_outside game (FreeTreePortals tree))).
  assert (Hiff : onnode p = None <-> fst (nodes p) = X \/ snd (nodes p) = X).
  { destruct (Hshape p Hp) as [_ [(Hon & m & Hm & Hn)|H]].
    - split; [intros _|intros _; exact Hon].
      destruct Hn as [Hn|Hn]; injection Hn as E1 E2; auto.
    - destruct H as (d & f & b & m1 & m2 & Hin & H1 & H2 & Hn & Hon & _).
      injection Hn as E1 E2. split; [rewrite Hon; discriminate|].
      assert (Hsub : forall m, In m (frontier TREE f) \/ In m (frontier TREE b) ->
                               m <> X).
      { intros m Hm ->. apply HX.
        change (node_id (data (outside_node tree))) with (node_id (data X)).
        apply in_subtree_ids.
        destruct (subnodes_children _ _ _ _ Hin) as [Hf Hb].
        destruct Hm as [Hm|Hm]; apply (frontier_subnodes TREE) in Hm.
        - eapply subnodes_trans; eassumption.
        - eapply subnodes_trans; eassumption. }
      intros [E|E]; exfalso.
      + apply (Hsub m1); [left; exact H1 | congruence].
      + apply (Hsub m2); [right; exact H2 | congruence]. }
  split; [exact Hiff|].
  intros HXside. apply Hiff in HXside. unfold Portal_VisFlood. rewrite HXside.
  reflexivity.
Qed.

End VisFloodFacts.

(** ** FloodAreas_r: termination and clusters *)

Section FloodRuns.
Variable game : gamedef_t.
Variable Q2_CONTENTS_AREAPORTAL : Z.
Variable tree : tree_t.

(** The flood returns when its depth bound exceeds the number of nodes
    without an area: each level of the recursion stamps a node first.  The
    current area must not be 0, which marks a node without an area. *)
Theorem flood_areas_r_returns (U : list nat) (fuel : nat) (node : node_t)
    (st : flood_state) :
  flood_closed tree U ->
  c_areas st <> 0%nat ->
  In (node_id (data node)) U ->
  (unstamped U st < fuel)%nat ->
  exists r, FloodAreas_r game Q2_CONTENTS_AREAPORTAL tree fuel node st = Some r.
Proof. intros Hc Hne Hin Hf. eapply FloodAreas_r_returns; eassumption. Qed.

Lemma flood_portals_leaves
    (flood : node_t -> flood_state -> option (result flood_state)) (node : node_t) :
  forall ps st st',
    flood_portals game flood node ps st = Some (Ok st') ->
    forall p, In p ps ->
      is_leaf (fst (nodes p)) = true /\ is_leaf (snd (nodes p)) = true.
Proof.
  induction ps as [|p rest IH]; intros st st' Hrun q Hq; [destruct Hq|].
  rewrite flood_portals_cons in Hrun.
  assert (Hleaf : is_leaf (fst (nodes p)) = true /\ is_leaf (snd (nodes p)) = true).
  { unfold Portal_EntityFlood in Hrun.
    destruct (is_leaf (fst (nodes p))), (is_leaf (snd (nodes p))); simpl in Hrun;
      try discriminate Hrun; auto. }
  destruct Hq as [<-|Hq]; [exact Hleaf|].
  destruct (Portal_EntityFlood game p false) as [[|]|m]; [| |discriminate Hrun].
  - destruct (flood (across node p) st) as [[st1|m]|];
      [|discriminate Hrun|discriminate Hrun].
    eapply IH; eassumption.
  - eapply IH; eassumption.
Qed.

Lemma flood_portals_error (L : nat)
    (flood : node_t -> flood_state -> option (result flood_state)) (node : node_t)
    (bad : string -> Prop) :
  bad "Portal_EntityFlood: not a leaf"%string ->
  (forall n st m, List.length (entities st) = L -> flood n st = Some (FError m) -> bad m) ->
  (forall n st st', flood n st = Some (Ok st') ->
                    List.length (entities st') = List.length (entities st)) ->
  forall ps st m,
    List.length (entities st) = L ->
    flood_portals game flood node ps st = Some (FError m) -> bad m.
Proof.
  intros Hleaf Hbad Hlen. induction ps as [|p rest IH]; intros st m HL Hrun;
    [discriminate Hrun|].
  rewrite flood_portals_cons in Hrun.
  unfold Portal_EntityFlood in Hrun.
  destruct (negb (is_leaf (fst (nodes p))) || negb (is_leaf (snd (nodes p)))).
  { injection Hrun as <-. exact Hleaf. }
  destruct (contents_are_any_solid game (contents (data (fst (nodes p)))) ||
            contents_are_any_solid game (contents (data (snd (nodes p))))).
  { eapply IH; eassumption. }
  destruct (flood (across node p) st) as [[st1|m1]|] eqn:Hrec; [| |discriminate Hrun].
  - apply (IH st1 m); [|exact Hrun]. rewrite (Hlen _ _ _ Hrec). exact HL.
  - injection Hrun as <-. eapply Hbad; eassumption.
Qed.

(** The flood aborts with the message of [Portal_EntityFlood] only; the
    other abort is the one that stands for an entity pointer of an
    area-portal brush that points outside the entity list. *)
Lemma FloodAreas_r_error (fuel : nat) :
  forall node st m,
    FloodAreas_r game Q2_CONTENTS_AREAPORTAL tree fuel node st = Some (FError m) ->
    m = "Portal_EntityFlood: not a leaf"%string \/
    m = "dangling entity"%string /\
    exists n e, AreanodeEntityForLeaf n = Some e /\
                (List.length (entities st) <= e)%nat.
Proof.
  induction fuel as [|fuel IH]; intros node st m Hrun; [discriminate Hrun|].
  rewrite FloodAreas_r_step in Hrun.
  destruct ((is_leaf node || detail_separator (data node)) &&
            is_areaportal game Q2_CONTENTS_AREAPORTAL node).
  { injection Hrun as Hrun. unfold touch_areaportal in Hrun.
    destruct (AreanodeEntityForLeaf node) as [e|] eqn:He; [|discriminate Hrun].
    destruct (entities st !! e) as [ent|] eqn:Hent.
    - destruct (_ || _); [discriminate Hrun|].
      destruct (negb _); [discriminate Hrun|].
      destruct (negb _); discriminate Hrun.
    - injection Hrun as <-. right. split; [reflexivity|].
      exists node, e. split; [exact He|]. apply lookup_ge_None. exact Hent. }
  destruct (negb (Nat.eqb (area_of st node) 0)); [discriminate Hrun|].
  apply (flood_portals_error (List.length (entities st)) _ node
           (fun m => m = "Portal_EntityFlood: not a leaf"%string \/
                     m = "dangling entity"%string /\
                     exists n e, AreanodeEntityForLeaf n = Some e /\
                                 (List.length (entities st) <= e)%nat)) in Hrun.
  - exact Hrun.
  - left. reflexivity.
  - intros n st1 m1 HL Hrec. destruct (IH n st1 m1 Hrec) as [H|[H (n' & e & He & Hle)]].
    + left. exact H.
    + right. split; [exact H|]. exists n', e. split; [exact He|]. lia.
  - intros n st1 st1' Hrec.
    destruct (FloodAreas_r_keeps game Q2_CONTENTS_AREAPORTAL tree fuel n st1 st1' Hrec)
      as (_ & [Hlen _] & _). exact Hlen.
  - destruct (is_leaf node); [reflexivity|].
    destruct (ApplyArea_r_keeps node (set_area st node)) as (_ & [Hlen _] & _).
    exact Hlen.
Qed.

(** The flood crosses portals between leaves only.  When the flood from a
    node that it has to stamp comes to an end: if it returns, every portal
    of the chain of that node has a leaf on both sides; if a portal of
    that chain has a node that is no leaf on a side, the flood aborts; and
    it aborts with "Portal_EntityFlood: not a leaf", unless an area-portal
    brush points to an entity outside the entity list. *)
Theorem flood_returns_over_leaves_only (fuel : nat) (node : node_t)
    (st : flood_state) (r : result flood_state) :
  areaportal_cluster game Q2_CONTENTS_AREAPORTAL node = false ->
  area_of st node = 0%nat ->
  FloodAreas_r game Q2_CONTENTS_AREAPORTAL tree fuel node st = Some r ->
  (forall st', r = Ok st' ->
     forall p, In p (chain tree node) ->
       is_leaf (fst (nodes p)) = true /\ is_leaf (snd (nodes p)) = true) /\
  (forall p, In p (chain tree node) ->
     is_leaf (fst (nodes p)) && is_leaf (snd (nodes p)) = false ->
     exists m, r = FError m) /\
  (forall m, r = FError m ->
     m = "Portal_EntityFlood: not a leaf"%string \/
     m = "dangling entity"%string /\
     exists n e, AreanodeEntityForLeaf n = Some e /\
                 (List.length (entities st) <= e)%nat).
Proof.
  intros Hap Ha Hrun.
  assert (Hok : forall st', r = Ok st' ->
            forall p, In p (chain tree node) ->
              is_leaf (fst (nodes p)) = true /\ is_leaf (snd (nodes p)) = true).
  { intros st' -> p Hp. destruct fuel as [|fuel]; [discriminate Hrun|].
    rewrite FloodAreas_r_step in Hrun.
    change ((is_leaf node || detail_separator (data node)) &&
            is_areaportal game Q2_CONTENTS_AREAPORTAL node)
      with (areaportal_cluster game Q2_CONTENTS_AREAPORTAL node) in Hrun.
    rewrite Hap, Ha in Hrun. simpl in Hrun.
    eapply flood_portals_leaves; eassumption. }
  split; [exact Hok|]. split.
  - intros p Hp Hleaf. destruct r as [st'|m]; [|exists m; reflexivity].
    destruct (Hok st' eq_refl p Hp) as [H1 H2]. rewrite H1, H2 in Hleaf.
    discriminate Hleaf.
  - intros m ->. eapply FloodAreas_r_error, Hrun.
Qed.

(** ** FloodAreas: where the area-portal leaves end up *)

Lemma same_id_same_node (root a b : node_t) :
  NoDup (subtree_ids root) -> In a (subnodes root) -> In b (subnodes root) ->
  node_id (data a) = node_id (data b) -> a = b.
Proof.
  unfold subtree_ids. induction (subnodes root) as [|x l IH]; intros Hnd Ha Hb E;
    [destruct Ha|].
  simpl in Hnd. apply NoDup_cons in Hnd as [Hnot Hnd].
  destruct Ha as [<-|Ha], Hb as [<-|Hb]; auto.
  - exfalso. apply Hnot. rewrite E. apply list_elem_of_In, in_map_iff. eauto.
  - exfalso. apply Hnot. rewrite <- E. apply list_elem_of_In, in_map_iff. eauto.
Qed.

(** After [FloodAreas], started without areas on a tree of distinct nodes
    whose leaves and chains form a graph: a leaf whose contents are exactly
    the area-portal contents is in the first area recorded for its entity
    (in no area when it has no entity); a leaf that has the area-portal
    bit together with other contents is in no area. *)
Theorem flood_areas_places_area_portal_leaves (U : list node_t) (fuel : nat)
    (leafs : list node_t) (head : node_t) (st st' : flood_state)
    (log' : list areaportal_warning) (d : node_data) :
  portal_graph tree U ->
  (forall l, In l leafs -> In l U /\ is_leaf l = true) ->
  NoDup (subtree_ids head) ->
  node_area st = ∅ ->
  FloodAreas game Q2_CONTENTS_AREAPORTAL tree fuel leafs head st =
    Some (Ok (st', log')) ->
  In (Leaf d) (subnodes head) -> In (Leaf d) U ->
  is_areaportal game Q2_CONTENTS_AREAPORTAL (Leaf d) = true ->
  if native (contents d) =? Q2_CONTENTS_AREAPORTAL then
    match AreanodeEntityForLeaf (Leaf d) with
    | Some e => exists ent, entities st' !! e = Some ent /\
                            area_of st' (Leaf d) = fst (portalareas ent)
    | None => area_of st' (Leaf d) = 0%nat
    end
  else area_of st' (Leaf d) = 0%nat.
Proof.
  intros Hgraph Hleafs Hnd Hempty Hrun Hin HU Hap.
  unfold FloodAreas in Hrun.
  destruct (FindAreas game Q2_CONTENTS_AREAPORTAL tree fuel leafs st)
    as [[st1|m]|] eqn:Hfind; [|discriminate Hrun|discriminate Hrun].
  injection Hrun as Hrun.
  assert (E0 : forall x, area_of st x = 0%nat).
  { intros x. unfold area_of. rewrite Hempty, lookup_empty. reflexivity. }
  assert (Hclosed : areas_closed game Q2_CONTENTS_AREAPORTAL tree U st1).
  { eapply FindAreas_closed; [exact Hgraph | exact Hleafs | | exact Hfind].
    split; [intros x; rewrite E0; lia|].
    split; [intros; apply E0|]. intros x p _ Hx. rewrite E0 in Hx. contradiction. }
  destruct Hclosed as (_ & G3 & _).
  assert (Ha1 : area_of st1 (Leaf d) = 0%nat) by (apply G3; [exact HU | exact Hap]).
  destruct (SetAreaPortalAreas_r_spec Q2_CONTENTS_AREAPORTAL head Hnd _ _ _ _ Hrun)
    as (_ & He & _ & _ & Hch & Hset).
  destruct (Z.eqb_spec (native (contents d)) Q2_CONTENTS_AREAPORTAL) as [Ec|Ec].
  - specialize (Hset d Hin Ec Ha1).
    destruct (AreanodeEntityForLeaf (Leaf d)) as [e|].
    + destruct Hset as (ent & Hent & Harea & _). exists ent.
      rewrite He. auto.
    + apply Hset.
  - destruct (Nat.eq_dec (area_of st' (Leaf d)) (area_of st1 (Leaf d))) as [E|E];
      [rewrite E; exact Ha1|].
    destruct (Hch _ E) as (d1 & Hin1 & Hid & Hc1 & _).
    assert (Leaf d1 = Leaf d) by (eapply same_id_same_node; eassumption).
    congruence.
Qed.

(** [SetAreaPortalAreas_r] over a subtree of distinct nodes changes nothing
    but the areas of the leaves of the subtree that carry no area and whose
    contents are exactly the area-portal contents; such a leaf gets the
    first area recorded for its entity, with a warning when the entity has
    no second area, or keeps area 0, with a warning, when it has no
    entity.  The records of the entities are not written. *)
Theorem set_area_portal_areas_spec (node : node_t) (st : flood_state)
    (log : list areaportal_warning) (st' : flood_state)
    (log' : list areaportal_warning) :
  NoDup (subtree_ids node) ->
  SetAreaPortalAreas_r Q2_CONTENTS_AREAPORTAL node (st, log) = Ok (st', log') ->
  c_areas st' = c_areas st /\ entities st' = entities st /\
  flood_log st' = flood_log st /\
  (exists more, log' = log ++ more) /\
  (forall x, area_of st' x <> area_of st x ->
     exists d, In (Leaf d) (subnodes node) /\ node_id d = node_id (data x) /\
               native (contents d) = Q2_CONTENTS_AREAPORTAL /\
               area_of st x = 0%nat) /\
  (forall d, In (Leaf d) (subnodes node) ->
     native (contents d) = Q2_CONTENTS_AREAPORTAL ->
     area_of st (Leaf d) = 0%nat ->
     match AreanodeEntityForLeaf (Leaf d) with
     | None =>
       area_of st' (Leaf d) = 0%nat /\ In (areaportal_missing (node_id d)) log'
     | Some e =>
       exists ent, entities st !! e = Some ent /\
                   area_of st' (Leaf d) = fst (portalareas ent) /\
                   (snd (portalareas ent) = 0%nat ->
                    In (touches_one_area e (node_id d)) log')
     end).
Proof. intros Hnd Hrun. eapply SetAreaPortalAreas_r_spec; eassumption. Qed.

(** ** The records of the entities and the lumps *)

Lemma bounded_kept_refl (st : flood_state) : bounded_kept st st.
Proof. split; auto. Qed.

Lemma bounded_kept_trans (a b c : flood_state) :
  bounded_kept a b -> bounded_kept b c -> bounded_kept a c.
Proof.
  intros [E1 H1] [E2 H2]. split; [congruence|].
  intros H. rewrite E1 in H2. auto.
Qed.

Lemma bounded_kept_same (st st' : flood_state) :
  c_areas st' = c_areas st -> entities st' = entities st -> bounded_kept st st'.
Proof. intros E1 E2. split; [exact E1|]. rewrite E2. auto. Qed.

Lemma set_portalareas_bounded (st : flood_state) (e : nat) (pa : nat * nat) :
  (fst pa <= c_areas st)%nat -> (snd pa <= c_areas st)%nat ->
  bounded_kept st (set_portalareas st e pa).
Proof.
  intros H0 H1. split; [reflexivity|]. simpl. intros Hall.
  apply Forall_lookup. intros i x Hx.
  destruct (decide (i = e)) as [->|Hne].
  - rewrite list_lookup_alter_eq in Hx.
    destruct (entities st !! e); [|discriminate Hx].
    simpl in Hx. injection Hx as <-. simpl. auto.
  - rewrite list_lookup_alter_ne in Hx by congruence.
    eapply Forall_lookup in Hall; eauto.
Qed.

Lemma touch_areaportal_bounded (node : node_t) (st st' : flood_state) :
  touch_areaportal node st = Ok st' -> bounded_kept st st'.
Proof.
  unfold touch_areaportal.
  destruct (AreanodeEntityForLeaf node) as [e|];
    [|intros [= <-]; apply bounded_kept_same; reflexivity].
  destruct (entities st !! e) as [entity|] eqn:He; [|discriminate].
  destruct (_ || _); [intros [= <-]; apply bounded_kept_refl|].
  destruct (negb (Nat.eqb (snd (portalareas entity)) 0)) eqn:E2;
    [intros [= <-]; apply bounded_kept_same; reflexivity|].
  apply negb_false_iff, Nat.eqb_eq in E2.
  destruct (negb (Nat.eqb (fst (portalareas entity)) 0)) eqn:E1; intros [= <-].
  - split; [reflexivity|]. intros Hall.
    apply (set_portalareas_bounded st e); simpl; [|lia|exact Hall].
    eapply Forall_lookup in Hall; [|exact He]. apply Hall.
  - apply set_portalareas_bounded; simpl; lia.
Qed.

Lemma FloodAreas_r_bounded (fuel : nat) :
  forall node st st',
    FloodAreas_r game Q2_CONTENTS_AREAPORTAL tree fuel node st = Some (Ok st') ->
    bounded_kept st st'.
Proof.
  induction fuel as [|fuel IH]; intros node st st' H; [discriminate|].
  rewrite FloodAreas_r_step in H.
  destruct ((is_leaf node || detail_separator (data node)) &&
            is_areaportal game Q2_CONTENTS_AREAPORTAL node).
  { injection H as H. eapply touch_areaportal_bounded, H. }
  destruct (negb (Nat.eqb (area_of st node) 0)).
  { injection H as <-. apply bounded_kept_refl. }
  eapply (flood_portals_carries game bounded_kept);
    [exact bounded_kept_trans | exact IH | | exact H].
  destruct (is_leaf node); [apply bounded_kept_same; reflexivity|].
  destruct (ApplyArea_r_fields node (set_area st node)) as (E1 & E2 & _).
  apply bounded_kept_same; [rewrite E1 | rewrite E2]; reflexivity.
Qed.

Lemma records_bounded_le (c c' : nat) (ents : list mapentity_t) :
  (c <= c')%nat -> records_bounded c ents -> records_bounded c' ents.
Proof.
  intros Hle H. unfold records_bounded. eapply Forall_impl; [exact H|].
  intros e [H0 H1]. split; lia.
Qed.

Lemma FindAreas_bounded (fuel : nat) (leafs : list node_t) :
  forall st st',
    FindAreas game Q2_CONTENTS_AREAPORTAL tree fuel leafs st = Some (Ok st') ->
    records_bounded (c_areas st) (entities st) ->
    records_bounded (c_areas st') (entities st').
Proof.
  induction leafs as [|leaf rest IH]; intros st st' H Hb.
  - injection H as <-. exact Hb.
  - rewrite FindAreas_cons in H.
    destruct (negb _); [eapply IH; eassumption|].
    destruct (is_areaportal _ _ _); [eapply IH; eassumption|].
    destruct (FloodAreas_r _ _ _ _ _ _) as [[st1|m]|] eqn:Hflood;
      [|discriminate H|discriminate H].
    apply FloodAreas_r_bounded in Hflood as [E1 H1]. simpl in E1, H1.
    apply (IH st1 st' H). rewrite E1. apply H1.
    eapply records_bounded_le; [|exact Hb]. lia.
Qed.

(** The areas that the flood records for an entity are areas that exist,
    and [EmitAreaPortals] lists every area-portal entity for each area it
    bounds: with the other area of its record as the area across. *)
Theorem area_portals_are_emitted_for_their_areas (fuel : nat) (leafs : list node_t)
    (st st' : flood_state) :
  FindAreas game Q2_CONTENTS_AREAPORTAL tree fuel leafs st = Some (Ok st') ->
  records_bounded (c_areas st) (entities st) ->
  Forall (fun ent => record_ordered (portalareas ent)) (entities st) ->
  records_bounded (c_areas st') (entities st') /\
  forall e, In e (entities st') -> areaportalnum e <> 0%nat ->
    (fst (portalareas e) <> 0%nat ->
     In (mk_dareaportal (areaportalnum e) (snd (portalareas e)))
        (dareaportals (EmitAreaPortals (c_areas st') (entities st') (mk_bsp [] [])))) /\
    (snd (portalareas e) <> 0%nat ->
     In (mk_dareaportal (areaportalnum e) (fst (portalareas e)))
        (dareaportals (EmitAreaPortals (c_areas st') (entities st') (mk_bsp [] [])))).
Proof.
  intros Hrun Hb Ho.
  pose proof (FindAreas_bounded fuel leafs st st' Hrun Hb) as Hb'.
  destruct (FindAreas_keeps game Q2_CONTENTS_AREAPORTAL tree fuel leafs st st' Hrun)
    as [_ Ho']. specialize (Ho' Ho).
  split; [exact Hb'|]. intros e He Hnum.
  destruct (EmitAreaPortals_emitted (entities st') (c_areas st'))
    as (_ & _ & _ & _ & _ & _ & _ & Hcomplete).
  pose proof (proj1 (Forall_forall _ _) Hb' e (proj2 (list_elem_of_In _ _) He))
    as [B0 B1].
  pose proof (proj1 (Forall_forall _ _) Ho' e (proj2 (list_elem_of_In _ _) He))
    as Hord.
  split.
  - intros H0. apply (Hcomplete (fst (portalareas e))); [lia|].
    exists e. split; [exact He|]. split; [exact Hnum|].
    unfold areaportal_of. rewrite Nat.eqb_refl. reflexivity.
  - intros H1. apply (Hcomplete (snd (portalareas e))); [lia|].
    exists e. split; [exact He|]. split; [exact Hnum|].
    unfold areaportal_of. destruct (Hord H1) as [_ Hne].
    apply Nat.eqb_neq in Hne. rewrite Hne, Nat.eqb_refl. reflexivity.
Qed.

End FloodRuns.

(** ** EmitAreaPortals: the two lumps *)

(** Started on empty lumps, [EmitAreaPortals] writes one area record per
    area after the record of area 0, and the ranges of the areas tile the
    area-portal lump after its entry 0: the range of an area starts where
    the ranges of the areas before it end. *)
Theorem emit_area_portals_table (c : nat) (ents : list mapentity_t) :
  let r := EmitAreaPortals c ents (mk_bsp [] []) in
  List.length (dareas r) = S c /\
  dareas r !! 0%nat = Some (mk_darea 0 0) /\
  List.length (dareaportals r) = S (list_sum (List.map numareaportals (dareas r))) /\
  forall (i : nat) area, dareas r !! i = Some area -> i <> 0%nat ->
    firstareaportal area = S (list_sum (List.map numareaportals (take i (dareas r)))) /\
    (firstareaportal area + numareaportals area <= List.length (dareaportals r))%nat.
Proof.
  intros r.
  destruct (EmitAreaPortals_emitted ents c) as (H1 & H2 & _ & H4 & _ & H6 & _).
  split; [exact H1|]. split; [exact H4|]. split; [exact H2|].
  intros i area Hi Hne. destruct (H6 i area Hi Hne) as (Hf & Hle & _). auto.
Qed.

(** Started on empty lumps, [EmitAreaPortals] leaves an area-portal lump
    without duplicates, whose entry 0 is the null entry and whose other
    entries are exactly the entries that the area-portal entities give for
    the areas 1 .. [c]. *)
Theorem emit_area_portals_entries (c : nat) (ents : list mapentity_t) :
  let r := EmitAreaPortals c ents (mk_bsp [] []) in
  NoDup (dareaportals r) /\
  dareaportals r !! 0%nat = Some (mk_dareaportal 0 0) /\
  forall dp, In dp (dareaportals r) <->
             dp = mk_dareaportal 0 0 \/
             exists i, (1 <= i <= c)%nat /\ entry_for ents i dp.
Proof.
  intros r.
  destruct (EmitAreaPortals_emitted ents c) as (_ & _ & H3 & _ & H5 & _ & H7 & H8).
  split; [exact H5|]. split; [exact H3|].
  intros dp. split; [apply H7|].
  intros [->|(i & Hi & He)].
  - apply list_elem_of_In, list_elem_of_lookup_2 with (i := 0%nat). exact H3.
  - apply (H8 i dp Hi He).
Qed.

(** The range of an area holds exactly the entries that the area-portal
    entities give for that area and that are not in the lump before the
    range: an entry equal to one written for an earlier area is not
    written again. *)
Theorem emit_area_portals_ranges (c : nat) (ents : list mapentity_t) (i : nat)
    (area : darea_t) (dp : dareaportal_t) :
  let r := EmitAreaPortals c ents (mk_bsp [] []) in
  dareas r !! i = Some area -> i <> 0%nat ->
  (In dp (area_range (dareaportals r) area) <->
   ~ In dp (before_range (dareaportals r) area) /\ entry_for ents i dp).
Proof.
  intros r Hi Hne.
  destruct (EmitAreaPortals_emitted ents c) as (_ & _ & _ & _ & _ & H6 & _).
  destruct (H6 i area Hi Hne) as (_ & _ & Hrange). apply Hrange.
Qed.


(** ** MarkVisibleSides *)

Section MarkVisibleSidesFacts.
Variable game : gamedef_t.
Variable qv_dot : qvec3d -> qvec3d -> fpval.
Variable source : side_ptr -> option nat.
Variable portals_of : node_t -> list nat.

Lemma FindPortalSide_result (p p' : portal_t) (w : list string) :
  FindPortalSide game qv_dot p = Ok (p', w) ->
  (p' = p /\ w = []) \/ (sidefound p' = true /\ onnode p' = onnode p).
Proof.
  unfold FindPortalSide. destruct (contents_are_empty game _).
  - intros [= <- <-]. left. auto.
  - destruct (onnode p) as [on|] eqn:Hon; [|discriminate].
    intros H. apply bind_Ok in H as (st1 & _ & H).
    apply bind_Ok in H as (st2 & _ & H). injection H as <- _.
    right. split; reflexivity.
Qed.

Lemma resolved_onnode (p p' : portal_t) :
  resolved game qv_dot p p' -> onnode p' = onnode p.
Proof.
  unfold resolved. destruct (onnode p) as [on|] eqn:Hon; [|intros ->; exact Hon].
  destruct (sidefound p); [intros ->; exact Hon|].
  intros [w H]. apply FindPortalSide_result in H as [[-> _]|[_ E]]; congruence.
Qed.

(** A second visit changes nothing. *)
Lemma resolved_again (p p' p'' : portal_t) :
  resolved game qv_dot p p' -> resolved game qv_dot p' p'' -> p'' = p'.
Proof.
  intros H1 H2. pose proof (resolved_onnode _ _ H1) as Eon.
  unfold resolved in H1, H2. rewrite Eon in H2.
  destruct (onnode p) as [on|]; [|exact H2].
  destruct (sidefound p) eqn:Hsf.
  - subst p'. rewrite Hsf in H2. exact H2.
  - destruct H1 as [w H1].
    destruct (FindPortalSide_result _ _ _ H1) as [[-> _]|[Hsf' _]].
    + rewrite Hsf in H2. destruct H2 as [w' H2]. congruence.
    + rewrite Hsf' in H2. exact H2.
Qed.

Lemma resolved_self (p : portal_t) : onnode p = None -> resolved game qv_dot p p.
Proof. unfold resolved. intros ->. reflexivity. Qed.

Lemma mark_side_spec (visible : gset nat) (c : option side_ptr) (f : nat) :
  f ∈ mark_side source visible c <->
  f ∈ visible \/ exists s, c = Some s /\ source s = Some f.
Proof.
  unfold mark_side. destruct c as [s|].
  - destruct (source s) as [g|] eqn:Hs.
    + rewrite elem_of_union, elem_of_singleton. split.
      * intros [->|H]; [right; eauto | left; exact H].
      * intros [H|(s' & [= <-] & Hs')]; [right; exact H | left; congruence].
    + split; [auto|]. intros [H|(s' & [= <-] & Hs')]; [exact H | congruence].
  - split; [auto|]. intros [H|(s' & E & _)]; [exact H | discriminate E].
Qed.

Lemma marks_spec (visible : gset nat) (p : portal_t) (f : nat) :
  f ∈ mark_side source (mark_side source visible (fst (portal_sides p)))
        (snd (portal_sides p)) <->
  f ∈ visible \/ exists i c, idx (portal_sides p) i = Some c /\ source c = Some f.
Proof.
  rewrite !mark_side_spec. split.
  - intros [[H|(s & E & Hs)]|(s & E & Hs)]; [left; exact H| |].
    + right. exists false, s. auto.
    + right. exists true, s. auto.
  - intros [H|(i & c & E & Hs)]; [left; left; exact H|].
    destruct i; simpl in E; [right|left; right]; eauto.
Qed.

Lemma marked_start (st : vis_state) : marked game qv_dot source [] st st.
Proof.
  split; [reflexivity|]. split.
  - intros k p Hp. exists p. split; [exact Hp|]. split; [intros []|auto].
  - intros f. split; [auto|]. intros [H|(k & p' & [] & _)]. exact H.
Qed.

Lemma in_snoc (k k' : nat) (ks : list nat) :
  In k' (ks ++ [k]) <-> In k' ks \/ k' = k.
Proof.
  rewrite in_app_iff. simpl. split; intros [H|H]; auto.
  - destruct H as [H|[]]; auto.
Qed.

Lemma in_dec_nat (k : nat) (ks : list nat) : In k ks \/ ~ In k ks.
Proof. destruct (in_dec Nat.eq_dec k ks); auto. Qed.

Lemma visit_portal_marked (ks : list nat) (st0 st st' : vis_state) (k : nat) :
  marked game qv_dot source ks st0 st ->
  visit_portal game qv_dot source st k = Ok st' ->
  marked game qv_dot source (ks ++ [k]) st0 st'.
Proof.
  intros (Hlen & Hports & Hvis) Hrun. unfold visit_portal in Hrun.
  destruct (vs_portals st !! k) as [pc|] eqn:Hk; [|discriminate Hrun].
  assert (H0 : exists p0, vs_portals st0 !! k = Some p0).
  { apply lookup_lt_is_Some. rewrite <- Hlen. eapply lookup_lt_Some, Hk. }
  destruct H0 as [p0 Hp0].
  destruct (Hports k p0 Hp0) as (pc' & Hk' & Hin & Hout).
  rewrite Hk in Hk'. injection Hk' as <-.
  assert (Hnew : forall p'', resolved game qv_dot pc p'' -> resolved game qv_dot p0 p'' /\
                             (In k ks -> p'' = pc)).
  { intros p'' Hr. destruct (in_dec_nat k ks) as [Hi|Hi].
    - pose proof (resolved_again _ _ _ (Hin Hi) Hr) as ->. auto.
    - rewrite <- (Hout Hi). split; [exact Hr | contradiction]. }
  destruct (onnode pc) as [on|] eqn:Hon.
  - assert (Hres : exists p'' w,
              (if sidefound pc then Ok (pc, []) else FindPortalSide game qv_dot pc) =
                Ok (p'', w) /\ resolved game qv_dot pc p'').
    { destruct (sidefound pc) eqn:Hsf.
      - exists pc, []. split; [reflexivity|]. unfold resolved. rewrite Hon, Hsf.
        reflexivity.
      - destruct (FindPortalSide game qv_dot pc) as [[p'' w]|m] eqn:Hf; [|discriminate Hrun].
        exists p'', w. split; [reflexivity|]. unfold resolved. rewrite Hon, Hsf.
        eauto. }
    destruct Hres as (p'' & w & Hcall & Hr). rewrite Hcall, bind_Ok_l in Hrun.
    injection Hrun as <-. destruct (Hnew p'' Hr) as [Hr0 Hsame].
    assert (Hkk : (k < List.length (vs_portals st))%nat) by (eapply lookup_lt_Some, Hk).
    split; [simpl; rewrite length_insert; exact Hlen|]. split.
    + intros k' p Hp. simpl vs_portals.
      destruct (Nat.eq_dec k' k) as [->|Hne].
      * rewrite list_lookup_insert_eq by exact Hkk.
        exists p''. split; [reflexivity|].
        assert (p = p0) by congruence. subst p.
        split; [intros _; exact Hr0|]. intros Hn. exfalso. apply Hn, in_snoc. auto.
      * rewrite list_lookup_insert_ne by congruence.
        destruct (Hports k' p Hp) as (p' & Hp' & Hi & Ho). exists p'.
        split; [exact Hp'|]. split.
        -- intros H. apply in_snoc in H as [H|H]; [auto | contradiction].
        -- intros H. apply Ho. intros Hi'. apply H, in_snoc. auto.
    + intros f. simpl vs_visible. simpl vs_portals. rewrite marks_spec, Hvis. split.
      * intros [[H|(k1 & p1 & Hk1 & Hp1 & Hs)]|H].
        -- left. exact H.
        -- right. exists k1, p1. split; [apply in_snoc; auto|]. split; [|exact Hs].
           destruct (Nat.eq_dec k1 k) as [->|Hne].
           ++ rewrite list_lookup_insert_eq by exact Hkk.
              rewrite (Hsame Hk1). congruence.
           ++ rewrite list_lookup_insert_ne by congruence. exact Hp1.
        -- right. exists k, p''. split; [apply in_snoc; auto|].
           split; [apply list_lookup_insert_eq; exact Hkk|].
           split; [|exact H]. rewrite (resolved_onnode _ _ Hr), Hon. discriminate.
      * intros [H|(k1 & p1 & Hk1 & Hp1 & Hs)]; [left; left; exact H|].
        destruct (Nat.eq_dec k1 k) as [->|Hne].
        -- rewrite list_lookup_insert_eq in Hp1 by exact Hkk. injection Hp1 as <-.
           right. apply Hs.
        -- rewrite list_lookup_insert_ne in Hp1 by congruence.
           apply in_snoc in Hk1 as [Hk1|Hk1]; [|contradiction].
           left. right. exists k1, p1. auto.
  - injection Hrun as <-.
    split; [exact Hlen|]. split.
    + intros k' p Hp. destruct (Hports k' p Hp) as (p' & Hp' & Hi & Ho).
      exists p'. split; [exact Hp'|]. split.
      * intros H. apply in_snoc in H as [H | ->]; [auto|].
        assert (p' = pc) by congruence. assert (p = p0) by congruence. subst.
        apply Hnew. apply resolved_self, Hon.
      * intros H. apply Ho. intros Hi'. apply H, in_snoc. auto.
    + intros f. rewrite Hvis. split.
      * intros [H|(k1 & p1 & Hk1 & Hp1 & Hs)]; [left; exact H|].
        right. exists k1, p1. split; [apply in_snoc; auto | auto].
      * intros [H|(k1 & p1 & Hk1 & Hp1 & Hs)]; [left; exact H|].
        apply in_snoc in Hk1 as [Hk1 | ->]; [right; exists k1, p1; auto|].
        assert (p1 = pc) by congruence. subst p1.
        destruct Hs as [Hs _]. contradiction.
Qed.

Lemma visit_portals_marked (ks : list nat) :
  forall done st0 st st',
    marked game qv_dot source done st0 st ->
    visit_portals game qv_dot source ks st = Ok st' ->
    marked game qv_dot source (done ++ ks) st0 st'.
Proof.
  induction ks as [|k rest IH]; intros done st0 st st' Hm Hrun.
  - injection Hrun as <-. rewrite app_nil_r. exact Hm.
  - simpl in Hrun. apply bind_Ok in Hrun as (st1 & H1 & Hrun).
    change (k :: rest) with ([k] ++ rest). rewrite app_assoc.
    eapply IH; [|exact Hrun]. eapply visit_portal_marked; eassumption.
Qed.

Lemma MarkVisibleSides_r_marked (node : node_t) :
  forall done st0 st st',
    marked game qv_dot source done st0 st ->
    MarkVisibleSides_r game qv_dot source portals_of node st = Ok st' ->
    marked game qv_dot source (done ++ visited game portals_of node) st0 st'.
Proof.
  induction node as [d|d front IHf back IHb]; intros done st0 st st' Hm Hrun.
  - simpl in Hrun. simpl visited.
    destruct (contents_are_empty game (contents d)).
    + injection Hrun as <-. rewrite app_nil_r. exact Hm.
    + eapply visit_portals_marked; eassumption.
  - simpl in Hrun. apply bind_Ok in Hrun as (st1 & H1 & Hrun).
    simpl visited. rewrite app_assoc.
    eapply IHb; [|exact Hrun]. eapply IHf; eassumption.
Qed.

(** [MarkVisibleSides] visits the portals of the chains of the leaves that
    are not empty.  A visited portal that has a node and was not resolved
    is resolved by [FindPortalSide], once; every other portal is as it
    was.  Afterwards the visible faces are the faces that were visible and
    are not faces of the brushes given, together with the faces of the
    sides held by the visited portals that have a node. *)
Theorem mark_visible_sides_spec (tree : tree_t) (brushes : list bspbrush_t)
    (st st' : vis_state) :
  MarkVisibleSides game qv_dot source portals_of tree brushes st = Ok st' ->
  let ks := visited game portals_of (headnode tree) in
  List.length (vs_portals st') = List.length (vs_portals st) /\
  (forall k p, vs_portals st !! k = Some p ->
     exists p', vs_portals st' !! k = Some p' /\
                (In k ks -> resolved game qv_dot p p') /\ (~ In k ks -> p' = p)) /\
  (forall f, f ∈ vs_visible st' <->
     (f ∈ vs_visible st /\ ~ In f (brush_faces source brushes)) \/
     exists k p', In k ks /\ vs_portals st' !! k = Some p' /\ shows source p' f).
Proof.
  intros Hrun ks. unfold MarkVisibleSides in Hrun.
  destruct (MarkVisibleSides_r_marked (headnode tree) [] _ _ _ (marked_start _) Hrun)
    as (Hlen & Hports & Hvis).
  simpl in Hlen, Hports, Hvis. fold ks in Hports, Hvis.
  split; [exact Hlen|]. split; [exact Hports|].
  intros f. rewrite Hvis, elem_of_difference, elem_of_list_to_set, list_elem_of_In.
  reflexivity.
Qed.

(** When no portal is resolved yet, every face that [MarkVisibleSides]
    marks is the source of a side that [FindPortalSide] was offered for a
    visited portal: a side that is not a bevel, of a brush of one of the
    two leaves of the portal, for which the policy generates a face. *)
Theorem mark_visible_sides_marks_offered_faces (tree : tree_t)
    (brushes : list bspbrush_t) (st st' : vis_state) (f : nat) :
  (forall p, In p (vs_portals st) ->
             sidefound p = false /\ portal_sides p = (None, None)) ->
  MarkVisibleSides game qv_dot source portals_of tree brushes st = Ok st' ->
  f ∈ vs_visible st' ->
  (f ∈ vs_visible st /\ ~ In f (brush_faces source brushes)) \/
  exists k p i c,
    In k (visited game portals_of (headnode tree)) /\
    vs_portals st !! k = Some p /\
    source c = Some f /\
    offered game (viscontents_of game p) p i c.
Proof.
  intros Hfresh Hrun Hf. unfold MarkVisibleSides in Hrun.
  destruct (MarkVisibleSides_r_marked (headnode tree) [] _ _ _ (marked_start _) Hrun)
    as (Hlen & Hports & Hvis).
  simpl in Hlen, Hports, Hvis.
  apply Hvis in Hf as [Hf|(k & p' & Hk & Hp' & Hon & i & c & Hc & Hs)].
  { left. rewrite elem_of_difference, elem_of_list_to_set, list_elem_of_In in Hf.
    exact Hf. }
  right.
  assert (H0 : exists p, vs_portals st !! k = Some p).
  { apply lookup_lt_is_Some. rewrite <- Hlen. eapply lookup_lt_Some, Hp'. }
  destruct H0 as [p Hp].
  destruct (Hports k p Hp) as (p'' & Hp'' & Hres & _).
  assert (p'' = p') by congruence. subst p''. specialize (Hres Hk).
  destruct (Hfresh p) as [Hsf Hsides].
  { apply list_elem_of_In. eapply list_elem_of_lookup_2, Hp. }
  pose proof (resolved_onnode _ _ Hres) as Eon.
  unfold resolved in Hres. rewrite Hsf in Hres.
  destruct (onnode p) as [on|]; [|congruence].
  destruct Hres as [w Hfps].
  destruct (contents_are_empty game (viscontents_of game p)) eqn:Hvisc.
  - exfalso. unfold FindPortalSide in Hfps.
    fold (viscontents_of game p) in Hfps. rewrite Hvisc in Hfps.
    injection Hfps as <- _. rewrite Hsides in Hc. destruct i; discriminate Hc.
  - exists k, p, i, c. split; [exact Hk|]. split; [exact Hp|]. split; [exact Hs|].
    destruct (FindPortalSide_offered game qv_dot p p' w Hvisc Hfps) as (_ & _ & _ & _ & Hoff & _).
    apply Hoff, Hc.
Qed.

End MarkVisibleSidesFacts.


(** ** The further properties on the examples *)

Lemma liquid_portal_oriented :
  well_oriented liquid_game (viscontents_of liquid_game liquid_portal) 4 liquid_portal.
Proof.
  intros j b s Hin _ Hs.
  destruct j; simpl in Hin; destruct Hin as [<-|[]];
    vm_compute in Hs; injection Hs as <-; reflexivity.
Qed.

(** The face found for the liquid portal is a face that was offered. *)
Lemma find_portal_side_selects_offered_witness :
  offered liquid_game (viscontents_of liquid_game liquid_portal) liquid_portal false
    (mk_side_ptr W1 W1_face).
Proof.
  destruct (find_portal_side_selects_offered liquid_game double_dot liquid_portal
              (mk_portal (portal_plane liquid_portal) (onnode liquid_portal)
                 (nodes liquid_portal) [] true
                 (Some (mk_side_ptr W1 W1_face), Some (mk_side_ptr W1 W1_face)))
              [] eq_refl eq_refl) as (_ & _ & _ & _ & Hoff & _).
  apply Hoff. reflexivity.
Defined.

(** [FindPortalSide] returns on the liquid portal. *)
Lemma find_portal_side_returns_iff_oriented_witness :
  exists r, FindPortalSide liquid_game double_dot liquid_portal = Ok r.
Proof.
  apply (proj2 (proj1 (find_portal_side_returns_iff_oriented liquid_game double_dot liquid_portal
           (Interior (mk_node_data 0 (mk_contentflags 0 false) 4
                        (mk_qplane3d axis_x 0) false [] [])
              (leaf_of 1 water [W1]) (leaf_of 2 water [W2]))
           eq_refl eq_refl))).
  exact liquid_portal_oriented.
Defined.

Lemma room_box_portals_run :
  snd (MakeHeadnodePortals liquid_game rational_windings rational_boxes 24
         (1 # 10000) positive_plane room_tree 0) = Ok (room_box_portals, 6%nat).
Proof. vm_compute. reflexivity. Qed.

(** The six box portals of the room are at the first six addresses. *)
Lemma headnode_portals_around_the_world_witness :
  List.map bp_id room_box_portals = [0; 2; 4; 1; 3; 5]%nat.
Proof.
  exact (proj1 (proj2 (headnode_portals_around_the_world liquid_game
           rational_windings rational_boxes 24 (1 # 10000) positive_plane
           room_tree 0 room_box_portals 6 room_box_portals_run))).
Defined.

Lemma room_nodes_distinct : NoDup (subtree_ids (headnode room_tree)).
Proof.
  apply (bool_decide_eq_true_1 (NoDup (subtree_ids (headnode room_tree)))).
  vm_compute. reflexivity.
Qed.

Lemma room_outside_apart :
  ~ In (node_id (data (outside_node room_tree))) (subtree_ids (headnode room_tree)).
Proof. simpl. intros [H|[H|[H|[]]]]; discriminate H. Qed.

(** Every portal of the room has a leaf on both sides. *)
Lemma make_tree_portals_link_leaves_witness :
  forallb (fun p => is_leaf (fst (nodes p)) && is_leaf (snd (nodes p)))
    (tree_portals room_final) = true.
Proof.
  apply forallb_forall. intros p Hp.
  destruct (make_tree_portals_link_leaves liquid_game rational_windings
              rational_boxes 24 (1 # 10000) 65536 positive_plane room_tree 0
              room_final (mk_portalstats 4) [] room_nodes_distinct
              room_outside_apart room_run_result) as (_ & _ & Hall & _).
  destruct (Hall p Hp) as (_ & L0 & L1 & _). rewrite L0, L1. reflexivity.
Defined.

Lemma inside_out_run :
  MakeTreePortals liquid_game rational_windings rational_boxes 24 (1 # 10000) 65536
    positive_plane inside_out_tree 0 = FError "portal winding clipped away".
Proof. vm_compute. reflexivity. Qed.

(** The run on the tree with inside-out bounds stops for one of the two
    reasons. *)
Lemma make_tree_portals_aborts_only_for_witness :
  "portal winding clipped away"%string = "portal winding clipped away"%string \/
  "portal winding clipped away"%string = "null parent"%string.
Proof.
  exact (make_tree_portals_aborts_only_for liquid_game rational_windings
           rational_boxes 24 (1 # 10000) 65536 positive_plane inside_out_tree 0
           "portal winding clipped away" room_nodes_distinct room_outside_apart
           inside_out_run).
Defined.

Lemma room_box_portals_linked :
  forall p, In p room_box_portals -> linked room_head p = true.
Proof. apply forallb_In. vm_compute. reflexivity. Qed.

(** The builder returns on the box portals of the room. *)
Lemma portal_builder_never_mislinked_witness :
  exists r, MakeTreePortals_r rational_windings room_head TREE room_box_portals
              (mk_portalstats 0) 6 = Ok r.
Proof.
  exact (proj2 (portal_builder_never_mislinked rational_windings TREE room_head
                  room_box_portals (mk_portalstats 0) 6 room_box_portals_linked)).
Defined.

(** Two build portals between the halls give two portals. *)
Lemma portals_from_buildportals_chains_witness :
  exists tree' new,
    MakePortalsFromBuildportals (FreeTreePortals halls_tree)
      [mk_buildportal 0 zero_plane None (Some (hall 11), Some (hall 12)) [];
       mk_buildportal 1 zero_plane None (Some (hall 12), Some (hall 13)) []] =
      Ok tree' /\
    chain tree' (hall 12) =
      rev (List.filter (touches 12) new) ++ chain (FreeTreePortals halls_tree) (hall 12).
Proof.
  destruct (portals_from_buildportals_chains
              [mk_buildportal 0 zero_plane None (Some (hall 11), Some (hall 12)) [];
               mk_buildportal 1 zero_plane None (Some (hall 12), Some (hall 13)) []]
              (FreeTreePortals halls_tree))
    as (tree' & new & Hrun & _ & _ & _ & _ & _ & Hchain).
  - intros bp [<-|[<-|[]]]; eexists _, _; (split; [reflexivity|]); discriminate.
  - exists tree', new. split; [exact Hrun | apply (Hchain (hall 12))].
Defined.

Lemma room_front_bounds_run :
  CalcTreeBounds_r rational_boxes 65536 room_front (room_final, []) =
  Ok (set_bounds room_final 1
        (mk_aabb3d (mk_qvec3d (1757 # 20) (-88) (-88)) (mk_qvec3d 88 88 88)), []).
Proof. vm_compute. reflexivity. Qed.

(** The bounds pass over the front leaf of the room leaves the portals. *)
Lemma calc_tree_bounds_writes_its_subtree_witness :
  tree_portals
    (fst (set_bounds room_final 1
            (mk_aabb3d (mk_qvec3d (1757 # 20) (-88) (-88)) (mk_qvec3d 88 88 88)),
          @nil string)) =
  tree_portals (fst (room_final, @nil string)).
Proof.
  pose proof (calc_tree_bounds_writes_its_subtree rational_boxes 65536
                room_front (room_final, [])
                (set_bounds room_final 1
                   (mk_aabb3d (mk_qvec3d (1757 # 20) (-88) (-88)) (mk_qvec3d 88 88 88)),
                 []) room_front_bounds_run) as (_ & H & _).
  exact H.
Defined.

(** The first portal of the room is a piece of the box: the vis flood does
    not pass. *)
Lemma vis_flood_stops_at_the_outside_witness :
  match tree_portals room_final with
  | p :: _ => Portal_VisFlood liquid_game (fun _ _ _ _ => true) true true p = false
  | [] => False
  end.
Proof.
  destruct (tree_portals room_final) as [|p rest] eqn:Hp;
    [vm_compute in Hp; discriminate Hp|].
  assert (Hin : In p (tree_portals room_final)) by (rewrite Hp; left; reflexivity).
  pose proof Hp as Hp'.
  destruct (vis_flood_stops_at_the_outside liquid_game rational_windings
              rational_boxes 24 (1 # 10000) 65536 positive_plane
              (fun _ _ _ _ => true) true true room_tree 0
              room_final (mk_portalstats 4) [] p room_nodes_distinct
              room_outside_apart room_run_result Hin) as [_ Hvis].
  apply Hvis. left. vm_compute in Hp'. injection Hp' as <- _.
  vm_compute. reflexivity.
Defined.

Lemma flood_closed_check (tree : tree_t) (U : list nat) :
  forallb (fun kv =>
             forallb (fun p =>
                        existsb (Nat.eqb (node_id (data (fst (nodes p))))) U &&
                        existsb (Nat.eqb (node_id (data (snd (nodes p))))) U)
               (snd kv))
    (map_to_list (node_portals tree)) = true ->
  flood_closed tree U.
Proof.
  intros H n p Hp. unfold chain in Hp.
  destruct (node_portals tree !! node_id (data n)) as [l|] eqn:E; [|destruct Hp].
  simpl in Hp. apply elem_of_map_to_list, list_elem_of_In in E.
  pose proof (forallb_In _ _ H _ E) as Hl. simpl in Hl.
  pose proof (forallb_In _ _ Hl _ Hp) as Hq.
  apply andb_true_iff in Hq as [H0 H1].
  apply existsb_exists in H0 as (x & Hx & E0), H1 as (y & Hy & E1).
  apply Nat.eqb_eq in E0, E1. subst. auto.
Qed.

(** The flood of the first hall returns. *)
Lemma flood_areas_r_returns_witness :
  exists r, FloodAreas_r liquid_game Q2_AREAPORTAL halls_tree 6 (hall 11)
              (mk_flood_state 1 [mk_mapentity (0%nat, 0%nat) 1] ∅ []) = Some r.
Proof.
  apply (flood_areas_r_returns liquid_game Q2_AREAPORTAL halls_tree
           [11; 12; 13; 14; 15]%nat).
  - apply flood_closed_check. vm_compute. reflexivity.
  - discriminate.
  - left. reflexivity.
  - vm_compute. lia.
Defined.

Lemma halls_graph : portal_graph halls_tree halls.
Proof.
  split.
  - intros a b Ha Hb E.
    repeat (destruct Ha as [<-|Ha]; [|]); try destruct Ha;
      repeat (destruct Hb as [<-|Hb]; [|]); try destruct Hb;
      first [reflexivity | discriminate E].
  - intros n p Hn Hp.
    repeat (destruct Hn as [<-|Hn]; [|]); try destruct Hn;
      vm_compute in Hp;
      repeat (destruct Hp as [<-|Hp]; [|]); try destruct Hp;
      (split; [vm_compute; auto 10|]); (split; [vm_compute; auto 10 | reflexivity]).
Qed.

Lemma halls_leaves : forall l, In l halls -> In l halls /\ is_leaf l = true.
Proof.
  intros l Hl. split; [exact Hl|].
  repeat (destruct Hl as [<-|Hl]; [reflexivity|]). destruct Hl.
Qed.

Lemma halls_flood_run :
  exists st', FindAreas liquid_game Q2_AREAPORTAL halls_tree 10 halls halls_start =
                Some (Ok st') /\
              c_areas st' = 3%nat /\
              entities st' = [mk_mapentity (1%nat, 2%nat) 1].
Proof. eexists. split; [vm_compute; reflexivity|]. split; reflexivity. Qed.



(** The flood of the hall beside the cluster aborts on the portal to the
    cluster. *)
Lemma flood_returns_over_leaves_only_witness :
  (forall st', @FError flood_state "Portal_EntityFlood: not a leaf" = Ok st' ->
     forall p, In p (chain cluster_tree (hall 11)) ->
       is_leaf (fst (nodes p)) = true /\ is_leaf (snd (nodes p)) = true) /\
  (forall p, In p (chain cluster_tree (hall 11)) ->
     is_leaf (fst (nodes p)) && is_leaf (snd (nodes p)) = false ->
     exists m, @FError flood_state "Portal_EntityFlood: not a leaf" = FError m) /\
  (forall m, @FError flood_state "Portal_EntityFlood: not a leaf" = FError m ->
     m = "Portal_EntityFlood: not a leaf"%string \/
     m = "dangling entity"%string /\
     exists n e, AreanodeEntityForLeaf n = Some e /\
                 (List.length (entities (mk_flood_state 1 [] ∅ [])) <= e)%nat).
Proof.
  assert (Ha : area_of (mk_flood_state 1 [] ∅ []) (hall 11) = 0%nat)
    by (vm_compute; reflexivity).
  assert (Hrun : FloodAreas_r liquid_game Q2_AREAPORTAL cluster_tree 3 (hall 11)
                   (mk_flood_state 1 [] ∅ []) =
                 Some (FError "Portal_EntityFlood: not a leaf"))
    by (vm_compute; reflexivity).
  exact (flood_returns_over_leaves_only liquid_game Q2_AREAPORTAL cluster_tree 3
           (hall 11) (mk_flood_state 1 [] ∅ [])
           (FError "Portal_EntityFlood: not a leaf") eq_refl Ha Hrun).
Defined.

Lemma halls_areas_run :
  exists st' log', halls_areas = Some (Ok (st', log')) /\
                   entities st' = [mk_mapentity (1%nat, 2%nat) 1].
Proof. eexists _, _. split; [vm_compute; reflexivity | reflexivity]. Qed.

(** The door of the halls ends up in the first area of its entity. *)
Lemma flood_areas_places_area_portal_leaves_witness :
  exists st' log' ent,
    halls_areas = Some (Ok (st', log')) /\
    entities st' !! 0%nat = Some ent /\
    area_of st' door = fst (portalareas ent).
Proof.
  destruct halls_areas_run as (st' & log' & Hrun & _).
  pose proof (flood_areas_places_area_portal_leaves liquid_game Q2_AREAPORTAL
                halls_tree halls 10 halls door halls_start st' log' (data door)
                halls_graph halls_leaves) as H.
  specialize (H (NoDup_singleton _) eq_refl Hrun (or_introl eq_refl)).
  assert (Hdoor : In (Leaf (data door)) halls) by (simpl; auto 10).
  specialize (H Hdoor eq_refl). simpl in H. destruct H as (ent & H1 & H2).
  exists st', log', ent. auto.
Defined.

Lemma door_pass_run :
  exists st' log',
    SetAreaPortalAreas_r Q2_AREAPORTAL door
      (mk_flood_state 2 [mk_mapentity (1%nat, 0%nat) 1] ∅ [], []) = Ok (st', log') /\
    log' = [touches_one_area 0 15].
Proof. eexists _, _. split; [vm_compute; reflexivity | reflexivity]. Qed.

(** The door of an entity that was reached from one area only. *)
Lemma set_area_portal_areas_spec_witness :
  exists st' log',
    SetAreaPortalAreas_r Q2_AREAPORTAL door
      (mk_flood_state 2 [mk_mapentity (1%nat, 0%nat) 1] ∅ [], []) = Ok (st', log') /\
    entities st' = [mk_mapentity (1%nat, 0%nat) 1].
Proof.
  destruct door_pass_run as (st' & log' & Hrun & _).
  exists st', log'. split; [exact Hrun|].
  exact (proj1 (proj2 (set_area_portal_areas_spec Q2_AREAPORTAL door _ _ st' log'
                         (NoDup_singleton _) Hrun))).
Defined.

(** The range of area 2 holds the entries of both entities. *)
Lemma emit_area_portals_ranges_witness :
  In (mk_dareaportal 2 3)
     (area_range (dareaportals (EmitAreaPortals 3 three_areas (mk_bsp [] [])))
        (mk_darea 2 2)).
Proof.
  apply (proj2 (emit_area_portals_ranges 3 three_areas 2 (mk_darea 2 2)
                  (mk_dareaportal 2 3) eq_refl (Nat.neq_succ_0 1))).
  split.
  - vm_compute. intros [H|[H|[]]]; discriminate H.
  - exists (mk_mapentity (2%nat, 3%nat) 2).
    split; [right; left; reflexivity|]. split; [discriminate | reflexivity].
Defined.

Lemma pond_marked_run :
  exists st', pond_marked = Ok st' /\ elements (vs_visible st') = [7; 0]%nat.
Proof. eexists. split; [vm_compute; reflexivity | reflexivity]. Qed.

(** The pass over the pond keeps its one portal. *)
Lemma mark_visible_sides_spec_witness :
  exists st', pond_marked = Ok st' /\ List.length (vs_portals st') = 1%nat.
Proof.
  destruct pond_marked_run as (st' & Hrun & _).
  exists st'. split; [exact Hrun|].
  exact (proj1 (mark_visible_sides_spec liquid_game double_dot face_of pond_chain pond_tree
                  [W1; W2] _ st' Hrun)).
Defined.

(** The entity of the door is listed for area 1 with area 2 across. *)
Lemma area_portals_are_emitted_for_their_areas_witness :
  exists st', FindAreas liquid_game Q2_AREAPORTAL halls_tree 10 halls halls_start =
                Some (Ok st') /\
              In (mk_dareaportal 1 2)
                 (dareaportals (EmitAreaPortals (c_areas st') (entities st')
                                  (mk_bsp [] []))).
Proof.
  destruct halls_flood_run as (st' & Hrun & Hc & Hents).
  exists st'. split; [exact Hrun|].
  destruct (area_portals_are_emitted_for_their_areas liquid_game Q2_AREAPORTAL
              halls_tree 10 halls halls_start st' Hrun) as [_ Hall].
  - repeat constructor.
  - constructor; [|constructor]. intros H. destruct (H eq_refl).
  - apply (Hall (mk_mapentity (1%nat, 2%nat) 1)).
    + rewrite Hents. left. reflexivity.
    + discriminate.
    + discriminate.
Defined.

(** The face marked in the pond is a face of the first water brush. *)
Lemma mark_visible_sides_marks_offered_faces_witness :
  exists st', pond_marked = Ok st' /\
    ((0%nat ∈ vs_visible (mk_vis_state [liquid_portal] {[ 7%nat ]} []) /\
      ~ In 0%nat (brush_faces face_of [W1; W2])) \/
     exists k p i c,
       In k (visited liquid_game pond_chain (headnode pond_tree)) /\
       vs_portals (mk_vis_state [liquid_portal] {[ 7%nat ]} []) !! k = Some p /\
       face_of c = Some 0%nat /\
       offered liquid_game (viscontents_of liquid_game p) p i c).
Proof.
  destruct pond_marked_run as (st' & Hrun & Hel).
  exists st'. split; [exact Hrun|].
  assert (Hclean : forall p, In p (vs_portals (mk_vis_state [liquid_portal] {[ 7%nat ]} [])) ->
            sidefound p = false /\ portal_sides p = (None, None)).
  { intros p [<-|[]]. split; reflexivity. }
  assert (Hin : 0%nat ∈ vs_visible st').
  { apply elem_of_elements. rewrite Hel. apply list_elem_of_In. right. left. reflexivity. }
  exact (mark_visible_sides_marks_offered_faces liquid_game double_dot face_of pond_chain
           pond_tree [W1; W2] (mk_vis_state [liquid_portal] {[ 7%nat ]} []) st' 0%nat
           Hclean Hrun Hin).
Defined.
